(** * First-passage time densities of drift-diffusion models

    A shallow embedding of [ddm_fpt_lib.c] and the verification of its
    specification.

    Conventions of the embedding.

    - [double] arithmetic is an interface, [DoubleOps]: the program text
      is translated once, for every interpretation of the operations.
      Two interpretations are given.  [R_ops] reads the operations as
      the exact operations on real numbers (no rounding, no overflow, no
      NaN); it is the reading under which numerical identities are
      proved.  [float_ops] reads them as IEEE 754 binary64 operations on
      Rocq's primitive floats, the functions of [math.h] that Rocq does
      not provide ([exp], [log], [sin], [pow]) being taken as a
      parameter; it is used to run the code and for the properties that
      do not depend on what those functions compute.
    - [int] is [Z].  No loop counter of the solvers exceeds [k_max]; the
      counters of the series are unbounded integers, the signed overflow
      of [int] not being modelled.
    - Memory is explicit: scratch arrays live in a heap of blocks,
      [malloc] follows a script that says which calls fail, and every
      access is checked.  A null or out-of-range access, a use after
      [free] or a read of a cell never written is undefined behaviour of
      the C program and ends the run with [Undefined].
    - [assert] failing ends the run with [Aborted]; the [while (1)] loops
      of the series take fuel and end with [OutOfFuel] when it runs out. *)

From Stdlib Require Import Floats.
From Stdlib Require Import ZArith List Bool Lia Reals Lra.
Import ListNotations.

Set Implicit Arguments.
Set Warnings "-inexact-float".

(** ** The arithmetic of [double] *)

Class DoubleOps (D : Type) : Type := {
  d_of_int : Z -> D;          (* conversion from int; the literals 0.0, 1.0, 2.0 *)
  d_to_int : D -> Z;          (* the cast (int) *)
  d_half : D;                 (* the literal 0.5 *)
  d_three_halves : D;         (* the literal 1.5 *)
  d_series_acc : D;           (* the literal 1e-29 *)
  d_pi : D;                   (* the literal 3.14159265358979323846 *)
  d_add : D -> D -> D;
  d_sub : D -> D -> D;
  d_mul : D -> D -> D;
  d_div : D -> D -> D;
  d_neg : D -> D;
  d_lt : D -> D -> bool;
  d_le : D -> D -> bool;
  d_eq : D -> D -> bool;
  d_sqrt : D -> D;
  d_exp : D -> D;
  d_log : D -> D;
  d_sin : D -> D;
  d_pow : D -> D -> D;
  d_fabs : D -> D;
  d_floor : D -> D
}.

Declare Scope dbl_scope.
Delimit Scope dbl_scope with D.
Notation "# z" := (d_of_int z%Z) (at level 5, format "# z") : dbl_scope.
Infix "+" := d_add : dbl_scope.
Infix "-" := d_sub : dbl_scope.
Infix "*" := d_mul : dbl_scope.
Infix "/" := d_div : dbl_scope.
Notation "- x" := (d_neg x) : dbl_scope.
Notation "x <? y" := (d_lt x y) : dbl_scope.
Notation "x >? y" := (d_lt y x) : dbl_scope.
Notation "x <=? y" := (d_le x y) : dbl_scope.
Notation "x >=? y" := (d_le y x) : dbl_scope.
Notation "x =? y" := (d_eq x y) : dbl_scope.

(** *** Exact real arithmetic *)

Definition Rltb (x y : R) : bool := if Rlt_dec x y then true else false.
Definition Rleb (x y : R) : bool := if Rle_dec x y then true else false.
Definition Reqb (x y : R) : bool := if Req_dec_T x y then true else false.

(** Truncation toward zero, as the cast to [int] does. *)
Definition Rtrunc (x : R) : Z :=
  if Rlt_dec x 0 then (- Int_part (- x))%Z else Int_part x.

#[export] Instance R_ops : DoubleOps R := {|
  d_of_int := IZR;
  d_to_int := Rtrunc;
  d_half := (5 / 10)%R;
  d_three_halves := (15 / 10)%R;
  d_series_acc := (/ 10 ^ 29)%R;
  d_pi := (314159265358979323846 / 10 ^ 20)%R;
  d_add := Rplus;
  d_sub := Rminus;
  d_mul := Rmult;
  d_div := Rdiv;
  d_neg := Ropp;
  d_lt := Rltb;
  d_le := Rleb;
  d_eq := Reqb;
  d_sqrt := sqrt;
  d_exp := exp;
  d_log := ln;
  d_sin := sin;
  d_pow := Rpower;
  d_fabs := Rabs;
  d_floor := fun x => IZR (Int_part x)
|}.

(** *** IEEE 754 binary64 arithmetic *)

(** The functions of [math.h] that have no primitive counterpart. *)
Record libm : Type := {
  m_exp : float -> float;
  m_log : float -> float;
  m_sin : float -> float;
  m_pow : float -> float -> float
}.

Definition float_of_Z (z : Z) : float :=
  match z with
  | Z0 => 0%float
  | Zpos p => PrimFloat.of_uint63 (Uint63.of_Z (Zpos p))
  | Zneg p => PrimFloat.opp (PrimFloat.of_uint63 (Uint63.of_Z (Zpos p)))
  end.

(** The integer part of a finite float, rounded toward minus infinity
    ([down = true]) or toward zero. *)
Definition float_int_part (down : bool) (x : float) : option Z :=
  match Prim2SF x with
  | S754_zero _ => Some 0%Z
  | S754_finite s m e =>
      let q := (if (0 <=? e)%Z then Zpos m * 2 ^ e else Zpos m / 2 ^ (- e))%Z in
      let exact := (if (0 <=? e)%Z then true else (Zpos m mod 2 ^ (- e) =? 0)%Z) in
      Some (if s then (if down && negb exact then - q - 1 else - q)%Z else q)
  | _ => None
  end.

Definition float_floor (x : float) : float :=
  match Prim2SF x with
  | S754_finite _ _ e =>
      if (0 <=? e)%Z then x
      else match float_int_part true x with
           | Some z => if (z =? 0)%Z then (if PrimFloat.ltb x 0 then (-0)%float else 0%float)
                       else float_of_Z z
           | None => x
           end
  | _ => x
  end.

Definition float_to_int (x : float) : Z :=
  match float_int_part false x with Some z => z | None => 0%Z end.

Definition float_ops (lm : libm) : DoubleOps float := {|
  d_of_int := float_of_Z;
  d_to_int := float_to_int;
  d_half := 0.5%float;
  d_three_halves := 1.5%float;
  d_series_acc := 1e-29%float;
  d_pi := 3.14159265358979323846%float;
  d_add := PrimFloat.add;
  d_sub := PrimFloat.sub;
  d_mul := PrimFloat.mul;
  d_div := PrimFloat.div;
  d_neg := PrimFloat.opp;
  d_lt := PrimFloat.ltb;
  d_le := PrimFloat.leb;
  d_eq := PrimFloat.eqb;
  d_sqrt := PrimFloat.sqrt;
  d_exp := m_exp lm;
  d_log := m_log lm;
  d_sin := m_sin lm;
  d_pow := m_pow lm;
  d_fabs := PrimFloat.abs;
  d_floor := float_floor
|}.

(** ** Memory, undefined behaviour and the monad of C computations *)

Fixpoint upd {A : Type} (l : list A) (n : nat) (x : A) : list A :=
  match l, n with
  | [], _ => []
  | _ :: t, O => x :: t
  | h :: t, S n' => h :: upd t n' x
  end.

Definition in_bounds (i : Z) (n : nat) : bool :=
  ((0 <=? i) && (i <? Z.of_nat n))%Z.

(** What the C standard leaves undefined and the code can run into. *)
Inductive fault : Type :=
| NullPointer                (* access through a null pointer *)
| OutOfBounds (i : Z)        (* index [i] outside the array *)
| Uninitialised (i : Z)      (* read of a cell never written *)
| Dangling.                  (* access to or release of a freed block *)

Section Memory.
Context {D : Type}.

(** A block obtained from [malloc]: its cells hold no value until
    they are written. *)
Record block : Type := Block { b_live : bool; b_cells : list (option D) }.

(** A pointer to the first cell of a block, or NULL. *)
Definition ptr : Type := option nat.

Definition is_null (p : ptr) : bool :=
  match p with None => true | Some _ => false end.

(** The heap of scratch blocks, the two output arrays of the caller
    and the outcomes of the calls of [malloc] to come ([false]: the
    call returns NULL; past the end of the script [malloc] succeeds). *)
Record state : Type := State {
  heap : list block;
  st_g1 : list D;
  st_g2 : list D;
  alloc_script : list bool
}.

Inductive outcome (A : Type) : Type :=
| Ok (a : A) (s : state)
| Undefined (f : fault)
| Aborted
| OutOfFuel.
Arguments Undefined {A} f.
Arguments Aborted {A}.
Arguments OutOfFuel {A}.

Definition M (A : Type) : Type := state -> outcome A.

Definition ret {A : Type} (a : A) : M A := fun s => Ok a s.

Definition bind {A B : Type} (m : M A) (k : A -> M B) : M B :=
  fun s =>
    match m s with
    | Ok a s' => k a s'
    | Undefined f => Undefined f
    | Aborted => Aborted
    | OutOfFuel => OutOfFuel
    end.

Definition assert_ (b : bool) : M unit :=
  fun s => if b then Ok tt s else Aborted.

Definition lift_fuel {A : Type} (o : option A) : M A :=
  fun s => match o with Some a => Ok a s | None => OutOfFuel end.

Definition malloc (n : Z) : M ptr :=
  fun s =>
    let fresh := Block true (repeat None (Z.to_nat n)) in
    match alloc_script s with
    | false :: rest => Ok None (State (heap s) (st_g1 s) (st_g2 s) rest)
    | true :: rest =>
        Ok (Some (length (heap s)))
           (State (heap s ++ [fresh]) (st_g1 s) (st_g2 s) rest)
    | [] =>
        Ok (Some (length (heap s)))
           (State (heap s ++ [fresh]) (st_g1 s) (st_g2 s) [])
    end.

Definition free (p : ptr) : M unit :=
  fun s =>
    match p with
    | None => Ok tt s
    | Some b =>
        match nth_error (heap s) b with
        | Some (Block true cells) =>
            Ok tt (State (upd (heap s) b (Block false cells))
                         (st_g1 s) (st_g2 s) (alloc_script s))
        | _ => Undefined Dangling
        end
    end.

Definition load (p : ptr) (i : Z) : M D :=
  fun s =>
    match p with
    | None => Undefined NullPointer
    | Some b =>
        match nth_error (heap s) b with
        | Some (Block true cells) =>
            if in_bounds i (length cells) then
              match nth_error cells (Z.to_nat i) with
              | Some (Some v) => Ok v s
              | _ => Undefined (Uninitialised i)
              end
            else Undefined (OutOfBounds i)
        | _ => Undefined Dangling
        end
    end.

Definition store (p : ptr) (i : Z) (v : D) : M unit :=
  fun s =>
    match p with
    | None => Undefined NullPointer
    | Some b =>
        match nth_error (heap s) b with
        | Some (Block true cells) =>
            if in_bounds i (length cells) then
              Ok tt (State (upd (heap s) b
                               (Block true (upd cells (Z.to_nat i) (Some v))))
                           (st_g1 s) (st_g2 s) (alloc_script s))
            else Undefined (OutOfBounds i)
        | _ => Undefined Dangling
        end
    end.

(** Read of an input array of the caller. *)
Definition rd (a : list D) (i : Z) : M D :=
  fun s =>
    if in_bounds i (length a) then
      match nth_error a (Z.to_nat i) with
      | Some v => Ok v s
      | None => Undefined (OutOfBounds i)
      end
    else Undefined (OutOfBounds i).

(** The output arrays [g1] and [g2]. *)
Definition get_g1 (i : Z) : M D := fun s => rd (st_g1 s) i s.
Definition get_g2 (i : Z) : M D := fun s => rd (st_g2 s) i s.

Definition set_g1 (i : Z) (v : D) : M unit :=
  fun s =>
    if in_bounds i (length (st_g1 s)) then
      Ok tt (State (heap s) (upd (st_g1 s) (Z.to_nat i) v) (st_g2 s)
                   (alloc_script s))
    else Undefined (OutOfBounds i).

Definition set_g2 (i : Z) (v : D) : M unit :=
  fun s =>
    if in_bounds i (length (st_g2 s)) then
      Ok tt (State (heap s) (st_g1 s) (upd (st_g2 s) (Z.to_nat i) v)
                   (alloc_script s))
    else Undefined (OutOfBounds i).

(** [for (i = lo; i < hi; ++i) body], the variables the body assigns
    being threaded through as [a]. *)
Fixpoint for_from {A : Type} (n : nat) (i : Z) (body : Z -> A -> M A)
  (a : A) : M A :=
  match n with
  | O => ret a
  | S n' => bind (body i a) (for_from n' (i + 1) body)
  end.

Definition For {A : Type} (lo hi : Z) (body : Z -> A -> M A) (a : A) : M A :=
  for_from (Z.to_nat (hi - lo)) lo body a.

(** The blocks still allocated. *)
Definition live_blocks (s : state) : list block :=
  filter b_live (heap s).
End Memory.

Arguments block D : clear implicits.
Arguments state D : clear implicits.
Arguments outcome D A : clear implicits.
Arguments M D A : clear implicits.
Arguments Undefined {D A} f.
Arguments Aborted {D A}.
Arguments OutOfFuel {D A}.

Declare Scope c_scope.
Delimit Scope c_scope with C.
Notation "x <- m ;; k" := (bind m (fun x => k))
  (at level 61, m at next level, right associativity) : c_scope.
Notation "' p <- m ;; k" := (bind m (fun x => let 'p := x in k))
  (at level 61, p pattern, m at next level, right associativity) : c_scope.
Notation "m ;; k" := (bind m (fun _ => k))
  (at level 61, right associativity) : c_scope.

(** ** The program *)

Section Program.
Context {D : Type} {ops : DoubleOps D}.
Local Open Scope dbl_scope.
Local Open Scope c_scope.
Local Abbreviation sqrt := d_sqrt.
Local Abbreviation exp := d_exp.
Local Abbreviation log := d_log.
Local Abbreviation sin := d_sin.
Local Abbreviation pow := d_pow.
Local Abbreviation fabs := d_fabs.
Local Abbreviation floor := d_floor.

(** The macros of the file. *)
Definition MAX (a b : D) : D := if a >? b then a else b.
Definition PI : D := d_pi.
Definition TWOPI : D := #2 * PI.
Definition PISQR : D := PI * PI.
Definition SERIES_ACC : D := d_series_acc.

(** *** ddm_fpt_full *)

(** Lines 68 to 78: cumulative mu and sig2. *)
Definition ddm_fpt_full_cumulate (mu sig2 : list D) (delta_t : D) (k_max : Z)
  (cum_mu cum_sig2 : ptr) : M D unit :=
  mu_0 <- rd mu 0 ;;
  let curr_cum_mu := delta_t * mu_0 in
  store cum_mu 0 curr_cum_mu ;;
  sig2_0 <- rd sig2 0 ;;
  let curr_cum_sig2 := delta_t * sig2_0 in
  store cum_sig2 0 curr_cum_sig2 ;;
  For 1 k_max (fun j '(curr_cum_mu, curr_cum_sig2) =>
    mu_j <- rd mu j ;;
    let curr_cum_mu := curr_cum_mu + delta_t * mu_j in
    store cum_mu j curr_cum_mu ;;
    sig2_j <- rd sig2 j ;;
    let curr_cum_sig2 := curr_cum_sig2 + delta_t * sig2_j in
    store cum_sig2 j curr_cum_sig2 ;;
    ret (curr_cum_mu, curr_cum_sig2)) (curr_cum_mu, curr_cum_sig2) ;;
  ret tt.

(** Lines 80 to 134: fill up g1 and g2 recursively. *)
Definition ddm_fpt_full_fill (mu sig2 b_lo b_up b_lo_deriv b_up_deriv : list D)
  (delta_t : D) (k_max : Z) (cum_mu cum_sig2 : ptr) : M D unit :=
  let sqrt_2_pi := #1 / sqrt (#2 * PI) in
  let delta_t_sqrt_2_pi := delta_t * sqrt_2_pi in
  For 0 k_max (fun k (_ : unit) =>
    sig2_k <- rd sig2 k ;;
    b_up_k <- rd b_up k ;;
    b_lo_k <- rd b_lo k ;;
    cum_mu_k <- load cum_mu k ;;
    cum_sig2_k <- load cum_sig2 k ;;
    let sqrt_cum_sig2_k := sqrt cum_sig2_k in
    b_up_deriv_at_k <- rd b_up_deriv k ;;
    mu_k <- rd mu k ;;
    let b_up_deriv_k := b_up_deriv_at_k - mu_k in
    b_lo_deriv_at_k <- rd b_lo_deriv k ;;
    let b_lo_deriv_k := b_lo_deriv_at_k - mu_k in
    let g1_k := - sqrt_2_pi / sqrt_cum_sig2_k *
                exp (- d_half * (b_up_k - cum_mu_k) * (b_up_k - cum_mu_k) /
                     cum_sig2_k) *
                (b_up_deriv_k - sig2_k * (b_up_k - cum_mu_k) / cum_sig2_k) in
    let g2_k := sqrt_2_pi / sqrt_cum_sig2_k *
                exp (- d_half * (b_lo_k - cum_mu_k) * (b_lo_k - cum_mu_k) /
                     cum_sig2_k) *
                (b_lo_deriv_k - sig2_k * (b_lo_k - cum_mu_k) / cum_sig2_k) in
    '(g1_k, g2_k) <- For 0 k (fun j '(g1_k, g2_k) =>
      cum_sig2_j <- load cum_sig2 j ;;
      let cum_sig2_diff_j := cum_sig2_k - cum_sig2_j in
      let sqrt_cum_sig2_diff_j := sqrt cum_sig2_diff_j in
      cum_mu_j <- load cum_mu j ;;
      let cum_mu_diff_j := cum_mu_j - cum_mu_k in
      b_up_j <- rd b_up j ;;
      b_lo_j <- rd b_lo j ;;
      let b_up_k_up_j_diff := b_up_k - b_up_j + cum_mu_diff_j in
      let b_up_k_lo_j_diff := b_up_k - b_lo_j + cum_mu_diff_j in
      let b_lo_k_up_j_diff := b_lo_k - b_up_j + cum_mu_diff_j in
      let b_lo_k_lo_j_diff := b_lo_k - b_lo_j + cum_mu_diff_j in
      g1_j <- get_g1 j ;;
      g2_j <- get_g2 j ;;
      let g1_k := g1_k + delta_t_sqrt_2_pi / sqrt_cum_sig2_diff_j *
                  (g1_j * exp (- d_half * b_up_k_up_j_diff * b_up_k_up_j_diff /
                               cum_sig2_diff_j) *
                   (b_up_deriv_k -
                    sig2_k * b_up_k_up_j_diff / cum_sig2_diff_j) +
                   g2_j * exp (- d_half * b_up_k_lo_j_diff * b_up_k_lo_j_diff /
                               cum_sig2_diff_j) *
                   (b_up_deriv_k -
                    sig2_k * b_up_k_lo_j_diff / cum_sig2_diff_j)) in
      let g2_k := g2_k - delta_t_sqrt_2_pi / sqrt_cum_sig2_diff_j *
                  (g1_j * exp (- d_half * b_lo_k_up_j_diff * b_lo_k_up_j_diff /
                               cum_sig2_diff_j) *
                   (b_lo_deriv_k -
                    sig2_k * b_lo_k_up_j_diff / cum_sig2_diff_j) +
                   g2_j * exp (- d_half * b_lo_k_lo_j_diff * b_lo_k_lo_j_diff /
                               cum_sig2_diff_j) *
                   (b_lo_deriv_k -
                    sig2_k * b_lo_k_lo_j_diff / cum_sig2_diff_j)) in
      ret (g1_k, g2_k)) (g1_k, g2_k) ;;
    set_g1 k (MAX g1_k #0) ;;
    set_g2 k (MAX g2_k #0) ;;
    ret tt) tt.

(** The arrays passed in are lists, so the non-null conjuncts of the
    assertion hold by construction; the numeric ones are checked. *)
Definition ddm_fpt_full (mu sig2 b_lo b_up b_lo_deriv b_up_deriv : list D)
  (delta_t : D) (k_max : Z) : M D Z :=
  assert_ ((delta_t >? #0) && (k_max >? 0)%Z) ;;
  cum_mu <- malloc k_max ;;
  cum_sig2 <- malloc k_max ;;
  if is_null cum_mu || is_null cum_sig2 then
    free cum_mu ;;
    free cum_sig2 ;;
    ret (-1)%Z
  else
    ddm_fpt_full_cumulate mu sig2 delta_t k_max cum_mu cum_sig2 ;;
    ddm_fpt_full_fill mu sig2 b_lo b_up b_lo_deriv b_up_deriv delta_t k_max
      cum_mu cum_sig2 ;;
    free cum_mu ;;
    free cum_sig2 ;;
    ret 0%Z.

(** *** ddm_fpt_full_leak *)

(** Lines 193 to 210: cumulative mu and sig2, and discount (leak). *)
Definition ddm_fpt_full_leak_cumulate (mu sig2 : list D)
  (inv_leak delta_t : D) (k_max : Z) (cum_mu cum_sig2 disc : ptr)
  : M D unit :=
  let exp_leak := exp (- delta_t * inv_leak) in
  let exp2_leak := exp (#(-2) * delta_t * inv_leak) in
  mu_0 <- rd mu 0 ;;
  let curr_cum_mu := delta_t * mu_0 in
  store cum_mu 0 curr_cum_mu ;;
  sig2_0 <- rd sig2 0 ;;
  let curr_cum_sig2 := delta_t * sig2_0 in
  store cum_sig2 0 curr_cum_sig2 ;;
  let curr_disc := exp_leak in
  store disc 0 curr_disc ;;
  For 1 k_max (fun j '(curr_cum_mu, curr_cum_sig2, curr_disc) =>
    mu_j <- rd mu j ;;
    let curr_cum_mu := exp_leak * curr_cum_mu + delta_t * mu_j in
    store cum_mu j curr_cum_mu ;;
    sig2_j <- rd sig2 j ;;
    let curr_cum_sig2 := exp2_leak * curr_cum_sig2 + delta_t * sig2_j in
    store cum_sig2 j curr_cum_sig2 ;;
    let curr_disc := curr_disc * exp_leak in
    store disc j curr_disc ;;
    ret (curr_cum_mu, curr_cum_sig2, curr_disc))
    (curr_cum_mu, curr_cum_sig2, curr_disc) ;;
  ret tt.

(** Lines 211 to 222: double discount (leak). *)
Definition ddm_fpt_full_leak_double_discount (inv_leak delta_t : D)
  (k_max : Z) (disc disc2 : ptr) : M D unit :=
  let exp2_leak := exp (#(-2) * delta_t * inv_leak) in
  let k := d_to_int (floor (#(k_max - 1) / #2)) in
  For 0 (k + 1) (fun j (_ : unit) =>
    disc_2j1 <- load disc (2 * j + 1) ;;
    store disc2 j disc_2j1) tt ;;
  curr_disc <- load disc2 k ;;
  For (k + 1) k_max (fun j curr_disc =>
    let curr_disc := curr_disc * exp2_leak in
    store disc2 j curr_disc ;;
    ret curr_disc) curr_disc ;;
  ret tt.

(** Lines 224 to 279: fill up g1 and g2 recursively. *)
Definition ddm_fpt_full_leak_fill
  (mu sig2 b_lo b_up b_lo_deriv b_up_deriv : list D)
  (inv_leak delta_t : D) (k_max : Z) (cum_mu cum_sig2 disc disc2 : ptr)
  : M D unit :=
  let sqrt_2_pi := #1 / sqrt (#2 * PI) in
  let delta_t_sqrt_2_pi := delta_t * sqrt_2_pi in
  For 0 k_max (fun k (_ : unit) =>
    sig2_k <- rd sig2 k ;;
    b_up_k <- rd b_up k ;;
    b_lo_k <- rd b_lo k ;;
    cum_mu_k <- load cum_mu k ;;
    cum_sig2_k <- load cum_sig2 k ;;
    let sqrt_cum_sig2_k := sqrt cum_sig2_k in
    b_up_deriv_at_k <- rd b_up_deriv k ;;
    mu_k <- rd mu k ;;
    let b_up_deriv_k := b_up_deriv_at_k + inv_leak * b_up_k - mu_k in
    b_lo_deriv_at_k <- rd b_lo_deriv k ;;
    let b_lo_deriv_k := b_lo_deriv_at_k + inv_leak * b_lo_k - mu_k in
    let g1_k := - sqrt_2_pi / sqrt_cum_sig2_k *
                exp (- d_half * (b_up_k - cum_mu_k) * (b_up_k - cum_mu_k) /
                     cum_sig2_k) *
                (b_up_deriv_k - sig2_k * (b_up_k - cum_mu_k) / cum_sig2_k) in
    let g2_k := sqrt_2_pi / sqrt_cum_sig2_k *
                exp (- d_half * (b_lo_k - cum_mu_k) * (b_lo_k - cum_mu_k) /
                     cum_sig2_k) *
                (b_lo_deriv_k - sig2_k * (b_lo_k - cum_mu_k) / cum_sig2_k) in
    '(g1_k, g2_k) <- For 0 k (fun j '(g1_k, g2_k) =>
      disc_j <- load disc (k - j - 1) ;;
      disc2_j <- load disc2 (k - j - 1) ;;
      cum_sig2_j <- load cum_sig2 j ;;
      let cum_sig2_diff_j := cum_sig2_k - disc2_j * cum_sig2_j in
      let sqrt_cum_sig2_diff_j := sqrt cum_sig2_diff_j in
      cum_mu_j <- load cum_mu j ;;
      let cum_mu_diff_j := disc_j * cum_mu_j - cum_mu_k in
      b_up_j <- rd b_up j ;;
      b_lo_j <- rd b_lo j ;;
      let b_up_k_up_j_diff := b_up_k - disc_j * b_up_j + cum_mu_diff_j in
      let b_up_k_lo_j_diff := b_up_k - disc_j * b_lo_j + cum_mu_diff_j in
      let b_lo_k_up_j_diff := b_lo_k - disc_j * b_up_j + cum_mu_diff_j in
      let b_lo_k_lo_j_diff := b_lo_k - disc_j * b_lo_j + cum_mu_diff_j in
      g1_j <- get_g1 j ;;
      g2_j <- get_g2 j ;;
      let g1_k := g1_k + delta_t_sqrt_2_pi / sqrt_cum_sig2_diff_j *
                  (g1_j * exp (- d_half * b_up_k_up_j_diff * b_up_k_up_j_diff /
                               cum_sig2_diff_j) *
                   (b_up_deriv_k -
                    sig2_k * b_up_k_up_j_diff / cum_sig2_diff_j) +
                   g2_j * exp (- d_half * b_up_k_lo_j_diff * b_up_k_lo_j_diff /
                               cum_sig2_diff_j) *
                   (b_up_deriv_k -
                    sig2_k * b_up_k_lo_j_diff / cum_sig2_diff_j)) in
      let g2_k := g2_k - delta_t_sqrt_2_pi / sqrt_cum_sig2_diff_j *
                  (g1_j * exp (- d_half * b_lo_k_up_j_diff * b_lo_k_up_j_diff /
                               cum_sig2_diff_j) *
                   (b_lo_deriv_k -
                    sig2_k * b_lo_k_up_j_diff / cum_sig2_diff_j) +
                   g2_j * exp (- d_half * b_lo_k_lo_j_diff * b_lo_k_lo_j_diff /
                               cum_sig2_diff_j) *
                   (b_lo_deriv_k -
                    sig2_k * b_lo_k_lo_j_diff / cum_sig2_diff_j)) in
      ret (g1_k, g2_k)) (g1_k, g2_k) ;;
    set_g1 k (MAX g1_k #0) ;;
    set_g2 k (MAX g2_k #0) ;;
    ret tt) tt.

(** Only [cum_mu] and [cum_sig2] are tested after the four calls of
    [malloc] (line 182). *)
Definition ddm_fpt_full_leak (mu sig2 b_lo b_up b_lo_deriv b_up_deriv : list D)
  (inv_leak delta_t : D) (k_max : Z) : M D Z :=
  assert_ ((inv_leak >=? #0) && (delta_t >? #0) && (k_max >? 0)%Z) ;;
  cum_mu <- malloc k_max ;;
  cum_sig2 <- malloc k_max ;;
  disc <- malloc k_max ;;
  disc2 <- malloc k_max ;;
  if is_null cum_mu || is_null cum_sig2 then
    free cum_mu ;;
    free cum_sig2 ;;
    free disc ;;
    free disc2 ;;
    ret (-1)%Z
  else
    ddm_fpt_full_leak_cumulate mu sig2 inv_leak delta_t k_max
      cum_mu cum_sig2 disc ;;
    ddm_fpt_full_leak_double_discount inv_leak delta_t k_max disc disc2 ;;
    ddm_fpt_full_leak_fill mu sig2 b_lo b_up b_lo_deriv b_up_deriv
      inv_leak delta_t k_max cum_mu cum_sig2 disc disc2 ;;
    free cum_mu ;;
    free cum_sig2 ;;
    free disc ;;
    free disc2 ;;
    ret 0%Z.

(** *** ddm_fpt *)

(** Lines 324 to 343: cumulative mu, the derivative of the bound and
    the two normalisation tables. *)
Definition ddm_fpt_precompute (mu bound : list D) (delta_t : D) (k_max : Z)
  (cum_mu bound_deriv norm_sqrt_t norm_t : ptr) : M D unit :=
  let delta_t_2 := #2 * delta_t in
  let pi_delta_t_2 := PI * delta_t_2 in
  mu_0 <- rd mu 0 ;;
  let curr_cum_mu := delta_t * mu_0 in
  store cum_mu 0 curr_cum_mu ;;
  For 1 k_max (fun j curr_cum_mu =>
    mu_j <- rd mu j ;;
    let curr_cum_mu := curr_cum_mu + delta_t * mu_j in
    store cum_mu j curr_cum_mu ;;
    bound_j <- rd bound j ;;
    bound_j1 <- rd bound (j - 1) ;;
    store bound_deriv (j - 1) ((bound_j - bound_j1) / delta_t) ;;
    ret curr_cum_mu) curr_cum_mu ;;
  last <- load bound_deriv (k_max - 2) ;;
  store bound_deriv (k_max - 1) last ;;
  For 0 k_max (fun j (_ : unit) =>
    store norm_sqrt_t j (#1 / sqrt (pi_delta_t_2 * (#j + #1))) ;;
    store norm_t j (#1 / (delta_t * (#j + #1)))) tt.

(** Lines 345 to 387. *)
Definition ddm_fpt_fill (mu bound : list D) (delta_t : D) (k_max : Z)
  (cum_mu bound_deriv norm_sqrt_t norm_t : ptr) : M D unit :=
  For 0 k_max (fun k (_ : unit) =>
    bound_k <- rd bound k ;;
    bound_deriv_k <- load bound_deriv k ;;
    mu_k <- rd mu k ;;
    let bound_deriv_k1 := bound_deriv_k - mu_k in
    let bound_deriv_k2 := - bound_deriv_k - mu_k in
    cum_mu_k <- load cum_mu k ;;
    norm_t_j <- load norm_t k ;;
    norm_sqrt_t_j <- load norm_sqrt_t k ;;
    let g1_k := - norm_sqrt_t_j
                * exp (- d_half * (bound_k - cum_mu_k) * (bound_k - cum_mu_k)
                       * norm_t_j)
                * (bound_deriv_k1 - (bound_k - cum_mu_k) * norm_t_j) in
    let g2_k := norm_sqrt_t_j
                * exp (- d_half * (- bound_k - cum_mu_k) * (- bound_k - cum_mu_k)
                       * norm_t_j)
                * (bound_deriv_k2 - (- bound_k - cum_mu_k) * norm_t_j) in
    '(g1_k, g2_k) <- For 0 k (fun j '(g1_k, g2_k) =>
      bound_j <- rd bound j ;;
      cum_mu_j <- load cum_mu j ;;
      let cum_mu_k_j := cum_mu_k - cum_mu_j in
      let diff1 := bound_k - bound_j - cum_mu_k_j in
      let diff2 := bound_k + bound_j - cum_mu_k_j in
      norm_t_j <- load norm_t (k - j - 1) ;;
      norm_sqrt_t_j <- load norm_sqrt_t (k - j - 1) ;;
      g1_j <- get_g1 j ;;
      g2_j <- get_g2 j ;;
      let g1_k := g1_k + delta_t * norm_sqrt_t_j
                  * (g1_j * exp (- d_half * diff1 * diff1 * norm_t_j)
                     * (bound_deriv_k1 - diff1 * norm_t_j)
                     + g2_j * exp (- d_half * diff2 * diff2 * norm_t_j)
                     * (bound_deriv_k1 - diff2 * norm_t_j)) in
      let diff1 := - bound_k - bound_j - cum_mu_k_j in
      let diff2 := - bound_k + bound_j - cum_mu_k_j in
      let g2_k := g2_k - delta_t * norm_sqrt_t_j
                  * (g1_j * exp (- d_half * diff1 * diff1 * norm_t_j)
                     * (bound_deriv_k2 - diff1 * norm_t_j)
                     + g2_j * exp (- d_half * diff2 * diff2 * norm_t_j)
                     * (bound_deriv_k2 - diff2 * norm_t_j)) in
      ret (g1_k, g2_k)) (g1_k, g2_k) ;;
    set_g1 k (MAX g1_k #0) ;;
    set_g2 k (MAX g2_k #0) ;;
    ret tt) tt.

Definition ddm_fpt (mu bound : list D) (delta_t : D) (k_max : Z) : M D Z :=
  assert_ ((delta_t >? #0) && (k_max >? 0)%Z) ;;
  cum_mu <- malloc k_max ;;
  bound_deriv <- malloc k_max ;;
  norm_sqrt_t <- malloc k_max ;;
  norm_t <- malloc k_max ;;
  if is_null cum_mu || is_null bound_deriv ||
     is_null norm_sqrt_t || is_null norm_t then
    free cum_mu ;;
    free bound_deriv ;;
    free norm_sqrt_t ;;
    free norm_t ;;
    ret (-1)%Z
  else
    ddm_fpt_precompute mu bound delta_t k_max
      cum_mu bound_deriv norm_sqrt_t norm_t ;;
    ddm_fpt_fill mu bound delta_t k_max
      cum_mu bound_deriv norm_sqrt_t norm_t ;;
    free cum_mu ;;
    free bound_deriv ;;
    free norm_sqrt_t ;;
    free norm_t ;;
    ret 0%Z.

(** *** ddm_fpt_const_mu *)

(** Lines 429 to 446. *)
Definition ddm_fpt_const_mu_precompute (bound : list D) (delta_t : D)
  (k_max : Z) (bound_deriv norm_sqrt_t norm_t : ptr) : M D unit :=
  let delta_t_2 := #2 * delta_t in
  let pi_delta_t_2 := PI * delta_t_2 in
  For 1 k_max (fun j (_ : unit) =>
    bound_j <- rd bound j ;;
    bound_j1 <- rd bound (j - 1) ;;
    store bound_deriv (j - 1) ((bound_j - bound_j1) / delta_t)) tt ;;
  last <- load bound_deriv (k_max - 2) ;;
  store bound_deriv (k_max - 1) last ;;
  For 0 k_max (fun j (_ : unit) =>
    store norm_sqrt_t j (#1 / sqrt (pi_delta_t_2 * (#j + #1))) ;;
    store norm_t j (#1 / (delta_t * (#j + #1)))) tt.

(** Lines 448 to 480: g1 is filled recursively, g2 is based on g1. *)
Definition ddm_fpt_const_mu_fill (mu : D) (bound : list D) (delta_t : D)
  (k_max : Z) (bound_deriv norm_sqrt_t norm_t : ptr) : M D unit :=
  let mu_delta_t := delta_t * mu in
  let mu_2 := #(-2) * mu in
  For 0 k_max (fun k (_ : unit) =>
    bound_k <- rd bound k ;;
    bound_deriv_k <- load bound_deriv k ;;
    let bound_deriv_k1 := bound_deriv_k - mu in
    let bound_deriv_k2 := - bound_deriv_k - mu in
    let cum_mu_k := #(k + 1) * mu_delta_t in
    norm_t_j <- load norm_t k ;;
    norm_sqrt_t_j <- load norm_sqrt_t k ;;
    let g1_k := - norm_sqrt_t_j
                * exp (- d_half * (bound_k - cum_mu_k) * (bound_k - cum_mu_k)
                       * norm_t_j)
                * (bound_deriv_k1 - (bound_k - cum_mu_k) * norm_t_j) in
    g1_k <- For 0 k (fun j g1_k =>
      bound_j <- rd bound j ;;
      let cum_mu_k_j := #(k - j) * mu_delta_t in
      let diff1 := bound_k - bound_j - cum_mu_k_j in
      let diff2 := bound_k + bound_j - cum_mu_k_j in
      norm_t_j <- load norm_t (k - j - 1) ;;
      norm_sqrt_t_j <- load norm_sqrt_t (k - j - 1) ;;
      g1_j <- get_g1 j ;;
      g2_j <- get_g2 j ;;
      ret (g1_k + delta_t * norm_sqrt_t_j
           * (g1_j * exp (- d_half * diff1 * diff1 * norm_t_j)
              * (bound_deriv_k1 - diff1 * norm_t_j)
              + g2_j * exp (- d_half * diff2 * diff2 * norm_t_j)
              * (bound_deriv_k2 - diff2 * norm_t_j)))) g1_k ;;
    set_g1 k (MAX g1_k #0) ;;
    set_g2 k (MAX (g1_k * exp (mu_2 * bound_k)) #0) ;;
    ret tt) tt.

Definition ddm_fpt_const_mu (mu : D) (bound : list D) (delta_t : D)
  (k_max : Z) : M D Z :=
  assert_ ((mu >? #0) && (delta_t >? #0) && (k_max >? 0)%Z) ;;
  bound_deriv <- malloc k_max ;;
  norm_sqrt_t <- malloc k_max ;;
  norm_t <- malloc k_max ;;
  if is_null bound_deriv || is_null norm_sqrt_t || is_null norm_t then
    free bound_deriv ;;
    free norm_sqrt_t ;;
    free norm_t ;;
    ret (-1)%Z
  else
    ddm_fpt_const_mu_precompute bound delta_t k_max
      bound_deriv norm_sqrt_t norm_t ;;
    ddm_fpt_const_mu_fill mu bound delta_t k_max
      bound_deriv norm_sqrt_t norm_t ;;
    free bound_deriv ;;
    free norm_sqrt_t ;;
    free norm_t ;;
    ret 0%Z.

(** *** The series of Navarro & Fuss (2009) *)

Definition useshorttseries (t tol : D) : bool :=
  #2 + sqrt (#(-2) * t * log (#2 * tol * sqrt (TWOPI * t))) <?
  sqrt (#(-2) * log (PI * t * tol) / (t * PISQR)).

(** The [while (1)] loop of lines 511 to 524; [t], [tol] are the values
    the function has assigned before the loop. *)
Fixpoint fpt_asymshortt_loop (fuel : nat) (t w tol b f : D) (k : Z)
  : option D :=
  match fuel with
  | O => None
  | S fuel' =>
      let c := w + #(2 * k) in
      let incr := c * exp (- c * c / t) in
      let f := f + incr in
      if fabs incr <? tol then Some (f * b)
      else
        let c := w - #(2 * k) in
        let incr := c * exp (- c * c / t) in
        let f := f + incr in
        if fabs incr <? tol then Some (f * b)
        else fpt_asymshortt_loop fuel' t w tol b f (k + 1)
  end.

Definition fpt_asymshortt (fuel : nat) (t w tol : D) : option D :=
  let b := pow t (- d_three_halves) / sqrt TWOPI in
  let tol := tol * b in
  let t := t * #2 in
  let f := w * exp (- w * w / t) in
  fpt_asymshortt_loop fuel t w tol b f 1.

(** The [while (1)] loop of lines 538 to 546. *)
Fixpoint fpt_asymlongt_loop (fuel : nat) (t w tol f : D) (k : Z) : option D :=
  match fuel with
  | O => None
  | S fuel' =>
      let kpi := #k * PI in
      let incr := #k * exp (- (kpi * kpi) * t / #2) * sin (kpi * w) in
      let f := f + incr in
      if fabs incr <? tol then Some (f * PI)
      else fpt_asymlongt_loop fuel' t w tol f (k + 1)
  end.

Definition fpt_asymlongt (fuel : nat) (t w tol : D) : option D :=
  let tol := tol * PI in
  fpt_asymlongt_loop fuel t w tol #0 1.

Definition fpt_asymfastseries (fuel : nat) (t w tol : D) : option D :=
  if t =? #0 then Some #0
  else if useshorttseries t tol then fpt_asymshortt fuel t w tol
       else fpt_asymlongt fuel t w tol.



(** The [while (1)] loop of lines 596 to 608. *)
Fixpoint fpt_symseries_loop (fuel : nat) (a b tol f : D) (twok : Z)
  : option D :=
  match fuel with
  | O => None
  | S fuel' =>
      let incr := #twok * exp (#(- (twok * twok)) * a) in
      let f := f - incr in
      if incr <? tol then Some (f * b)
      else
        let twok := (twok + 2)%Z in
        let incr := #twok * exp (#(- (twok * twok)) * a) in
        let f := f + incr in
        if incr <? tol then Some (f * b)
        else fpt_symseries_loop fuel' a b tol f (twok + 2)
  end.

(** The parameter [t] is not used by the function. *)
Definition fpt_symseries (fuel : nat) (t a b tol : D) : option D :=
  let tol := tol * b in
  let f := exp (- a) in
  fpt_symseries_loop fuel a b tol f 3.

Definition fpt_symfastseries (fuel : nat) (t tol : D) : option D :=
  if t =? #0 then Some #0
  else if useshorttseries t tol then
         fpt_symseries fuel t (#1 / (#8 * t))
                       (#1 / sqrt (#8 * PI * pow t #3)) tol
       else fpt_symseries fuel t (t * PISQR / #2) PI tol.

Definition fpt_symup (fuel : nat) (t c1 c2 c3 : D) : option D :=
  option_map (fun series => exp (c3 - c2 * t) / c1 * series)
             (fpt_symfastseries fuel (t / c1) SERIES_ACC).

(** *** ddm_fpt_const *)

(** The function returns nothing; [fuel] bounds the iterations of each
    call of the series. *)
Definition ddm_fpt_const (fuel : nat) (mu bound delta_t : D) (k_max : Z)
  : M D unit :=
  let c1 := #4 * (bound * bound) in
  let c2 := (mu * mu) / #2 in
  let c3 := mu * bound in
  let c4 := exp (#(-2) * c3) in
  assert_ ((mu >? #0) && (bound >? #0) && (delta_t >? #0) && (k_max >? 0)%Z) ;;
  let t := delta_t in
  For 0 k_max (fun i t =>
    g <- lift_fuel (fpt_symup fuel t c1 c2 c3) ;;
    set_g1 i (MAX g #0) ;;
    set_g2 i (MAX (c4 * g) #0) ;;
    ret (t + delta_t)) t ;;
  ret tt.

(** *** ddm_fpt_w *)

(** Lines 704 to 715: a2, its integral A and the derivative of the bound. *)
Definition ddm_fpt_w_precompute (mu bound : list D) (delta_t : D) (n_max : Z)
  (a2 A bound_deriv : ptr) : M D unit :=
  mu_0 <- rd mu 0 ;;
  store a2 0 (mu_0 * mu_0) ;;
  let cum_a2 := delta_t * (mu_0 * mu_0) in
  store A 0 cum_a2 ;;
  For 1 n_max (fun j cum_a2 =>
    mu_j <- rd mu j ;;
    store a2 j (mu_j * mu_j) ;;
    let cum_a2 := cum_a2 + delta_t * (mu_j * mu_j) in
    store A j cum_a2 ;;
    bound_j <- rd bound j ;;
    bound_j1 <- rd bound (j - 1) ;;
    store bound_deriv (j - 1) ((bound_j - bound_j1) / delta_t) ;;
    ret cum_a2) cum_a2 ;;
  last <- load bound_deriv (n_max - 2) ;;
  store bound_deriv (n_max - 1) last.

(** Lines 717 to 753. *)
Definition ddm_fpt_w_fill (bound : list D) (k delta_t : D) (n_max : Z)
  (a2 A bound_deriv : ptr) : M D unit :=
  let k_2 := #(-2) * k in
  For 0 n_max (fun n (_ : unit) =>
    bound_n <- rd bound n ;;
    a2_n <- load a2 n ;;
    A_n <- load A n ;;
    bound_deriv_n <- load bound_deriv n ;;
    let diff1 := bound_n - k * A_n in
    let diff2 := - bound_n - k * A_n in
    let sqrt_A_n := sqrt (TWOPI * A_n) in
    let tmp := bound_deriv_n - bound_n / A_n * a2_n in
    let g1_n := - exp (- d_half * diff1 * diff1 / A_n) / sqrt_A_n * tmp in
    g1_n <- For 0 n (fun j g1_n =>
      bound_j <- rd bound j ;;
      A_j <- load A j ;;
      let A_diff := A_n - A_j in
      let sqrt_A_diff := sqrt (TWOPI * A_diff) in
      let diff1 := bound_n - bound_j in
      let diff2 := bound_n + bound_j in
      let diff1_A := diff1 - k * A_diff in
      let diff2_A := diff2 - k * A_diff in
      g1_j <- get_g1 j ;;
      g2_j <- get_g2 j ;;
      ret (g1_n + delta_t / sqrt_A_diff * (
             g1_j * exp (- d_half * diff1_A * diff1_A / A_diff)
             * (bound_deriv_n - a2_n * diff1 / A_diff)
           + g2_j * exp (- d_half * diff2_A * diff2_A / A_diff)
             * (bound_deriv_n - a2_n * diff2 / A_diff)))) g1_n ;;
    set_g1 n (MAX g1_n #0) ;;
    set_g2 n (MAX (g1_n * exp (k_2 * bound_n)) #0) ;;
    ret tt) tt.

Definition ddm_fpt_w (mu bound : list D) (k delta_t : D) (n_max : Z)
  : M D Z :=
  assert_ ((delta_t >? #0) && (n_max >? 0)%Z) ;;
  a2 <- malloc n_max ;;
  A <- malloc n_max ;;
  bound_deriv <- malloc n_max ;;
  if is_null a2 || is_null A || is_null bound_deriv then
    free a2 ;;
    free A ;;
    free bound_deriv ;;
    ret (-1)%Z
  else
    ddm_fpt_w_precompute mu bound delta_t n_max a2 A bound_deriv ;;
    ddm_fpt_w_fill bound k delta_t n_max a2 A bound_deriv ;;
    free a2 ;;
    free A ;;
    free bound_deriv ;;
    ret 0%Z.

(** *** mnorm *)

Definition mnorm (n : Z) (delta_t : D) : M D unit :=
  '(g1_sum, g2_sum) <- For 0 n (fun i '(g1_sum, g2_sum) =>
    g1_i <- get_g1 i ;;
    g1_sum <- (if g1_i <? #0 then set_g1 i #0 ;; ret g1_sum
               else ret (g1_sum + g1_i)) ;;
    g2_i <- get_g2 i ;;
    g2_sum <- (if g2_i <? #0 then set_g2 i #0 ;; ret g2_sum
               else ret (g2_sum + g2_i)) ;;
    ret (g1_sum, g2_sum)) (#0, #0) ;;
  let p := g1_sum / (g1_sum + g2_sum) in
  g1_last <- get_g1 (n - 1) ;;
  set_g1 (n - 1) (g1_last + (p / delta_t - g1_sum)) ;;
  g2_last <- get_g2 (n - 1) ;;
  set_g2 (n - 1) (g2_last + ((#1 - p) / delta_t - g2_sum)).
(** *** extend_vector *)

(** The macro [MIN], used on [int]s. *)
Definition MIN (a b : Z) : Z := if (a <? b)%Z then a else b.

(** [memcpy(dst, src, sizeof(double) * n)] for an [int n].  The byte
    count is a [size_t] of 64 bits, so [n mod 2^61] doubles are copied: a
    negative [n] makes the copy run past the end of the arrays. *)
Definition memcpy (dst : ptr) (src : list D) (n : Z) : M D unit :=
  For 0 (n mod 2 ^ 61) (fun i (_ : unit) =>
    x <- rd src i ;;
    store dst i x) tt.

Definition extend_vector (v : list D) (v_size new_size : Z) (fill_el : D)
  : M D ptr :=
  new_v <- malloc new_size ;;
  if is_null new_v then ret None
  else
    memcpy new_v v (MIN v_size new_size) ;;
    For v_size new_size (fun i (_ : unit) => store new_v i fill_el) tt ;;
    ret new_v.
End Program.

(** ** Facts about lists *)

Lemma length_upd {A : Type} (l : list A) (n : nat) (x : A) :
  length (upd l n x) = length l.
Proof.
  revert n; induction l as [|h t IH]; intros [|n]; simpl; auto.
Qed.

Lemma nth_error_upd_eq {A : Type} (l : list A) (n : nat) (x : A) :
  (n < length l)%nat -> nth_error (upd l n x) n = Some x.
Proof.
  revert n; induction l as [|h t IH]; intros [|n] H; simpl in *;
    try lia; auto.
  apply IH; lia.
Qed.

Lemma nth_error_upd_ne {A : Type} (l : list A) (n m : nat) (x : A) :
  n <> m -> nth_error (upd l n x) m = nth_error l m.
Proof.
  revert n m; induction l as [|h t IH]; intros [|n] [|m] H; simpl;
    auto; try congruence.
Qed.

Lemma nth_error_in_range {A : Type} (l : list A) (n : nat) :
  (n < length l)%nat -> exists x, nth_error l n = Some x.
Proof.
  intros H. destruct (nth_error l n) eqn:E; eauto.
  apply nth_error_None in E. lia.
Qed.

Lemma in_bounds_true (i : Z) (n : nat) :
  (0 <= i < Z.of_nat n)%Z -> in_bounds i n = true.
Proof.
  intros H. unfold in_bounds.
  apply andb_true_intro; split; [apply Z.leb_le | apply Z.ltb_lt]; lia.
Qed.

Lemma in_bounds_inv (i : Z) (n : nat) :
  in_bounds i n = true -> (0 <= i < Z.of_nat n)%Z.
Proof.
  unfold in_bounds. intros H. apply andb_prop in H as [H1 H2].
  apply Z.leb_le in H1. apply Z.ltb_lt in H2. lia.
Qed.

Lemma in_bounds_false (i : Z) (n : nat) :
  (i < 0 \/ Z.of_nat n <= i)%Z -> in_bounds i n = false.
Proof.
  intros H. unfold in_bounds.
  destruct (Z.leb_spec 0 i); destruct (Z.ltb_spec i (Z.of_nat n));
    simpl; auto; lia.
Qed.

(** ** Weakest preconditions *)

Section Logic.
Context {D : Type}.
Implicit Types s : state D.

(** Total correctness: the run ends without fault and its result and
    final state satisfy [Q]. *)
Definition wp {A : Type} (m : M D A) (Q : A -> state D -> Prop) s : Prop :=
  match m s with
  | Ok a s' => Q a s'
  | _ => False
  end.

(** Partial correctness: if the run ends without fault, [Q] holds. *)
Definition wlp {A : Type} (m : M D A) (Q : A -> state D -> Prop) s : Prop :=
  match m s with
  | Ok a s' => Q a s'
  | _ => True
  end.

Lemma wp_elim {A : Type} (m : M D A) Q s :
  wp m Q s -> exists a s', m s = Ok a s' /\ Q a s'.
Proof. unfold wp. destruct (m s); try tauto. eauto. Qed.

Lemma wp_intro {A : Type} (m : M D A) (Q : A -> state D -> Prop) s a s' :
  m s = Ok a s' -> Q a s' -> wp m Q s.
Proof. unfold wp. intros ->. auto. Qed.

Lemma wlp_elim {A : Type} (m : M D A) Q s a s' :
  wlp m Q s -> m s = Ok a s' -> Q a s'.
Proof. unfold wlp. intros H E. rewrite E in H. exact H. Qed.

Lemma wp_wlp {A : Type} (m : M D A) Q s : wp m Q s -> wlp m Q s.
Proof. unfold wp, wlp. destruct (m s); tauto. Qed.

Lemma wp_ret {A : Type} (a : A) (Q : A -> state D -> Prop) s :
  Q a s -> wp (ret a) Q s.
Proof. auto. Qed.

Lemma wlp_ret {A : Type} (a : A) (Q : A -> state D -> Prop) s :
  Q a s -> wlp (ret a) Q s.
Proof. auto. Qed.

Lemma wp_bind {A B : Type} (m : M D A) (k : A -> M D B) Q s :
  wp m (fun a s' => wp (k a) Q s') s -> wp (bind m k) Q s.
Proof. unfold wp, bind. destruct (m s); auto. Qed.

Lemma wlp_bind {A B : Type} (m : M D A) (k : A -> M D B) Q s :
  wlp m (fun a s' => wlp (k a) Q s') s -> wlp (bind m k) Q s.
Proof. unfold wlp, bind. destruct (m s); auto. Qed.

Lemma wp_mono {A : Type} (m : M D A) (Q Q' : A -> state D -> Prop) s :
  wp m Q s -> (forall a s', Q a s' -> Q' a s') -> wp m Q' s.
Proof. unfold wp. destruct (m s); auto. Qed.

Lemma wlp_mono {A : Type} (m : M D A) (Q Q' : A -> state D -> Prop) s :
  wlp m Q s -> (forall a s', Q a s' -> Q' a s') -> wlp m Q' s.
Proof. unfold wlp. destruct (m s); auto. Qed.

Lemma wp_assert (b : bool) (Q : unit -> state D -> Prop) s :
  b = true -> Q tt s -> wp (assert_ b) Q s.
Proof. intros ->. auto. Qed.

Lemma wlp_assert (b : bool) (Q : unit -> state D -> Prop) s :
  (b = true -> Q tt s) -> wlp (assert_ b) Q s.
Proof. unfold wlp, assert_. destruct b; auto. Qed.

Lemma wlp_lift_fuel {A : Type} (o : option A) (Q : A -> state D -> Prop) s :
  (forall a, o = Some a -> Q a s) -> wlp (lift_fuel o) Q s.
Proof. unfold wlp, lift_fuel. destruct o; auto. Qed.

(** Loops: [I i a] is the invariant before the iteration of index [i]. *)
Lemma wp_for_from {A : Type} (I : Z -> A -> state D -> Prop)
  (body : Z -> A -> M D A) (n : nat) (lo : Z) (a : A) s :
  I lo a s ->
  (forall i a s, (lo <= i < lo + Z.of_nat n)%Z -> I i a s ->
                 wp (body i a) (I (i + 1)%Z) s) ->
  wp (for_from n lo body a) (I (lo + Z.of_nat n)%Z) s.
Proof.
  revert lo a s. induction n as [|n IH]; intros lo a s H0 Hstep.
  - simpl. apply wp_ret. rewrite Z.add_0_r. exact H0.
  - simpl for_from. apply wp_bind.
    eapply wp_mono; [apply Hstep; [lia | exact H0] |].
    intros a' s' H'.
    replace (lo + Z.of_nat (S n))%Z with (lo + 1 + Z.of_nat n)%Z by lia.
    apply IH; [exact H' |]. intros i a0 s0 Hi. apply Hstep. lia.
Qed.

Lemma wp_For {A : Type} (I : Z -> A -> state D -> Prop)
  (body : Z -> A -> M D A) (lo hi : Z) (a : A) s :
  (lo <= hi)%Z ->
  I lo a s ->
  (forall i a s, (lo <= i < hi)%Z -> I i a s -> wp (body i a) (I (i + 1)%Z) s) ->
  wp (For lo hi body a) (I hi) s.
Proof.
  intros Hle H0 Hstep. unfold For.
  replace hi with (lo + Z.of_nat (Z.to_nat (hi - lo)))%Z at 2 by lia.
  apply wp_for_from; [exact H0 |].
  intros i a0 s0 Hi. apply Hstep. lia.
Qed.

Lemma wlp_for_from {A : Type} (I : Z -> A -> state D -> Prop)
  (body : Z -> A -> M D A) (n : nat) (lo : Z) (a : A) s :
  I lo a s ->
  (forall i a s, (lo <= i < lo + Z.of_nat n)%Z -> I i a s ->
                 wlp (body i a) (I (i + 1)%Z) s) ->
  wlp (for_from n lo body a) (I (lo + Z.of_nat n)%Z) s.
Proof.
  revert lo a s. induction n as [|n IH]; intros lo a s H0 Hstep.
  - simpl. apply wlp_ret. rewrite Z.add_0_r. exact H0.
  - simpl for_from. apply wlp_bind.
    eapply wlp_mono; [apply Hstep; [lia | exact H0] |].
    intros a' s' H'.
    replace (lo + Z.of_nat (S n))%Z with (lo + 1 + Z.of_nat n)%Z by lia.
    apply IH; [exact H' |]. intros i a0 s0 Hi. apply Hstep. lia.
Qed.

Lemma wlp_For {A : Type} (I : Z -> A -> state D -> Prop)
  (body : Z -> A -> M D A) (lo hi : Z) (a : A) s :
  I lo a s ->
  (forall i a s, (lo <= i < hi)%Z -> I i a s ->
                 wlp (body i a) (I (i + 1)%Z) s) ->
  wlp (For lo hi body a) (I (Z.max lo hi)) s.
Proof.
  intros H0 Hstep. unfold For.
  replace (Z.max lo hi) with (lo + Z.of_nat (Z.to_nat (hi - lo)))%Z by lia.
  apply wlp_for_from; [exact H0 |].
  intros i a0 s0 Hi. apply Hstep. lia.
Qed.
End Logic.

(** ** Rules for the memory operations *)

Section MemoryRules.
Context {D : Type}.
Implicit Types s : state D.

Lemma wp_rd (a : list D) (i : Z) (Q : D -> state D -> Prop) s :
  (0 <= i < Z.of_nat (length a))%Z ->
  (forall v, nth_error a (Z.to_nat i) = Some v -> Q v s) ->
  wp (rd a i) Q s.
Proof.
  intros Hi HQ. unfold wp, rd. rewrite in_bounds_true by exact Hi.
  destruct (@nth_error_in_range _ a (Z.to_nat i)) as [v Hv]; [lia |].
  rewrite Hv. auto.
Qed.

Lemma wp_get_g1 (i : Z) (Q : D -> state D -> Prop) s :
  (0 <= i < Z.of_nat (length (st_g1 s)))%Z ->
  (forall v, nth_error (st_g1 s) (Z.to_nat i) = Some v -> Q v s) ->
  wp (get_g1 i) Q s.
Proof. intros. unfold get_g1. now apply wp_rd. Qed.

Lemma wp_get_g2 (i : Z) (Q : D -> state D -> Prop) s :
  (0 <= i < Z.of_nat (length (st_g2 s)))%Z ->
  (forall v, nth_error (st_g2 s) (Z.to_nat i) = Some v -> Q v s) ->
  wp (get_g2 i) Q s.
Proof. intros. unfold get_g2. now apply wp_rd. Qed.

Lemma wp_set_g1 (i : Z) (v : D) (Q : unit -> state D -> Prop) s :
  (0 <= i < Z.of_nat (length (st_g1 s)))%Z ->
  Q tt (State (heap s) (upd (st_g1 s) (Z.to_nat i) v) (st_g2 s)
              (alloc_script s)) ->
  wp (set_g1 i v) Q s.
Proof.
  intros Hi HQ. unfold wp, set_g1. now rewrite in_bounds_true by exact Hi.
Qed.

Lemma wp_set_g2 (i : Z) (v : D) (Q : unit -> state D -> Prop) s :
  (0 <= i < Z.of_nat (length (st_g2 s)))%Z ->
  Q tt (State (heap s) (st_g1 s) (upd (st_g2 s) (Z.to_nat i) v)
              (alloc_script s)) ->
  wp (set_g2 i v) Q s.
Proof.
  intros Hi HQ. unfold wp, set_g2. now rewrite in_bounds_true by exact Hi.
Qed.

Lemma wp_load (b : nat) (cells : list (option D)) (i : Z)
  (Q : D -> state D -> Prop) s :
  nth_error (heap s) b = Some (Block true cells) ->
  (0 <= i < Z.of_nat (length cells))%Z ->
  (exists v, nth_error cells (Z.to_nat i) = Some (Some v)) ->
  (forall v, nth_error cells (Z.to_nat i) = Some (Some v) -> Q v s) ->
  wp (load (Some b) i) Q s.
Proof.
  intros Hb Hi [v Hv] HQ. unfold wp, load. rewrite Hb.
  rewrite in_bounds_true by exact Hi. rewrite Hv. auto.
Qed.

Lemma wp_store (b : nat) (cells : list (option D)) (i : Z) (v : D)
  (Q : unit -> state D -> Prop) s :
  nth_error (heap s) b = Some (Block true cells) ->
  (0 <= i < Z.of_nat (length cells))%Z ->
  Q tt (State (upd (heap s) b (Block true (upd cells (Z.to_nat i) (Some v))))
              (st_g1 s) (st_g2 s) (alloc_script s)) ->
  wp (store (Some b) i v) Q s.
Proof.
  intros Hb Hi HQ. unfold wp, store. rewrite Hb.
  now rewrite in_bounds_true by exact Hi.
Qed.

Lemma wp_free (b : nat) (cells : list (option D))
  (Q : unit -> state D -> Prop) s :
  nth_error (heap s) b = Some (Block true cells) ->
  Q tt (State (upd (heap s) b (Block false cells))
              (st_g1 s) (st_g2 s) (alloc_script s)) ->
  wp (free (Some b)) Q s.
Proof. intros Hb HQ. unfold wp, free. now rewrite Hb. Qed.

(** Out-of-range accesses are faults. *)
Lemma load_out_of_bounds (b : nat) (cells : list (option D)) (i : Z) s :
  nth_error (heap s) b = Some (Block true cells) ->
  (i < 0 \/ Z.of_nat (length cells) <= i)%Z ->
  load (Some b) i s = Undefined (OutOfBounds i).
Proof.
  intros Hb Hi. unfold load. rewrite Hb. now rewrite in_bounds_false.
Qed.

(** *** Operations that leave the output arrays alone *)

Definition same_out s s' : Prop :=
  st_g1 s' = st_g1 s /\ st_g2 s' = st_g2 s.

Definition heap_only {A : Type} (m : M D A) : Prop :=
  forall s, wlp m (fun _ s' => same_out s s') s.

Lemma wlp_heap_only {A : Type} (m : M D A) (Q : A -> state D -> Prop) s :
  heap_only m ->
  (forall a s', st_g1 s' = st_g1 s -> st_g2 s' = st_g2 s -> Q a s') ->
  wlp m Q s.
Proof.
  intros Hm HQ. eapply wlp_mono; [apply Hm |].
  intros a s' [H1 H2]. auto.
Qed.

Lemma ho_ret {A : Type} (a : A) : heap_only (ret (D := D) a).
Proof. intros s. apply wlp_ret. split; reflexivity. Qed.

Lemma ho_bind {A B : Type} (m : M D A) (k : A -> M D B) :
  heap_only m -> (forall a, heap_only (k a)) -> heap_only (bind m k).
Proof.
  intros Hm Hk s. apply wlp_bind. apply wlp_heap_only; [exact Hm |].
  intros a s' E1 E2. apply wlp_heap_only; [apply Hk |].
  intros b s'' E1' E2'. split; congruence.
Qed.

Lemma ho_assert (b : bool) : heap_only (assert_ (D := D) b).
Proof. intros s. apply wlp_assert. intros _. split; reflexivity. Qed.

Lemma ho_lift_fuel {A : Type} (o : option A) : heap_only (lift_fuel (D := D) o).
Proof. intros s. apply wlp_lift_fuel. intros a _. split; reflexivity. Qed.

Lemma ho_rd (a : list D) (i : Z) : heap_only (rd a i).
Proof.
  intros s. unfold wlp, rd. destruct (in_bounds _ _); auto.
  destruct (nth_error _ _); auto. split; reflexivity.
Qed.

Lemma ho_get_g1 (i : Z) : heap_only (get_g1 (D := D) i).
Proof. intros s. unfold get_g1. apply (ho_rd (st_g1 s) i s). Qed.

Lemma ho_get_g2 (i : Z) : heap_only (get_g2 (D := D) i).
Proof. intros s. unfold get_g2. apply (ho_rd (st_g2 s) i s). Qed.

Lemma ho_load (p : ptr) (i : Z) : heap_only (load (D := D) p i).
Proof.
  intros s. unfold wlp, load. destruct p as [b|]; auto.
  destruct (nth_error _ _) as [[[] cells]|]; auto.
  destruct (in_bounds _ _); auto.
  destruct (nth_error _ _) as [[v|]|]; auto. split; reflexivity.
Qed.

Lemma ho_store (p : ptr) (i : Z) (v : D) : heap_only (store p i v).
Proof.
  intros s. unfold wlp, store. destruct p as [b|]; auto.
  destruct (nth_error _ _) as [[[] cells]|]; auto.
  destruct (in_bounds _ _); auto. split; reflexivity.
Qed.

Lemma ho_malloc (n : Z) : heap_only (malloc (D := D) n).
Proof.
  intros s. unfold wlp, malloc.
  destruct (alloc_script s) as [|[] rest]; split; reflexivity.
Qed.

Lemma ho_free (p : ptr) : heap_only (free (D := D) p).
Proof.
  intros s. unfold wlp, free. destruct p as [b|]; [| split; reflexivity].
  destruct (nth_error _ _) as [[[] cells]|]; auto. split; reflexivity.
Qed.

Lemma ho_For {A : Type} (lo hi : Z) (body : Z -> A -> M D A) (a : A) :
  (forall i a, heap_only (body i a)) -> heap_only (For lo hi body a).
Proof.
  intros Hb s.
  eapply wlp_mono;
    [apply (wlp_For (fun _ _ s' => same_out s s')); [split; reflexivity |] |].
  - intros i a0 s0 _ [E1 E2]. apply wlp_heap_only; [apply Hb |].
    intros a1 s1 E1' E2'. split; congruence.
  - auto.
Qed.
End MemoryRules.

Create HintDb heap_only.
#[export] Hint Resolve ho_ret ho_assert ho_lift_fuel ho_rd ho_get_g1 ho_get_g2
  ho_load ho_store ho_malloc ho_free : heap_only.

(** Decomposes a computation built from the operations above. *)
Ltac heap_only_tac :=
  repeat first
    [ apply ho_bind; [| intro]
    | apply ho_For; intros
    | progress auto with heap_only
    | match goal with
      | |- heap_only (let '(_, _) := ?p in _) => destruct p
      | |- heap_only (match ?p with (_, _) => _ end) => destruct p
      | |- heap_only (if ?b then _ else _) => destruct b
      end ].

(** A step that does not write the output arrays keeps what is known of
    them. *)
Lemma wlp_read_step {D A B : Type} (J : list D -> list D -> Prop)
  (m : M D A) (k : A -> M D B) (Q : B -> state D -> Prop) (s : state D) :
  heap_only m ->
  J (st_g1 s) (st_g2 s) ->
  (forall a s', J (st_g1 s') (st_g2 s') -> wlp (k a) Q s') ->
  wlp (bind m k) Q s.
Proof.
  intros Hm HJ Hk. apply wlp_bind. apply wlp_heap_only; [exact Hm |].
  intros a s' E1 E2. apply Hk. now rewrite E1, E2.
Qed.

Lemma wlp_set_g1 {D : Type} (i : Z) (v : D) (Q : unit -> state D -> Prop)
  (s : state D) :
  ((0 <= i < Z.of_nat (length (st_g1 s)))%Z ->
   Q tt (State (heap s) (upd (st_g1 s) (Z.to_nat i) v) (st_g2 s)
               (alloc_script s))) ->
  wlp (set_g1 i v) Q s.
Proof.
  intros HQ. unfold wlp, set_g1.
  destruct (in_bounds _ _) eqn:E; auto. apply HQ. now apply in_bounds_inv.
Qed.

Lemma wlp_set_g2 {D : Type} (i : Z) (v : D) (Q : unit -> state D -> Prop)
  (s : state D) :
  ((0 <= i < Z.of_nat (length (st_g2 s)))%Z ->
   Q tt (State (heap s) (st_g1 s) (upd (st_g2 s) (Z.to_nat i) v)
               (alloc_script s))) ->
  wlp (set_g2 i v) Q s.
Proof.
  intros HQ. unfold wlp, set_g2.
  destruct (in_bounds _ _) eqn:E; auto. apply HQ. now apply in_bounds_inv.
Qed.

(** The tail of every iteration of a fill loop: both outputs of index
    [k] are written, and [J] moves from [k] to [k + 1]. *)
Lemma wlp_write_outputs {D A : Type} (J : Z -> list D -> list D -> Prop)
  (k : Z) (x y : D) (r : A) (s : state D) :
  (forall g1 g2, J k g1 g2 ->
     (Z.to_nat k < length g1)%nat -> (Z.to_nat k < length g2)%nat ->
     J (k + 1)%Z (upd g1 (Z.to_nat k) x) (upd g2 (Z.to_nat k) y)) ->
  (0 <= k)%Z ->
  J k (st_g1 s) (st_g2 s) ->
  wlp (bind (set_g1 k x) (fun _ => bind (set_g2 k y) (fun _ => ret r)))
      (fun _ s' => J (k + 1)%Z (st_g1 s') (st_g2 s')) s.
Proof.
  intros Hstep Hk HJ. apply wlp_bind, wlp_set_g1. intros H1.
  apply wlp_bind, wlp_set_g2. cbn. intros H2.
  apply Hstep; [exact HJ | lia | lia].
Qed.

Lemma wlp_rd_step {D B : Type} (a : list D) (i : Z) (k : D -> M D B)
  (Q : B -> state D -> Prop) (s : state D) :
  (forall v, nth_error a (Z.to_nat i) = Some v -> wlp (k v) Q s) ->
  wlp (bind (rd a i) k) Q s.
Proof.
  intros Hk. unfold wlp, bind, rd. destruct (in_bounds _ _); auto.
  destruct (nth_error _ _) as [v|] eqn:E; auto. now apply Hk.
Qed.

(** ** What the fill loops write

    Each fill loop walks [k] from 0 to [k_max - 1] and writes [g1[k]] and
    [g2[k]] once, after reading.  For a property [J k] of the two output
    arrays that survives the writes of step [k], the loop establishes
    [J k_max]. *)

Ltac read_steps J :=
  repeat (apply (wlp_read_step J);
          [ solve [heap_only_tac] | assumption | intros ? ? ? ];
          try match goal with
              | |- wlp (let '(_, _) := ?p in _) _ _ => destruct p
              end).

Section FillLoops.
Context {D : Type} {ops : DoubleOps D}.
Variable J : Z -> list D -> list D -> Prop.

(** Both outputs are written through [MAX(., 0)]. *)
Definition clamp_step (k_max : Z) : Prop :=
  forall k g1 g2 a b,
    (0 <= k < k_max)%Z -> J k g1 g2 ->
    (Z.to_nat k < length g1)%nat -> (Z.to_nat k < length g2)%nat ->
    J (k + 1)%Z (upd g1 (Z.to_nat k) (MAX a (d_of_int 0)))
                (upd g2 (Z.to_nat k) (MAX b (d_of_int 0))).

(** The second output is the clamped product of the unclamped first one
    and [f] of the bound, as [ddm_fpt_const_mu] and [ddm_fpt_w] write it. *)
Definition reflect_step (bound : list D) (f : D -> D) (k_max : Z) : Prop :=
  forall k g1 g2 a bound_k,
    (0 <= k < k_max)%Z -> nth_error bound (Z.to_nat k) = Some bound_k ->
    J k g1 g2 ->
    (Z.to_nat k < length g1)%nat -> (Z.to_nat k < length g2)%nat ->
    J (k + 1)%Z (upd g1 (Z.to_nat k) (MAX a (d_of_int 0)))
                (upd g2 (Z.to_nat k) (MAX (d_mul a (f bound_k)) (d_of_int 0))).

Lemma ddm_fpt_full_fill_writes mu sig2 b_lo b_up b_lo_deriv b_up_deriv
  delta_t k_max cum_mu cum_sig2 s :
  clamp_step k_max ->
  J 0 (st_g1 s) (st_g2 s) ->
  wlp (ddm_fpt_full_fill mu sig2 b_lo b_up b_lo_deriv b_up_deriv delta_t
         k_max cum_mu cum_sig2)
      (fun _ s' => J (Z.max 0 k_max) (st_g1 s') (st_g2 s')) s.
Proof.
  intros Hstep H0. unfold ddm_fpt_full_fill.
  apply (wlp_For (fun k (_ : unit) s' => J k (st_g1 s') (st_g2 s')));
    [exact H0 |].
  intros k [] s0 Hk HJ.
  read_steps (J k).
  apply (wlp_write_outputs J); [| lia | assumption].
  intros g1 g2 HJ' L1 L2. now apply Hstep.
Qed.

Lemma ddm_fpt_full_leak_fill_writes mu sig2 b_lo b_up b_lo_deriv b_up_deriv
  inv_leak delta_t k_max cum_mu cum_sig2 disc disc2 s :
  clamp_step k_max ->
  J 0 (st_g1 s) (st_g2 s) ->
  wlp (ddm_fpt_full_leak_fill mu sig2 b_lo b_up b_lo_deriv b_up_deriv
         inv_leak delta_t k_max cum_mu cum_sig2 disc disc2)
      (fun _ s' => J (Z.max 0 k_max) (st_g1 s') (st_g2 s')) s.
Proof.
  intros Hstep H0. unfold ddm_fpt_full_leak_fill.
  apply (wlp_For (fun k (_ : unit) s' => J k (st_g1 s') (st_g2 s')));
    [exact H0 |].
  intros k [] s0 Hk HJ.
  read_steps (J k).
  apply (wlp_write_outputs J); [| lia | assumption].
  intros g1 g2 HJ' L1 L2. now apply Hstep.
Qed.

Lemma ddm_fpt_fill_writes mu bound delta_t k_max
  cum_mu bound_deriv norm_sqrt_t norm_t s :
  clamp_step k_max ->
  J 0 (st_g1 s) (st_g2 s) ->
  wlp (ddm_fpt_fill mu bound delta_t k_max
         cum_mu bound_deriv norm_sqrt_t norm_t)
      (fun _ s' => J (Z.max 0 k_max) (st_g1 s') (st_g2 s')) s.
Proof.
  intros Hstep H0. unfold ddm_fpt_fill.
  apply (wlp_For (fun k (_ : unit) s' => J k (st_g1 s') (st_g2 s')));
    [exact H0 |].
  intros k [] s0 Hk HJ.
  read_steps (J k).
  apply (wlp_write_outputs J); [| lia | assumption].
  intros g1 g2 HJ' L1 L2. now apply Hstep.
Qed.

Lemma ddm_fpt_const_mu_fill_writes mu bound delta_t k_max
  bound_deriv norm_sqrt_t norm_t s :
  reflect_step bound (fun b => d_exp (d_mul (d_mul (d_of_int (-2)) mu) b))
               k_max ->
  J 0 (st_g1 s) (st_g2 s) ->
  wlp (ddm_fpt_const_mu_fill mu bound delta_t k_max
         bound_deriv norm_sqrt_t norm_t)
      (fun _ s' => J (Z.max 0 k_max) (st_g1 s') (st_g2 s')) s.
Proof.
  intros Hstep H0. unfold ddm_fpt_const_mu_fill.
  apply (wlp_For (fun k (_ : unit) s' => J k (st_g1 s') (st_g2 s')));
    [exact H0 |].
  intros k [] s0 Hk HJ.
  apply wlp_rd_step. intros bound_k Hbound.
  read_steps (J k).
  apply (wlp_write_outputs J); [| lia | assumption].
  intros g1 g2 HJ' L1 L2. now apply Hstep.
Qed.

Lemma ddm_fpt_w_fill_writes bound k delta_t n_max a2 A bound_deriv s :
  reflect_step bound (fun b => d_exp (d_mul (d_mul (d_of_int (-2)) k) b))
               n_max ->
  J 0 (st_g1 s) (st_g2 s) ->
  wlp (ddm_fpt_w_fill bound k delta_t n_max a2 A bound_deriv)
      (fun _ s' => J (Z.max 0 n_max) (st_g1 s') (st_g2 s')) s.
Proof.
  intros Hstep H0. unfold ddm_fpt_w_fill.
  apply (wlp_For (fun n (_ : unit) s' => J n (st_g1 s') (st_g2 s')));
    [exact H0 |].
  intros n [] s0 Hn HJ.
  apply wlp_rd_step. intros bound_n Hbound.
  read_steps (J n).
  apply (wlp_write_outputs J); [| lia | assumption].
  intros g1 g2 HJ' L1 L2. now apply Hstep.
Qed.

(** The passes before the fill loops write scratch memory only. *)
Lemma ddm_fpt_full_cumulate_heap_only mu sig2 delta_t k_max cum_mu cum_sig2 :
  heap_only (ddm_fpt_full_cumulate mu sig2 delta_t k_max cum_mu cum_sig2).
Proof. unfold ddm_fpt_full_cumulate. heap_only_tac. Qed.

Lemma ddm_fpt_full_leak_cumulate_heap_only mu sig2 inv_leak delta_t k_max
  cum_mu cum_sig2 disc :
  heap_only (ddm_fpt_full_leak_cumulate mu sig2 inv_leak delta_t k_max
               cum_mu cum_sig2 disc).
Proof. unfold ddm_fpt_full_leak_cumulate. heap_only_tac. Qed.

Lemma ddm_fpt_full_leak_double_discount_heap_only inv_leak delta_t k_max
  disc disc2 :
  heap_only (ddm_fpt_full_leak_double_discount inv_leak delta_t k_max
               disc disc2).
Proof. unfold ddm_fpt_full_leak_double_discount. heap_only_tac. Qed.

Lemma ddm_fpt_precompute_heap_only mu bound delta_t k_max
  cum_mu bound_deriv norm_sqrt_t norm_t :
  heap_only (ddm_fpt_precompute mu bound delta_t k_max
               cum_mu bound_deriv norm_sqrt_t norm_t).
Proof. unfold ddm_fpt_precompute. heap_only_tac. Qed.

Lemma ddm_fpt_const_mu_precompute_heap_only bound delta_t k_max
  bound_deriv norm_sqrt_t norm_t :
  heap_only (ddm_fpt_const_mu_precompute bound delta_t k_max
               bound_deriv norm_sqrt_t norm_t).
Proof. unfold ddm_fpt_const_mu_precompute. heap_only_tac. Qed.

Lemma ddm_fpt_w_precompute_heap_only mu bound delta_t n_max a2 A bound_deriv :
  heap_only (ddm_fpt_w_precompute mu bound delta_t n_max a2 A bound_deriv).
Proof. unfold ddm_fpt_w_precompute. heap_only_tac. Qed.

Hint Resolve ddm_fpt_full_cumulate_heap_only
  ddm_fpt_full_leak_cumulate_heap_only
  ddm_fpt_full_leak_double_discount_heap_only ddm_fpt_precompute_heap_only
  ddm_fpt_const_mu_precompute_heap_only ddm_fpt_w_precompute_heap_only
  : heap_only.

(** From the fill loop to the whole call: when the call returns 0,
    [J k_max] holds of the outputs. *)
Ltac solver_writes fill_lemma k_max :=
  match goal with
  | Hstep : _, H0 : J 0 _ _ |- _ =>
      apply wlp_bind, wlp_assert; intros Hassert;
      repeat (apply andb_prop in Hassert as [Hassert ?]);
      match goal with
      | Hk : (k_max >? 0)%Z = true |- _ => apply Z.gtb_lt in Hk
      end;
      read_steps (J 0);
      match goal with
      | |- wlp (if ?c then _ else _) _ _ => destruct c
      end;
      [ read_steps (J 0); apply wlp_ret; discriminate
      | read_steps (J 0);
        apply wlp_bind;
        eapply wlp_mono; [apply fill_lemma; [exact Hstep | assumption] |];
        cbv beta; intros ? ? ?;
        read_steps (J (Z.max 0 k_max));
        apply wlp_ret; intros _;
        match goal with
        | HJ : J (Z.max 0 k_max) ?a ?b |- J k_max ?a ?b =>
            replace (Z.max 0 k_max) with k_max in HJ by lia; exact HJ
        end ]
  end.

Lemma ddm_fpt_full_writes mu sig2 b_lo b_up b_lo_deriv b_up_deriv
  delta_t k_max s :
  clamp_step k_max ->
  J 0 (st_g1 s) (st_g2 s) ->
  wlp (ddm_fpt_full mu sig2 b_lo b_up b_lo_deriv b_up_deriv delta_t k_max)
      (fun r s' => r = 0%Z -> J k_max (st_g1 s') (st_g2 s')) s.
Proof.
  intros Hstep H0. unfold ddm_fpt_full.
  solver_writes ddm_fpt_full_fill_writes k_max.
Qed.

Lemma ddm_fpt_full_leak_writes mu sig2 b_lo b_up b_lo_deriv b_up_deriv
  inv_leak delta_t k_max s :
  clamp_step k_max ->
  J 0 (st_g1 s) (st_g2 s) ->
  wlp (ddm_fpt_full_leak mu sig2 b_lo b_up b_lo_deriv b_up_deriv
         inv_leak delta_t k_max)
      (fun r s' => r = 0%Z -> J k_max (st_g1 s') (st_g2 s')) s.
Proof.
  intros Hstep H0. unfold ddm_fpt_full_leak.
  solver_writes ddm_fpt_full_leak_fill_writes k_max.
Qed.

Lemma ddm_fpt_writes mu bound delta_t k_max s :
  clamp_step k_max ->
  J 0 (st_g1 s) (st_g2 s) ->
  wlp (ddm_fpt mu bound delta_t k_max)
      (fun r s' => r = 0%Z -> J k_max (st_g1 s') (st_g2 s')) s.
Proof.
  intros Hstep H0. unfold ddm_fpt.
  solver_writes ddm_fpt_fill_writes k_max.
Qed.

Lemma ddm_fpt_const_mu_writes mu bound delta_t k_max s :
  reflect_step bound (fun b => d_exp (d_mul (d_mul (d_of_int (-2)) mu) b))
               k_max ->
  J 0 (st_g1 s) (st_g2 s) ->
  wlp (ddm_fpt_const_mu mu bound delta_t k_max)
      (fun r s' => r = 0%Z -> J k_max (st_g1 s') (st_g2 s')) s.
Proof.
  intros Hstep H0. unfold ddm_fpt_const_mu.
  solver_writes ddm_fpt_const_mu_fill_writes k_max.
Qed.

Lemma ddm_fpt_w_writes mu bound k delta_t n_max s :
  reflect_step bound (fun b => d_exp (d_mul (d_mul (d_of_int (-2)) k) b))
               n_max ->
  J 0 (st_g1 s) (st_g2 s) ->
  wlp (ddm_fpt_w mu bound k delta_t n_max)
      (fun r s' => r = 0%Z -> J n_max (st_g1 s') (st_g2 s')) s.
Proof.
  intros Hstep H0. unfold ddm_fpt_w.
  solver_writes ddm_fpt_w_fill_writes n_max.
Qed.

(** [ddm_fpt_const] has no scratch memory and returns nothing. *)
Lemma ddm_fpt_const_writes fuel mu bound delta_t k_max s :
  clamp_step k_max ->
  J 0 (st_g1 s) (st_g2 s) ->
  wlp (ddm_fpt_const fuel mu bound delta_t k_max)
      (fun _ s' => J k_max (st_g1 s') (st_g2 s')) s.
Proof.
  intros Hstep H0. unfold ddm_fpt_const.
  apply wlp_bind, wlp_assert. intros Hassert.
  repeat (apply andb_prop in Hassert as [Hassert ?]).
  match goal with Hk : (k_max >? 0)%Z = true |- _ => apply Z.gtb_lt in Hk end.
  apply wlp_bind.
  eapply wlp_mono;
    [apply (wlp_For (fun i (_ : D) s' => J i (st_g1 s') (st_g2 s')));
     [exact H0 |] |].
  - intros i t s0 Hi HJ.
    read_steps (J i).
    apply (wlp_write_outputs J); [| lia | assumption].
    intros g1 g2 HJ' L1 L2. now apply Hstep.
  - cbv beta. intros t s' HJ. apply wlp_ret.
    now replace (Z.max 0 k_max) with k_max in HJ by lia.
Qed.
End FillLoops.

(** ** Non-negative outputs *)

(** The six solvers, as calls. *)
Inductive solver_call (D : Type) : Type :=
| call_ddm_fpt_full
    (mu sig2 b_lo b_up b_lo_deriv b_up_deriv : list D) (delta_t : D) (k_max : Z)
| call_ddm_fpt_full_leak
    (mu sig2 b_lo b_up b_lo_deriv b_up_deriv : list D) (inv_leak delta_t : D)
    (k_max : Z)
| call_ddm_fpt (mu bound : list D) (delta_t : D) (k_max : Z)
| call_ddm_fpt_const_mu (mu : D) (bound : list D) (delta_t : D) (k_max : Z)
| call_ddm_fpt_const (fuel : nat) (mu bound delta_t : D) (k_max : Z)
| call_ddm_fpt_w (mu bound : list D) (k delta_t : D) (n_max : Z).

(** The length of the output arrays the call is given. *)
Definition steps {D : Type} (c : solver_call D) : Z :=
  match c with
  | call_ddm_fpt_full _ _ _ _ _ _ _ k_max => k_max
  | call_ddm_fpt_full_leak _ _ _ _ _ _ _ _ k_max => k_max
  | call_ddm_fpt _ _ _ k_max => k_max
  | call_ddm_fpt_const_mu _ _ _ k_max => k_max
  | call_ddm_fpt_const _ _ _ _ k_max => k_max
  | call_ddm_fpt_w _ _ _ _ n_max => n_max
  end.

(** Runs the call; [ddm_fpt_const], which returns nothing, succeeds when
    it returns. *)
Definition run_solver {D : Type} {ops : DoubleOps D} (c : solver_call D)
  : M D Z :=
  match c with
  | call_ddm_fpt_full mu sig2 b_lo b_up b_lo_deriv b_up_deriv delta_t k_max =>
      ddm_fpt_full mu sig2 b_lo b_up b_lo_deriv b_up_deriv delta_t k_max
  | call_ddm_fpt_full_leak mu sig2 b_lo b_up b_lo_deriv b_up_deriv
                           inv_leak delta_t k_max =>
      ddm_fpt_full_leak mu sig2 b_lo b_up b_lo_deriv b_up_deriv
                        inv_leak delta_t k_max
  | call_ddm_fpt mu bound delta_t k_max => ddm_fpt mu bound delta_t k_max
  | call_ddm_fpt_const_mu mu bound delta_t k_max =>
      ddm_fpt_const_mu mu bound delta_t k_max
  | call_ddm_fpt_const fuel mu bound delta_t k_max =>
      bind (ddm_fpt_const fuel mu bound delta_t k_max) (fun _ => ret 0%Z)
  | call_ddm_fpt_w mu bound k delta_t n_max => ddm_fpt_w mu bound k delta_t n_max
  end.

(** The first [k] elements of [g1] and of [g2] exist and satisfy [P]. *)
Definition outputs_below {D : Type} (P : D -> Prop) (k : Z) (g1 g2 : list D)
  : Prop :=
  forall i, (0 <= i < k)%Z ->
    exists v w, nth_error g1 (Z.to_nat i) = Some v /\
                nth_error g2 (Z.to_nat i) = Some w /\ P v /\ P w.

Lemma outputs_below_step {D : Type} (P : D -> Prop) (k : Z) (g1 g2 : list D)
  (x y : D) :
  (0 <= k)%Z -> P x -> P y -> outputs_below P k g1 g2 ->
  (Z.to_nat k < length g1)%nat -> (Z.to_nat k < length g2)%nat ->
  outputs_below P (k + 1) (upd g1 (Z.to_nat k) x) (upd g2 (Z.to_nat k) y).
Proof.
  intros Hk Px Py H L1 L2 i Hi.
  destruct (Z.eq_dec i k) as [->|Hne].
  - exists x, y. rewrite !nth_error_upd_eq by assumption. auto.
  - rewrite !nth_error_upd_ne by lia. apply H. lia.
Qed.

Section ClampedOutputs.
Context {D : Type} {ops : DoubleOps D}.
Variable P : D -> Prop.
Hypothesis P_MAX : forall x, P (MAX x (d_of_int 0)).

Lemma clamp_step_outputs_below k_max : clamp_step (outputs_below P) k_max.
Proof.
  intros k g1 g2 a b Hk H L1 L2. apply outputs_below_step; auto. lia.
Qed.

Lemma reflect_step_outputs_below bound f k_max :
  reflect_step (outputs_below P) bound f k_max.
Proof.
  intros k g1 g2 a bk Hk _ H L1 L2. apply outputs_below_step; auto. lia.
Qed.

Lemma run_solver_outputs (c : solver_call D) (s : state D) :
  wlp (run_solver c)
      (fun r s' => r = 0%Z ->
                   outputs_below P (steps c) (st_g1 s') (st_g2 s')) s.
Proof.
  assert (H0 : outputs_below P 0 (st_g1 s) (st_g2 s)) by (intros i Hi; lia).
  destruct c; cbn [run_solver steps].
  - apply ddm_fpt_full_writes; auto using clamp_step_outputs_below.
  - apply ddm_fpt_full_leak_writes; auto using clamp_step_outputs_below.
  - apply ddm_fpt_writes; auto using clamp_step_outputs_below.
  - apply ddm_fpt_const_mu_writes; auto using reflect_step_outputs_below.
  - apply wlp_bind. eapply wlp_mono.
    + apply (ddm_fpt_const_writes (J := outputs_below P));
        auto using clamp_step_outputs_below.
    + cbv beta. intros _ s' H. apply wlp_ret. auto.
  - apply ddm_fpt_w_writes; auto using reflect_step_outputs_below.
Qed.
End ClampedOutputs.

(** [MAX(x, 0)] is not negative, in both readings of the arithmetic. *)
Lemma MAX_nonneg_R (x : R) : (0 <= MAX x (d_of_int 0))%R.
Proof.
  unfold MAX. cbn. unfold Rltb. destruct (Rlt_dec 0 x); lra.
Qed.

Lemma MAX_nonneg_float (lm : libm) (x : float) :
  PrimFloat.leb 0 (@MAX float (float_ops lm) x (float_of_Z 0)) = true.
Proof.
  unfold MAX. cbn. destruct (PrimFloat.ltb 0 x) eqn:E; [| reflexivity].
  rewrite leb_spec. rewrite ltb_spec in E. unfold SFleb, SFltb in *.
  destruct (SFcompare _ _) as [[]|]; congruence.
Qed.

(** C4: after a successful call of any of the six solvers, the elements
    of index 0 to [k_max - 1] of [g1] and [g2] are greater than or equal
    to 0 (exact real arithmetic). *)
Theorem solver_outputs_nonneg (c : solver_call R) (s s' : state R) :
  run_solver c s = Ok 0%Z s' ->
  forall i, (0 <= i < steps c)%Z ->
    exists v w, nth_error (st_g1 s') (Z.to_nat i) = Some v /\
                nth_error (st_g2 s') (Z.to_nat i) = Some w /\
                (0 <= v)%R /\ (0 <= w)%R.
Proof.
  intros Hrun.
  exact (wlp_elim _ _ _ (run_solver_outputs (fun v => (0 <= v)%R) MAX_nonneg_R c s)
                  Hrun eq_refl).
Qed.

(** The same in IEEE 754 arithmetic, whatever [exp], [log], [sin] and
    [pow] compute. *)
Theorem ieee_solver_outputs_nonneg (lm : libm) (c : solver_call float)
  (s s' : state float) :
  @run_solver float (float_ops lm) c s = Ok 0%Z s' ->
  forall i, (0 <= i < steps c)%Z ->
    exists v w, nth_error (st_g1 s') (Z.to_nat i) = Some v /\
                nth_error (st_g2 s') (Z.to_nat i) = Some w /\
                PrimFloat.leb 0 v = true /\ PrimFloat.leb 0 w = true.
Proof.
  intros Hrun.
  exact (wlp_elim _ _ _
           (@run_solver_outputs float (float_ops lm)
              (fun v => PrimFloat.leb 0 v = true) (MAX_nonneg_float lm) c s)
           Hrun eq_refl).
Qed.

(** ** The reflection identity of ddm_fpt_w *)





(** ** Initialised scratch arrays *)

Section Filled.
Context {D : Type}.
Implicit Types c : list (option D).

(** The array [c] has [n] cells, and those of index below [j] hold a
    value. *)
Definition filled_below c (n j : Z) : Prop :=
  length c = Z.to_nat n /\
  forall i, (0 <= i < j)%Z -> exists v, nth_error c (Z.to_nat i) = Some (Some v).

Lemma filled_below_fresh (n : Z) : filled_below (repeat None (Z.to_nat n)) n 0.
Proof. split; [apply repeat_length | intros i Hi; lia]. Qed.

Lemma filled_below_length c n j : filled_below c n j -> length c = Z.to_nat n.
Proof. now intros [H _]. Qed.

Lemma filled_below_weaken c n j j' :
  filled_below c n j -> (j' <= j)%Z -> filled_below c n j'.
Proof. intros [L H] Hj. split; [exact L |]. intros i Hi. apply H. lia. Qed.

(** Writing a cell keeps the cells that hold a value. *)
Lemma filled_below_upd c n j i (v : D) :
  filled_below c n j -> filled_below (upd c i (Some v)) n j.
Proof.
  intros [L H]. split; [now rewrite length_upd |].
  intros i' Hi'. destruct (Nat.eq_dec i (Z.to_nat i')) as [E|E].
  - exists v. rewrite E. apply nth_error_upd_eq.
    destruct (H i' Hi') as [w Hw]. apply nth_error_Some. congruence.
  - rewrite nth_error_upd_ne by exact E. now apply H.
Qed.

(** Writing cell [j] extends the initialised prefix. *)
Lemma filled_below_next c n j (v : D) :
  filled_below c n j -> (0 <= j < n)%Z ->
  filled_below (upd c (Z.to_nat j) (Some v)) n (j + 1).
Proof.
  intros [L H] Hj. split; [now rewrite length_upd |].
  intros i Hi. destruct (Z.eq_dec i j) as [->|E].
  - exists v. apply nth_error_upd_eq. lia.
  - rewrite nth_error_upd_ne by lia. apply H. lia.
Qed.

Lemma wp_load_filled (b : nat) c (n j i : Z) (Q : D -> state D -> Prop)
  (s : state D) :
  nth_error (heap s) b = Some (Block true c) ->
  filled_below c n j ->
  (0 <= i < j)%Z -> (j <= n)%Z ->
  (forall v, nth_error c (Z.to_nat i) = Some (Some v) -> Q v s) ->
  wp (load (Some b) i) Q s.
Proof.
  intros Hb [L H] Hi Hj HQ.
  apply (wp_load b (cells := c)); auto. rewrite L. lia.
Qed.

Lemma wp_store_filled (b : nat) c (n j i : Z) (v : D)
  (Q : unit -> state D -> Prop) (s : state D) :
  nth_error (heap s) b = Some (Block true c) ->
  filled_below c n j ->
  (0 <= i < n)%Z ->
  Q tt (State (upd (heap s) b (Block true (upd c (Z.to_nat i) (Some v))))
              (st_g1 s) (st_g2 s) (alloc_script s)) ->
  wp (store (Some b) i v) Q s.
Proof.
  intros Hb [L H] Hi HQ.
  apply (wp_store b (cells := c)); auto. rewrite L. lia.
Qed.

(** The state of a call that holds the scratch blocks [blocks], all
    allocated. *)
Definition scratch (blocks : list (list (option D))) (g1 g2 : list D)
  (script : list bool) : state D :=
  State (map (Block true) blocks) g1 g2 script.
End Filled.

(** ** The derivative of the bound and the accesses to scratch memory *)

Ltac side :=
  cbn [scratch map heap st_g1 st_g2 alloc_script length];
  rewrite ?length_upd; try lia.

(** One step of a run on a state whose blocks are listed. *)
Ltac wp_step :=
  lazymatch goal with
  | |- wp (bind _ _) _ _ => apply wp_bind
  | |- wp (ret _) _ _ => apply wp_ret
  | |- wp (rd _ _) _ _ => apply wp_rd; [ side | intros ? ? ]
  | |- wp (get_g1 _) _ _ => apply wp_get_g1; [ side | intros ? ? ]
  | |- wp (get_g2 _) _ _ => apply wp_get_g2; [ side | intros ? ? ]
  | |- wp (set_g1 _ _) _ _ =>
      apply wp_set_g1;
      [ side | cbn [scratch map heap st_g1 st_g2 alloc_script upd] ]
  | |- wp (set_g2 _ _) _ _ =>
      apply wp_set_g2;
      [ side | cbn [scratch map heap st_g1 st_g2 alloc_script upd] ]
  | |- wp (store (Some _) _ _) _ _ =>
      eapply wp_store_filled;
      [ reflexivity | eassumption | side
      | cbn [scratch map heap st_g1 st_g2 alloc_script upd] ]
  | |- wp (load (Some _) _) _ _ =>
      eapply wp_load_filled;
      [ reflexivity | eassumption | side | side | intros ? ? ]
  | |- wp (free (Some _)) _ _ =>
      eapply wp_free;
      [ reflexivity | cbn [scratch map heap st_g1 st_g2 alloc_script upd] ]
  end.

Ltac wp_steps := repeat wp_step.

Section BoundDerivative.
Context {D : Type} {ops : DoubleOps D}.

(** The cells of index below [j] of [c] hold the forward difference
    quotients of [bound]. *)
Definition derivative_below (bound : list D) (delta_t : D)
  (c : list (option D)) (j : Z) : Prop :=
  forall i, (0 <= i < j)%Z ->
    exists b0 b1,
      nth_error bound (Z.to_nat i) = Some b0 /\
      nth_error bound (Z.to_nat (i + 1)) = Some b1 /\
      nth_error c (Z.to_nat i) = Some (Some (d_div (d_sub b1 b0) delta_t)).

(** What the three solvers leave in [bound_deriv]: difference quotients
    up to the last but one cell, and the last cell a copy of the one
    before it. *)
Definition bound_derivative (bound : list D) (delta_t : D) (k_max : Z)
  (c : list (option D)) : Prop :=
  filled_below c k_max k_max /\
  derivative_below bound delta_t c (k_max - 1) /\
  nth_error c (Z.to_nat (k_max - 1)) = nth_error c (Z.to_nat (k_max - 2)).

Lemma derivative_below_next bound delta_t c j bj bj1 :
  derivative_below bound delta_t c (j - 1) -> (1 <= j)%Z ->
  nth_error bound (Z.to_nat j) = Some bj ->
  nth_error bound (Z.to_nat (j - 1)) = Some bj1 ->
  (Z.to_nat (j - 1) < length c)%nat ->
  derivative_below bound delta_t
    (upd c (Z.to_nat (j - 1)) (Some (d_div (d_sub bj bj1) delta_t))) j.
Proof.
  intros H Hj Hb Hb1 L i Hi. destruct (Z.eq_dec i (j - 1)) as [->|E].
  - exists bj1, bj. replace (j - 1 + 1)%Z with j by lia.
    rewrite nth_error_upd_eq by exact L. auto.
  - destruct (H i ltac:(lia)) as (b0 & b1 & H0 & H1 & H2).
    exists b0, b1. rewrite nth_error_upd_ne by lia. auto.
Qed.

Lemma derivative_below_upd bound delta_t c j i x :
  derivative_below bound delta_t c j -> (j <= i)%Z -> (0 <= j)%Z ->
  derivative_below bound delta_t (upd c (Z.to_nat i) x) j.
Proof.
  intros H Hi Hj i' Hi'. destruct (H i' Hi') as (b0 & b1 & H0 & H1 & H2).
  exists b0, b1. rewrite nth_error_upd_ne by lia. auto.
Qed.

(** The copy of the last but one cell into the last one. *)
Lemma bound_derivative_last bound delta_t k_max c last :
  (2 <= k_max)%Z ->
  filled_below c k_max (k_max - 1) ->
  derivative_below bound delta_t c (k_max - 1) ->
  nth_error c (Z.to_nat (k_max - 2)) = Some (Some last) ->
  bound_derivative bound delta_t k_max
    (upd c (Z.to_nat (k_max - 1)) (Some last)).
Proof.
  intros Hk G Hd Hl. split; [| split].
  - apply (filled_below_weaken (j := (k_max - 1 + 1)%Z)); [| lia].
    apply filled_below_next; [exact G | lia].
  - apply derivative_below_upd; auto; lia.
  - rewrite nth_error_upd_eq by (rewrite (filled_below_length G); lia).
    rewrite nth_error_upd_ne by lia. now symmetry.
Qed.

(** *** ddm_fpt *)

Lemma ddm_fpt_precompute_spec mu bound delta_t k_max c0 c1 c2 c3 g1 g2 sc :
  (2 <= k_max)%Z ->
  length mu = Z.to_nat k_max -> length bound = Z.to_nat k_max ->
  filled_below c0 k_max 0 -> filled_below c1 k_max 0 ->
  filled_below c2 k_max 0 -> filled_below c3 k_max 0 ->
  wp (ddm_fpt_precompute mu bound delta_t k_max
        (Some 0%nat) (Some 1%nat) (Some 2%nat) (Some 3%nat))
     (fun _ s' => exists c0' c1' c2' c3',
        s' = scratch [c0'; c1'; c2'; c3'] g1 g2 sc /\
        filled_below c0' k_max k_max /\
        bound_derivative bound delta_t k_max c1' /\
        filled_below c2' k_max k_max /\ filled_below c3' k_max k_max)
     (scratch [c0; c1; c2; c3] g1 g2 sc).
Proof.
  intros Hk Lmu Lb F0 F1 F2 F3. unfold ddm_fpt_precompute.
  wp_steps.
  eapply wp_mono.
  { apply (wp_For (fun j (_ : D) s' => exists c0' c1',
       s' = scratch [c0'; c1'; c2; c3] g1 g2 sc /\
       filled_below c0' k_max j /\ filled_below c1' k_max (j - 1) /\
       derivative_below bound delta_t c1' (j - 1))); [lia | |].
    - eexists _, c1. split; [reflexivity |]. split; [| split].
      + now apply (filled_below_next (j := 0)); [| lia].
      + exact F1.
      + intros i Hi. lia.
    - intros j acc s0 Hj (c0' & c1' & -> & G0 & G1 & Hd).
      wp_steps.
      eexists _, _. split; [reflexivity |]. split; [| split].
      + apply filled_below_next; [exact G0 | lia].
      + replace (j + 1 - 1)%Z with (j - 1 + 1)%Z by lia.
        apply filled_below_next; [exact G1 | lia].
      + replace (j + 1 - 1)%Z with j by lia.
        apply derivative_below_next; auto; try lia.
        rewrite (filled_below_length G1). lia. }
  cbv beta. intros acc s0 (c0' & c1' & -> & G0 & G1 & Hd).
  wp_steps.
  eapply wp_mono.
  { apply (wp_For (fun j (_ : unit) s' => exists c2' c3',
       s' = scratch [c0'; upd c1' (Z.to_nat (k_max - 1)) (Some v0); c2'; c3']
                    g1 g2 sc /\
       filled_below c2' k_max j /\ filled_below c3' k_max j)); [lia | |].
    - exists c2, c3. auto.
    - intros j [] s0 Hj (c2' & c3' & -> & G2 & G3).
      wp_steps.
      eexists _, _. split; [reflexivity |].
      split; apply filled_below_next; auto. }
  cbv beta. intros [] s0 (c2' & c3' & -> & G2 & G3).
  eexists _, _, _, _. split; [reflexivity |].
  split; [exact G0 |]. split; [| split; [exact G2 | exact G3]].
  now apply bound_derivative_last.
Qed.

Lemma ddm_fpt_fill_spec mu bound delta_t k_max c0 c1 c2 c3 g1 g2 sc :
  length mu = Z.to_nat k_max -> length bound = Z.to_nat k_max ->
  length g1 = Z.to_nat k_max -> length g2 = Z.to_nat k_max ->
  filled_below c0 k_max k_max -> filled_below c1 k_max k_max ->
  filled_below c2 k_max k_max -> filled_below c3 k_max k_max ->
  wp (ddm_fpt_fill mu bound delta_t k_max
        (Some 0%nat) (Some 1%nat) (Some 2%nat) (Some 3%nat))
     (fun _ s' => exists g1' g2',
        s' = scratch [c0; c1; c2; c3] g1' g2' sc /\
        length g1' = Z.to_nat k_max /\ length g2' = Z.to_nat k_max)
     (scratch [c0; c1; c2; c3] g1 g2 sc).
Proof.
  intros Lmu Lb L1 L2 F0 F1 F2 F3. unfold ddm_fpt_fill.
  destruct (Z.le_gt_cases 0 k_max) as [Hk|Hk].
  2:{ unfold For. replace (Z.to_nat (k_max - 0)) with O by lia.
      apply wp_ret. eauto. }
  apply (wp_For (fun k (_ : unit) s' => exists g1' g2',
     s' = scratch [c0; c1; c2; c3] g1' g2' sc /\
     length g1' = Z.to_nat k_max /\ length g2' = Z.to_nat k_max));
    [lia | eauto |].
  intros k [] s0 Hk' (g1' & g2' & -> & L1' & L2').
  wp_steps.
  eapply wp_mono.
  { apply (wp_For (fun j (_ : D * D) s' =>
       s' = scratch [c0; c1; c2; c3] g1' g2' sc)); [lia | reflexivity |].
    intros j [g1_k g2_k] s0 Hj ->. wp_steps. reflexivity. }
  cbv beta. intros [g1_k g2_k] s0 ->.
  wp_steps.
  eexists _, _. split; [reflexivity |]. now rewrite !length_upd.
Qed.

(** Every call of [malloc] succeeds. *)
Definition all_succeed (script : list bool) : Prop :=
  forall b, In b script -> b = true.

Lemma all_succeed_tl script : all_succeed script -> all_succeed (tl script).
Proof.
  intros H b Hb. apply H. destruct script; [exact Hb | now right].
Qed.

Lemma wp_malloc (n : Z) (Q : ptr -> state D -> Prop) (s : state D) :
  all_succeed (alloc_script s) ->
  Q (Some (length (heap s)))
    (State (heap s ++ [Block true (repeat None (Z.to_nat n))])
           (st_g1 s) (st_g2 s) (tl (alloc_script s))) ->
  wp (malloc n) Q s.
Proof.
  intros H HQ. unfold wp, malloc.
  destruct (alloc_script s) as [|[] rest]; auto.
  discriminate (H false (or_introl eq_refl)).
Qed.

Ltac wp_malloc_step :=
  apply wp_bind; apply wp_malloc;
  [ cbn [alloc_script]; auto using all_succeed_tl
  | cbn [heap st_g1 st_g2 alloc_script length app] ].

(** With two steps or more, valid arrays and memory to allocate,
    [ddm_fpt] runs without fault, returns 0 and frees its scratch. *)
Lemma ddm_fpt_total mu bound delta_t k_max g1 g2 sc :
  d_lt (d_of_int 0) delta_t = true -> (2 <= k_max)%Z ->
  length mu = Z.to_nat k_max -> length bound = Z.to_nat k_max ->
  length g1 = Z.to_nat k_max -> length g2 = Z.to_nat k_max ->
  all_succeed sc ->
  wp (ddm_fpt mu bound delta_t k_max)
     (fun r s' => r = 0%Z /\ live_blocks s' = [] /\
                  length (st_g1 s') = Z.to_nat k_max /\
                  length (st_g2 s') = Z.to_nat k_max)
     (State [] g1 g2 sc).
Proof.
  intros Hdt Hk Lmu Lb L1 L2 Hsc. unfold ddm_fpt.
  apply wp_bind, wp_assert.
  { rewrite Hdt. apply Z.gtb_lt. lia. }
  do 4 wp_malloc_step. cbn [is_null orb].
  pose proof (filled_below_fresh (D := D) k_max) as F.
  apply wp_bind. eapply wp_mono.
  { apply (@ddm_fpt_precompute_spec mu bound delta_t k_max _ _ _ _ g1 g2
             (tl (tl (tl (tl sc)))) Hk Lmu Lb F F F F). }
  cbv beta. intros [] s0 (c0 & c1 & c2 & c3 & -> & G0 & (G1 & _) & G2 & G3).
  apply wp_bind. eapply wp_mono.
  { apply (@ddm_fpt_fill_spec mu bound delta_t k_max _ _ _ _ g1 g2
             (tl (tl (tl (tl sc)))) Lmu Lb L1 L2 G0 G1 G2 G3). }
  cbv beta. intros [] s0 (g1' & g2' & -> & L1' & L2').
  wp_steps. cbn. auto.
Qed.

(** *** ddm_fpt_const_mu *)

Lemma ddm_fpt_const_mu_precompute_spec bound delta_t k_max c0 c1 c2 g1 g2 sc :
  (2 <= k_max)%Z -> length bound = Z.to_nat k_max ->
  filled_below c0 k_max 0 -> filled_below c1 k_max 0 ->
  filled_below c2 k_max 0 ->
  wp (ddm_fpt_const_mu_precompute bound delta_t k_max
        (Some 0%nat) (Some 1%nat) (Some 2%nat))
     (fun _ s' => exists c0' c1' c2',
        s' = scratch [c0'; c1'; c2'] g1 g2 sc /\
        bound_derivative bound delta_t k_max c0' /\
        filled_below c1' k_max k_max /\ filled_below c2' k_max k_max)
     (scratch [c0; c1; c2] g1 g2 sc).
Proof.
  intros Hk Lb F0 F1 F2. unfold ddm_fpt_const_mu_precompute.
  wp_steps.
  eapply wp_mono.
  { apply (wp_For (fun j (_ : unit) s' => exists c0',
       s' = scratch [c0'; c1; c2] g1 g2 sc /\
       filled_below c0' k_max (j - 1) /\
       derivative_below bound delta_t c0' (j - 1))); [lia | |].
    - exists c0. split; [reflexivity |]. split; [exact F0 |].
      intros i Hi. lia.
    - intros j [] s0 Hj (c0' & -> & G0 & Hd).
      wp_steps.
      eexists. split; [reflexivity |]. split.
      + replace (j + 1 - 1)%Z with (j - 1 + 1)%Z by lia.
        apply filled_below_next; [exact G0 | lia].
      + replace (j + 1 - 1)%Z with j by lia.
        apply derivative_below_next; auto; try lia.
        rewrite (filled_below_length G0). lia. }
  cbv beta. intros [] s0 (c0' & -> & G0 & Hd).
  wp_steps.
  eapply wp_mono.
  { apply (wp_For (fun j (_ : unit) s' => exists c1' c2',
       s' = scratch [upd c0' (Z.to_nat (k_max - 1)) (Some v); c1'; c2']
                    g1 g2 sc /\
       filled_below c1' k_max j /\ filled_below c2' k_max j)); [lia | |].
    - exists c1, c2. auto.
    - intros j [] s0 Hj (c1' & c2' & -> & G1 & G2).
      wp_steps.
      eexists _, _. split; [reflexivity |].
      split; apply filled_below_next; auto. }
  cbv beta. intros [] s0 (c1' & c2' & -> & G1 & G2).
  eexists _, _, _. split; [reflexivity |].
  split; [| split; [exact G1 | exact G2]].
  now apply bound_derivative_last.
Qed.

Lemma ddm_fpt_const_mu_fill_spec mu bound delta_t k_max c0 c1 c2 g1 g2 sc :
  length bound = Z.to_nat k_max ->
  length g1 = Z.to_nat k_max -> length g2 = Z.to_nat k_max ->
  filled_below c0 k_max k_max -> filled_below c1 k_max k_max ->
  filled_below c2 k_max k_max ->
  wp (ddm_fpt_const_mu_fill mu bound delta_t k_max
        (Some 0%nat) (Some 1%nat) (Some 2%nat))
     (fun _ s' => exists g1' g2',
        s' = scratch [c0; c1; c2] g1' g2' sc /\
        length g1' = Z.to_nat k_max /\ length g2' = Z.to_nat k_max)
     (scratch [c0; c1; c2] g1 g2 sc).
Proof.
  intros Lb L1 L2 F0 F1 F2. unfold ddm_fpt_const_mu_fill.
  destruct (Z.le_gt_cases 0 k_max) as [Hk|Hk].
  2:{ unfold For. replace (Z.to_nat (k_max - 0)) with O by lia.
      apply wp_ret. eauto. }
  apply (wp_For (fun k (_ : unit) s' => exists g1' g2',
     s' = scratch [c0; c1; c2] g1' g2' sc /\
     length g1' = Z.to_nat k_max /\ length g2' = Z.to_nat k_max));
    [lia | eauto |].
  intros k [] s0 Hk' (g1' & g2' & -> & L1' & L2').
  wp_steps.
  eapply wp_mono.
  { apply (wp_For (fun j (_ : D) s' =>
       s' = scratch [c0; c1; c2] g1' g2' sc)); [lia | reflexivity |].
    intros j g1_k s0 Hj ->. wp_steps. reflexivity. }
  cbv beta. intros g1_k s0 ->.
  wp_steps.
  eexists _, _. split; [reflexivity |]. now rewrite !length_upd.
Qed.

Lemma ddm_fpt_const_mu_total mu bound delta_t k_max g1 g2 sc :
  d_lt (d_of_int 0) mu = true ->
  d_lt (d_of_int 0) delta_t = true -> (2 <= k_max)%Z ->
  length bound = Z.to_nat k_max ->
  length g1 = Z.to_nat k_max -> length g2 = Z.to_nat k_max ->
  all_succeed sc ->
  wp (ddm_fpt_const_mu mu bound delta_t k_max)
     (fun r s' => r = 0%Z /\ live_blocks s' = [] /\
                  length (st_g1 s') = Z.to_nat k_max /\
                  length (st_g2 s') = Z.to_nat k_max)
     (State [] g1 g2 sc).
Proof.
  intros Hmu Hdt Hk Lb L1 L2 Hsc. unfold ddm_fpt_const_mu.
  apply wp_bind, wp_assert.
  { rewrite Hmu, Hdt. apply Z.gtb_lt. lia. }
  do 3 wp_malloc_step. cbn [is_null orb].
  pose proof (filled_below_fresh (D := D) k_max) as F.
  apply wp_bind. eapply wp_mono.
  { apply (@ddm_fpt_const_mu_precompute_spec bound delta_t k_max _ _ _ g1 g2
             (tl (tl (tl sc))) Hk Lb F F F). }
  cbv beta. intros [] s0 (c0 & c1 & c2 & -> & (G0 & _) & G1 & G2).
  apply wp_bind. eapply wp_mono.
  { apply (@ddm_fpt_const_mu_fill_spec mu bound delta_t k_max _ _ _ g1 g2
             (tl (tl (tl sc))) Lb L1 L2 G0 G1 G2). }
  cbv beta. intros [] s0 (g1' & g2' & -> & L1' & L2').
  wp_steps. cbn. auto.
Qed.

(** *** ddm_fpt_w *)

Lemma ddm_fpt_w_precompute_spec mu bound delta_t n_max c0 c1 c2 g1 g2 sc :
  (2 <= n_max)%Z ->
  length mu = Z.to_nat n_max -> length bound = Z.to_nat n_max ->
  filled_below c0 n_max 0 -> filled_below c1 n_max 0 ->
  filled_below c2 n_max 0 ->
  wp (ddm_fpt_w_precompute mu bound delta_t n_max
        (Some 0%nat) (Some 1%nat) (Some 2%nat))
     (fun _ s' => exists c0' c1' c2',
        s' = scratch [c0'; c1'; c2'] g1 g2 sc /\
        filled_below c0' n_max n_max /\ filled_below c1' n_max n_max /\
        bound_derivative bound delta_t n_max c2')
     (scratch [c0; c1; c2] g1 g2 sc).
Proof.
  intros Hk Lmu Lb F0 F1 F2. unfold ddm_fpt_w_precompute.
  wp_steps.
  eapply wp_mono.
  { apply (wp_For (fun j (_ : D) s' => exists c0' c1' c2',
       s' = scratch [c0'; c1'; c2'] g1 g2 sc /\
       filled_below c0' n_max j /\ filled_below c1' n_max j /\
       filled_below c2' n_max (j - 1) /\
       derivative_below bound delta_t c2' (j - 1))); [lia | |].
    - eexists _, _, c2. split; [reflexivity |].
      split; [| split; [| split]].
      + now apply (filled_below_next (j := 0)); [| lia].
      + now apply (filled_below_next (j := 0)); [| lia].
      + exact F2.
      + intros i Hi. lia.
    - intros j acc s0 Hj (c0' & c1' & c2' & -> & G0 & G1 & G2 & Hd).
      wp_steps.
      eexists _, _, _. split; [reflexivity |].
      split; [| split; [| split]].
      + apply filled_below_next; [exact G0 | lia].
      + apply filled_below_next; [exact G1 | lia].
      + replace (j + 1 - 1)%Z with (j - 1 + 1)%Z by lia.
        apply filled_below_next; [exact G2 | lia].
      + replace (j + 1 - 1)%Z with j by lia.
        apply derivative_below_next; auto; try lia.
        rewrite (filled_below_length G2). lia. }
  cbv beta. intros acc s0 (c0' & c1' & c2' & -> & G0 & G1 & G2 & Hd).
  wp_steps.
  eexists _, _, _. split; [reflexivity |].
  split; [exact G0 |]. split; [exact G1 |].
  now apply bound_derivative_last.
Qed.

Lemma ddm_fpt_w_fill_spec bound k delta_t n_max c0 c1 c2 g1 g2 sc :
  length bound = Z.to_nat n_max ->
  length g1 = Z.to_nat n_max -> length g2 = Z.to_nat n_max ->
  filled_below c0 n_max n_max -> filled_below c1 n_max n_max ->
  filled_below c2 n_max n_max ->
  wp (ddm_fpt_w_fill bound k delta_t n_max
        (Some 0%nat) (Some 1%nat) (Some 2%nat))
     (fun _ s' => exists g1' g2',
        s' = scratch [c0; c1; c2] g1' g2' sc /\
        length g1' = Z.to_nat n_max /\ length g2' = Z.to_nat n_max)
     (scratch [c0; c1; c2] g1 g2 sc).
Proof.
  intros Lb L1 L2 F0 F1 F2. unfold ddm_fpt_w_fill.
  destruct (Z.le_gt_cases 0 n_max) as [Hk|Hk].
  2:{ unfold For. replace (Z.to_nat (n_max - 0)) with O by lia.
      apply wp_ret. eauto. }
  apply (wp_For (fun n (_ : unit) s' => exists g1' g2',
     s' = scratch [c0; c1; c2] g1' g2' sc /\
     length g1' = Z.to_nat n_max /\ length g2' = Z.to_nat n_max));
    [lia | eauto |].
  intros n [] s0 Hn (g1' & g2' & -> & L1' & L2').
  wp_steps.
  eapply wp_mono.
  { apply (wp_For (fun j (_ : D) s' =>
       s' = scratch [c0; c1; c2] g1' g2' sc)); [lia | reflexivity |].
    intros j g1_n s0 Hj ->. wp_steps. reflexivity. }
  cbv beta. intros g1_n s0 ->.
  wp_steps.
  eexists _, _. split; [reflexivity |]. now rewrite !length_upd.
Qed.

Lemma ddm_fpt_w_total mu bound k delta_t n_max g1 g2 sc :
  d_lt (d_of_int 0) delta_t = true -> (2 <= n_max)%Z ->
  length mu = Z.to_nat n_max -> length bound = Z.to_nat n_max ->
  length g1 = Z.to_nat n_max -> length g2 = Z.to_nat n_max ->
  all_succeed sc ->
  wp (ddm_fpt_w mu bound k delta_t n_max)
     (fun r s' => r = 0%Z /\ live_blocks s' = [] /\
                  length (st_g1 s') = Z.to_nat n_max /\
                  length (st_g2 s') = Z.to_nat n_max)
     (State [] g1 g2 sc).
Proof.
  intros Hdt Hk Lmu Lb L1 L2 Hsc. unfold ddm_fpt_w.
  apply wp_bind, wp_assert.
  { rewrite Hdt. apply Z.gtb_lt. lia. }
  do 3 wp_malloc_step. cbn [is_null orb].
  pose proof (filled_below_fresh (D := D) n_max) as F.
  apply wp_bind. eapply wp_mono.
  { apply (@ddm_fpt_w_precompute_spec mu bound delta_t n_max _ _ _ g1 g2
             (tl (tl (tl sc))) Hk Lmu Lb F F F). }
  cbv beta. intros [] s0 (c0 & c1 & c2 & -> & G0 & G1 & (G2 & _)).
  apply wp_bind. eapply wp_mono.
  { apply (@ddm_fpt_w_fill_spec bound k delta_t n_max _ _ _ g1 g2
             (tl (tl (tl sc))) Lb L1 L2 G0 G1 G2). }
  cbv beta. intros [] s0 (g1' & g2' & -> & L1' & L2').
  wp_steps. cbn. auto.
Qed.

(** *** One step only *)

(** A run that ends in undefined behaviour after a prefix that runs. *)
Lemma undefined_bind {A B : Type} (m : M D A) (k : A -> M D B) (f : fault)
  (s : state D) :
  wp m (fun a s' => k a s' = Undefined f) s -> bind m k s = Undefined f.
Proof. unfold wp, bind. destruct (m s); tauto. Qed.

Lemma undefined_first {A B : Type} (m : M D A) (k : A -> M D B) (f : fault)
  (s : state D) :
  m s = Undefined f -> bind m k s = Undefined f.
Proof. unfold bind. now intros ->. Qed.

Ltac undefined_malloc_step :=
  apply undefined_bind; apply wp_malloc;
  [ cbn [alloc_script]; auto using all_succeed_tl
  | cbn [heap st_g1 st_g2 alloc_script length app] ].

(** With [k_max = 1] the loop that fills [bound_deriv] does not run, and
    the copy into the last cell reads [bound_deriv[-1]]. *)
Lemma ddm_fpt_one_step mu bound delta_t g1 g2 sc :
  d_lt (d_of_int 0) delta_t = true -> length mu = 1%nat -> all_succeed sc ->
  ddm_fpt mu bound delta_t 1 (State [] g1 g2 sc) = Undefined (OutOfBounds (-1)).
Proof.
  intros Hdt Lmu Hsc. destruct mu as [|mu_0 [|]]; try discriminate.
  unfold ddm_fpt.
  apply undefined_bind, wp_assert; [now rewrite Hdt |].
  do 4 undefined_malloc_step. reflexivity.
Qed.

Lemma ddm_fpt_const_mu_one_step mu bound delta_t g1 g2 sc :
  d_lt (d_of_int 0) mu = true -> d_lt (d_of_int 0) delta_t = true ->
  all_succeed sc ->
  ddm_fpt_const_mu mu bound delta_t 1 (State [] g1 g2 sc)
  = Undefined (OutOfBounds (-1)).
Proof.
  intros Hmu Hdt Hsc. unfold ddm_fpt_const_mu.
  apply undefined_bind, wp_assert; [now rewrite Hmu, Hdt |].
  do 3 undefined_malloc_step. reflexivity.
Qed.

Lemma ddm_fpt_w_one_step mu bound k delta_t g1 g2 sc :
  d_lt (d_of_int 0) delta_t = true -> length mu = 1%nat -> all_succeed sc ->
  ddm_fpt_w mu bound k delta_t 1 (State [] g1 g2 sc)
  = Undefined (OutOfBounds (-1)).
Proof.
  intros Hdt Lmu Hsc. destruct mu as [|mu_0 [|]]; try discriminate.
  unfold ddm_fpt_w.
  apply undefined_bind, wp_assert; [now rewrite Hdt |].
  do 3 undefined_malloc_step. reflexivity.
Qed.

(** *** The edge rule *)

(** The boundary policy, cell by cell: forward differences up to the
    last but one cell, whose value the last cell repeats. *)
Definition edge_rule (bound : list D) (delta_t : D) (k_max : Z)
  (bound_deriv : list (option D)) : Prop :=
  (forall j, (0 <= j < k_max - 1)%Z ->
     exists b_j b_j1,
       nth_error bound (Z.to_nat j) = Some b_j /\
       nth_error bound (Z.to_nat (j + 1)) = Some b_j1 /\
       nth_error bound_deriv (Z.to_nat j)
       = Some (Some (d_div (d_sub b_j1 b_j) delta_t))) /\
  exists b_pre b_last,
    nth_error bound (Z.to_nat (k_max - 2)) = Some b_pre /\
    nth_error bound (Z.to_nat (k_max - 1)) = Some b_last /\
    nth_error bound_deriv (Z.to_nat (k_max - 2))
    = Some (Some (d_div (d_sub b_last b_pre) delta_t)) /\
    nth_error bound_deriv (Z.to_nat (k_max - 1))
    = Some (Some (d_div (d_sub b_last b_pre) delta_t)).

Lemma bound_derivative_edge_rule bound delta_t k_max c :
  (2 <= k_max)%Z ->
  bound_derivative bound delta_t k_max c -> edge_rule bound delta_t k_max c.
Proof.
  intros Hk (_ & Hd & Hlast). split; [exact Hd |].
  destruct (Hd (k_max - 2)%Z ltac:(lia)) as (b0 & b1 & H0 & H1 & H2).
  replace (k_max - 2 + 1)%Z with (k_max - 1)%Z in H1 by lia.
  exists b0, b1. rewrite Hlast. auto.
Qed.

(** The scratch block of index [b] holds the cells [c]. *)
Definition holds (s : state D) (b : nat) (c : list (option D)) : Prop :=
  nth_error (heap s) b = Some (Block true c).

(** C9: in [ddm_fpt], [ddm_fpt_const_mu] and [ddm_fpt_w] with two steps
    or more, the pass before the fill loop leaves in [bound_deriv] the
    difference quotient [(bound[j+1] - bound[j]) / delta_t] at every
    [j < k_max - 1] and, at [k_max - 1], the value of cell [k_max - 2],
    which is [(bound[k_max-1] - bound[k_max-2]) / delta_t]; the fill loop
    reads the array as the pass left it. *)
Theorem bound_deriv_edge_rule (mu_vec bound : list D) (mu k delta_t : D)
  (k_max : Z) (g1 g2 : list D) (sc : list bool) :
  (2 <= k_max)%Z ->
  length mu_vec = Z.to_nat k_max -> length bound = Z.to_nat k_max ->
  length g1 = Z.to_nat k_max -> length g2 = Z.to_nat k_max ->
  let fresh := repeat None (Z.to_nat k_max) in
  wp (ddm_fpt_precompute mu_vec bound delta_t k_max
        (Some 0%nat) (Some 1%nat) (Some 2%nat) (Some 3%nat))
     (fun _ s1 => exists bound_deriv,
        holds s1 1 bound_deriv /\
        edge_rule bound delta_t k_max bound_deriv /\
        wp (ddm_fpt_fill mu_vec bound delta_t k_max
              (Some 0%nat) (Some 1%nat) (Some 2%nat) (Some 3%nat))
           (fun _ s2 => holds s2 1 bound_deriv) s1)
     (scratch [fresh; fresh; fresh; fresh] g1 g2 sc) /\
  wp (ddm_fpt_const_mu_precompute bound delta_t k_max
        (Some 0%nat) (Some 1%nat) (Some 2%nat))
     (fun _ s1 => exists bound_deriv,
        holds s1 0 bound_deriv /\
        edge_rule bound delta_t k_max bound_deriv /\
        wp (ddm_fpt_const_mu_fill mu bound delta_t k_max
              (Some 0%nat) (Some 1%nat) (Some 2%nat))
           (fun _ s2 => holds s2 0 bound_deriv) s1)
     (scratch [fresh; fresh; fresh] g1 g2 sc) /\
  wp (ddm_fpt_w_precompute mu_vec bound delta_t k_max
        (Some 0%nat) (Some 1%nat) (Some 2%nat))
     (fun _ s1 => exists bound_deriv,
        holds s1 2 bound_deriv /\
        edge_rule bound delta_t k_max bound_deriv /\
        wp (ddm_fpt_w_fill bound k delta_t k_max
              (Some 0%nat) (Some 1%nat) (Some 2%nat))
           (fun _ s2 => holds s2 2 bound_deriv) s1)
     (scratch [fresh; fresh; fresh] g1 g2 sc).
Proof.
  intros Hk Lmu Lb L1 L2 fresh.
  pose proof (filled_below_fresh (D := D) k_max) as F. fold fresh in F.
  split; [| split].
  - eapply wp_mono.
    { apply (@ddm_fpt_precompute_spec mu_vec bound delta_t k_max _ _ _ _ g1 g2
               sc Hk Lmu Lb F F F F). }
    cbv beta. intros [] s1 (c0 & c1 & c2 & c3 & -> & G0 & G1 & G2 & G3).
    exists c1. split; [reflexivity |].
    split; [now apply bound_derivative_edge_rule |].
    eapply wp_mono.
    { apply (@ddm_fpt_fill_spec mu_vec bound delta_t k_max _ _ _ _ g1 g2 sc
               Lmu Lb L1 L2 G0 (proj1 G1) G2 G3). }
    cbv beta. intros [] s2 (g1' & g2' & -> & _). reflexivity.
  - eapply wp_mono.
    { apply (@ddm_fpt_const_mu_precompute_spec bound delta_t k_max _ _ _ g1 g2
               sc Hk Lb F F F). }
    cbv beta. intros [] s1 (c0 & c1 & c2 & -> & G0 & G1 & G2).
    exists c0. split; [reflexivity |].
    split; [now apply bound_derivative_edge_rule |].
    eapply wp_mono.
    { apply (@ddm_fpt_const_mu_fill_spec mu bound delta_t k_max _ _ _ g1 g2 sc
               Lb L1 L2 (proj1 G0) G1 G2). }
    cbv beta. intros [] s2 (g1' & g2' & -> & _). reflexivity.
  - eapply wp_mono.
    { apply (@ddm_fpt_w_precompute_spec mu_vec bound delta_t k_max _ _ _ g1 g2
               sc Hk Lmu Lb F F F). }
    cbv beta. intros [] s1 (c0 & c1 & c2 & -> & G0 & G1 & G2).
    exists c2. split; [reflexivity |].
    split; [now apply bound_derivative_edge_rule |].
    eapply wp_mono.
    { apply (@ddm_fpt_w_fill_spec bound k delta_t k_max _ _ _ g1 g2 sc
               Lb L1 L2 G0 G1 (proj1 G2)). }
    cbv beta. intros [] s2 (g1' & g2' & -> & _). reflexivity.
Qed.

(** C10: the accesses to [bound_deriv] stay within bounds only from two
    steps on.  With [k_max = 1], which the assertion lets through, each
    of the three solvers reads [bound_deriv[-1]]; with [k_max >= 2],
    arrays of [k_max] elements and memory to allocate, each runs to its
    end without fault and returns 0. *)
Theorem bound_deriv_access (mu_vec bound : list D) (mu k delta_t : D)
  (k_max : Z) (g1 g2 : list D) (sc : list bool) :
  d_lt (d_of_int 0) delta_t = true -> d_lt (d_of_int 0) mu = true ->
  length mu_vec = Z.to_nat k_max -> length bound = Z.to_nat k_max ->
  length g1 = Z.to_nat k_max -> length g2 = Z.to_nat k_max ->
  all_succeed sc ->
  let s := State [] g1 g2 sc in
  (k_max = 1%Z ->
     ddm_fpt mu_vec bound delta_t k_max s = Undefined (OutOfBounds (-1)) /\
     ddm_fpt_const_mu mu bound delta_t k_max s = Undefined (OutOfBounds (-1)) /\
     ddm_fpt_w mu_vec bound k delta_t k_max s = Undefined (OutOfBounds (-1))) /\
  ((2 <= k_max)%Z ->
     (exists s', ddm_fpt mu_vec bound delta_t k_max s = Ok 0%Z s') /\
     (exists s', ddm_fpt_const_mu mu bound delta_t k_max s = Ok 0%Z s') /\
     (exists s', ddm_fpt_w mu_vec bound k delta_t k_max s = Ok 0%Z s')).
Proof.
  intros Hdt Hmu Lmu Lb L1 L2 Hsc s. split.
  - intros ->. split; [| split].
    + now apply ddm_fpt_one_step.
    + now apply ddm_fpt_const_mu_one_step.
    + now apply ddm_fpt_w_one_step.
  - intros Hk. split; [| split].
    + destruct (wp_elim _ _ _ (@ddm_fpt_total mu_vec bound delta_t k_max g1 g2 sc
                          Hdt Hk Lmu Lb L1 L2 Hsc))
        as (r & s' & E & -> & _). eauto.
    + destruct (wp_elim _ _ _ (@ddm_fpt_const_mu_total mu bound delta_t k_max g1 g2 sc
                          Hmu Hdt Hk Lb L1 L2 Hsc))
        as (r & s' & E & -> & _). eauto.
    + destruct (wp_elim _ _ _ (@ddm_fpt_w_total mu_vec bound k delta_t k_max g1 g2 sc
                          Hdt Hk Lmu Lb L1 L2 Hsc))
        as (r & s' & E & -> & _). eauto.
Qed.
End BoundDerivative.

(** ** Runs on concrete inputs *)

Lemma Rltb_true (x y : R) : (x < y)%R -> Rltb x y = true.
Proof. intros H. unfold Rltb. destruct (Rlt_dec x y); [reflexivity | tauto]. Qed.


Lemma Rleb_true (x y : R) : (x <= y)%R -> Rleb x y = true.
Proof. intros H. unfold Rleb. destruct (Rle_dec x y); [reflexivity | tauto]. Qed.

Lemma all_succeed_nil : all_succeed [].
Proof. intros b []. Qed.

Lemma zero_lt_one_R : d_lt (d_of_int 0) 1%R = true.
Proof. apply Rltb_true. cbn. lra. Qed.


Lemma ddm_fpt_runs :
  exists s', ddm_fpt [1; 1]%R [1; 2]%R 1%R 2
               (State [] [0; 0]%R [0; 0]%R []) = Ok 0%Z s'.
Proof.
  destruct (wp_elim _ _ _
    (@ddm_fpt_total R R_ops [1; 1]%R [1; 2]%R 1%R 2 [0; 0]%R [0; 0]%R []
       zero_lt_one_R ltac:(lia) eq_refl eq_refl eq_refl eq_refl all_succeed_nil))
    as (r & s' & E & -> & _).
  now exists s'.
Qed.


Lemma solver_outputs_nonneg_witness :
  exists s', run_solver (call_ddm_fpt [1; 1]%R [1; 2]%R 1%R 2)
               (State [] [0; 0]%R [0; 0]%R []) = Ok 0%Z s' /\
    forall i, (0 <= i < 2)%Z ->
      exists v w, nth_error (st_g1 s') (Z.to_nat i) = Some v /\
                  nth_error (st_g2 s') (Z.to_nat i) = Some w /\
                  (0 <= v)%R /\ (0 <= w)%R.
Proof.
  destruct ddm_fpt_runs as [s' E]. exists s'. split; [exact E |].
  exact (@solver_outputs_nonneg (call_ddm_fpt [1; 1]%R [1; 2]%R 1%R 2) _ _ E).
Defined.

Lemma bound_deriv_edge_rule_witness :
  let fresh := repeat (@None R) 2 in
  wp (ddm_fpt_precompute [1; 1]%R [1; 2]%R 1%R 2
        (Some 0%nat) (Some 1%nat) (Some 2%nat) (Some 3%nat))
     (fun _ s1 => exists bound_deriv,
        holds s1 1 bound_deriv /\
        edge_rule [1; 2]%R 1%R 2 bound_deriv /\
        wp (ddm_fpt_fill [1; 1]%R [1; 2]%R 1%R 2
              (Some 0%nat) (Some 1%nat) (Some 2%nat) (Some 3%nat))
           (fun _ s2 => holds s2 1 bound_deriv) s1)
     (scratch [fresh; fresh; fresh; fresh] [0; 0]%R [0; 0]%R []).
Proof.
  exact (proj1 (@bound_deriv_edge_rule R R_ops [1; 1]%R [1; 2]%R 1%R 1%R 1%R 2
                  [0; 0]%R [0; 0]%R [] ltac:(lia) eq_refl eq_refl eq_refl eq_refl)).
Defined.

Lemma bound_deriv_access_witness :
  ddm_fpt [1]%R [1]%R 1%R 1 (State [] [0]%R [0]%R [])
  = Undefined (OutOfBounds (-1)) /\
  exists s', ddm_fpt [1; 1]%R [1; 2]%R 1%R 2 (State [] [0; 0]%R [0; 0]%R [])
             = Ok 0%Z s'.
Proof.
  split.
  - exact (proj1 (proj1 (@bound_deriv_access R R_ops [1]%R [1]%R 1%R 1%R 1%R 1
             [0]%R [0]%R [] zero_lt_one_R zero_lt_one_R
             eq_refl eq_refl eq_refl eq_refl all_succeed_nil) eq_refl)).
  - exact (proj1 (proj2 (@bound_deriv_access R R_ops [1; 1]%R [1; 2]%R 1%R 1%R
             1%R 2 [0; 0]%R [0; 0]%R [] zero_lt_one_R zero_lt_one_R
             eq_refl eq_refl eq_refl eq_refl all_succeed_nil) ltac:(lia))).
Defined.

(** ** Allocation failures in ddm_fpt_full_leak *)

(** The integer [(int) floor(((double) (k_max - 1)) / 2)] the leak solver
    computes is [(k_max - 1) / 2]. *)
Definition halves {D : Type} {ops : DoubleOps D} (k_max : Z) : Prop :=
  d_to_int (d_floor (d_div (d_of_int (k_max - 1)) (d_of_int 2)))
  = ((k_max - 1) / 2)%Z.

Lemma Int_part_IZR (z : Z) : Int_part (IZR z) = z.
Proof. symmetry. apply Int_part_spec. lra. Qed.

Lemma Rtrunc_IZR (z : Z) : (0 <= z)%Z -> Rtrunc (IZR z) = z.
Proof.
  intros Hz. unfold Rtrunc. apply IZR_le in Hz.
  destruct (Rlt_dec (IZR z) 0); [lra | apply Int_part_IZR].
Qed.

Lemma halves_R (k_max : Z) : (1 <= k_max)%Z -> halves (ops := R_ops) k_max.
Proof.
  intros Hk. unfold halves. cbn.
  set (z := (k_max - 1)%Z). set (q := (z / 2)%Z).
  assert (Hq : Int_part (IZR z / 2) = q).
  { symmetry. apply Int_part_spec.
    pose proof (Z.div_mod z 2 ltac:(lia)) as E. fold q in E.
    pose proof (Z.mod_pos_bound z 2 ltac:(lia)) as [M0 M1].
    apply (f_equal IZR) in E. rewrite plus_IZR, mult_IZR in E.
    apply IZR_le in M0. apply IZR_lt in M1. lra. }
  rewrite Hq. apply Rtrunc_IZR. unfold q. apply Z.div_pos; lia.
Qed.

Section LeakAllocation.
Context {D : Type} {ops : DoubleOps D}.
Variables (mu sig2 b_lo b_up b_lo_deriv b_up_deriv : list D).
Variables (inv_leak delta_t : D) (k_max : Z) (g1 g2 : list D).
Hypothesis inv_leak_nonneg : d_le (d_of_int 0) inv_leak = true.
Hypothesis delta_t_pos : d_lt (d_of_int 0) delta_t = true.
Hypothesis k_max_pos : (0 < k_max)%Z.

Lemma wp_malloc_script (n : Z) (b : bool) (rest : list bool)
  (Q : ptr -> state D -> Prop) (s : state D) :
  alloc_script s = b :: rest ->
  Q (if b then Some (length (heap s)) else None)
    (State (if b then heap s ++ [Block true (repeat None (Z.to_nat n))]
            else heap s) (st_g1 s) (st_g2 s) rest) ->
  wp (malloc n) Q s.
Proof. intros E HQ. unfold wp, malloc. rewrite E. destruct b; exact HQ. Qed.

Ltac malloc_script_step :=
  apply wp_malloc_script with (1 := eq_refl);
  cbn [heap st_g1 st_g2 alloc_script length app].

Lemma leak_assertion_holds :
  (d_le (d_of_int 0) inv_leak && d_lt (d_of_int 0) delta_t && (k_max >? 0)%Z)
  = true.
Proof.
  rewrite inv_leak_nonneg, delta_t_pos. apply Z.gtb_lt. lia.
Qed.

(** When [cum_mu] or [cum_sig2] cannot be allocated the call returns -1,
    leaves [g1] and [g2] as they were and frees what it has allocated. *)
Lemma ddm_fpt_full_leak_tested_allocations (a1 a2 a3 a4 : bool)
  (rest : list bool) :
  a1 && a2 = false ->
  exists s',
    ddm_fpt_full_leak mu sig2 b_lo b_up b_lo_deriv b_up_deriv
      inv_leak delta_t k_max (State [] g1 g2 (a1 :: a2 :: a3 :: a4 :: rest))
    = Ok (-1)%Z s' /\
    st_g1 s' = g1 /\ st_g2 s' = g2 /\ live_blocks s' = [].
Proof.
  intros Ha.
  assert (W : wp (ddm_fpt_full_leak mu sig2 b_lo b_up b_lo_deriv b_up_deriv
                    inv_leak delta_t k_max)
                 (fun r s' => r = (-1)%Z /\ st_g1 s' = g1 /\ st_g2 s' = g2 /\
                              live_blocks s' = [])
                 (State [] g1 g2 (a1 :: a2 :: a3 :: a4 :: rest))).
  { unfold ddm_fpt_full_leak.
    apply wp_bind, wp_assert; [exact leak_assertion_holds |].
    do 4 (apply wp_bind; malloc_script_step).
    destruct a1, a2; try discriminate; destruct a3, a4; cbn; auto. }
  destruct (wp_elim _ _ _ W) as (r & s' & E & -> & H).
  now exists s'.
Qed.

(** When [disc] cannot be allocated and the first two arrays can, the
    call goes on and writes [disc[0]] through the null pointer. *)
Lemma ddm_fpt_full_leak_disc_null (a4 : bool) (rest : list bool) :
  mu <> [] -> sig2 <> [] ->
  ddm_fpt_full_leak mu sig2 b_lo b_up b_lo_deriv b_up_deriv
    inv_leak delta_t k_max (State [] g1 g2 (true :: true :: false :: a4 :: rest))
  = Undefined NullPointer.
Proof.
  intros Hmu Hsig2.
  destruct mu as [|mu_0 mu']; [congruence |].
  destruct sig2 as [|sig2_0 sig2']; [congruence |].
  unfold ddm_fpt_full_leak.
  apply undefined_bind, wp_assert; [exact leak_assertion_holds |].
  do 4 (apply undefined_bind; malloc_script_step).
  cbn [is_null orb]. unfold ddm_fpt_full_leak_cumulate.
  pose proof (filled_below_fresh (D := D) k_max) as F.
  apply undefined_first.
  destruct a4; do 4 (apply undefined_bind; wp_step; cbv beta); reflexivity.
Qed.
End LeakAllocation.

(** ** The second discount array of ddm_fpt_full_leak *)

Section LoopFault.
Context {D : Type}.

(** A loop whose iterations run up to index [mid], where the body ends
    in undefined behaviour. *)
Lemma for_from_undefined {A : Type} (I : Z -> A -> state D -> Prop)
  (body : Z -> A -> M D A) (f : fault) (n m : nat) (lo : Z) (a : A)
  (s : state D) :
  I lo a s ->
  (forall i a s, (lo <= i < lo + Z.of_nat n)%Z -> I i a s ->
                 wp (body i a) (I (i + 1)%Z) s) ->
  (forall a s, I (lo + Z.of_nat n)%Z a s ->
               body (lo + Z.of_nat n)%Z a s = Undefined f) ->
  for_from (n + S m) lo body a s = Undefined f.
Proof.
  revert lo a s. induction n as [|n IH]; intros lo a s H0 Hstep Hbad.
  - cbn [Nat.add for_from]. apply undefined_first.
    replace (lo + Z.of_nat 0)%Z with lo in Hbad by lia. now apply Hbad.
  - cbn [Nat.add for_from]. apply undefined_bind.
    eapply wp_mono; [apply Hstep; [lia | exact H0] |].
    intros a' s' H'. apply IH; [exact H' | |].
    + intros i a0 s0 Hi. apply Hstep. lia.
    + intros a0 s0 Hi.
      replace (lo + 1 + Z.of_nat n)%Z with (lo + Z.of_nat (S n))%Z in * by lia.
      now apply Hbad.
Qed.

Lemma For_undefined {A : Type} (I : Z -> A -> state D -> Prop)
  (body : Z -> A -> M D A) (f : fault) (lo mid hi : Z) (a : A)
  (s : state D) :
  (lo <= mid < hi)%Z ->
  I lo a s ->
  (forall i a s, (lo <= i < mid)%Z -> I i a s -> wp (body i a) (I (i + 1)%Z) s) ->
  (forall a s, I mid a s -> body mid a s = Undefined f) ->
  For lo hi body a s = Undefined f.
Proof.
  intros Hmid H0 Hstep Hbad. unfold For.
  replace (Z.to_nat (hi - lo))
    with (Z.to_nat (mid - lo) + S (Z.to_nat (hi - mid - 1)))%nat by lia.
  apply (for_from_undefined I); [exact H0 | |].
  - intros i a0 s0 Hi. apply Hstep. lia.
  - replace (lo + Z.of_nat (Z.to_nat (mid - lo)))%Z with mid by lia.
    exact Hbad.
Qed.
End LoopFault.

Section LeakTables.
Context {D : Type} {ops : DoubleOps D}.
Implicit Types c : list (option D).

(** Cell [i] of [c] holds [v]. *)
Definition cell c (i : Z) (v : D) : Prop :=
  nth_error c (Z.to_nat i) = Some (Some v).

(** [c[0] = delta_t * input[0]] and, for [1 <= k < j],
    [c[k] = factor * c[k-1] + delta_t * input[k]]. *)
Definition leak_recurrence (input : list D) (factor delta_t : D) c (j : Z)
  : Prop :=
  (exists x, nth_error input 0 = Some x /\ cell c 0 (d_mul delta_t x)) /\
  forall k, (1 <= k < j)%Z ->
    exists prev x,
      cell c (k - 1) prev /\ nth_error input (Z.to_nat k) = Some x /\
      cell c k (d_add (d_mul factor prev) (d_mul delta_t x)).

(** [c[k] = c[k-1] * factor] for [lo < k < j]. *)
Definition geometric (factor : D) c (lo j : Z) : Prop :=
  forall k, (lo < k < j)%Z ->
    exists prev, cell c (k - 1) prev /\ cell c k (d_mul prev factor).

Lemma cell_upd_eq c i v :
  (0 <= i < Z.of_nat (length c))%Z -> cell (upd c (Z.to_nat i) (Some v)) i v.
Proof. intros H. apply nth_error_upd_eq. lia. Qed.

Lemma cell_upd_ne c i j v w :
  cell c i v -> (0 <= i)%Z -> (0 <= j)%Z -> i <> j ->
  cell (upd c (Z.to_nat j) w) i v.
Proof. intros H Hi Hj E. unfold cell. rewrite nth_error_upd_ne by lia. exact H. Qed.

Lemma cell_inj c i v w : cell c i v -> cell c i w -> v = w.
Proof. unfold cell. congruence. Qed.

Lemma leak_recurrence_next input factor delta_t c j prev x :
  leak_recurrence input factor delta_t c j -> (1 <= j)%Z ->
  cell c (j - 1) prev -> nth_error input (Z.to_nat j) = Some x ->
  (j < Z.of_nat (length c))%Z ->
  leak_recurrence input factor delta_t
    (upd c (Z.to_nat j)
         (Some (d_add (d_mul factor prev) (d_mul delta_t x)))) (j + 1).
Proof.
  intros [(x0 & Hx0 & H0) H] Hj Hprev Hx L. split.
  - exists x0. split; [exact Hx0 |]. apply cell_upd_ne; auto; lia.
  - intros k Hk. destruct (Z.eq_dec k j) as [->|E].
    + exists prev, x. split; [| split; [exact Hx |]].
      * apply cell_upd_ne; auto; lia.
      * apply cell_upd_eq. lia.
    + destruct (H k ltac:(lia)) as (p & y & Hp & Hy & Hc).
      exists p, y. split; [| split; [exact Hy |]];
        apply cell_upd_ne; auto; lia.
Qed.

Lemma geometric_next factor c lo j prev :
  geometric factor c lo j -> (0 <= lo < j)%Z ->
  cell c (j - 1) prev -> (j < Z.of_nat (length c))%Z ->
  geometric factor (upd c (Z.to_nat j) (Some (d_mul prev factor))) lo (j + 1).
Proof.
  intros H Hj Hprev L k Hk. destruct (Z.eq_dec k j) as [->|E].
  - exists prev. split; [apply cell_upd_ne; auto; lia | apply cell_upd_eq; lia].
  - destruct (H k ltac:(lia)) as (p & Hp & Hc).
    exists p. split; apply cell_upd_ne; auto; lia.
Qed.

(** The tables [cum_mu], [cum_sig2] and [disc] after lines 193 to 210. *)
Definition leak_tables (mu sig2 : list D) (inv_leak delta_t : D) (k_max : Z)
  (cum_mu cum_sig2 disc : list (option D)) : Prop :=
  let exp_leak := d_exp (d_mul (d_neg delta_t) inv_leak) in
  let exp2_leak := d_exp (d_mul (d_mul (d_of_int (-2)) delta_t) inv_leak) in
  filled_below cum_mu k_max k_max /\ filled_below cum_sig2 k_max k_max /\
  filled_below disc k_max k_max /\
  leak_recurrence mu exp_leak delta_t cum_mu k_max /\
  leak_recurrence sig2 exp2_leak delta_t cum_sig2 k_max /\
  cell disc 0 exp_leak /\ geometric exp_leak disc 0 k_max.

Lemma ddm_fpt_full_leak_cumulate_spec mu sig2 inv_leak delta_t k_max
  c0 c1 c2 c3 g1 g2 sc :
  (1 <= k_max)%Z ->
  length mu = Z.to_nat k_max -> length sig2 = Z.to_nat k_max ->
  filled_below c0 k_max 0 -> filled_below c1 k_max 0 ->
  filled_below c2 k_max 0 ->
  wp (ddm_fpt_full_leak_cumulate mu sig2 inv_leak delta_t k_max
        (Some 0%nat) (Some 1%nat) (Some 2%nat))
     (fun _ s' => exists c0' c1' c2',
        s' = scratch [c0'; c1'; c2'; c3] g1 g2 sc /\
        leak_tables mu sig2 inv_leak delta_t k_max c0' c1' c2')
     (scratch [c0; c1; c2; c3] g1 g2 sc).
Proof.
  intros Hk Lmu Ls F0 F1 F2. unfold ddm_fpt_full_leak_cumulate.
  pose proof (filled_below_length F0) as E0.
  pose proof (filled_below_length F1) as E1.
  pose proof (filled_below_length F2) as E2.
  wp_steps.
  set (exp_leak := d_exp (d_mul (d_neg delta_t) inv_leak)).
  set (exp2_leak := d_exp (d_mul (d_mul (d_of_int (-2)) delta_t) inv_leak)).
  eapply wp_mono.
  { apply (wp_For (fun j '(curr_cum_mu, curr_cum_sig2, curr_disc) s' =>
       exists c0' c1' c2',
         s' = scratch [c0'; c1'; c2'; c3] g1 g2 sc /\
         filled_below c0' k_max j /\ filled_below c1' k_max j /\
         filled_below c2' k_max j /\
         leak_recurrence mu exp_leak delta_t c0' j /\
         leak_recurrence sig2 exp2_leak delta_t c1' j /\
         cell c2' 0 exp_leak /\ geometric exp_leak c2' 0 j /\
         cell c0' (j - 1) curr_cum_mu /\ cell c1' (j - 1) curr_cum_sig2 /\
         cell c2' (j - 1) curr_disc)); [lia | |].
    - eexists _, _, _. split; [reflexivity |].
      change (1 - 1)%Z with 0%Z.
      assert (C0 : forall c (x : D), length c = Z.to_nat k_max ->
                     cell (upd c (Z.to_nat 0) (Some x)) 0 x)
        by (intros; apply cell_upd_eq; lia).
      refine (conj _ (conj _ (conj _ (conj _ (conj _ (conj _ (conj _
                (conj _ (conj _ _))))))))); auto.
      1-3: apply (filled_below_next (j := 0)); [assumption | lia].
      + split; [exists v; auto | intros k Hk'; lia].
      + split; [exists v0; auto | intros k Hk'; lia].
      + intros k Hk'. lia.
    - intros j [[curr_cum_mu curr_cum_sig2] curr_disc] s0 Hj
        (c0' & c1' & c2' & -> & G0 & G1 & G2 & R0 & R1 & Hd0 & Hg & A0 & A1 & A2).
      pose proof (filled_below_length G0) as E0'.
      pose proof (filled_below_length G1) as E1'.
      pose proof (filled_below_length G2) as E2'.
      wp_steps.
      eexists _, _, _. split; [reflexivity |].
      replace (j + 1 - 1)%Z with j by lia.
      repeat match goal with
             | |- _ /\ _ => split
             | |- leak_recurrence _ _ _ _ _ =>
                 apply leak_recurrence_next; auto; lia
             | |- geometric _ _ _ _ => apply geometric_next; auto; lia
             | |- cell (upd _ (Z.to_nat ?i) _) ?i _ => apply cell_upd_eq; lia
             | |- cell (upd _ _ _) 0 _ => apply cell_upd_ne; auto; lia
             end;
        (apply filled_below_next; [assumption | lia]). }
  cbv beta.
  intros [[curr_cum_mu curr_cum_sig2] curr_disc] s0
    (c0' & c1' & c2' & -> & G0 & G1 & G2 & R0 & R1 & Hd0 & Hg & _).
  wp_steps. exists c0', c1', c2'. split; [reflexivity |].
  unfold leak_tables. fold exp_leak exp2_leak. tauto.
Qed.

(** The table [disc2] after lines 211 to 222, [k] being the index up to
    which it is copied from [disc]. *)
Definition double_discount_table (exp2_leak : D) (k_max k : Z)
  (disc disc2 : list (option D)) : Prop :=
  filled_below disc2 k_max k_max /\
  (forall j, (0 <= j <= k)%Z ->
     exists v, cell disc (2 * j + 1) v /\ cell disc2 j v) /\
  geometric exp2_leak disc2 k k_max.

Lemma ddm_fpt_full_leak_double_discount_spec inv_leak delta_t k_max
  c0 c1 c2 c3 g1 g2 sc :
  (2 <= k_max)%Z -> (k_max mod 2 = 0)%Z -> halves k_max ->
  filled_below c2 k_max k_max -> filled_below c3 k_max 0 ->
  wp (ddm_fpt_full_leak_double_discount inv_leak delta_t k_max
        (Some 2%nat) (Some 3%nat))
     (fun _ s' => exists c3',
        s' = scratch [c0; c1; c2; c3'] g1 g2 sc /\
        double_discount_table
          (d_exp (d_mul (d_mul (d_of_int (-2)) delta_t) inv_leak))
          k_max ((k_max - 1) / 2) c2 c3')
     (scratch [c0; c1; c2; c3] g1 g2 sc).
Proof.
  intros Hk Heven Hhalf F2 F3. unfold ddm_fpt_full_leak_double_discount.
  unfold halves in Hhalf. rewrite Hhalf.
  set (exp2_leak := d_exp (d_mul (d_mul (d_of_int (-2)) delta_t) inv_leak)).
  set (k := ((k_max - 1) / 2)%Z).
  assert (Ek : (2 * k + 2 = k_max)%Z)
    by (unfold k; Z.div_mod_to_equations; lia).
  pose proof (filled_below_length F3) as E3.
  apply wp_bind. eapply wp_mono.
  { apply (wp_For (fun j (_ : unit) s' => exists c3',
       s' = scratch [c0; c1; c2; c3'] g1 g2 sc /\
       filled_below c3' k_max j /\
       forall i, (0 <= i < j)%Z ->
         exists v, cell c2 (2 * i + 1) v /\ cell c3' i v)); [lia | |].
    - exists c3. split; [reflexivity |]. split; [exact F3 |].
      intros i Hi. lia.
    - intros j [] s0 Hj (c3' & -> & G3 & Hcopy).
      pose proof (filled_below_length G3) as E3'.
      wp_steps.
      eexists. split; [reflexivity |]. split.
      + apply filled_below_next; [exact G3 | lia].
      + intros i Hi. destruct (Z.eq_dec i j) as [->|E].
        * exists v. split; [assumption | apply cell_upd_eq; lia].
        * destruct (Hcopy i ltac:(lia)) as (w & Hw & Hw').
          exists w. split; [exact Hw | apply cell_upd_ne; auto; lia]. }
  cbv beta. intros [] s0 (c3' & -> & G3 & Hcopy).
  wp_steps.
  eapply wp_mono.
  { apply (wp_For (fun j curr_disc s' => exists c3'',
       s' = scratch [c0; c1; c2; c3''] g1 g2 sc /\
       filled_below c3'' k_max j /\
       (forall i, (0 <= i <= k)%Z ->
          exists v, cell c2 (2 * i + 1) v /\ cell c3'' i v) /\
       geometric exp2_leak c3'' k j /\
       cell c3'' (j - 1) curr_disc)); [lia | |].
    - exists c3'. split; [reflexivity |]. split; [exact G3 |].
      split; [intros i Hi; apply Hcopy; lia |].
      split; [intros i Hi; lia |].
      replace (k + 1 - 1)%Z with k by lia. assumption.
    - intros j curr_disc s0 Hj (c3'' & -> & G3' & Hcopy' & Hg & Hcurr).
      pose proof (filled_below_length G3') as E3'.
      wp_steps.
      eexists. split; [reflexivity |].
      replace (j + 1 - 1)%Z with j by lia.
      split; [apply filled_below_next; [exact G3' | lia] |].
      split; [| split].
      + intros i Hi. destruct (Hcopy' i Hi) as (w & Hw & Hw').
        exists w. split; [exact Hw | apply cell_upd_ne; auto; lia].
      + apply geometric_next; auto; lia.
      + apply cell_upd_eq. lia. }
  cbv beta. intros curr_disc s0 (c3'' & -> & G3' & Hcopy' & Hg & _).
  wp_steps. exists c3''. split; [reflexivity |].
  split; [exact G3' |]. split; assumption.
Qed.

(** With an odd number of steps the copy loop runs one index too far:
    its last iteration reads [disc[k_max]]. *)
Lemma ddm_fpt_full_leak_double_discount_odd inv_leak delta_t k_max
  c0 c1 c2 c3 g1 g2 sc :
  (1 <= k_max)%Z -> (k_max mod 2 = 1)%Z -> halves k_max ->
  filled_below c2 k_max k_max -> filled_below c3 k_max 0 ->
  ddm_fpt_full_leak_double_discount inv_leak delta_t k_max
    (Some 2%nat) (Some 3%nat) (scratch [c0; c1; c2; c3] g1 g2 sc)
  = Undefined (OutOfBounds k_max).
Proof.
  intros Hk Hodd Hhalf F2 F3. unfold ddm_fpt_full_leak_double_discount.
  unfold halves in Hhalf. rewrite Hhalf.
  set (k := ((k_max - 1) / 2)%Z).
  assert (Ek : (2 * k + 1 = k_max)%Z)
    by (unfold k; Z.div_mod_to_equations; lia).
  apply undefined_first.
  apply For_undefined with (mid := k)
    (I := fun j (_ : unit) s' => exists c3',
            s' = scratch [c0; c1; c2; c3'] g1 g2 sc /\
            filled_below c3' k_max j); [lia | eauto | |].
  - intros j [] s0 Hj (c3' & -> & G3).
    wp_steps. eexists. split; [reflexivity |].
    apply filled_below_next; [exact G3 | lia].
  - intros [] s0 (c3' & -> & G3). apply undefined_first.
    rewrite <- Ek. apply load_out_of_bounds with (cells := c2); [reflexivity |].
    right. rewrite (filled_below_length F2). lia.
Qed.

Lemma ddm_fpt_full_leak_odd mu sig2 b_lo b_up b_lo_deriv b_up_deriv
  inv_leak delta_t k_max g1 g2 sc :
  d_le (d_of_int 0) inv_leak = true -> d_lt (d_of_int 0) delta_t = true ->
  (1 <= k_max)%Z -> (k_max mod 2 = 1)%Z -> halves k_max ->
  length mu = Z.to_nat k_max -> length sig2 = Z.to_nat k_max ->
  all_succeed sc ->
  ddm_fpt_full_leak mu sig2 b_lo b_up b_lo_deriv b_up_deriv
    inv_leak delta_t k_max (State [] g1 g2 sc)
  = Undefined (OutOfBounds k_max).
Proof.
  intros Hleak Hdt Hk Hodd Hhalf Lmu Ls Hsc. unfold ddm_fpt_full_leak.
  apply undefined_bind, wp_assert.
  { rewrite Hleak, Hdt. apply Z.gtb_lt. lia. }
  do 4 (apply undefined_bind; apply wp_malloc;
        [ cbn [alloc_script]; auto using all_succeed_tl
        | cbn [heap st_g1 st_g2 alloc_script length app] ]).
  cbn [is_null orb].
  pose proof (filled_below_fresh (D := D) k_max) as F.
  apply undefined_bind. eapply wp_mono.
  { apply (@ddm_fpt_full_leak_cumulate_spec mu sig2 inv_leak delta_t k_max
             _ _ _ _ g1 g2 (tl (tl (tl (tl sc)))) Hk Lmu Ls F F F). }
  cbv beta. intros [] s0 (c0 & c1 & c2 & -> & T).
  apply undefined_first.
  apply ddm_fpt_full_leak_double_discount_odd; auto.
  apply T.
Qed.

(** *** ddm_fpt_full runs *)

(** [c[0] = delta_t * input[0]] and [c[k] = c[k-1] + delta_t * input[k]]. *)
Definition sum_recurrence (input : list D) (delta_t : D) c (j : Z) : Prop :=
  (exists x, nth_error input 0 = Some x /\ cell c 0 (d_mul delta_t x)) /\
  forall k, (1 <= k < j)%Z ->
    exists prev x,
      cell c (k - 1) prev /\ nth_error input (Z.to_nat k) = Some x /\
      cell c k (d_add prev (d_mul delta_t x)).

Lemma sum_recurrence_next input delta_t c j prev x :
  sum_recurrence input delta_t c j -> (1 <= j)%Z ->
  cell c (j - 1) prev -> nth_error input (Z.to_nat j) = Some x ->
  (j < Z.of_nat (length c))%Z ->
  sum_recurrence input delta_t
    (upd c (Z.to_nat j) (Some (d_add prev (d_mul delta_t x)))) (j + 1).
Proof.
  intros [(x0 & Hx0 & H0) H] Hj Hprev Hx L. split.
  - exists x0. split; [exact Hx0 |]. apply cell_upd_ne; auto; lia.
  - intros k Hk. destruct (Z.eq_dec k j) as [->|E].
    + exists prev, x. split; [| split; [exact Hx |]].
      * apply cell_upd_ne; auto; lia.
      * apply cell_upd_eq. lia.
    + destruct (H k ltac:(lia)) as (p & y & Hp & Hy & Hc).
      exists p, y. split; [| split; [exact Hy |]];
        apply cell_upd_ne; auto; lia.
Qed.

Lemma ddm_fpt_full_cumulate_spec mu sig2 delta_t k_max c0 c1 g1 g2 sc :
  (1 <= k_max)%Z ->
  length mu = Z.to_nat k_max -> length sig2 = Z.to_nat k_max ->
  filled_below c0 k_max 0 -> filled_below c1 k_max 0 ->
  wp (ddm_fpt_full_cumulate mu sig2 delta_t k_max (Some 0%nat) (Some 1%nat))
     (fun _ s' => exists c0' c1',
        s' = scratch [c0'; c1'] g1 g2 sc /\
        filled_below c0' k_max k_max /\ filled_below c1' k_max k_max /\
        sum_recurrence mu delta_t c0' k_max /\
        sum_recurrence sig2 delta_t c1' k_max)
     (scratch [c0; c1] g1 g2 sc).
Proof.
  intros Hk Lmu Ls F0 F1. unfold ddm_fpt_full_cumulate.
  pose proof (filled_below_length F0) as E0.
  pose proof (filled_below_length F1) as E1.
  wp_steps.
  eapply wp_mono.
  { apply (wp_For (fun j '(curr_cum_mu, curr_cum_sig2) s' =>
       exists c0' c1',
         s' = scratch [c0'; c1'] g1 g2 sc /\
         filled_below c0' k_max j /\ filled_below c1' k_max j /\
         sum_recurrence mu delta_t c0' j /\
         sum_recurrence sig2 delta_t c1' j /\
         cell c0' (j - 1) curr_cum_mu /\ cell c1' (j - 1) curr_cum_sig2));
      [lia | |].
    - eexists _, _. split; [reflexivity |].
      change (1 - 1)%Z with 0%Z.
      assert (C0 : forall c (x : D), length c = Z.to_nat k_max ->
                     cell (upd c (Z.to_nat 0) (Some x)) 0 x)
        by (intros; apply cell_upd_eq; lia).
      refine (conj _ (conj _ (conj _ (conj _ (conj _ _))))); auto.
      1-2: apply (filled_below_next (j := 0)); [assumption | lia].
      + split; [exists v; auto | intros k Hk'; lia].
      + split; [exists v0; auto | intros k Hk'; lia].
    - intros j [curr_cum_mu curr_cum_sig2] s0 Hj
        (c0' & c1' & -> & G0 & G1 & R0 & R1 & A0 & A1).
      pose proof (filled_below_length G0) as E0'.
      pose proof (filled_below_length G1) as E1'.
      wp_steps.
      eexists _, _. split; [reflexivity |].
      replace (j + 1 - 1)%Z with j by lia.
      refine (conj _ (conj _ (conj _ (conj _ (conj _ _))))).
      1-2: apply filled_below_next; [assumption | lia].
      1-2: apply sum_recurrence_next; auto; lia.
      1-2: apply cell_upd_eq; lia. }
  cbv beta. intros [curr_cum_mu curr_cum_sig2] s0
    (c0' & c1' & -> & G0 & G1 & R0 & R1 & _).
  wp_steps. exists c0', c1'. auto.
Qed.

Lemma ddm_fpt_full_fill_spec mu sig2 b_lo b_up b_lo_deriv b_up_deriv
  delta_t k_max c0 c1 g1 g2 sc :
  length mu = Z.to_nat k_max -> length sig2 = Z.to_nat k_max ->
  length b_lo = Z.to_nat k_max -> length b_up = Z.to_nat k_max ->
  length b_lo_deriv = Z.to_nat k_max -> length b_up_deriv = Z.to_nat k_max ->
  length g1 = Z.to_nat k_max -> length g2 = Z.to_nat k_max ->
  filled_below c0 k_max k_max -> filled_below c1 k_max k_max ->
  wp (ddm_fpt_full_fill mu sig2 b_lo b_up b_lo_deriv b_up_deriv delta_t k_max
        (Some 0%nat) (Some 1%nat))
     (fun _ s' => exists g1' g2',
        s' = scratch [c0; c1] g1' g2' sc /\
        length g1' = Z.to_nat k_max /\ length g2' = Z.to_nat k_max)
     (scratch [c0; c1] g1 g2 sc).
Proof.
  intros Lmu Ls Llo Lup Llod Lupd L1 L2 F0 F1. unfold ddm_fpt_full_fill.
  destruct (Z.le_gt_cases 0 k_max) as [Hk|Hk].
  2:{ unfold For. replace (Z.to_nat (k_max - 0)) with O by lia.
      apply wp_ret. eauto. }
  apply (wp_For (fun k (_ : unit) s' => exists g1' g2',
     s' = scratch [c0; c1] g1' g2' sc /\
     length g1' = Z.to_nat k_max /\ length g2' = Z.to_nat k_max));
    [lia | eauto |].
  intros k [] s0 Hk' (g1' & g2' & -> & L1' & L2').
  wp_steps.
  eapply wp_mono.
  { apply (wp_For (fun j (_ : D * D) s' =>
       s' = scratch [c0; c1] g1' g2' sc)); [lia | reflexivity |].
    intros j [g1_k g2_k] s0 Hj ->. wp_steps. reflexivity. }
  cbv beta. intros [g1_k g2_k] s0 ->.
  wp_steps.
  eexists _, _. split; [reflexivity |]. now rewrite !length_upd.
Qed.

Lemma ddm_fpt_full_total mu sig2 b_lo b_up b_lo_deriv b_up_deriv
  delta_t k_max g1 g2 sc :
  d_lt (d_of_int 0) delta_t = true -> (1 <= k_max)%Z ->
  length mu = Z.to_nat k_max -> length sig2 = Z.to_nat k_max ->
  length b_lo = Z.to_nat k_max -> length b_up = Z.to_nat k_max ->
  length b_lo_deriv = Z.to_nat k_max -> length b_up_deriv = Z.to_nat k_max ->
  length g1 = Z.to_nat k_max -> length g2 = Z.to_nat k_max ->
  all_succeed sc ->
  wp (ddm_fpt_full mu sig2 b_lo b_up b_lo_deriv b_up_deriv delta_t k_max)
     (fun r s' => r = 0%Z /\ live_blocks s' = [] /\
                  length (st_g1 s') = Z.to_nat k_max /\
                  length (st_g2 s') = Z.to_nat k_max)
     (State [] g1 g2 sc).
Proof.
  intros Hdt Hk Lmu Ls Llo Lup Llod Lupd L1 L2 Hsc. unfold ddm_fpt_full.
  apply wp_bind, wp_assert.
  { rewrite Hdt. apply Z.gtb_lt. lia. }
  do 2 (apply wp_bind; apply wp_malloc;
        [ cbn [alloc_script]; auto using all_succeed_tl
        | cbn [heap st_g1 st_g2 alloc_script length app] ]).
  cbn [is_null orb].
  pose proof (filled_below_fresh (D := D) k_max) as F.
  apply wp_bind. eapply wp_mono.
  { apply (@ddm_fpt_full_cumulate_spec mu sig2 delta_t k_max _ _ g1 g2
             (tl (tl sc)) Hk Lmu Ls F F). }
  cbv beta. intros [] s0 (c0 & c1 & -> & G0 & G1 & _).
  apply wp_bind. eapply wp_mono.
  { apply (@ddm_fpt_full_fill_spec mu sig2 b_lo b_up b_lo_deriv b_up_deriv
             delta_t k_max _ _ g1 g2 (tl (tl sc))
             Lmu Ls Llo Lup Llod Lupd L1 L2 G0 G1). }
  cbv beta. intros [] s0 (g1' & g2' & -> & L1' & L2').
  wp_steps. cbn. auto.
Qed.

(** *** ddm_fpt_full_leak runs when the number of steps is even *)

Lemma ddm_fpt_full_leak_fill_spec mu sig2 b_lo b_up b_lo_deriv b_up_deriv
  inv_leak delta_t k_max c0 c1 c2 c3 g1 g2 sc :
  length mu = Z.to_nat k_max -> length sig2 = Z.to_nat k_max ->
  length b_lo = Z.to_nat k_max -> length b_up = Z.to_nat k_max ->
  length b_lo_deriv = Z.to_nat k_max -> length b_up_deriv = Z.to_nat k_max ->
  length g1 = Z.to_nat k_max -> length g2 = Z.to_nat k_max ->
  filled_below c0 k_max k_max -> filled_below c1 k_max k_max ->
  filled_below c2 k_max k_max -> filled_below c3 k_max k_max ->
  wp (ddm_fpt_full_leak_fill mu sig2 b_lo b_up b_lo_deriv b_up_deriv
        inv_leak delta_t k_max
        (Some 0%nat) (Some 1%nat) (Some 2%nat) (Some 3%nat))
     (fun _ s' => exists g1' g2',
        s' = scratch [c0; c1; c2; c3] g1' g2' sc /\
        length g1' = Z.to_nat k_max /\ length g2' = Z.to_nat k_max)
     (scratch [c0; c1; c2; c3] g1 g2 sc).
Proof.
  intros Lmu Ls Llo Lup Llod Lupd L1 L2 F0 F1 F2 F3.
  unfold ddm_fpt_full_leak_fill.
  destruct (Z.le_gt_cases 0 k_max) as [Hk|Hk].
  2:{ unfold For. replace (Z.to_nat (k_max - 0)) with O by lia.
      apply wp_ret. eauto. }
  apply (wp_For (fun k (_ : unit) s' => exists g1' g2',
     s' = scratch [c0; c1; c2; c3] g1' g2' sc /\
     length g1' = Z.to_nat k_max /\ length g2' = Z.to_nat k_max));
    [lia | eauto |].
  intros k [] s0 Hk' (g1' & g2' & -> & L1' & L2').
  wp_steps.
  eapply wp_mono.
  { apply (wp_For (fun j (_ : D * D) s' =>
       s' = scratch [c0; c1; c2; c3] g1' g2' sc)); [lia | reflexivity |].
    intros j [g1_k g2_k] s0 Hj ->. wp_steps. reflexivity. }
  cbv beta. intros [g1_k g2_k] s0 ->.
  wp_steps.
  eexists _, _. split; [reflexivity |]. now rewrite !length_upd.
Qed.

Lemma ddm_fpt_full_leak_total mu sig2 b_lo b_up b_lo_deriv b_up_deriv
  inv_leak delta_t k_max g1 g2 sc :
  d_le (d_of_int 0) inv_leak = true -> d_lt (d_of_int 0) delta_t = true ->
  (2 <= k_max)%Z -> (k_max mod 2 = 0)%Z -> halves k_max ->
  length mu = Z.to_nat k_max -> length sig2 = Z.to_nat k_max ->
  length b_lo = Z.to_nat k_max -> length b_up = Z.to_nat k_max ->
  length b_lo_deriv = Z.to_nat k_max -> length b_up_deriv = Z.to_nat k_max ->
  length g1 = Z.to_nat k_max -> length g2 = Z.to_nat k_max ->
  all_succeed sc ->
  wp (ddm_fpt_full_leak mu sig2 b_lo b_up b_lo_deriv b_up_deriv
        inv_leak delta_t k_max)
     (fun r s' => r = 0%Z /\ live_blocks s' = [] /\
                  length (st_g1 s') = Z.to_nat k_max /\
                  length (st_g2 s') = Z.to_nat k_max)
     (State [] g1 g2 sc).
Proof.
  intros Hleak Hdt Hk Heven Hhalf Lmu Ls Llo Lup Llod Lupd L1 L2 Hsc.
  unfold ddm_fpt_full_leak.
  apply wp_bind, wp_assert.
  { rewrite Hleak, Hdt. apply Z.gtb_lt. lia. }
  do 4 (apply wp_bind; apply wp_malloc;
        [ cbn [alloc_script]; auto using all_succeed_tl
        | cbn [heap st_g1 st_g2 alloc_script length app] ]).
  cbn [is_null orb].
  pose proof (filled_below_fresh (D := D) k_max) as F.
  apply wp_bind. eapply wp_mono.
  { apply (@ddm_fpt_full_leak_cumulate_spec mu sig2 inv_leak delta_t k_max
             _ _ _ _ g1 g2 (tl (tl (tl (tl sc)))) ltac:(lia) Lmu Ls F F F). }
  cbv beta. intros [] s0 (c0 & c1 & c2 & -> & G0 & G1 & G2 & _).
  apply wp_bind. eapply wp_mono.
  { apply (@ddm_fpt_full_leak_double_discount_spec inv_leak delta_t k_max
             c0 c1 c2 _ g1 g2 (tl (tl (tl (tl sc)))) Hk Heven Hhalf G2 F). }
  cbv beta. intros [] s0 (c3 & -> & G3 & _).
  apply wp_bind. eapply wp_mono.
  { apply (@ddm_fpt_full_leak_fill_spec mu sig2 b_lo b_up b_lo_deriv
             b_up_deriv inv_leak delta_t k_max _ _ _ _ g1 g2
             (tl (tl (tl (tl sc))))
             Lmu Ls Llo Lup Llod Lupd L1 L2 G0 G1 G2 G3). }
  cbv beta. intros [] s0 (g1' & g2' & -> & L1' & L2').
  wp_steps. cbn. auto.
Qed.
End LeakTables.

(** ** The tables of ddm_fpt_full_leak in closed form *)

Section LeakClosedForm.
Local Open Scope R_scope.
Variables (lambda delta_t : R) (k_max : Z).
Variables (disc disc2 : list (option R)).

Let exp_leak : R := exp (- delta_t * lambda).
Let exp2_leak : R := exp (-2 * delta_t * lambda).

(** [disc[j] = exp(-lambda * delta_t * (j + 1))]. *)
Lemma disc_closed_form :
  cell disc 0 exp_leak -> geometric exp_leak disc 0 k_max ->
  forall j, (0 <= j < k_max)%Z ->
    cell disc j (exp (- lambda * delta_t * (IZR j + 1))).
Proof.
  intros H0 Hg j [Hj0 Hj]. revert Hj. pattern j.
  apply natlike_ind; [| | exact Hj0].
  - intros _. replace (- lambda * delta_t * (0 + 1)) with (- delta_t * lambda)
      by ring. exact H0.
  - intros i Hi IH Hlt. destruct (Hg (Z.succ i) ltac:(lia)) as (prev & Hp & Hc).
    replace (Z.succ i - 1)%Z with i in Hp by lia.
    rewrite (cell_inj Hp (IH ltac:(lia))) in Hc.
    unfold exp_leak in Hc. rewrite <- exp_plus in Hc.
    rewrite succ_IZR.
    replace (- lambda * delta_t * (IZR i + 1 + 1))
      with (- lambda * delta_t * (IZR i + 1) + - delta_t * lambda) by ring.
    exact Hc.
Qed.

(** [disc2[j] = exp(-2 * lambda * delta_t * (j + 1))], when the copied
    part stays inside [disc]. *)
Lemma disc2_closed_form (k : Z) :
  (0 <= k)%Z -> (2 * k + 1 < k_max)%Z ->
  cell disc 0 exp_leak -> geometric exp_leak disc 0 k_max ->
  (forall j, (0 <= j <= k)%Z ->
     exists v, cell disc (2 * j + 1) v /\ cell disc2 j v) ->
  geometric exp2_leak disc2 k k_max ->
  forall j, (0 <= j < k_max)%Z ->
    cell disc2 j (exp (-2 * lambda * delta_t * (IZR j + 1))).
Proof.
  intros Hk Hk' H0 Hg Hcopy Hg2.
  assert (Hlow : forall j, (0 <= j <= k)%Z ->
            cell disc2 j (exp (-2 * lambda * delta_t * (IZR j + 1)))).
  { intros j Hj. destruct (Hcopy j Hj) as (v & Hv & Hv2).
    assert (Hd := @disc_closed_form H0 Hg (2 * j + 1)%Z ltac:(lia)).
    rewrite (cell_inj Hv Hd) in Hv2.
    rewrite plus_IZR, mult_IZR in Hv2.
    replace (-2 * lambda * delta_t * (IZR j + 1))
      with (- lambda * delta_t * (2 * IZR j + 1 + 1)) by ring.
    exact Hv2. }
  intros j [Hj0 Hj]. revert Hj. pattern j.
  apply natlike_ind; [| | exact Hj0].
  - intros _. apply Hlow. lia.
  - intros i Hi IH Hlt. destruct (Z_le_gt_dec (Z.succ i) k) as [Hle|Hgt].
    + apply Hlow. lia.
    + destruct (Hg2 (Z.succ i) ltac:(lia)) as (prev & Hp & Hc).
      replace (Z.succ i - 1)%Z with i in Hp by lia.
      rewrite (cell_inj Hp (IH ltac:(lia))) in Hc.
      unfold exp2_leak in Hc. rewrite <- exp_plus in Hc.
      rewrite succ_IZR.
      replace (-2 * lambda * delta_t * (IZR i + 1 + 1))
        with (-2 * lambda * delta_t * (IZR i + 1) + -2 * delta_t * lambda)
        by ring.
      exact Hc.
Qed.
End LeakClosedForm.

(** What the forward pass of [ddm_fpt_full_leak] builds when the number
    of steps is even (exact real arithmetic): the two leaky sums and the
    two discount tables of the specification. *)
Theorem leak_tables_closed_form (mu sig2 : list R) (lambda delta_t : R)
  (k_max : Z) (g1 g2 : list R) (sc : list bool) :
  (2 <= k_max)%Z -> (k_max mod 2 = 0)%Z ->
  length mu = Z.to_nat k_max -> length sig2 = Z.to_nat k_max ->
  let fresh := repeat (@None R) (Z.to_nat k_max) in
  wp (bind (ddm_fpt_full_leak_cumulate mu sig2 lambda delta_t k_max
              (Some 0%nat) (Some 1%nat) (Some 2%nat))
           (fun _ => ddm_fpt_full_leak_double_discount lambda delta_t k_max
                       (Some 2%nat) (Some 3%nat)))
     (fun _ s' => exists cum_mu cum_sig2 disc disc2,
        s' = scratch [cum_mu; cum_sig2; disc; disc2] g1 g2 sc /\
        (forall k, (1 <= k < k_max)%Z ->
           exists prev mu_k,
             cell cum_mu (k - 1) prev /\
             nth_error mu (Z.to_nat k) = Some mu_k /\
             cell cum_mu k
               (exp (- lambda * delta_t) * prev + mu_k * delta_t)%R) /\
        (forall k, (1 <= k < k_max)%Z ->
           exists prev sig2_k,
             cell cum_sig2 (k - 1) prev /\
             nth_error sig2 (Z.to_nat k) = Some sig2_k /\
             cell cum_sig2 k
               (exp (-2 * lambda * delta_t) * prev + sig2_k * delta_t)%R) /\
        (forall j, (0 <= j < k_max)%Z ->
           cell disc j (exp (- lambda * delta_t * (IZR j + 1)))%R) /\
        (forall j, (0 <= j < k_max)%Z ->
           cell disc2 j (exp (-2 * lambda * delta_t * (IZR j + 1)))%R))
     (scratch [fresh; fresh; fresh; fresh] g1 g2 sc).
Proof.
  intros Hk Heven Lmu Ls fresh.
  pose proof (filled_below_fresh (D := R) k_max) as F. fold fresh in F.
  apply wp_bind. eapply wp_mono.
  { apply (@ddm_fpt_full_leak_cumulate_spec R R_ops mu sig2 lambda delta_t
             k_max _ _ _ fresh g1 g2 sc ltac:(lia) Lmu Ls F F F). }
  cbv beta. intros [] s1 (c0 & c1 & c2 & -> & T).
  destruct T as (G0 & G1 & G2 & R0 & R1 & Hd0 & Hg).
  eapply wp_mono.
  { apply (@ddm_fpt_full_leak_double_discount_spec R R_ops lambda delta_t
             k_max c0 c1 c2 fresh g1 g2 sc Hk Heven
             (@halves_R k_max ltac:(lia)) G2 F). }
  cbv beta. intros [] s2 (c3 & -> & G3 & Hcopy & Hg2).
  cbn [d_exp d_mul d_neg d_of_int R_ops] in *.
  exists c0, c1, c2, c3. split; [reflexivity |].
  split; [| split; [| split]].
  - intros k Hk'. destruct (proj2 R0 k Hk') as (prev & x & Hp & Hx & Hc).
    exists prev, x. split; [exact Hp |]. split; [exact Hx |].
    replace (exp (- lambda * delta_t) * prev + x * delta_t)%R
      with (exp (- delta_t * lambda) * prev + delta_t * x)%R; [exact Hc |].
    replace (- lambda * delta_t)%R with (- delta_t * lambda)%R by ring. ring.
  - intros k Hk'. destruct (proj2 R1 k Hk') as (prev & x & Hp & Hx & Hc).
    exists prev, x. split; [exact Hp |]. split; [exact Hx |].
    replace (exp (-2 * lambda * delta_t) * prev + x * delta_t)%R
      with (exp (-2 * delta_t * lambda) * prev + delta_t * x)%R; [exact Hc |].
    replace (-2 * lambda * delta_t)%R with (-2 * delta_t * lambda)%R by ring.
    ring.
  - intros j Hj. apply disc_closed_form with (k_max := k_max); assumption.
  - intros j Hj.
    assert (Ek : (2 * ((k_max - 1) / 2) + 2 = k_max)%Z)
      by (Z.div_mod_to_equations; lia).
    apply disc2_closed_form
      with (k_max := k_max) (disc := c2) (k := ((k_max - 1) / 2)%Z);
      try assumption; lia.
Qed.

Lemma leak_tables_closed_form_witness :
  let fresh := repeat (@None R) 2 in
  wp (bind (ddm_fpt_full_leak_cumulate [1; 1]%R [1; 1]%R (1 / 2)%R 1%R 2
              (Some 0%nat) (Some 1%nat) (Some 2%nat))
           (fun _ => ddm_fpt_full_leak_double_discount (1 / 2)%R 1%R 2
                       (Some 2%nat) (Some 3%nat)))
     (fun _ s' => exists cum_mu cum_sig2 disc disc2,
        s' = scratch [cum_mu; cum_sig2; disc; disc2] [0; 0]%R [0; 0]%R [] /\
        cell disc 1 (exp (- (1 / 2) * 1 * (1 + 1)))%R /\
        cell disc2 1 (exp (-2 * (1 / 2) * 1 * (1 + 1)))%R)
     (scratch [fresh; fresh; fresh; fresh] [0; 0]%R [0; 0]%R []).
Proof.
  intros fresh. eapply wp_mono.
  { apply (@leak_tables_closed_form [1; 1]%R [1; 1]%R (1 / 2)%R 1%R 2
             [0; 0]%R [0; 0]%R [] ltac:(lia) eq_refl eq_refl eq_refl). }
  cbv beta. intros [] s' (c0 & c1 & c2 & c3 & -> & _ & _ & Hd & Hd2).
  exists c0, c1, c2, c3. split; [reflexivity |].
  split; [apply (Hd 1%Z) | apply (Hd2 1%Z)]; lia.
Defined.
(** ** Two runs side by side *)

Section TwoRuns.
Context {D : Type}.

(** Both runs end without fault, and their results and final states are
    related by [Q]. *)
Definition wp2 {A B : Type} (m1 : M D A) (s1 : state D) (m2 : M D B)
  (s2 : state D) (Q : A -> state D -> B -> state D -> Prop) : Prop :=
  match m1 s1, m2 s2 with
  | Ok a s1', Ok b s2' => Q a s1' b s2'
  | _, _ => False
  end.

Lemma wp2_elim {A B : Type} (m1 : M D A) s1 (m2 : M D B) s2 Q :
  wp2 m1 s1 m2 s2 Q ->
  exists a s1' b s2', m1 s1 = Ok a s1' /\ m2 s2 = Ok b s2' /\ Q a s1' b s2'.
Proof.
  unfold wp2. destruct (m1 s1); try tauto. destruct (m2 s2); try tauto.
  intros H. eauto 8.
Qed.

Lemma wp2_ret {A B : Type} (a : A) (b : B) s1 s2
  (Q : A -> state D -> B -> state D -> Prop) :
  Q a s1 b s2 -> wp2 (ret a) s1 (ret b) s2 Q.
Proof. auto. Qed.

Lemma wp2_mono {A B : Type} (m1 : M D A) s1 (m2 : M D B) s2
  (Q Q' : A -> state D -> B -> state D -> Prop) :
  wp2 m1 s1 m2 s2 Q ->
  (forall a s1' b s2', Q a s1' b s2' -> Q' a s1' b s2') ->
  wp2 m1 s1 m2 s2 Q'.
Proof.
  unfold wp2. destruct (m1 s1); try tauto. destruct (m2 s2); try tauto. auto.
Qed.

Lemma wp2_bind {A A' B B' : Type} (m1 : M D A) (k1 : A -> M D A') s1
  (m2 : M D B) (k2 : B -> M D B') s2 Q :
  wp2 m1 s1 m2 s2 (fun a s1' b s2' => wp2 (k1 a) s1' (k2 b) s2' Q) ->
  wp2 (bind m1 k1) s1 (bind m2 k2) s2 Q.
Proof.
  unfold wp2, bind. destruct (m1 s1); try tauto. destruct (m2 s2); tauto.
Qed.

(** A step of the first run alone, and of the second. *)
Lemma wp2_left {A A' B : Type} (m1 : M D A) (k1 : A -> M D A') s1
  (m2 : M D B) s2 Q :
  wp m1 (fun a s1' => wp2 (k1 a) s1' m2 s2 Q) s1 ->
  wp2 (bind m1 k1) s1 m2 s2 Q.
Proof. unfold wp, wp2, bind. destruct (m1 s1); tauto. Qed.

Lemma wp2_right {A B B' : Type} (m1 : M D A) s1 (m2 : M D B)
  (k2 : B -> M D B') s2 Q :
  wp m2 (fun b s2' => wp2 m1 s1 (k2 b) s2' Q) s2 ->
  wp2 m1 s1 (bind m2 k2) s2 Q.
Proof.
  unfold wp, wp2, bind. destruct (m2 s2); try tauto.
  all: destruct (m1 s1); tauto.
Qed.

(** Two loops over the same range, iteration by iteration. *)
Lemma wp2_for_from {A B : Type}
  (I : Z -> A -> state D -> B -> state D -> Prop)
  (body1 : Z -> A -> M D A) (body2 : Z -> B -> M D B) (n : nat) (lo : Z)
  (a : A) (b : B) s1 s2 :
  I lo a s1 b s2 ->
  (forall i a s1 b s2, (lo <= i < lo + Z.of_nat n)%Z -> I i a s1 b s2 ->
     wp2 (body1 i a) s1 (body2 i b) s2 (I (i + 1)%Z)) ->
  wp2 (for_from n lo body1 a) s1 (for_from n lo body2 b) s2
      (I (lo + Z.of_nat n)%Z).
Proof.
  revert lo a b s1 s2. induction n as [|n IH]; intros lo a b s1 s2 H0 Hstep.
  - simpl. apply wp2_ret. rewrite Z.add_0_r. exact H0.
  - cbn [for_from]. apply wp2_bind.
    eapply wp2_mono; [apply Hstep; [lia | exact H0] |].
    intros a' s1' b' s2' H'.
    replace (lo + Z.of_nat (S n))%Z with (lo + 1 + Z.of_nat n)%Z by lia.
    apply IH; [exact H' |]. intros i a0 s0 b0 s0' Hi. apply Hstep. lia.
Qed.

Lemma wp2_For {A B : Type} (I : Z -> A -> state D -> B -> state D -> Prop)
  (body1 : Z -> A -> M D A) (body2 : Z -> B -> M D B) (lo hi : Z)
  (a : A) (b : B) s1 s2 :
  (lo <= hi)%Z ->
  I lo a s1 b s2 ->
  (forall i a s1 b s2, (lo <= i < hi)%Z -> I i a s1 b s2 ->
     wp2 (body1 i a) s1 (body2 i b) s2 (I (i + 1)%Z)) ->
  wp2 (For lo hi body1 a) s1 (For lo hi body2 b) s2 (I hi).
Proof.
  intros Hle H0 Hstep. unfold For.
  replace hi with (lo + Z.of_nat (Z.to_nat (hi - lo)))%Z at 3 by lia.
  apply wp2_for_from; [exact H0 |].
  intros i a0 s0 b0 s0' Hi. apply Hstep. lia.
Qed.
End TwoRuns.
(** ** ddm_fpt_full_leak without leak, on an even number of steps *)

Section ZeroLeak.
Local Open Scope R_scope.

(** Two tables hold the same values below [n]. *)
Definition agree (c c' : list (option R)) (n : Z) : Prop :=
  forall j, (0 <= j < n)%Z -> exists v, cell c j v /\ cell c' j v.

(** A table holds 1 below [n]. *)
Definition ones (c : list (option R)) (n : Z) : Prop :=
  forall j, (0 <= j < n)%Z -> cell c j 1.

(** One step of the first run, or of the second. *)
Ltac left_step := apply wp2_left; wp_step.
Ltac right_step := apply wp2_right; wp_step.

Lemma dmul_0_l (x : R) : @d_mul R R_ops 0 x = 0.
Proof. cbn. ring. Qed.
Lemma dmul_1_l (x : R) : @d_mul R R_ops 1 x = x.
Proof. cbn. ring. Qed.
Lemma dadd_0_r (x : R) : @d_add R R_ops x 0 = x.
Proof. cbn. ring. Qed.

Ltac agree_at A i :=
  let x := fresh "x" in
  let Hx := fresh "Hx" in
  let Hx' := fresh "Hx'" in
  destruct (A i ltac:(lia)) as (x & Hx & Hx'); unfold cell in Hx, Hx'.

Ltac ones_at O i :=
  let Hx := fresh "Hx" in
  pose proof (O i ltac:(lia)) as Hx; unfold cell in Hx.

(** Two reads of the same element return the same value. *)
Ltac same_reads :=
  cbn [scratch st_g1 st_g2] in *;
  repeat match goal with
         | H1 : nth_error ?l ?i = Some ?a, H2 : nth_error ?l ?i = Some ?b |- _ =>
             rewrite H1 in H2; inversion H2; subst; clear H2
         end.

(** The two backward passes, over equal sums and discounts all equal to 1,
    write the same densities. *)
Lemma fill_agree mu sig2 b_lo b_up b_lo_deriv b_up_deriv delta_t k_max
  c0 c1 c0' c1' c2 c3 g1 g2 sc sc' :
  length mu = Z.to_nat k_max -> length sig2 = Z.to_nat k_max ->
  length b_lo = Z.to_nat k_max -> length b_up = Z.to_nat k_max ->
  length b_lo_deriv = Z.to_nat k_max -> length b_up_deriv = Z.to_nat k_max ->
  length g1 = Z.to_nat k_max -> length g2 = Z.to_nat k_max ->
  filled_below c0 k_max k_max -> filled_below c1 k_max k_max ->
  filled_below c0' k_max k_max -> filled_below c1' k_max k_max ->
  filled_below c2 k_max k_max -> filled_below c3 k_max k_max ->
  agree c0 c0' k_max -> agree c1 c1' k_max ->
  ones c2 k_max -> ones c3 k_max ->
  wp2 (ddm_fpt_full_fill mu sig2 b_lo b_up b_lo_deriv b_up_deriv delta_t
         k_max (Some 0%nat) (Some 1%nat))
      (scratch [c0; c1] g1 g2 sc)
      (ddm_fpt_full_leak_fill mu sig2 b_lo b_up b_lo_deriv b_up_deriv
         0 delta_t k_max (Some 0%nat) (Some 1%nat) (Some 2%nat) (Some 3%nat))
      (scratch [c0'; c1'; c2; c3] g1 g2 sc')
      (fun _ s1 _ s2 => exists g1' g2',
         s1 = scratch [c0; c1] g1' g2' sc /\
         s2 = scratch [c0'; c1'; c2; c3] g1' g2' sc').
Proof.
  intros Lmu Ls Llo Lup Llod Lupd L1 L2 F0 F1 F0' F1' F2 F3 A0 A1 O2 O3.
  unfold ddm_fpt_full_fill, ddm_fpt_full_leak_fill.
  destruct (Z.le_gt_cases 0 k_max) as [Hk|Hk].
  2:{ unfold For. replace (Z.to_nat (k_max - 0)) with O by lia.
      apply wp2_ret. eauto. }
  eapply wp2_mono.
  { apply (wp2_For (fun k (_ : unit) s1 (_ : unit) s2 => exists g1' g2',
       s1 = scratch [c0; c1] g1' g2' sc /\
       s2 = scratch [c0'; c1'; c2; c3] g1' g2' sc' /\
       length g1' = Z.to_nat k_max /\ length g2' = Z.to_nat k_max));
      [lia | exists g1, g2; auto |].
    intros k [] s1 [] s2 Hk' (g1' & g2' & -> & -> & L1' & L2').
    do 8 left_step. do 8 right_step.
    agree_at A0 k. agree_at A1 k. same_reads.
    rewrite !dmul_0_l, !dadd_0_r.
    apply wp2_bind. eapply wp2_mono.
    { apply (wp2_For (fun j (a : R * R) s1 (b : R * R) s2 =>
         a = b /\ s1 = scratch [c0; c1] g1' g2' sc /\
         s2 = scratch [c0'; c1'; c2; c3] g1' g2' sc')); [lia | auto |].
      intros j [g1_k g2_k] s1 [g1_k' g2_k'] s2 Hj (E & -> & ->).
      injection E as <- <-.
      do 6 left_step. do 8 right_step.
      agree_at A0 j. agree_at A1 j.
      ones_at O2 (k - j - 1)%Z. ones_at O3 (k - j - 1)%Z.
      same_reads. rewrite !dmul_1_l.
      apply wp2_ret. auto. }
    cbv beta. intros [g1_k g2_k] s1 [g1_k' g2_k'] s2 (E & -> & ->).
    injection E as <- <-.
    do 2 left_step. do 2 right_step. apply wp2_ret.
    eexists _, _. split; [reflexivity |]. split; [reflexivity |].
    now rewrite !length_upd. }
  cbv beta. intros [] s1 [] s2 (g1' & g2' & -> & -> & _). eauto.
Qed.

(** A leaky sum of factor 1 is the plain sum. *)

Lemma recurrences_agree (input : list R) (factor delta_t : R) c c' (n : Z) :
  factor = 1 ->
  sum_recurrence input delta_t c n ->
  leak_recurrence input factor delta_t c' n ->
  agree c c' n.
Proof.
  intros -> [(x & Hx & H0) Hs] [(x' & Hx' & H0') Hl] j [Hj0 Hj].
  revert Hj. pattern j. apply natlike_ind; [| | exact Hj0].
  - intros _. exists (d_mul delta_t x). split; [exact H0 |].
    replace x with x' by congruence. exact H0'.
  - intros i Hi IH Hlt. destruct (IH ltac:(lia)) as (v & Hv & Hv').
    destruct (Hs (Z.succ i) ltac:(lia)) as (p & y & Hp & Hy & Hc).
    destruct (Hl (Z.succ i) ltac:(lia)) as (p' & y' & Hp' & Hy' & Hc').
    replace (Z.succ i - 1)%Z with i in Hp, Hp' by lia.
    rewrite (cell_inj Hp Hv) in Hc. rewrite (cell_inj Hp' Hv') in Hc'.
    replace y' with y in Hc' by congruence.
    rewrite dmul_1_l in Hc'. eauto.
Qed.

(** Without leak the forward pass of [ddm_fpt_full_leak] builds the sums of
    [ddm_fpt_full], and discounts equal to 1. *)
Lemma leak_tables_zero_leak (mu sig2 : list R) (delta_t : R) (k_max : Z)
  c0 c1 c0' c1' disc :
  sum_recurrence mu delta_t c0 k_max ->
  sum_recurrence sig2 delta_t c1 k_max ->
  leak_tables mu sig2 0 delta_t k_max c0' c1' disc ->
  agree c0 c0' k_max /\ agree c1 c1' k_max /\ ones disc k_max.
Proof.
  intros S0 S1 (_ & _ & _ & R0 & R1 & Hd0 & Hg).
  cbn [d_exp d_mul d_neg d_of_int R_ops] in *.
  assert (E1 : exp (- delta_t * 0) = 1)
    by (replace (- delta_t * 0) with 0 by ring; apply exp_0).
  assert (E2 : exp (IZR (-2) * delta_t * 0) = 1)
    by (replace (IZR (-2) * delta_t * 0) with 0 by ring; apply exp_0).
  split; [| split].
  - exact (@recurrences_agree _ _ _ _ _ _ E1 S0 R0).
  - exact (@recurrences_agree _ _ _ _ _ _ E2 S1 R1).
  - intros j Hj.
    pose proof (@disc_closed_form 0 delta_t k_max disc Hd0 Hg j Hj) as H.
    replace (- 0 * delta_t * (IZR j + 1)) with 0 in H by ring.
    now rewrite exp_0 in H.
Qed.

Lemma double_discount_zero_leak (delta_t : R) (k_max : Z) disc disc2 :
  (2 <= k_max)%Z -> (k_max mod 2 = 0)%Z ->
  cell disc 0 (exp (- delta_t * 0)) ->
  geometric (exp (- delta_t * 0)) disc 0 k_max ->
  double_discount_table (exp (-2 * delta_t * 0)) k_max ((k_max - 1) / 2)
    disc disc2 ->
  ones disc2 k_max.
Proof.
  intros Hk Heven Hd0 Hg (_ & Hcopy & Hg2) j Hj.
  assert (Ek : (2 * ((k_max - 1) / 2) + 2 = k_max)%Z)
    by (Z.div_mod_to_equations; lia).
  pose proof (@disc2_closed_form 0 delta_t k_max disc disc2
                ((k_max - 1) / 2)%Z ltac:(lia) ltac:(lia) Hd0 Hg Hcopy Hg2
                j Hj) as H.
  replace (-2 * 0 * delta_t * (IZR j + 1)) with 0 in H by ring.
  now rewrite exp_0 in H.
Qed.


(** Without leak, and for an even number of steps at least 2, the two
    solvers return 0 and leave the same densities in [g1] and [g2] (exact
    real arithmetic, every allocation succeeding). *)
Theorem ddm_fpt_full_leak_zero_leak_even
  (mu sig2 b_lo b_up b_lo_deriv b_up_deriv : list R) (delta_t : R)
  (k_max : Z) (g1 g2 : list R) (sc : list bool) :
  0 < delta_t -> (2 <= k_max)%Z -> (k_max mod 2 = 0)%Z ->
  length mu = Z.to_nat k_max -> length sig2 = Z.to_nat k_max ->
  length b_lo = Z.to_nat k_max -> length b_up = Z.to_nat k_max ->
  length b_lo_deriv = Z.to_nat k_max -> length b_up_deriv = Z.to_nat k_max ->
  length g1 = Z.to_nat k_max -> length g2 = Z.to_nat k_max ->
  all_succeed sc ->
  exists s s',
    ddm_fpt_full mu sig2 b_lo b_up b_lo_deriv b_up_deriv delta_t k_max
      (State [] g1 g2 sc) = Ok 0%Z s /\
    ddm_fpt_full_leak mu sig2 b_lo b_up b_lo_deriv b_up_deriv 0 delta_t k_max
      (State [] g1 g2 sc) = Ok 0%Z s' /\
    st_g1 s' = st_g1 s /\ st_g2 s' = st_g2 s.
Proof.
  intros Hdt Hk Heven Lmu Ls Llo Lup Llod Lupd L1 L2 Hsc.
  assert (Hdt' : d_lt (d_of_int 0) delta_t = true)
    by (apply Rltb_true; cbn; lra).
  assert (Hleak : d_le (d_of_int 0) (0 : R) = true)
    by (apply Rleb_true; cbn; lra).
  pose proof (filled_below_fresh (D := R) k_max) as F.
  enough (W : wp2
            (ddm_fpt_full mu sig2 b_lo b_up b_lo_deriv b_up_deriv delta_t k_max)
            (State [] g1 g2 sc)
            (ddm_fpt_full_leak mu sig2 b_lo b_up b_lo_deriv b_up_deriv
               0 delta_t k_max)
            (State [] g1 g2 sc)
            (fun r s r' s' => r = 0%Z /\ r' = 0%Z /\
               st_g1 s' = st_g1 s /\ st_g2 s' = st_g2 s)).
  { destruct (wp2_elim _ _ _ _ _ W) as (r & s & r' & s' & E & E' & -> & -> & H).
    exists s, s'. auto. }
  unfold ddm_fpt_full, ddm_fpt_full_leak.
  apply wp2_left, wp_assert.
  { rewrite Hdt'. apply Z.gtb_lt. lia. }
  do 2 (apply wp2_left; apply wp_malloc;
        [ cbn [alloc_script]; auto using all_succeed_tl
        | cbn [heap st_g1 st_g2 alloc_script length app] ]).
  cbn [is_null orb].
  apply wp2_left. eapply wp_mono.
  { apply (@ddm_fpt_full_cumulate_spec R R_ops mu sig2 delta_t k_max _ _ g1 g2
             (tl (tl sc)) ltac:(lia) Lmu Ls F F). }
  cbv beta. intros [] s0 (c0 & c1 & -> & G0 & G1 & S0 & S1).
  apply wp2_right, wp_assert.
  { rewrite Hleak, Hdt'. apply Z.gtb_lt. lia. }
  do 4 (apply wp2_right; apply wp_malloc;
        [ cbn [alloc_script]; auto using all_succeed_tl
        | cbn [heap st_g1 st_g2 alloc_script length app] ]).
  cbn [is_null orb].
  apply wp2_right. eapply wp_mono.
  { apply (@ddm_fpt_full_leak_cumulate_spec R R_ops mu sig2 0 delta_t k_max
             _ _ _ _ g1 g2 (tl (tl (tl (tl sc)))) ltac:(lia) Lmu Ls F F F). }
  cbv beta. intros [] s0 (c0' & c1' & c2 & -> & T).
  destruct (leak_tables_zero_leak S0 S1 T) as (A0 & A1 & O2).
  destruct T as (G0' & G1' & G2 & _ & _ & Hd0 & Hg).
  apply wp2_right. eapply wp_mono.
  { apply (@ddm_fpt_full_leak_double_discount_spec R R_ops 0 delta_t k_max
             c0' c1' c2 _ g1 g2 (tl (tl (tl (tl sc)))) Hk Heven
             (@halves_R k_max ltac:(lia)) G2 F). }
  cbv beta. intros [] s0 (c3 & -> & T2).
  pose proof (@double_discount_zero_leak delta_t k_max c2 c3 Hk Heven Hd0 Hg T2)
    as O3.
  destruct T2 as (G3 & _).
  apply wp2_bind. eapply wp2_mono.
  { apply (@fill_agree mu sig2 b_lo b_up b_lo_deriv b_up_deriv delta_t k_max
             c0 c1 c0' c1' c2 c3 g1 g2 (tl (tl sc)) (tl (tl (tl (tl sc))))
             Lmu Ls Llo Lup Llod Lupd L1 L2 G0 G1 G0' G1' G2 G3 A0 A1 O2 O3). }
  cbv beta. intros [] s1 [] s2 (g1' & g2' & -> & ->).
  do 2 left_step. do 4 right_step.
  apply wp2_ret. cbn. auto.
Qed.

Lemma ddm_fpt_full_leak_zero_leak_even_witness :
  exists s s',
    ddm_fpt_full [1; 1] [1; 1] [-1; -1] [1; 1] [0; 0] [0; 0] 1 2
      (State [] [0; 0] [0; 0] []) = Ok 0%Z s /\
    ddm_fpt_full_leak [1; 1] [1; 1] [-1; -1] [1; 1] [0; 0] [0; 0] 0 1 2
      (State [] [0; 0] [0; 0] []) = Ok 0%Z s' /\
    st_g1 s' = st_g1 s /\ st_g2 s' = st_g2 s.
Proof.
  apply (@ddm_fpt_full_leak_zero_leak_even
           [1; 1] [1; 1] [-1; -1] [1; 1] [0; 0] [0; 0] 1 2 [0; 0] [0; 0] []);
    try reflexivity; [lra | exact all_succeed_nil].
Defined.
End ZeroLeak.

(** ** The defects of ddm_fpt_full_leak on concrete inputs *)

Lemma zero_le_zero_R : d_le (d_of_int 0) 0%R = true.
Proof. apply Rleb_true. cbn. lra. Qed.

Lemma zero_le_half_R : d_le (d_of_int 0) (1 / 2)%R = true.
Proof. apply Rleb_true. cbn. lra. Qed.

(** C1, at a failing input: the allocation of [disc] fails, those of
    [cum_mu] and [cum_sig2] succeed.  The call does not return -1: it
    writes [disc[0]] through the null pointer, in exact as in IEEE 754
    arithmetic. *)
Theorem ddm_fpt_full_leak_untested_allocation :
  ddm_fpt_full_leak [1; 1]%R [1; 1]%R [-1; -1]%R [1; 1]%R [0; 0]%R [0; 0]%R
    0%R 1%R 2 (State [] [7; 7]%R [7; 7]%R [true; true; false; true])
  = Undefined NullPointer /\
  forall lm : libm,
    @ddm_fpt_full_leak float (float_ops lm)
      [1; 1]%float [1; 1]%float [-1; -1]%float [1; 1]%float
      [0; 0]%float [0; 0]%float 0%float 1%float 2
      (State [] [7; 7]%float [7; 7]%float [true; true; false; true])
    = Undefined NullPointer.
Proof.
  split.
  - apply ddm_fpt_full_leak_disc_null;
      [exact zero_le_zero_R | exact zero_lt_one_R | lia | discriminate
      | discriminate].
  - intros lm. vm_compute. reflexivity.
Qed.

(** C2, at a failing input: three steps and no leak.  [ddm_fpt_full]
    returns 0; [ddm_fpt_full_leak] reads [disc[3]], past the end of the
    array of three elements. *)
Theorem ddm_fpt_full_leak_zero_leak_three_steps :
  let mu := [1; 1; 1]%R in
  let sig2 := [1; 1; 1]%R in
  let b_lo := [-1; -1; -1]%R in
  let b_up := [1; 1; 1]%R in
  let deriv := [0; 0; 0]%R in
  let s := State [] [0; 0; 0]%R [0; 0; 0]%R [] in
  (exists s', ddm_fpt_full mu sig2 b_lo b_up deriv deriv 1%R 3 s = Ok 0%Z s') /\
  ddm_fpt_full_leak mu sig2 b_lo b_up deriv deriv 0%R 1%R 3 s
  = Undefined (OutOfBounds 3).
Proof.
  intros mu sig2 b_lo b_up deriv s. split.
  - destruct (wp_elim _ _ _
      (@ddm_fpt_full_total R R_ops mu sig2 b_lo b_up deriv deriv 1%R 3
         [0; 0; 0]%R [0; 0; 0]%R [] zero_lt_one_R ltac:(lia)
         eq_refl eq_refl eq_refl eq_refl eq_refl eq_refl eq_refl eq_refl
         all_succeed_nil)) as (r & s' & E & -> & _).
    now exists s'.
  - apply ddm_fpt_full_leak_odd;
      [exact zero_le_zero_R | exact zero_lt_one_R | lia | reflexivity
      | apply halves_R; lia | reflexivity | reflexivity
      | exact all_succeed_nil].
Qed.

(** The same run on doubles. *)
Example ieee_ddm_fpt_full_leak_three_steps (lm : libm) :
  @ddm_fpt_full_leak float (float_ops lm)
    [1; 1; 1]%float [1; 1; 1]%float [-1; -1; -1]%float [1; 1; 1]%float
    [0; 0; 0]%float [0; 0; 0]%float 0%float 1%float 3
    (State [] [0; 0; 0]%float [0; 0; 0]%float [])
  = Undefined (OutOfBounds 3).
Proof. vm_compute. reflexivity. Qed.

(** C7, at a failing input: three steps.  The forward pass fills
    [cum_mu], [cum_sig2] and [disc]; the pass that derives [disc2] from
    [disc] then reads [disc[3]], so [disc2[1]] and [disc2[2]] are never
    given the value the specification states. *)
Theorem ddm_fpt_full_leak_double_discount_three_steps :
  let fresh := repeat (@None R) 3 in
  let s := scratch [fresh; fresh; fresh; fresh] [0; 0; 0]%R [0; 0; 0]%R [] in
  wp (ddm_fpt_full_leak_cumulate [1; 1; 1]%R [1; 1; 1]%R (1 / 2)%R 1%R 3
        (Some 0%nat) (Some 1%nat) (Some 2%nat))
     (fun _ s' =>
        ddm_fpt_full_leak_double_discount (1 / 2)%R 1%R 3
          (Some 2%nat) (Some 3%nat) s'
        = Undefined (OutOfBounds 3)) s.
Proof.
  intros fresh s.
  pose proof (filled_below_fresh (D := R) 3) as F.
  eapply wp_mono.
  { apply (@ddm_fpt_full_leak_cumulate_spec R R_ops [1; 1; 1]%R [1; 1; 1]%R
             (1 / 2)%R 1%R 3 _ _ _ fresh [0; 0; 0]%R [0; 0; 0]%R []
             ltac:(lia) eq_refl eq_refl F F F). }
  cbv beta. intros [] s' (c0 & c1 & c2 & -> & T).
  apply ddm_fpt_full_leak_double_discount_odd;
    [lia | reflexivity | apply halves_R; lia | apply T | exact F].
Qed.

(** ** mnorm *)

Section MnormRun.
Context {D : Type} {ops : DoubleOps D}.

(** What the loop of [mnorm] leaves in a cell, and what it adds to the
    sum. *)
Definition clamp (x : D) : D := if d_lt x (d_of_int 0) then d_of_int 0 else x.

Definition add_nonneg (acc x : D) : D :=
  if d_lt x (d_of_int 0) then acc else d_add acc x.

Lemma nth_error_middle {A : Type} (l r : list A) (x : A) :
  nth_error (l ++ x :: r) (length l) = Some x.
Proof. induction l as [|h t IH]; simpl; auto. Qed.

Lemma upd_middle {A : Type} (l r : list A) (x y : A) :
  upd (l ++ x :: r) (length l) y = l ++ y :: r.
Proof. induction l as [|h t IH]; simpl; [reflexivity | now rewrite IH]. Qed.

Lemma rd_middle (l r : list D) (x : D) (s : state D) :
  rd (l ++ x :: r) (Z.of_nat (length l)) s = Ok x s.
Proof.
  unfold rd. rewrite in_bounds_true by (rewrite length_app; simpl; lia).
  now rewrite Nat2Z.id, nth_error_middle.
Qed.

Lemma get_g1_middle h (l r : list D) (x : D) g2 sc :
  get_g1 (Z.of_nat (length l)) (State h (l ++ x :: r) g2 sc)
  = Ok x (State h (l ++ x :: r) g2 sc).
Proof. unfold get_g1. apply rd_middle. Qed.

Lemma get_g2_middle h (l r : list D) (x : D) g1 sc :
  get_g2 (Z.of_nat (length l)) (State h g1 (l ++ x :: r) sc)
  = Ok x (State h g1 (l ++ x :: r) sc).
Proof. unfold get_g2. apply rd_middle. Qed.

Lemma set_g1_middle h (l r : list D) (x y : D) g2 sc :
  set_g1 (Z.of_nat (length l)) y (State h (l ++ x :: r) g2 sc)
  = Ok tt (State h (l ++ y :: r) g2 sc).
Proof.
  unfold set_g1. cbn [st_g1 st_g2 heap alloc_script].
  rewrite in_bounds_true by (rewrite length_app; simpl; lia).
  now rewrite Nat2Z.id, upd_middle.
Qed.

Lemma set_g2_middle h (l r : list D) (x y : D) g1 sc :
  set_g2 (Z.of_nat (length l)) y (State h g1 (l ++ x :: r) sc)
  = Ok tt (State h g1 (l ++ y :: r) sc).
Proof.
  unfold set_g2. cbn [st_g1 st_g2 heap alloc_script].
  rewrite in_bounds_true by (rewrite length_app; simpl; lia).
  now rewrite Nat2Z.id, upd_middle.
Qed.

(** The loop of lines 775 to 780, as a definition of its own. *)
Definition mnorm_body (i : Z) (sums : D * D) : M D (D * D) :=
  let '(g1_sum, g2_sum) := sums in
  bind (get_g1 i) (fun g1_i =>
  bind (if d_lt g1_i (d_of_int 0)
        then bind (set_g1 i (d_of_int 0)) (fun _ => ret g1_sum)
        else ret (d_add g1_sum g1_i)) (fun g1_sum =>
  bind (get_g2 i) (fun g2_i =>
  bind (if d_lt g2_i (d_of_int 0)
        then bind (set_g2 i (d_of_int 0)) (fun _ => ret g2_sum)
        else ret (d_add g2_sum g2_i)) (fun g2_sum =>
  ret (g1_sum, g2_sum))))).

Lemma mnorm_unfold (n : Z) (delta_t : D) :
  mnorm n delta_t =
  bind (For 0 n mnorm_body (d_of_int 0, d_of_int 0)) (fun sums =>
    let '(g1_sum, g2_sum) := sums in
    let p := d_div g1_sum (d_add g1_sum g2_sum) in
    bind (get_g1 (n - 1)) (fun g1_last =>
    bind (set_g1 (n - 1)
            (d_add g1_last (d_sub (d_div p delta_t) g1_sum))) (fun _ =>
    bind (get_g2 (n - 1)) (fun g2_last =>
    set_g2 (n - 1)
      (d_add g2_last
         (d_sub (d_div (d_sub (d_of_int 1) p) delta_t) g2_sum)))))).
Proof. reflexivity. Qed.

Lemma mnorm_loop h sc (rest1 rest2 done1 done2 : list D) (a1 a2 : D) :
  length rest1 = length rest2 -> length done1 = length done2 ->
  for_from (length rest1) (Z.of_nat (length done1)) mnorm_body (a1, a2)
    (State h (done1 ++ rest1) (done2 ++ rest2) sc)
  = Ok (fold_left add_nonneg rest1 a1, fold_left add_nonneg rest2 a2)
       (State h (done1 ++ map clamp rest1) (done2 ++ map clamp rest2) sc).
Proof.
  revert rest2 done1 done2 a1 a2.
  induction rest1 as [|x r1 IH]; intros [|y r2] done1 done2 a1 a2 Lr Ld;
    try discriminate.
  - reflexivity.
  - cbn [length for_from map fold_left].
    assert (Hbody :
      mnorm_body (Z.of_nat (length done1)) (a1, a2)
        (State h (done1 ++ x :: r1) (done2 ++ y :: r2) sc)
      = Ok (add_nonneg a1 x, add_nonneg a2 y)
           (State h (done1 ++ clamp x :: r1) (done2 ++ clamp y :: r2) sc)).
    { unfold mnorm_body, bind at 1. rewrite get_g1_middle.
      unfold add_nonneg, clamp.
      destruct (d_lt x (d_of_int 0)).
      - unfold bind at 1. unfold bind at 1. rewrite set_g1_middle.
        unfold ret at 1. unfold bind at 1. rewrite Ld, get_g2_middle.
        destruct (d_lt y (d_of_int 0)).
        + unfold bind. now rewrite set_g2_middle.
        + reflexivity.
      - unfold bind at 1. unfold ret at 1. unfold bind at 1.
        rewrite Ld, get_g2_middle.
        destruct (d_lt y (d_of_int 0)).
        + unfold bind. now rewrite set_g2_middle.
        + reflexivity. }
    unfold bind at 1. rewrite Hbody.
    replace (Z.of_nat (length done1) + 1)%Z
      with (Z.of_nat (length (done1 ++ [clamp x])))
      by (rewrite length_app; simpl; lia).
    replace (done1 ++ clamp x :: r1) with ((done1 ++ [clamp x]) ++ r1)
      by (now rewrite <- app_assoc).
    replace (done2 ++ clamp y :: r2) with ((done2 ++ [clamp y]) ++ r2)
      by (now rewrite <- app_assoc).
    rewrite IH; [| now injection Lr | rewrite !length_app; simpl; lia].
    now rewrite <- !app_assoc.
Qed.

(** [mnorm] in closed form, on arrays of equal length written as
    [init ++ [last]]. *)
Lemma mnorm_run h sc (init1 init2 : list D) (last1 last2 delta_t : D) :
  length init1 = length init2 ->
  let g1 := init1 ++ [last1] in
  let g2 := init2 ++ [last2] in
  let g1_sum := fold_left add_nonneg g1 (d_of_int 0) in
  let g2_sum := fold_left add_nonneg g2 (d_of_int 0) in
  let p := d_div g1_sum (d_add g1_sum g2_sum) in
  mnorm (Z.of_nat (length g1)) delta_t (State h g1 g2 sc)
  = Ok tt
      (State h
         (map clamp init1 ++
            [d_add (clamp last1) (d_sub (d_div p delta_t) g1_sum)])
         (map clamp init2 ++
            [d_add (clamp last2)
               (d_sub (d_div (d_sub (d_of_int 1) p) delta_t) g2_sum)])
         sc).
Proof.
  intros L g1 g2 g1_sum g2_sum p. rewrite mnorm_unfold.
  assert (Lg : length g1 = length g2)
    by (unfold g1, g2; rewrite !length_app; simpl; lia).
  unfold bind at 1. unfold For.
  replace (Z.to_nat (Z.of_nat (length g1) - 0)) with (length g1) by lia.
  pose proof (@mnorm_loop h sc g1 g2 [] [] (d_of_int 0) (d_of_int 0) Lg eq_refl)
    as Hloop.
  cbn [length app Z.of_nat] in Hloop. rewrite Hloop.
  fold g1_sum g2_sum. cbv zeta. fold p.
  unfold g1, g2. rewrite !map_app. cbn [map].
  replace (Z.of_nat (length (init1 ++ [last1])) - 1)%Z
    with (Z.of_nat (length (map clamp init1)))
    by (rewrite length_app, length_map; simpl; lia).
  unfold bind at 1. rewrite get_g1_middle.
  unfold bind at 1. rewrite set_g1_middle.
  replace (length (map clamp init1)) with (length (map clamp init2))
    by (rewrite !length_map; lia).
  unfold bind at 1. rewrite get_g2_middle.
  now rewrite set_g2_middle.
Qed.
End MnormRun.

(** *** mnorm in exact arithmetic *)


Lemma clamp_R (x : R) : clamp x = Rmax 0 x.
Proof.
  unfold clamp. cbn. unfold Rltb, Rmax.
  destruct (Rlt_dec x 0); destruct (Rle_dec 0 x); lra.
Qed.


Lemma add_nonneg_R (acc x : R) : add_nonneg acc x = (acc + clamp x)%R.
Proof.
  unfold add_nonneg, clamp. cbn. unfold Rltb.
  destruct (Rlt_dec x 0); lra.
Qed.







(** C6, at a failing input: the mass of the input is more than 1.  The
    last element of [g1] comes out negative, in exact as in IEEE 754
    arithmetic. *)
Theorem mnorm_negative_output :
  mnorm 2 1%R (State [] [10; 0]%R [0; 0]%R [])
  = Ok tt (State [] [10; -9]%R [0; 0]%R []) /\
  forall lm : libm,
    @mnorm float (float_ops lm) 2 1%float
      (State [] [10; 0]%float [0; 0]%float [])
    = Ok tt (State [] [10; -9]%float [0; 0]%float []).
Proof.
  split.
  - pose proof (@mnorm_run R R_ops [] [] [10]%R [0]%R 0%R 0%R 1%R eq_refl) as H.
    cbv zeta in H. cbn [app length Z.of_nat Pos.of_succ_nat Pos.succ] in H.
    rewrite H. clear H.
    cbn [map app fold_left]. rewrite !add_nonneg_R.
    assert (C : forall x : R, (0 <= x)%R -> clamp x = x)
      by (intros x Hx; rewrite clamp_R; now apply Rmax_right).
    rewrite !C by lra. cbn [d_of_int d_add d_sub d_div R_ops].
    repeat f_equal; field.
  - intros lm. vm_compute. reflexivity.
Qed.

(** ** The series *)

(** C5: at [t = 0] both fast series return 0, whatever [w] and [tol]
    are, before any loop is entered (exact real arithmetic). *)
Theorem fastseries_at_zero (fuel : nat) (w tol : R) :
  fpt_asymfastseries fuel 0%R w tol = Some 0%R /\
  fpt_symfastseries fuel 0%R tol = Some 0%R.
Proof.
  unfold fpt_asymfastseries, fpt_symfastseries. cbn [d_eq d_of_int R_ops].
  unfold Reqb. destruct (Req_dec_T 0 0) as [_|H]; [split; reflexivity |].
  now contradiction H.
Qed.

(** The same on doubles, for the two zeros of IEEE 754. *)
Theorem ieee_fastseries_at_zero (lm : libm) (fuel : nat) (w tol : float) :
  @fpt_asymfastseries float (float_ops lm) fuel 0%float w tol = Some 0%float /\
  @fpt_symfastseries float (float_ops lm) fuel 0%float tol = Some 0%float /\
  @fpt_asymfastseries float (float_ops lm) fuel (-0)%float w tol = Some 0%float /\
  @fpt_symfastseries float (float_ops lm) fuel (-0)%float tol = Some 0%float.
Proof. repeat split. Qed.

(** *** Terms that fall below any tolerance *)

Lemma exp_decay (y : R) : (0 <= y)%R -> (exp (- y) <= / (1 + y))%R.
Proof.
  intros Hy. rewrite exp_Ropp.
  apply Rinv_le_contravar; [lra | apply exp_ineq1_le].
Qed.

Lemma decay_bound (x c : R) :
  (0 < x)%R -> (0 < c)%R -> (x * exp (- (x * x * c)) < / (x * c))%R.
Proof.
  intros Hx Hc.
  assert (Hy : (0 < x * x * c)%R) by (apply Rmult_lt_0_compat; nra).
  pose proof (exp_decay (y := (x * x * c)%R) ltac:(lra)) as H.
  assert (H' : (/ (1 + x * x * c) < / (x * x * c))%R)
    by (apply Rinv_lt_contravar; nra).
  replace (/ (x * c))%R with (x * / (x * x * c))%R by (field; lra).
  apply Rmult_lt_compat_l; lra.
Qed.

Lemma eventually_small (c tol : R) :
  (0 < c)%R -> (0 < tol)%R ->
  exists N : Z, (1 <= N)%Z /\
    forall x, (IZR N <= x)%R -> (x * exp (- (x * x * c)) < tol)%R.
Proof.
  intros Hc Htol.
  exists (Z.max 1 (up (/ (c * tol)))). split; [lia |].
  intros x Hx.
  assert (H1 : (1 <= x)%R).
  { eapply Rle_trans; [| exact Hx]. apply IZR_le. lia. }
  assert (H2 : (/ (c * tol) < x)%R).
  { eapply Rlt_le_trans; [apply (archimed (/ (c * tol))) |].
    eapply Rle_trans; [| exact Hx]. apply IZR_le. lia. }
  eapply Rlt_trans; [apply decay_bound; lra |].
  assert (Hct : (0 < c * tol)%R) by (apply Rmult_lt_0_compat; assumption).
  assert (H3 : (1 < x * (c * tol))%R).
  { replace 1%R with (/ (c * tol) * (c * tol))%R by (field; lra).
    apply Rmult_lt_compat_r; assumption. }
  assert (Hxc : (0 < x * c)%R) by (apply Rmult_lt_0_compat; lra).
  apply Rmult_lt_reg_r with (x * c)%R; [exact Hxc |].
  rewrite Rinv_l by lra. lra.
Qed.


(** *** The loops end *)

Section SeriesTermination.
Local Open Scope R_scope.

Lemma PI_pos : 0 < @PI R R_ops.
Proof.
  unfold PI. cbn [d_pi R_ops].
  apply Rdiv_lt_0_compat; [lra | apply pow_lt; lra].
Qed.










(** The term the loop of [fpt_symseries] subtracts or adds at [twok]. *)
Definition symseries_incr (a : R) (twok : Z) : R :=
  IZR twok * exp (IZR (- (twok * twok)) * a).

Lemma fpt_symseries_loop_step (fuel : nat) (a b tol f : R) (twok : Z) :
  fpt_symseries_loop (S fuel) a b tol f twok =
  let incr1 := symseries_incr a twok in
  let incr2 := symseries_incr a (twok + 2) in
  if Rltb incr1 tol then Some ((f - incr1) * b)
  else if Rltb incr2 tol then Some ((f - incr1 + incr2) * b)
       else fpt_symseries_loop fuel a b tol (f - incr1 + incr2) (twok + 2 + 2).
Proof. reflexivity. Qed.

Lemma fpt_symseries_loop_search (a b tol : R) (n : nat) :
  forall (f : R) (twok : Z),
    Rltb (symseries_incr a (twok + 4 * Z.of_nat n)) tol = true ->
    exists fuel v, forall fuel', (fuel <= fuel')%nat ->
      fpt_symseries_loop fuel' a b tol f twok = Some v.
Proof.
  induction n as [|n IH]; intros f twok Hn.
  - replace (twok + 4 * Z.of_nat 0)%Z with twok in Hn by lia.
    eexists 1%nat, _. intros [|fuel'] Hf; [lia |].
    rewrite fpt_symseries_loop_step. cbv zeta. rewrite Hn. reflexivity.
  - destruct (Rltb (symseries_incr a twok) tol) eqn:H1.
    { eexists 1%nat, _. intros [|fuel'] Hf; [lia |].
      rewrite fpt_symseries_loop_step. cbv zeta. rewrite H1. reflexivity. }
    destruct (Rltb (symseries_incr a (twok + 2)) tol) eqn:H2.
    { eexists 1%nat, _. intros [|fuel'] Hf; [lia |].
      rewrite fpt_symseries_loop_step. cbv zeta. rewrite H1, H2.
      reflexivity. }
    replace (twok + 4 * Z.of_nat (S n))%Z
      with (twok + 2 + 2 + 4 * Z.of_nat n)%Z in Hn by lia.
    destruct (IH (f - symseries_incr a twok + symseries_incr a (twok + 2))
                 (twok + 2 + 2)%Z Hn) as (fuel & v & Hv).
    exists (S fuel), v. intros [|fuel'] Hf; [lia |].
    rewrite fpt_symseries_loop_step. cbv zeta. rewrite H1, H2.
    apply Hv. lia.
Qed.

Lemma fpt_symseries_terminates (t a b tol : R) :
  0 < a -> 0 < b -> 0 < tol ->
  exists fuel v, forall fuel', (fuel <= fuel')%nat ->
    fpt_symseries fuel' t a b tol = Some v.
Proof.
  intros Ha Hb Htol. unfold fpt_symseries.
  cbn [d_mul d_neg d_exp R_ops].
  assert (Htol' : 0 < tol * b) by (apply Rmult_lt_0_compat; lra).
  destruct (eventually_small Ha Htol') as (N & HN & Hsmall).
  apply fpt_symseries_loop_search with (n := Z.to_nat N).
  apply Rltb_true. unfold symseries_incr.
  set (twok := (3 + 4 * Z.of_nat (Z.to_nat N))%Z).
  replace (IZR (- (twok * twok)) * a) with (- (IZR twok * IZR twok * a))
    by (rewrite opp_IZR, mult_IZR; ring).
  apply Hsmall. apply IZR_le. lia.
Qed.



Lemma fpt_symfastseries_terminates (t tol : R) :
  0 < t -> 0 < tol ->
  exists fuel v, forall fuel', (fuel <= fuel')%nat ->
    fpt_symfastseries fuel' t tol = Some v.
Proof.
  intros Ht Htol. pose proof PI_pos as Hpi. unfold fpt_symfastseries.
  destruct (d_eq t (d_of_int 0)); [exists 0%nat; eauto |].
  destruct (useshorttseries t tol); apply fpt_symseries_terminates; auto;
    cbn [d_mul d_div d_of_int d_pow d_sqrt R_ops].
  - apply Rdiv_lt_0_compat; lra.
  - apply Rdiv_lt_0_compat; [lra |]. apply sqrt_lt_R0.
    apply Rmult_lt_0_compat; [lra | apply exp_pos].
  - unfold PISQR. cbn [d_mul R_ops].
    apply Rdiv_lt_0_compat; [| lra]. repeat apply Rmult_lt_0_compat; lra.
Qed.



End SeriesTermination.

(** * Further properties of the library *)

(** ** Allocation failures in the solvers that test every pointer *)

Tactic Notation "failed_allocation" integer(n) :=
  apply wp_bind, wp_assert;
  [ repeat match goal with H : _ = true |- _ => rewrite H end;
    apply Z.gtb_lt; lia
  | do n (apply wp_bind; apply wp_malloc_script with (1 := eq_refl);
          cbn [heap st_g1 st_g2 alloc_script length app]) ].

Section AllocationFailure.
Context {D : Type} {ops : DoubleOps D}.
Variables (delta_t : D) (k_max : Z) (g1 g2 : list D).
Hypothesis delta_t_pos : d_lt (d_of_int 0) delta_t = true.
Hypothesis k_max_pos : (0 < k_max)%Z.

(** What a call that reports an allocation failure leaves behind. *)
Definition reports_failure (m : M D Z) (script : list bool) : Prop :=
  exists s', m (State [] g1 g2 script) = Ok (-1)%Z s' /\
             st_g1 s' = g1 /\ st_g2 s' = g2 /\ live_blocks s' = [].

Lemma reports_failure_intro (m : M D Z) (script : list bool) :
  wp m (fun r s' => r = (-1)%Z /\ st_g1 s' = g1 /\ st_g2 s' = g2 /\
                    live_blocks s' = []) (State [] g1 g2 script) ->
  reports_failure m script.
Proof.
  intros W. destruct (wp_elim _ _ _ W) as (r & s' & E & -> & H). now exists s'.
Qed.

Lemma ddm_fpt_full_failed_allocation mu sig2 b_lo b_up b_lo_deriv b_up_deriv
  (a1 a2 : bool) (rest : list bool) :
  a1 && a2 = false ->
  reports_failure
    (ddm_fpt_full mu sig2 b_lo b_up b_lo_deriv b_up_deriv delta_t k_max)
    (a1 :: a2 :: rest).
Proof.
  intros Ha. apply reports_failure_intro. unfold ddm_fpt_full.
  failed_allocation 2.
  destruct a1, a2; try discriminate; cbn; auto.
Qed.

Lemma ddm_fpt_failed_allocation mu bound (a1 a2 a3 a4 : bool)
  (rest : list bool) :
  a1 && a2 && a3 && a4 = false ->
  reports_failure (ddm_fpt mu bound delta_t k_max)
    (a1 :: a2 :: a3 :: a4 :: rest).
Proof.
  intros Ha. apply reports_failure_intro. unfold ddm_fpt.
  failed_allocation 4.
  destruct a1, a2, a3, a4; try discriminate; cbn; auto.
Qed.

Lemma ddm_fpt_const_mu_failed_allocation mu bound (a1 a2 a3 : bool)
  (rest : list bool) :
  d_lt (d_of_int 0) mu = true ->
  a1 && a2 && a3 = false ->
  reports_failure (ddm_fpt_const_mu mu bound delta_t k_max)
    (a1 :: a2 :: a3 :: rest).
Proof.
  intros Hmu Ha. apply reports_failure_intro. unfold ddm_fpt_const_mu.
  failed_allocation 3.
  destruct a1, a2, a3; try discriminate; cbn; auto.
Qed.

Lemma ddm_fpt_w_failed_allocation mu bound k (a1 a2 a3 : bool)
  (rest : list bool) :
  a1 && a2 && a3 = false ->
  reports_failure (ddm_fpt_w mu bound k delta_t k_max)
    (a1 :: a2 :: a3 :: rest).
Proof.
  intros Ha. apply reports_failure_intro. unfold ddm_fpt_w.
  failed_allocation 3.
  destruct a1, a2, a3; try discriminate; cbn; auto.
Qed.
End AllocationFailure.

(** In [ddm_fpt_full], [ddm_fpt], [ddm_fpt_const_mu] and [ddm_fpt_w] a
    failure of any of the allocations is reported: the call returns -1,
    [g1] and [g2] are as they were, and no block stays allocated. *)
Theorem failed_allocation_reported {D : Type} {ops : DoubleOps D}
  (mu sig2 b_lo b_up b_lo_deriv b_up_deriv bound : list D)
  (mu_const k delta_t : D) (k_max : Z) (g1 g2 : list D)
  (a1 a2 a3 a4 : bool) (rest : list bool) :
  d_lt (d_of_int 0) delta_t = true -> d_lt (d_of_int 0) mu_const = true ->
  (0 < k_max)%Z ->
  (a1 && a2 = false ->
   reports_failure g1 g2
     (ddm_fpt_full mu sig2 b_lo b_up b_lo_deriv b_up_deriv delta_t k_max)
     (a1 :: a2 :: rest)) /\
  (a1 && a2 && a3 && a4 = false ->
   reports_failure g1 g2 (ddm_fpt mu bound delta_t k_max)
     (a1 :: a2 :: a3 :: a4 :: rest)) /\
  (a1 && a2 && a3 = false ->
   reports_failure g1 g2 (ddm_fpt_const_mu mu_const bound delta_t k_max)
     (a1 :: a2 :: a3 :: rest)) /\
  (a1 && a2 && a3 = false ->
   reports_failure g1 g2 (ddm_fpt_w mu bound k delta_t k_max)
     (a1 :: a2 :: a3 :: rest)).
Proof.
  intros Hdt Hmu Hk. split; [| split; [| split]]; intros Ha.
  - now apply ddm_fpt_full_failed_allocation.
  - now apply ddm_fpt_failed_allocation.
  - now apply ddm_fpt_const_mu_failed_allocation.
  - now apply ddm_fpt_w_failed_allocation.
Qed.

Lemma failed_allocation_reported_witness :
  reports_failure [0; 0]%R [0; 0]%R
    (ddm_fpt [1; 1]%R [1; 1]%R 1%R 2) [true; true; false; true].
Proof.
  apply (@failed_allocation_reported R R_ops
           [1; 1]%R [1; 1]%R [-1; -1]%R [1; 1]%R [0; 0]%R [0; 0]%R [1; 1]%R
           1%R 1%R 1%R 2 [0; 0]%R [0; 0]%R true true false true []
           zero_lt_one_R zero_lt_one_R ltac:(lia)).
  reflexivity.
Defined.

(** The two allocations [ddm_fpt_full_leak] does test. *)
Lemma ddm_fpt_full_leak_tested_allocations_witness :
  exists s',
    ddm_fpt_full_leak [1; 1]%R [1; 1]%R [-1; -1]%R [1; 1]%R [0; 0]%R [0; 0]%R
      0%R 1%R 2 (State [] [7; 7]%R [7; 7]%R [true; false; true; true])
    = Ok (-1)%Z s' /\
    st_g1 s' = [7; 7]%R /\ st_g2 s' = [7; 7]%R /\ live_blocks s' = [].
Proof.
  apply (@ddm_fpt_full_leak_tested_allocations R R_ops
           [1; 1]%R [1; 1]%R [-1; -1]%R [1; 1]%R [0; 0]%R [0; 0]%R
           0%R 1%R 2 [7; 7]%R [7; 7]%R zero_le_zero_R zero_lt_one_R ltac:(lia)
           true false true true []).
  reflexivity.
Defined.

(** ** The part of the output arrays a solver writes *)

Section Frame.
Context {D : Type} {ops : DoubleOps D}.
Variables g1_0 g2_0 : list D.

(** The arrays have the length of [g1_0] and [g2_0], and hold the same
    elements from index [k] on. *)
Definition unchanged_from (k : Z) (g1 g2 : list D) : Prop :=
  length g1 = length g1_0 /\ length g2 = length g2_0 /\
  forall i, (k <= i)%Z ->
    nth_error g1 (Z.to_nat i) = nth_error g1_0 (Z.to_nat i) /\
    nth_error g2 (Z.to_nat i) = nth_error g2_0 (Z.to_nat i).

Lemma unchanged_from_start : unchanged_from 0 g1_0 g2_0.
Proof. repeat split. Qed.

Lemma unchanged_from_step (k : Z) (g1 g2 : list D) (x y : D) :
  (0 <= k)%Z -> unchanged_from k g1 g2 ->
  unchanged_from (k + 1) (upd g1 (Z.to_nat k) x) (upd g2 (Z.to_nat k) y).
Proof.
  intros Hk (L1 & L2 & H). split; [| split].
  - now rewrite length_upd.
  - now rewrite length_upd.
  - intros i Hi. rewrite !nth_error_upd_ne by lia. apply H. lia.
Qed.

Lemma run_solver_unchanged_from (c : solver_call D) (s : state D) :
  st_g1 s = g1_0 -> st_g2 s = g2_0 ->
  wlp (run_solver c)
      (fun r s' => r = 0%Z ->
                   unchanged_from (steps c) (st_g1 s') (st_g2 s')) s.
Proof.
  intros E1 E2.
  assert (H0 : unchanged_from 0 (st_g1 s) (st_g2 s))
    by (rewrite E1, E2; exact unchanged_from_start).
  assert (Hc : forall k_max, clamp_step unchanged_from k_max)
    by (intros k_max k g1 g2 a b Hk H L1 L2;
        apply unchanged_from_step; [lia | exact H]).
  assert (Hr : forall bound f k_max, reflect_step unchanged_from bound f k_max)
    by (intros bound f k_max k g1 g2 a bk Hk _ H L1 L2;
        apply unchanged_from_step; [lia | exact H]).
  destruct c; cbn [run_solver steps].
  - apply ddm_fpt_full_writes; auto.
  - apply ddm_fpt_full_leak_writes; auto.
  - apply ddm_fpt_writes; auto.
  - apply ddm_fpt_const_mu_writes; auto.
  - apply wlp_bind. eapply wlp_mono.
    + apply (ddm_fpt_const_writes (J := unchanged_from)); auto.
    + cbv beta. intros _ s' H. apply wlp_ret. auto.
  - apply ddm_fpt_w_writes; auto.
Qed.
End Frame.

(** A successful call of any of the six solvers writes the elements of
    index 0 to [k_max - 1] of [g1] and [g2] only: the arrays keep their
    lengths and their elements from index [k_max] on, in any arithmetic. *)
Theorem solver_writes_first_steps_only {D : Type} {ops : DoubleOps D}
  (c : solver_call D) (s s' : state D) :
  run_solver c s = Ok 0%Z s' ->
  length (st_g1 s') = length (st_g1 s) /\
  length (st_g2 s') = length (st_g2 s) /\
  forall i, (steps c <= i)%Z ->
    nth_error (st_g1 s') (Z.to_nat i) = nth_error (st_g1 s) (Z.to_nat i) /\
    nth_error (st_g2 s') (Z.to_nat i) = nth_error (st_g2 s) (Z.to_nat i).
Proof.
  intros Hrun.
  exact (wlp_elim _ _ _
           (@run_solver_unchanged_from D ops (st_g1 s) (st_g2 s) c s
              eq_refl eq_refl) Hrun eq_refl).
Qed.

(** A [libm] whose functions are constant, to run the code on doubles. *)
Definition constant_libm : libm :=
  {| m_exp := fun _ => 1%float; m_log := fun _ => 0%float;
     m_sin := fun _ => 0%float; m_pow := fun _ _ => 1%float |}.

Lemma solver_writes_first_steps_only_witness :
  exists s',
    @run_solver float (float_ops constant_libm)
      (call_ddm_fpt_full [1]%float [1]%float [-1]%float [1]%float
                         [0]%float [0]%float 1%float 1)
      (State [] [5; 7]%float [5; 7]%float []) = Ok 0%Z s' /\
    nth_error (st_g1 s') 1 = Some 7%float /\
    nth_error (st_g2 s') 1 = Some 7%float.
Proof.
  eexists. split; [vm_compute; reflexivity |].
  refine (let H := @solver_writes_first_steps_only float
                     (float_ops constant_libm)
                     (call_ddm_fpt_full [1]%float [1]%float [-1]%float
                        [1]%float [0]%float [0]%float 1%float 1)
                     (State [] [5; 7]%float [5; 7]%float []) _ _ in _).
  Unshelve. 3:{ vm_compute. reflexivity. }
  exact (proj2 (proj2 H) 1%Z ltac:(cbn; lia)).
Defined.

Lemma ieee_solver_outputs_nonneg_witness :
  exists s',
    @run_solver float (float_ops constant_libm)
      (call_ddm_fpt [1; 1]%float [1; 2]%float 1%float 2)
      (State [] [0; 0]%float [0; 0]%float []) = Ok 0%Z s' /\
    forall i, (0 <= i < 2)%Z ->
      exists v w, nth_error (st_g1 s') (Z.to_nat i) = Some v /\
                  nth_error (st_g2 s') (Z.to_nat i) = Some w /\
                  PrimFloat.leb 0 v = true /\ PrimFloat.leb 0 w = true.
Proof.
  eexists. split; [vm_compute; reflexivity |].
  apply (@ieee_solver_outputs_nonneg constant_libm
           (call_ddm_fpt [1; 1]%float [1; 2]%float 1%float 2)
           (State [] [0; 0]%float [0; 0]%float [])).
  vm_compute. reflexivity.
Defined.

(** ** The lower density of the solvers with constant drift *)




(** ** ddm_fpt_const *)

Section ConstSolver.
Local Open Scope R_scope.




(** *** The calls return *)

Lemma Rltb_true_R (x : R) : 0 < x -> d_lt (d_of_int 0) x = true.
Proof. intros H. apply Rltb_true. exact H. Qed.

Lemma SERIES_ACC_pos : 0 < @SERIES_ACC R R_ops.
Proof.
  unfold SERIES_ACC. cbn [d_series_acc R_ops].
  apply Rinv_0_lt_compat, pow_lt. lra.
Qed.

Lemma Reqb_refl (x : R) : Reqb x x = true.
Proof. unfold Reqb. destruct (Req_dec_T x x); [reflexivity | congruence]. Qed.


Lemma fpt_symfastseries_returns (t tol : R) :
  0 <= t -> 0 < tol ->
  exists fuel v, forall fuel', (fuel <= fuel')%nat ->
    fpt_symfastseries fuel' t tol = Some v.
Proof.
  intros [Ht| <-] Htol; [now apply fpt_symfastseries_terminates |].
  exists 0%nat, 0. intros fuel' _. unfold fpt_symfastseries.
  cbn [d_eq d_of_int R_ops]. now rewrite Reqb_refl.
Qed.

Lemma scaled_time_nonneg (t c1 : R) : 0 <= t -> 0 < c1 -> 0 <= d_div t c1.
Proof.
  intros Ht Hc. cbn [d_div R_ops]. apply Rmult_le_pos; [exact Ht |].
  apply Rlt_le, Rinv_0_lt_compat, Hc.
Qed.



Lemma fpt_symup_returns (t c1 c2 c3 : R) :
  0 <= t -> 0 < c1 ->
  exists fuel v, forall fuel', (fuel <= fuel')%nat ->
    fpt_symup fuel' t c1 c2 c3 = Some v.
Proof.
  intros Ht Hc.
  destruct (@fpt_symfastseries_returns (d_div t c1) SERIES_ACC
              (scaled_time_nonneg Ht Hc) SERIES_ACC_pos) as (fuel & v & Hv).
  eexists fuel, _. intros fuel' Hf. unfold fpt_symup.
  rewrite (Hv fuel' Hf). reflexivity.
Qed.



(** One iteration of the loop of [ddm_fpt_const]. *)
Definition ddm_fpt_const_step (fuel : nat) (mu bound delta_t : R) (i : Z)
  (t : R) : M R R :=
  bind (lift_fuel (fpt_symup fuel t
          (d_mul (d_of_int 4) (d_mul bound bound))
          (d_div (d_mul mu mu) (d_of_int 2)) (d_mul mu bound)))
    (fun g =>
       bind (set_g1 i (MAX g (d_of_int 0)))
         (fun _ =>
            bind (set_g2 i
                    (MAX (d_mul (d_exp (d_mul (d_of_int (-2))
                                          (d_mul mu bound))) g)
                         (d_of_int 0)))
              (fun _ => ret (d_add t delta_t)))).

Lemma ddm_fpt_const_unfold (fuel : nat) (mu bound delta_t : R) (k_max : Z) :
  ddm_fpt_const fuel mu bound delta_t k_max =
  bind (assert_ (d_lt (d_of_int 0) mu && d_lt (d_of_int 0) bound &&
                 d_lt (d_of_int 0) delta_t && (k_max >? 0)%Z))
    (fun _ =>
       bind (For 0 k_max (ddm_fpt_const_step fuel mu bound delta_t) delta_t)
         (fun _ => ret tt)).
Proof. reflexivity. Qed.

Lemma ddm_fpt_const_step_runs (fuel : nat) (mu bound delta_t : R) (i : Z)
  (t g : R) h (g1 g2 : list R) sc :
  fpt_symup fuel t (d_mul (d_of_int 4) (d_mul bound bound))
    (d_div (d_mul mu mu) (d_of_int 2)) (d_mul mu bound) = Some g ->
  (0 <= i < Z.of_nat (length g1))%Z -> (0 <= i < Z.of_nat (length g2))%Z ->
  ddm_fpt_const_step fuel mu bound delta_t i t (State h g1 g2 sc)
  = Ok (t + delta_t)
       (State h (upd g1 (Z.to_nat i) (MAX g (d_of_int 0)))
                (upd g2 (Z.to_nat i)
                   (MAX (exp (-2 * (mu * bound)) * g) (d_of_int 0))) sc).
Proof.
  intros Hg L1 L2.
  unfold ddm_fpt_const_step, bind, lift_fuel, set_g1, set_g2, ret.
  rewrite Hg. cbn [st_g1 st_g2 heap alloc_script].
  rewrite !in_bounds_true by assumption. reflexivity.
Qed.

Lemma ddm_fpt_const_loop_returns (mu bound delta_t : R) (n : nat) :
  0 < bound -> 0 < delta_t ->
  forall (i : Z) (t : R) h (g1 g2 : list R) sc,
    (0 <= i)%Z -> 0 < t ->
    (i + Z.of_nat n <= Z.of_nat (length g1))%Z ->
    (i + Z.of_nat n <= Z.of_nat (length g2))%Z ->
    exists fuel t' g1' g2',
      length g1' = length g1 /\ length g2' = length g2 /\
      forall fuel', (fuel <= fuel')%nat ->
        for_from n i (ddm_fpt_const_step fuel' mu bound delta_t) t
          (State h g1 g2 sc)
        = Ok t' (State h g1' g2' sc).
Proof.
  intros Hb Hdt. induction n as [|n IH]; intros i t h g1 g2 sc Hi Ht L1 L2.
  - exists 0%nat, t, g1, g2. repeat split.
  - assert (Hc1 : 0 < d_mul (d_of_int 4) (d_mul bound bound)).
    { cbn [d_mul d_of_int R_ops]. nra. }
    destruct (@fpt_symup_returns t _
                (d_div (d_mul mu mu) (d_of_int 2)) (d_mul mu bound)
                (Rlt_le _ _ Ht) Hc1) as (fuel1 & g & Hg).
    set (g1_1 := upd g1 (Z.to_nat i) (MAX g (d_of_int 0))).
    set (g2_1 := upd g2 (Z.to_nat i)
                   (MAX (exp (-2 * (mu * bound)) * g) (d_of_int 0))).
    destruct (IH (i + 1)%Z (t + delta_t) h g1_1 g2_1 sc)
      as (fuel2 & t' & g1' & g2' & E1 & E2 & Hrest).
    + lia.
    + lra.
    + unfold g1_1. rewrite length_upd. lia.
    + unfold g2_1. rewrite length_upd. lia.
    + exists (Nat.max fuel1 fuel2), t', g1', g2'.
      split; [| split].
      * rewrite E1. apply length_upd.
      * rewrite E2. apply length_upd.
      * intros fuel' Hf. cbn [for_from]. unfold bind.
        rewrite (@ddm_fpt_const_step_runs fuel' mu bound delta_t i t g)
          by (try apply Hg; lia).
        apply Hrest. lia.
Qed.

Lemma ddm_fpt_const_of_loop (fuel : nat) (mu bound delta_t t' : R)
  (k_max : Z) (s s' : state R) :
  0 < mu -> 0 < bound -> 0 < delta_t -> (0 < k_max)%Z ->
  for_from (Z.to_nat (k_max - 0)) 0 (ddm_fpt_const_step fuel mu bound delta_t)
    delta_t s = Ok t' s' ->
  ddm_fpt_const fuel mu bound delta_t k_max s = Ok tt s'.
Proof.
  intros Hmu Hb Hdt Hk Hrun.
  rewrite ddm_fpt_const_unfold. unfold bind at 1. unfold assert_.
  rewrite !Rltb_true_R by assumption.
  replace (k_max >? 0)%Z with true by (symmetry; apply Z.gtb_lt; lia).
  cbn [andb]. unfold bind, For. rewrite Hrun. reflexivity.
Qed.




Lemma ddm_fpt_const_runs :
  exists fuel s',
    ddm_fpt_const fuel 1 1 1 2 (State [] [0; 0] [0; 0] []) = Ok tt s'.
Proof.
  destruct (@ddm_fpt_const_loop_returns 1 1 1 2 ltac:(lra) ltac:(lra)
              0%Z 1 [] [0; 0] [0; 0] [] ltac:(lia) ltac:(lra)
              ltac:(cbn; lia) ltac:(cbn; lia))
    as (fuel & t' & g1' & g2' & _ & _ & Hrun).
  exists fuel, (State [] g1' g2' []).
  apply ddm_fpt_const_of_loop with (t' := t'); try lra; try lia.
  apply Hrun. lia.
Qed.

End ConstSolver.
(** ** The outputs do not depend on what the output arrays held

    Two calls with the same arguments, started on output arrays of the
    same lengths and different contents, run in lockstep: a solver reads
    [g1[j]] and [g2[j]] only after it has written them. *)

Section Lockstep.
Context {D : Type}.

(** The two states differ at most in the elements of [g1] from index
    [k1] on and in those of [g2] from index [k2] on. *)
Definition agree_below (k1 k2 : Z) (s t : state D) : Prop :=
  heap s = heap t /\ alloc_script s = alloc_script t /\
  length (st_g1 s) = length (st_g1 t) /\
  length (st_g2 s) = length (st_g2 t) /\
  (forall i, (0 <= i < k1)%Z ->
     nth_error (st_g1 s) (Z.to_nat i) = nth_error (st_g1 t) (Z.to_nat i)) /\
  (forall i, (0 <= i < k2)%Z ->
     nth_error (st_g2 s) (Z.to_nat i) = nth_error (st_g2 t) (Z.to_nat i)).

(** From states related by [P] the two runs of [m] end the same way, with
    the same result, in states related by [Q]. *)
Definition lockstep {A : Type} (P : state D -> state D -> Prop) (m : M D A)
  (Q : A -> state D -> state D -> Prop) : Prop :=
  forall s t, P s t ->
    match m s, m t with
    | Ok a s', Ok b t' => a = b /\ Q a s' t'
    | Undefined f, Undefined f' => f = f'
    | Aborted, Aborted => True
    | OutOfFuel, OutOfFuel => True
    | _, _ => False
    end.

Lemma lockstep_ret {A : Type} (a : A) (P : state D -> state D -> Prop) :
  lockstep P (ret a) (fun _ => P).
Proof. intros s t H. cbn. auto. Qed.

Lemma lockstep_bind {A B : Type} (m : M D A) (k : A -> M D B) P Q Q' :
  lockstep P m Q -> (forall a, lockstep (Q a) (k a) Q') ->
  lockstep P (bind m k) Q'.
Proof.
  intros Hm Hk s t H. specialize (Hm s t H). unfold bind.
  destruct (m s) as [a s'| | |], (m t) as [b t'| | |]; try tauto.
  destruct Hm as [<- HQ]. exact (Hk a s' t' HQ).
Qed.

Lemma lockstep_weaken {A : Type} (m : M D A) (P P' : state D -> state D -> Prop)
  (Q Q' : A -> state D -> state D -> Prop) :
  lockstep P m Q -> (forall s t, P' s t -> P s t) ->
  (forall a s t, Q a s t -> Q' a s t) -> lockstep P' m Q'.
Proof.
  intros Hm HP HQ s t H. specialize (Hm s t (HP s t H)).
  destruct (m s) as [a s'| | |], (m t) as [b t'| | |]; try tauto.
  destruct Hm as [<- Hq]. auto.
Qed.

Lemma lockstep_for_from {A : Type} (I : Z -> state D -> state D -> Prop)
  (body : Z -> A -> M D A) (n : nat) (lo : Z) (a : A) :
  (forall i a, (lo <= i < lo + Z.of_nat n)%Z ->
     lockstep (I i) (body i a) (fun _ => I (i + 1)%Z)) ->
  lockstep (I lo) (for_from n lo body a) (fun _ => I (lo + Z.of_nat n)%Z).
Proof.
  revert lo a. induction n as [|n IH]; intros lo a Hbody.
  - cbn [for_from]. replace (lo + Z.of_nat 0)%Z with lo by lia.
    apply lockstep_ret.
  - cbn [for_from]. eapply lockstep_bind; [apply Hbody; lia |].
    intros a'. replace (lo + Z.of_nat (S n))%Z with (lo + 1 + Z.of_nat n)%Z
      by lia.
    apply IH. intros i a0 Hi. apply Hbody. lia.
Qed.

Lemma lockstep_For {A : Type} (I : Z -> state D -> state D -> Prop)
  (body : Z -> A -> M D A) (lo hi : Z) (a : A) :
  (lo <= hi)%Z ->
  (forall i a, (lo <= i < hi)%Z ->
     lockstep (I i) (body i a) (fun _ => I (i + 1)%Z)) ->
  lockstep (I lo) (For lo hi body a) (fun _ => I hi).
Proof.
  intros Hle Hbody. unfold For.
  eapply lockstep_weaken;
    [apply (@lockstep_for_from A I body (Z.to_nat (hi - lo)) lo a) | auto |].
  - intros i a0 Hi. apply Hbody. lia.
  - cbv beta. intros _ s t H.
    now replace (lo + Z.of_nat (Z.to_nat (hi - lo)))%Z with hi in H by lia.
Qed.

(** *** Steps that do not touch the output arrays *)

Definition neutral {A : Type} (m : M D A) : Prop :=
  forall k1 k2, lockstep (agree_below k1 k2) m (fun _ => agree_below k1 k2).

Lemma neutral_ret {A : Type} (a : A) : neutral (ret (D := D) a).
Proof. intros k1 k2. apply lockstep_ret. Qed.

Lemma neutral_bind {A B : Type} (m : M D A) (k : A -> M D B) :
  neutral m -> (forall a, neutral (k a)) -> neutral (bind m k).
Proof.
  intros Hm Hk k1 k2. eapply lockstep_bind; [apply Hm |].
  intros a. apply Hk.
Qed.

Lemma neutral_assert (b : bool) : neutral (assert_ (D := D) b).
Proof. intros k1 k2 s t H. unfold assert_. destruct b; auto. Qed.

Lemma neutral_lift_fuel {A : Type} (o : option A) :
  neutral (lift_fuel (D := D) o).
Proof. intros k1 k2 s t H. unfold lift_fuel. destruct o; auto. Qed.

Lemma neutral_rd (a : list D) (i : Z) : neutral (rd a i).
Proof.
  intros k1 k2 s t H. unfold rd. destruct (in_bounds _ _); [| reflexivity].
  destruct (nth_error _ _); auto.
Qed.

Lemma neutral_load (p : ptr) (i : Z) : neutral (load (D := D) p i).
Proof.
  intros k1 k2 s t H. unfold load. destruct p as [b|]; [| reflexivity].
  destruct H as (Hh & H). rewrite <- Hh.
  destruct (nth_error (heap s) b) as [[[] cells]|]; try reflexivity.
  destruct (in_bounds _ _); [| reflexivity].
  destruct (nth_error cells _) as [[v|]|]; try reflexivity.
  split; [reflexivity |]. split; assumption.
Qed.

Lemma neutral_store (p : ptr) (i : Z) (v : D) : neutral (store p i v).
Proof.
  intros k1 k2 s t H. unfold store. destruct p as [b|]; [| reflexivity].
  destruct H as (Hh & Hs & H). rewrite <- Hh, <- Hs.
  destruct (nth_error (heap s) b) as [[[] cells]|]; try reflexivity.
  destruct (in_bounds _ _); [| reflexivity].
  split; [reflexivity |]. repeat split; apply H.
Qed.

Lemma neutral_malloc (n : Z) : neutral (malloc (D := D) n).
Proof.
  intros k1 k2 s t H. unfold malloc. destruct H as (Hh & Hs & H).
  rewrite <- Hh, <- Hs.
  destruct (alloc_script s) as [|[] rest];
    (split; [reflexivity |]); repeat split; apply H.
Qed.

Lemma neutral_free (p : ptr) : neutral (free (D := D) p).
Proof.
  intros k1 k2 s t H. unfold free. destruct p as [b|]; [| now split].
  destruct H as (Hh & Hs & H). rewrite <- Hh, <- Hs.
  destruct (nth_error (heap s) b) as [[[] cells]|]; try reflexivity.
  split; [reflexivity |]. repeat split; apply H.
Qed.

Lemma neutral_For {A : Type} (lo hi : Z) (body : Z -> A -> M D A) (a : A) :
  (forall i a, neutral (body i a)) -> neutral (For lo hi body a).
Proof.
  intros Hbody k1 k2. unfold For.
  generalize (Z.to_nat (hi - lo)) as n. intros n. revert lo a.
  induction n as [|n IH]; intros lo a; cbn [for_from].
  - apply lockstep_ret.
  - eapply lockstep_bind; [apply Hbody |]. intros a'. apply IH.
Qed.

(** *** Reads and writes of the output arrays *)

Lemma lockstep_get_g1 (j k1 k2 : Z) :
  (j < k1)%Z ->
  lockstep (agree_below k1 k2) (get_g1 j) (fun _ => agree_below k1 k2).
Proof.
  intros Hj s t H. unfold get_g1, rd.
  destruct H as (Hh & Hs & L1 & L2 & G1 & G2). rewrite <- L1.
  destruct (in_bounds j (length (st_g1 s))) eqn:E; [| reflexivity].
  apply in_bounds_inv in E. rewrite <- (G1 j) by lia.
  destruct (nth_error _ _); [| reflexivity].
  split; [reflexivity |]. repeat split; assumption.
Qed.

Lemma lockstep_get_g2 (j k1 k2 : Z) :
  (j < k2)%Z ->
  lockstep (agree_below k1 k2) (get_g2 j) (fun _ => agree_below k1 k2).
Proof.
  intros Hj s t H. unfold get_g2, rd.
  destruct H as (Hh & Hs & L1 & L2 & G1 & G2). rewrite <- L2.
  destruct (in_bounds j (length (st_g2 s))) eqn:E; [| reflexivity].
  apply in_bounds_inv in E. rewrite <- (G2 j) by lia.
  destruct (nth_error _ _); [| reflexivity].
  split; [reflexivity |]. repeat split; assumption.
Qed.

Lemma lockstep_set_g1 (k k2 : Z) (v : D) :
  lockstep (agree_below k k2) (set_g1 k v)
           (fun _ => agree_below (k + 1) k2).
Proof.
  intros s t H. unfold set_g1.
  destruct H as (Hh & Hs & L1 & L2 & G1 & G2). rewrite <- L1.
  destruct (in_bounds k (length (st_g1 s))) eqn:E; [| reflexivity].
  apply in_bounds_inv in E. split; [reflexivity |].
  unfold agree_below. cbn [heap st_g1 st_g2 alloc_script].
  rewrite !length_upd. repeat split; try assumption.
  intros i Hi. destruct (Z.eq_dec i k) as [->|Hne].
  - rewrite !nth_error_upd_eq by lia. reflexivity.
  - rewrite !nth_error_upd_ne by lia. apply G1. lia.
Qed.

Lemma lockstep_set_g2 (k1 k : Z) (v : D) :
  lockstep (agree_below k1 k) (set_g2 k v)
           (fun _ => agree_below k1 (k + 1)).
Proof.
  intros s t H. unfold set_g2.
  destruct H as (Hh & Hs & L1 & L2 & G1 & G2). rewrite <- L2.
  destruct (in_bounds k (length (st_g2 s))) eqn:E; [| reflexivity].
  apply in_bounds_inv in E. split; [reflexivity |].
  unfold agree_below. cbn [heap st_g1 st_g2 alloc_script].
  rewrite !length_upd. repeat split; try assumption.
  intros i Hi. destruct (Z.eq_dec i k) as [->|Hne].
  - rewrite !nth_error_upd_eq by lia. reflexivity.
  - rewrite !nth_error_upd_ne by lia. apply G2. lia.
Qed.
End Lockstep.

Create HintDb neutral.
#[export] Hint Resolve neutral_ret neutral_assert neutral_lift_fuel neutral_rd
  neutral_load neutral_store neutral_malloc neutral_free : neutral.

Ltac neutral_tac :=
  repeat first
    [ apply neutral_bind; [| intro]
    | apply neutral_For; intros
    | progress auto with neutral
    | match goal with
      | |- neutral (let '(_, _) := ?p in _) => destruct p
      | |- neutral (match ?p with (_, _) => _ end) => destruct p
      | |- neutral (if ?b then _ else _) => destruct b
      end ].

(** Walks through the steps that read: neutral ones, and reads of the
    part of the output arrays that is already written. *)
Ltac lockstep_reads :=
  repeat (eapply lockstep_bind;
          [ first [ apply lockstep_get_g1; lia
                  | apply lockstep_get_g2; lia
                  | solve [match goal with
                           | |- lockstep (agree_below ?k1 ?k2) ?m _ =>
                               apply (fun H : neutral m => H k1 k2);
                               neutral_tac
                           end] ]
          | intro ];
          try match goal with
              | |- lockstep _ (let '(_, _) := ?p in _) _ => destruct p
              end).

(** The end of an iteration of a fill loop: both outputs are written. *)
Ltac lockstep_writes :=
  eapply lockstep_bind; [apply lockstep_set_g1 | intro];
  eapply lockstep_bind; [apply lockstep_set_g2 | intro];
  apply lockstep_ret.

Section LockstepSolvers.
Context {D : Type} {ops : DoubleOps D}.

Lemma agree_below_weaken (k1 k2 j1 j2 : Z) (s t : state D) :
  (j1 <= Z.max 0 k1)%Z -> (j2 <= Z.max 0 k2)%Z ->
  agree_below k1 k2 s t -> agree_below j1 j2 s t.
Proof.
  intros H1 H2 (Hh & Hs & L1 & L2 & G1 & G2).
  repeat split; try assumption; intros i Hi; [apply G1 | apply G2]; lia.
Qed.

(** What a solver establishes: the runs stay alike, and after a return
    of 0 the first [k_max] elements of the outputs are the same. *)
Definition same_outputs (k_max : Z) (r : Z) (s t : state D) : Prop :=
  agree_below 0 0 s t /\ (r = 0%Z -> agree_below k_max k_max s t).

Lemma lockstep_return (k1 k2 k_max r : Z) :
  (r = 0%Z -> k_max <= Z.max 0 k1 /\ k_max <= Z.max 0 k2)%Z ->
  lockstep (agree_below k1 k2) (ret (D := D) r) (same_outputs k_max).
Proof.
  intros Hr s t H. cbn. split; [reflexivity |]. split.
  - apply (agree_below_weaken (k1 := k1) (k2 := k2)); [lia | lia | exact H].
  - intros E. destruct (Hr E).
    apply (agree_below_weaken (k1 := k1) (k2 := k2)); auto.
Qed.

(** A fill loop over [0 .. k_max - 1]. *)
Lemma lockstep_fill {A : Type} (k_max : Z) (body : Z -> A -> M D A) (a : A) :
  (forall k u, (0 <= k)%Z ->
     lockstep (agree_below k k) (body k u)
              (fun _ => agree_below (k + 1) (k + 1))) ->
  lockstep (agree_below 0 0) (For 0 k_max body a)
           (fun _ => agree_below (Z.max 0 k_max) (Z.max 0 k_max)).
Proof.
  intros Hbody. destruct (Z.le_gt_cases 0 k_max) as [Hk|Hk].
  - replace (Z.max 0 k_max) with k_max by lia.
    apply (lockstep_For (fun k => agree_below k k)); [exact Hk |].
    intros k u Hk'. apply Hbody. lia.
  - unfold For. replace (Z.to_nat (k_max - 0)) with O by lia.
    replace (Z.max 0 k_max) with 0%Z by lia. apply lockstep_ret.
Qed.

Lemma ddm_fpt_full_fill_lockstep mu sig2 b_lo b_up b_lo_deriv b_up_deriv
  delta_t k_max cum_mu cum_sig2 :
  lockstep (agree_below 0 0)
    (ddm_fpt_full_fill mu sig2 b_lo b_up b_lo_deriv b_up_deriv delta_t k_max
       cum_mu cum_sig2)
    (fun _ => agree_below (Z.max 0 k_max) (Z.max 0 k_max)).
Proof.
  unfold ddm_fpt_full_fill. apply lockstep_fill. intros k [] Hk.
  lockstep_reads.
  eapply lockstep_bind.
  { apply (lockstep_For (fun _ => agree_below k k)); [exact Hk |].
    intros j [g1_k g2_k] Hj. lockstep_reads. apply lockstep_ret. }
  intros [g1_k g2_k]. lockstep_writes.
Qed.

Lemma ddm_fpt_full_leak_fill_lockstep mu sig2 b_lo b_up b_lo_deriv b_up_deriv
  inv_leak delta_t k_max cum_mu cum_sig2 disc disc2 :
  lockstep (agree_below 0 0)
    (ddm_fpt_full_leak_fill mu sig2 b_lo b_up b_lo_deriv b_up_deriv
       inv_leak delta_t k_max cum_mu cum_sig2 disc disc2)
    (fun _ => agree_below (Z.max 0 k_max) (Z.max 0 k_max)).
Proof.
  unfold ddm_fpt_full_leak_fill. apply lockstep_fill. intros k [] Hk.
  lockstep_reads.
  eapply lockstep_bind.
  { apply (lockstep_For (fun _ => agree_below k k)); [exact Hk |].
    intros j [g1_k g2_k] Hj. lockstep_reads. apply lockstep_ret. }
  intros [g1_k g2_k]. lockstep_writes.
Qed.

Lemma ddm_fpt_fill_lockstep mu bound delta_t k_max
  cum_mu bound_deriv norm_sqrt_t norm_t :
  lockstep (agree_below 0 0)
    (ddm_fpt_fill mu bound delta_t k_max cum_mu bound_deriv norm_sqrt_t norm_t)
    (fun _ => agree_below (Z.max 0 k_max) (Z.max 0 k_max)).
Proof.
  unfold ddm_fpt_fill. apply lockstep_fill. intros k [] Hk.
  lockstep_reads.
  eapply lockstep_bind.
  { apply (lockstep_For (fun _ => agree_below k k)); [exact Hk |].
    intros j [g1_k g2_k] Hj. lockstep_reads. apply lockstep_ret. }
  intros [g1_k g2_k]. lockstep_writes.
Qed.

Lemma ddm_fpt_const_mu_fill_lockstep mu bound delta_t k_max
  bound_deriv norm_sqrt_t norm_t :
  lockstep (agree_below 0 0)
    (ddm_fpt_const_mu_fill mu bound delta_t k_max
       bound_deriv norm_sqrt_t norm_t)
    (fun _ => agree_below (Z.max 0 k_max) (Z.max 0 k_max)).
Proof.
  unfold ddm_fpt_const_mu_fill. apply lockstep_fill. intros k [] Hk.
  lockstep_reads.
  eapply lockstep_bind.
  { apply (lockstep_For (fun _ => agree_below k k)); [exact Hk |].
    intros j g1_k Hj. lockstep_reads. apply lockstep_ret. }
  intros g1_k. lockstep_writes.
Qed.

Lemma ddm_fpt_w_fill_lockstep bound k delta_t n_max a2 A bound_deriv :
  lockstep (agree_below 0 0)
    (ddm_fpt_w_fill bound k delta_t n_max a2 A bound_deriv)
    (fun _ => agree_below (Z.max 0 n_max) (Z.max 0 n_max)).
Proof.
  unfold ddm_fpt_w_fill. apply lockstep_fill. intros n [] Hn.
  lockstep_reads.
  eapply lockstep_bind.
  { apply (lockstep_For (fun _ => agree_below n n)); [exact Hn |].
    intros j g1_n Hj. lockstep_reads. apply lockstep_ret. }
  intros g1_n. lockstep_writes.
Qed.

(** From the fill loop to the whole call. *)
Ltac lockstep_solver fill_lemma :=
  lockstep_reads;
  match goal with
  | |- lockstep _ (if ?c then _ else _) _ => destruct c
  end;
  [ lockstep_reads; apply lockstep_return; discriminate
  | lockstep_reads;
    eapply lockstep_bind; [apply fill_lemma | intro];
    lockstep_reads; apply lockstep_return; intros _; lia ].

Lemma ddm_fpt_full_lockstep mu sig2 b_lo b_up b_lo_deriv b_up_deriv
  delta_t k_max :
  lockstep (agree_below 0 0)
    (ddm_fpt_full mu sig2 b_lo b_up b_lo_deriv b_up_deriv delta_t k_max)
    (same_outputs k_max).
Proof. unfold ddm_fpt_full. lockstep_solver ddm_fpt_full_fill_lockstep. Qed.

Lemma ddm_fpt_full_leak_lockstep mu sig2 b_lo b_up b_lo_deriv b_up_deriv
  inv_leak delta_t k_max :
  lockstep (agree_below 0 0)
    (ddm_fpt_full_leak mu sig2 b_lo b_up b_lo_deriv b_up_deriv
       inv_leak delta_t k_max)
    (same_outputs k_max).
Proof.
  unfold ddm_fpt_full_leak. lockstep_solver ddm_fpt_full_leak_fill_lockstep.
Qed.

Lemma ddm_fpt_lockstep mu bound delta_t k_max :
  lockstep (agree_below 0 0) (ddm_fpt mu bound delta_t k_max)
    (same_outputs k_max).
Proof. unfold ddm_fpt. lockstep_solver ddm_fpt_fill_lockstep. Qed.

Lemma ddm_fpt_const_mu_lockstep mu bound delta_t k_max :
  lockstep (agree_below 0 0) (ddm_fpt_const_mu mu bound delta_t k_max)
    (same_outputs k_max).
Proof.
  unfold ddm_fpt_const_mu. lockstep_solver ddm_fpt_const_mu_fill_lockstep.
Qed.

Lemma ddm_fpt_w_lockstep mu bound k delta_t n_max :
  lockstep (agree_below 0 0) (ddm_fpt_w mu bound k delta_t n_max)
    (same_outputs n_max).
Proof. unfold ddm_fpt_w. lockstep_solver ddm_fpt_w_fill_lockstep. Qed.

Lemma ddm_fpt_const_lockstep fuel mu bound delta_t k_max :
  lockstep (agree_below 0 0)
    (bind (ddm_fpt_const fuel mu bound delta_t k_max) (fun _ => ret 0%Z))
    (same_outputs k_max).
Proof.
  unfold ddm_fpt_const. eapply lockstep_bind.
  { lockstep_reads. eapply lockstep_bind.
    - apply lockstep_fill. intros i t Hi.
      lockstep_reads.
      eapply lockstep_bind; [apply lockstep_set_g1 | intro].
      eapply lockstep_bind; [apply lockstep_set_g2 | intro].
      apply lockstep_ret.
    - intro. apply lockstep_ret. }
  intros []. apply lockstep_return. intros _. lia.
Qed.
End LockstepSolvers.

Lemma run_solver_lockstep {D : Type} {ops : DoubleOps D} (c : solver_call D) :
  lockstep (agree_below 0 0) (run_solver c) (same_outputs (steps c)).
Proof.
  destruct c; cbn [run_solver steps].
  - apply ddm_fpt_full_lockstep.
  - apply ddm_fpt_full_leak_lockstep.
  - apply ddm_fpt_lockstep.
  - apply ddm_fpt_const_mu_lockstep.
  - apply ddm_fpt_const_lockstep.
  - apply ddm_fpt_w_lockstep.
Qed.

(** Two calls of a solver on the same arguments and the same memory,
    whose output arrays have the same lengths and any contents, end the
    same way (same return value, same fault or same failed assertion),
    leave the same scratch memory, and after a return of 0 hold the same
    first [k_max] elements in [g1] and in [g2]: what the output arrays
    held before the call has no influence.  In any arithmetic. *)
Theorem solver_ignores_old_outputs {D : Type} {ops : DoubleOps D}
  (c : solver_call D) h sc (g1 g2 g1' g2' : list D) :
  length g1 = length g1' -> length g2 = length g2' ->
  match run_solver c (State h g1 g2 sc), run_solver c (State h g1' g2' sc) with
  | Ok r s, Ok r' t =>
      r = r' /\ heap s = heap t /\ alloc_script s = alloc_script t /\
      (r = 0%Z -> forall i, (0 <= i < steps c)%Z ->
         nth_error (st_g1 s) (Z.to_nat i) = nth_error (st_g1 t) (Z.to_nat i) /\
         nth_error (st_g2 s) (Z.to_nat i) = nth_error (st_g2 t) (Z.to_nat i))
  | Undefined f, Undefined f' => f = f'
  | Aborted, Aborted => True
  | OutOfFuel, OutOfFuel => True
  | _, _ => False
  end.
Proof.
  intros L1 L2.
  assert (H0 : agree_below 0 0 (State h g1 g2 sc) (State h g1' g2' sc))
    by (repeat split; try assumption; intros i Hi; lia).
  pose proof (run_solver_lockstep c H0) as H.
  destruct (run_solver c (State h g1 g2 sc)) as [r s| | |],
           (run_solver c (State h g1' g2' sc)) as [r' t| | |]; try exact H.
  destruct H as (E & (Hh & Hs & _) & Hr).
  split; [exact E |]. split; [exact Hh |]. split; [exact Hs |].
  intros Er i Hi. destruct (Hr Er) as (_ & _ & _ & _ & G1 & G2).
  split; [apply G1 | apply G2]; exact Hi.
Qed.

Lemma solver_ignores_old_outputs_witness :
  match run_solver (call_ddm_fpt [1; 1]%R [1; 2]%R 1%R 2)
          (State [] [0; 0]%R [0; 0]%R []),
        run_solver (call_ddm_fpt [1; 1]%R [1; 2]%R 1%R 2)
          (State [] [5; 7]%R [3; 4]%R [])
  with
  | Ok r s, Ok r' t =>
      r = r' /\ heap s = heap t /\ alloc_script s = alloc_script t /\
      (r = 0%Z -> forall i, (0 <= i < 2)%Z ->
         nth_error (st_g1 s) (Z.to_nat i) = nth_error (st_g1 t) (Z.to_nat i) /\
         nth_error (st_g2 s) (Z.to_nat i) = nth_error (st_g2 t) (Z.to_nat i))
  | Undefined f, Undefined f' => f = f'
  | Aborted, Aborted => True
  | OutOfFuel, OutOfFuel => True
  | _, _ => False
  end.
Proof.
  exact (@solver_ignores_old_outputs R R_ops
           (call_ddm_fpt [1; 1]%R [1; 2]%R 1%R 2) [] []
           [0; 0]%R [0; 0]%R [5; 7]%R [3; 4]%R eq_refl eq_refl).
Defined.
(** ** More on mnorm *)

(** Without elements, [mnorm] reads [g1[n - 1]] before the array. *)
Theorem mnorm_without_elements {D : Type} {ops : DoubleOps D} (n : Z)
  (delta_t : D) (s : state D) :
  (n <= 0)%Z -> mnorm n delta_t s = Undefined (OutOfBounds (n - 1)).
Proof.
  intros Hn. rewrite mnorm_unfold. unfold For.
  replace (Z.to_nat (n - 0)) with O by lia.
  cbn [for_from]. unfold bind at 1. unfold ret. cbv zeta.
  unfold bind at 1. unfold get_g1, rd.
  rewrite in_bounds_false by lia. reflexivity.
Qed.

Lemma mnorm_without_elements_witness :
  mnorm 0 1%R (State [] [] [] []) = Undefined (OutOfBounds (0 - 1)).
Proof. apply (@mnorm_without_elements R R_ops 0 1%R); lia. Defined.

Section MnormFixedPoint.
Local Open Scope R_scope.




End MnormFixedPoint.
(** *** mnorm on doubles, when no element is positive *)

Section MnormWithoutMass.
Variable lm : libm.

Definition is_NaN (x : float) : Prop := Prim2SF x = S754_nan.
Definition negative (x : float) : Prop := PrimFloat.ltb x 0 = true.

Lemma div_NaN (x y : float) : is_NaN x -> is_NaN (PrimFloat.div x y).
Proof. unfold is_NaN. intros H. rewrite div_spec, H. reflexivity. Qed.

Lemma sub_NaN (x y : float) : is_NaN x -> is_NaN (PrimFloat.sub x y).
Proof. unfold is_NaN. intros H. rewrite sub_spec, H. reflexivity. Qed.

Lemma add_NaN (x y : float) : is_NaN y -> is_NaN (PrimFloat.add x y).
Proof.
  unfold is_NaN. intros H. rewrite add_spec, H.
  destruct (Prim2SF x); reflexivity.
Qed.

Lemma sub_NaN_r (x y : float) : is_NaN y -> is_NaN (PrimFloat.sub x y).
Proof.
  unfold is_NaN. intros H. rewrite sub_spec, H.
  destruct (Prim2SF x); reflexivity.
Qed.

Lemma clamp_negative (x : float) :
  negative x -> @clamp float (float_ops lm) x = 0%float.
Proof. unfold negative, clamp. cbn. intros ->. reflexivity. Qed.

Lemma map_clamp_negative (l : list float) :
  Forall negative l ->
  map (@clamp float (float_ops lm)) l = map (fun _ => 0%float) l.
Proof.
  induction 1 as [|x l Hx Hl IH]; cbn [map]; [reflexivity |].
  now rewrite IH, clamp_negative.
Qed.

Lemma fold_add_nonneg_negative (l : list float) (acc : float) :
  Forall negative l ->
  fold_left (@add_nonneg float (float_ops lm)) l acc = acc.
Proof.
  intros H. revert acc. induction H as [|x l Hx Hl IH]; intros acc;
    cbn [fold_left]; [reflexivity |].
  rewrite IH. unfold add_nonneg. cbn. unfold negative in Hx. now rewrite Hx.
Qed.

(** When every element of [g1] and [g2] is negative, the loop leaves the
    two sums at 0, [p] is 0 / 0, and [mnorm] stores a NaN in [g1[n - 1]]
    and in [g2[n - 1]], whatever [delta_t] is; the other elements are set
    to 0 (IEEE 754 arithmetic). *)
Theorem ieee_mnorm_without_mass h sc (init1 init2 : list float)
  (last1 last2 delta_t : float) :
  length init1 = length init2 ->
  let g1 := init1 ++ [last1] in
  let g2 := init2 ++ [last2] in
  Forall negative g1 -> Forall negative g2 ->
  exists x y,
    @mnorm float (float_ops lm) (Z.of_nat (length g1)) delta_t
      (State h g1 g2 sc)
    = Ok tt (State h (map (fun _ => 0%float) init1 ++ [x])
                     (map (fun _ => 0%float) init2 ++ [y]) sc) /\
    is_NaN x /\ is_NaN y.
Proof.
  intros L g1 g2 N1 N2.
  pose proof (mnorm_run (ops := float_ops lm) h sc init1 init2 last1 last2
                delta_t L) as Hrun.
  cbv zeta in Hrun. fold g1 g2 in Hrun.
  rewrite !fold_add_nonneg_negative in Hrun by assumption.
  apply Forall_app in N1 as [N1 N1']. apply Forall_app in N2 as [N2 N2'].
  rewrite !map_clamp_negative in Hrun by assumption.
  rewrite !clamp_negative in Hrun by (now inversion N1' + now inversion N2').
  eexists _, _. split; [exact Hrun |].
  cbn [d_of_int d_add d_sub d_div float_ops float_of_Z].
  assert (Hp : is_NaN (PrimFloat.div 0 (PrimFloat.add 0 0)))
    by reflexivity.
  split.
  - apply add_NaN, sub_NaN, div_NaN, Hp.
  - apply add_NaN, sub_NaN, div_NaN, sub_NaN_r, Hp.
Qed.

End MnormWithoutMass.

Lemma ieee_mnorm_without_mass_witness :
  exists x y,
    @mnorm float (float_ops constant_libm) 2 1%float
      (State [] [-1; -2]%float [-3; -4]%float [])
    = Ok tt (State [] [0%float; x] [0%float; y] []) /\
    is_NaN x /\ is_NaN y.
Proof.
  apply (@ieee_mnorm_without_mass constant_libm [] [] [-1]%float [-3]%float
           (-2)%float (-4)%float 1%float eq_refl);
    repeat constructor.
Defined.
(** ** extend_vector *)

Section ExtendVector.
Context {D : Type} {ops : DoubleOps D}.

Lemma firstn_succ {A : Type} (l : list A) (k : nat) (x : A) :
  nth_error l k = Some x -> firstn (S k) l = firstn k l ++ [x].
Proof.
  revert k. induction l as [|h t IH]; intros [|k] H; try discriminate.
  - injection H as ->. reflexivity.
  - cbn [firstn app]. f_equal. now apply IH.
Qed.

Lemma upd_app_r {A : Type} (l r : list A) (k : nat) (y : A) :
  upd (l ++ r) (length l + k) y = l ++ upd r k y.
Proof.
  induction l as [|h t IH]; cbn [length Nat.add app]; [reflexivity |].
  cbn [upd]. now rewrite IH.
Qed.

Lemma upd_app_at {A : Type} (l r : list A) (k : nat) (y : A) :
  length l = k -> upd (l ++ r) k y = l ++ upd r 0 y.
Proof. intros <-. rewrite <- (Nat.add_0_r (length l)). apply upd_app_r. Qed.

Lemma nth_error_last_block (h : list (block D)) (b : block D) :
  nth_error (h ++ [b]) (length h) = Some b.
Proof. apply nth_error_middle. Qed.

Lemma upd_last_block (h : list (block D)) (b b' : block D) :
  upd (h ++ [b]) (length h) b' = h ++ [b'].
Proof. apply upd_middle. Qed.

(** A store into the block allocated last. *)
Lemma wp_store_last (h : list (block D)) (cells : list (option D)) (i : Z)
  (v : D) g1 g2 sc (Q : unit -> state D -> Prop) :
  (0 <= i < Z.of_nat (length cells))%Z ->
  Q tt (State (h ++ [Block true (upd cells (Z.to_nat i) (Some v))]) g1 g2 sc) ->
  wp (store (Some (length h)) i v) Q (State (h ++ [Block true cells]) g1 g2 sc).
Proof.
  intros Hi HQ. eapply wp_store.
  - cbn [heap]. apply nth_error_last_block.
  - exact Hi.
  - cbn [heap st_g1 st_g2 alloc_script]. now rewrite upd_last_block.
Qed.

(** The cells of the new vector when [k] elements are copied, of [n]. *)
Definition copied (v : list D) (n k : nat) : list (option D) :=
  map Some (firstn k v) ++ repeat None (n - k).

Lemma copied_length (v : list D) (n k : nat) :
  (k <= n)%nat -> (k <= length v)%nat -> length (copied v n k) = n.
Proof.
  intros H1 H2. unfold copied.
  rewrite length_app, length_map, length_firstn, repeat_length. lia.
Qed.

Lemma copied_next (v : list D) (n k : nat) (x : D) :
  (k < n)%nat -> nth_error v k = Some x ->
  upd (copied v n k) k (Some x) = copied v n (S k).
Proof.
  intros Hk Hx. unfold copied.
  assert (Lk : length (map Some (firstn k v)) = k).
  { rewrite length_map, length_firstn.
    apply Nat.min_l, Nat.lt_le_incl, nth_error_Some. congruence. }
  rewrite (@upd_app_at _ _ _ _ _ Lk).
  rewrite (@firstn_succ _ v k x Hx), map_app, <- app_assoc.
  f_equal. replace (n - k)%nat with (S (n - S k)) by lia. reflexivity.
Qed.

Lemma memcpy_spec (h : list (block D)) (v : list D) (n c : Z) g1 g2 sc :
  (0 <= c <= n)%Z -> (c <= Z.of_nat (length v))%Z -> (c < 2 ^ 61)%Z ->
  wp (memcpy (Some (length h)) v c)
     (fun _ s' =>
        s' = State (h ++ [Block true (copied v (Z.to_nat n) (Z.to_nat c))])
                   g1 g2 sc)
     (State (h ++ [Block true (repeat None (Z.to_nat n))]) g1 g2 sc).
Proof.
  intros Hc Hv Hmod. unfold memcpy. rewrite Z.mod_small by lia.
  apply (wp_For (fun k (_ : unit) s' =>
           s' = State (h ++ [Block true (copied v (Z.to_nat n) (Z.to_nat k))])
                      g1 g2 sc)); [lia | |].
  - unfold copied. cbn [firstn map app Z.to_nat]. now rewrite Nat.sub_0_r.
  - intros k [] s0 Hk ->.
    apply wp_bind, wp_rd; [lia |]. intros x Hx.
    apply wp_store_last.
    + rewrite copied_length by lia. lia.
    + rewrite copied_next by (try exact Hx; lia).
      now replace (Z.to_nat (k + 1)) with (S (Z.to_nat k)) by lia.
Qed.

(** The cells when the elements up to index [k] are set: [vs] copied
    ones, then [fill_el]. *)
Definition extended (v : list D) (fill_el : D) (vs n k : nat)
  : list (option D) :=
  map Some (firstn vs v ++ repeat fill_el (k - vs)) ++ repeat None (n - k).

Lemma extended_start (v : list D) (fill_el : D) (vs n : nat) :
  extended v fill_el vs n vs = copied v n vs.
Proof.
  unfold extended, copied. rewrite Nat.sub_diag. cbn [repeat].
  now rewrite app_nil_r.
Qed.

Lemma extended_length (v : list D) (fill_el : D) (vs n k : nat) :
  (vs <= k <= n)%nat -> (vs <= length v)%nat ->
  length (extended v fill_el vs n k) = n.
Proof.
  intros H1 H2. unfold extended.
  rewrite length_app, length_map, length_app, length_firstn, !repeat_length.
  lia.
Qed.

Lemma extended_next (v : list D) (fill_el : D) (vs n k : nat) :
  (vs <= k < n)%nat -> (vs <= length v)%nat ->
  upd (extended v fill_el vs n k) k (Some fill_el)
  = extended v fill_el vs n (S k).
Proof.
  intros Hk Hv. unfold extended.
  assert (Lk : length (map Some (firstn vs v ++ repeat fill_el (k - vs))) = k).
  { rewrite length_map, length_app, length_firstn, repeat_length. lia. }
  rewrite (@upd_app_at _ _ _ _ _ Lk).
  replace (S k - vs)%nat with (S (k - vs)) by lia.
  replace (n - k)%nat with (S (n - S k)) by lia.
  cbn [repeat upd]. rewrite repeat_cons, app_assoc.
  rewrite (map_app Some (firstn vs v ++ repeat fill_el (k - vs)) [fill_el]).
  rewrite <- app_assoc. reflexivity.
Qed.

Lemma malloc_succeeds (n : Z) (s : state D) :
  hd true (alloc_script s) = true ->
  malloc n s = Ok (Some (length (heap s)))
                  (State (heap s ++ [Block true (repeat None (Z.to_nat n))])
                         (st_g1 s) (st_g2 s) (tl (alloc_script s))).
Proof.
  unfold malloc. destruct (alloc_script s) as [|[] rest]; cbn [hd tl];
    intros H; [reflexivity | reflexivity | discriminate].
Qed.

Lemma MIN_min (a b : Z) : MIN a b = Z.min a b.
Proof. unfold MIN. destruct (Z.ltb_spec a b); lia. Qed.

(** When the allocation succeeds, [extend_vector] returns a new block of
    [new_size] doubles, which holds the first [min(v_size, new_size)]
    elements of [v], then [fill_el]; nothing else is changed.  In any
    arithmetic. *)
Theorem extend_vector_copies_and_fills (v : list D) (v_size new_size : Z) (fill_el : D)
  (s : state D) :
  (0 <= v_size)%Z -> (0 <= new_size < 2 ^ 31)%Z ->
  (Z.min v_size new_size <= Z.of_nat (length v))%Z ->
  hd true (alloc_script s) = true ->
  extend_vector v v_size new_size fill_el s
  = Ok (Some (length (heap s)))
       (State (heap s ++
                 [Block true
                    (map Some
                       (firstn (Z.to_nat (Z.min v_size new_size)) v ++
                        repeat fill_el (Z.to_nat (new_size - v_size))))])
              (st_g1 s) (st_g2 s) (tl (alloc_script s))).
Proof.
  intros Hvs Hn Hv Hsc.
  set (c := Z.min v_size new_size) in *.
  assert (W : wp (extend_vector v v_size new_size fill_el)
                 (fun r s' =>
                    r = Some (length (heap s)) /\
                    s' = State (heap s ++
                                  [Block true
                                     (map Some
                                        (firstn (Z.to_nat c) v ++
                                         repeat fill_el
                                           (Z.to_nat (new_size - v_size))))])
                               (st_g1 s) (st_g2 s) (tl (alloc_script s))) s).
  { unfold extend_vector. apply wp_bind. unfold wp at 1.
    rewrite (malloc_succeeds new_size s Hsc). cbn [is_null].
    rewrite MIN_min. fold c.
    apply wp_bind. eapply wp_mono.
    { apply memcpy_spec with (n := new_size); lia. }
    cbv beta. intros [] s1 ->.
    destruct (Z.le_gt_cases new_size v_size) as [Hle|Hgt].
    - apply wp_bind. unfold For.
      replace (Z.to_nat (new_size - v_size)) with O by lia.
      cbn [for_from]. apply wp_ret. apply wp_ret. split; [reflexivity |].
      unfold copied. replace c with new_size by lia.
      rewrite Nat.sub_diag. cbn [repeat]. now rewrite !app_nil_r.
    - replace c with v_size in * by lia.
      apply wp_bind. eapply wp_mono.
      { apply (wp_For (fun k (_ : unit) s' =>
                 s' = State (heap s ++
                               [Block true
                                  (extended v fill_el (Z.to_nat v_size)
                                     (Z.to_nat new_size) (Z.to_nat k))])
                            (st_g1 s) (st_g2 s) (tl (alloc_script s))));
          [lia | now rewrite extended_start |].
        intros k [] s0 Hk ->. apply wp_store_last.
        - rewrite extended_length by lia. lia.
        - rewrite extended_next by lia.
          now replace (Z.to_nat (k + 1)) with (S (Z.to_nat k)) by lia. }
      cbv beta. intros [] s2 ->. apply wp_ret. split; [reflexivity |].
      unfold extended. rewrite Nat.sub_diag. cbn [repeat].
      rewrite app_nil_r.
      now replace (Z.to_nat new_size - Z.to_nat v_size)%nat
        with (Z.to_nat (new_size - v_size)) by lia. }
  destruct (wp_elim _ _ _ W) as (r & s' & E & -> & ->). exact E.
Qed.

(** When the allocation fails, [extend_vector] returns the null pointer
    and leaves the memory as it was. *)
Theorem extend_vector_failed_allocation (v : list D) (v_size new_size : Z)
  (fill_el : D) (s : state D) (rest : list bool) :
  alloc_script s = false :: rest ->
  extend_vector v v_size new_size fill_el s
  = Ok None (State (heap s) (st_g1 s) (st_g2 s) rest).
Proof.
  intros Hsc. unfold extend_vector, bind, malloc. rewrite Hsc. reflexivity.
Qed.
End ExtendVector.

Lemma extend_vector_copies_and_fills_witness :
  extend_vector [1; 2; 3]%R 3 5 9%R (State [] [] [] [])
  = Ok (Some 0%nat)
       (State [Block true [Some 1; Some 2; Some 3; Some 9; Some 9]%R]
              [] [] []) /\
  extend_vector [1; 2; 3]%R 3 2 9%R (State [] [] [] [])
  = Ok (Some 0%nat) (State [Block true [Some 1; Some 2]%R] [] [] []).
Proof.
  split.
  - exact (@extend_vector_copies_and_fills R [1; 2; 3]%R 3 5 9%R
             (State [] [] [] []) ltac:(lia) ltac:(lia) ltac:(cbn; lia)
             eq_refl).
  - exact (@extend_vector_copies_and_fills R [1; 2; 3]%R 3 2 9%R
             (State [] [] [] []) ltac:(lia) ltac:(lia) ltac:(cbn; lia)
             eq_refl).
Defined.

Lemma extend_vector_failed_allocation_witness :
  extend_vector [1; 2; 3]%R 3 5 9%R (State [] [] [] [false])
  = Ok None (State [] [] [] []).
Proof.
  exact (@extend_vector_failed_allocation R [1; 2; 3]%R 3 5 9%R
           (State [] [] [] [false]) [] eq_refl).
Defined.
(** ** The series need a positive tolerance *)

Section SeriesTolerance.
Local Open Scope R_scope.











End SeriesTolerance.
(** ** Which numbers of steps the two general solvers accept *)

(** [ddm_fpt_full] runs to its end for every number of steps
    [k_max >= 1], one step included: it returns 0, has freed its scratch
    memory and the output arrays keep their lengths.  In any
    arithmetic. *)
Theorem ddm_fpt_full_returns {D : Type} {ops : DoubleOps D}
  (mu sig2 b_lo b_up b_lo_deriv b_up_deriv : list D) (delta_t : D)
  (k_max : Z) (g1 g2 : list D) (sc : list bool) :
  d_lt (d_of_int 0) delta_t = true -> (1 <= k_max)%Z ->
  length mu = Z.to_nat k_max -> length sig2 = Z.to_nat k_max ->
  length b_lo = Z.to_nat k_max -> length b_up = Z.to_nat k_max ->
  length b_lo_deriv = Z.to_nat k_max -> length b_up_deriv = Z.to_nat k_max ->
  length g1 = Z.to_nat k_max -> length g2 = Z.to_nat k_max ->
  all_succeed sc ->
  exists s',
    ddm_fpt_full mu sig2 b_lo b_up b_lo_deriv b_up_deriv delta_t k_max
      (State [] g1 g2 sc) = Ok 0%Z s' /\
    live_blocks s' = [] /\
    length (st_g1 s') = Z.to_nat k_max /\ length (st_g2 s') = Z.to_nat k_max.
Proof.
  intros Hdt Hk Lmu Ls Llo Lup Llod Lupd L1 L2 Hsc.
  destruct (wp_elim _ _ _
    (@ddm_fpt_full_total D ops mu sig2 b_lo b_up b_lo_deriv b_up_deriv
       delta_t k_max g1 g2 sc Hdt Hk Lmu Ls Llo Lup Llod Lupd L1 L2 Hsc))
    as (r & s' & E & -> & H).
  exists s'. split; [exact E | exact H].
Qed.

Lemma ddm_fpt_full_returns_witness :
  exists s',
    ddm_fpt_full [1]%R [1]%R [-1]%R [1]%R [0]%R [0]%R 1%R 1
      (State [] [0]%R [0]%R []) = Ok 0%Z s' /\
    live_blocks s' = [] /\
    length (st_g1 s') = 1%nat /\ length (st_g2 s') = 1%nat.
Proof.
  exact (@ddm_fpt_full_returns R R_ops [1]%R [1]%R [-1]%R [1]%R [0]%R [0]%R
           1%R 1 [0]%R [0]%R [] zero_lt_one_R ltac:(lia)
           eq_refl eq_refl eq_refl eq_refl eq_refl eq_refl eq_refl eq_refl
           all_succeed_nil).
Defined.

(** [ddm_fpt_full_leak] runs to its end exactly when the number of steps
    is even: for even [k_max >= 2] it returns 0 and has freed its scratch
    memory; for odd [k_max >= 1] the loop that derives [disc2] reads
    [disc[k_max]], past the end of the array (exact real arithmetic). *)
Theorem ddm_fpt_full_leak_accepts_even_steps
  (mu sig2 b_lo b_up b_lo_deriv b_up_deriv : list R) (inv_leak delta_t : R)
  (k_max : Z) (g1 g2 : list R) (sc : list bool) :
  (0 <= inv_leak)%R -> (0 < delta_t)%R -> (1 <= k_max)%Z ->
  length mu = Z.to_nat k_max -> length sig2 = Z.to_nat k_max ->
  length b_lo = Z.to_nat k_max -> length b_up = Z.to_nat k_max ->
  length b_lo_deriv = Z.to_nat k_max -> length b_up_deriv = Z.to_nat k_max ->
  length g1 = Z.to_nat k_max -> length g2 = Z.to_nat k_max ->
  all_succeed sc ->
  let run := ddm_fpt_full_leak mu sig2 b_lo b_up b_lo_deriv b_up_deriv
               inv_leak delta_t k_max (State [] g1 g2 sc) in
  ((k_max mod 2 = 0)%Z ->
   exists s', run = Ok 0%Z s' /\ live_blocks s' = [] /\
              length (st_g1 s') = Z.to_nat k_max /\
              length (st_g2 s') = Z.to_nat k_max) /\
  ((k_max mod 2 = 1)%Z -> run = Undefined (OutOfBounds k_max)).
Proof.
  intros Hleak Hdt Hk Lmu Ls Llo Lup Llod Lupd L1 L2 Hsc run.
  assert (Hleak' : d_le (d_of_int 0) inv_leak = true)
    by (apply Rleb_true; exact Hleak).
  assert (Hdt' : d_lt (d_of_int 0) delta_t = true)
    by (apply Rltb_true; exact Hdt).
  pose proof (@halves_R k_max Hk) as Hh.
  split; intros Hpar.
  - destruct (wp_elim _ _ _
      (@ddm_fpt_full_leak_total R R_ops mu sig2 b_lo b_up b_lo_deriv
         b_up_deriv inv_leak delta_t k_max g1 g2 sc Hleak' Hdt'
         ltac:(Z.div_mod_to_equations; lia) Hpar Hh
         Lmu Ls Llo Lup Llod Lupd L1 L2 Hsc))
      as (r & s' & E & -> & H).
    exists s'. split; [exact E | exact H].
  - apply ddm_fpt_full_leak_odd; assumption.
Qed.

Lemma ddm_fpt_full_leak_accepts_even_steps_witness :
  (exists s',
     ddm_fpt_full_leak [1; 1]%R [1; 1]%R [-1; -1]%R [1; 1]%R [0; 0]%R
       [0; 0]%R (1 / 2)%R 1%R 2 (State [] [0; 0]%R [0; 0]%R []) = Ok 0%Z s' /\
     live_blocks s' = [] /\
     length (st_g1 s') = 2%nat /\ length (st_g2 s') = 2%nat) /\
  ddm_fpt_full_leak [1]%R [1]%R [-1]%R [1]%R [0]%R [0]%R (1 / 2)%R 1%R 1
    (State [] [0]%R [0]%R []) = Undefined (OutOfBounds 1).
Proof.
  split.
  - exact (proj1 (@ddm_fpt_full_leak_accepts_even_steps
             [1; 1]%R [1; 1]%R [-1; -1]%R [1; 1]%R [0; 0]%R [0; 0]%R
             (1 / 2)%R 1%R 2 [0; 0]%R [0; 0]%R [] ltac:(lra) ltac:(lra)
             ltac:(lia) eq_refl eq_refl eq_refl eq_refl eq_refl eq_refl
             eq_refl eq_refl all_succeed_nil) eq_refl).
  - exact (proj2 (@ddm_fpt_full_leak_accepts_even_steps
             [1]%R [1]%R [-1]%R [1]%R [0]%R [0]%R
             (1 / 2)%R 1%R 1 [0]%R [0]%R [] ltac:(lra) ltac:(lra)
             ltac:(lia) eq_refl eq_refl eq_refl eq_refl eq_refl eq_refl
             eq_refl eq_refl all_succeed_nil) eq_refl).
Defined.
(** ** ddm_fpt as a special case of ddm_fpt_full *)

Section DdmFptTables.
Context {D : Type} {ops : DoubleOps D}.

(** The two normalisation tables of [ddm_fpt] up to index [j]:
    [norm_sqrt_t[i] = 1 / sqrt(2 pi delta_t (i + 1))] and
    [norm_t[i] = 1 / (delta_t (i + 1))]. *)
Definition norm_tables (delta_t : D) (norm_sqrt_t norm_t : list (option D))
  (j : Z) : Prop :=
  forall i, (0 <= i < j)%Z ->
    cell norm_sqrt_t i
      (d_div (d_of_int 1)
         (d_sqrt (d_mul (d_mul PI (d_mul (d_of_int 2) delta_t))
                        (d_add (d_of_int i) (d_of_int 1))))) /\
    cell norm_t i
      (d_div (d_of_int 1)
         (d_mul delta_t (d_add (d_of_int i) (d_of_int 1)))).

Lemma norm_tables_next delta_t c2 c3 j :
  norm_tables delta_t c2 c3 j -> (0 <= j)%Z ->
  (j < Z.of_nat (length c2))%Z -> (j < Z.of_nat (length c3))%Z ->
  norm_tables delta_t
    (upd c2 (Z.to_nat j)
       (Some (d_div (d_of_int 1)
                (d_sqrt (d_mul (d_mul PI (d_mul (d_of_int 2) delta_t))
                               (d_add (d_of_int j) (d_of_int 1)))))))
    (upd c3 (Z.to_nat j)
       (Some (d_div (d_of_int 1)
                (d_mul delta_t (d_add (d_of_int j) (d_of_int 1))))))
    (j + 1).
Proof.
  intros H Hj L2 L3 i Hi. destruct (Z.eq_dec i j) as [->|E].
  - split; apply cell_upd_eq; lia.
  - destruct (H i ltac:(lia)) as [H2 H3].
    split; apply cell_upd_ne; auto; lia.
Qed.

(** What lines 324 to 343 leave in the four scratch arrays. *)
Lemma ddm_fpt_precompute_tables mu bound delta_t k_max c0 c1 c2 c3 g1 g2 sc :
  (2 <= k_max)%Z ->
  length mu = Z.to_nat k_max -> length bound = Z.to_nat k_max ->
  filled_below c0 k_max 0 -> filled_below c1 k_max 0 ->
  filled_below c2 k_max 0 -> filled_below c3 k_max 0 ->
  wp (ddm_fpt_precompute mu bound delta_t k_max
        (Some 0%nat) (Some 1%nat) (Some 2%nat) (Some 3%nat))
     (fun _ s' => exists c0' c1' c2' c3',
        s' = scratch [c0'; c1'; c2'; c3'] g1 g2 sc /\
        filled_below c0' k_max k_max /\
        sum_recurrence mu delta_t c0' k_max /\
        bound_derivative bound delta_t k_max c1' /\
        filled_below c2' k_max k_max /\ filled_below c3' k_max k_max /\
        norm_tables delta_t c2' c3' k_max)
     (scratch [c0; c1; c2; c3] g1 g2 sc).
Proof.
  intros Hk Lmu Lb F0 F1 F2 F3. unfold ddm_fpt_precompute.
  pose proof (filled_below_length F0) as E0.
  wp_steps.
  eapply wp_mono.
  { apply (wp_For (fun j curr_cum_mu s' => exists c0' c1',
       s' = scratch [c0'; c1'; c2; c3] g1 g2 sc /\
       filled_below c0' k_max j /\ filled_below c1' k_max (j - 1) /\
       sum_recurrence mu delta_t c0' j /\ cell c0' (j - 1) curr_cum_mu /\
       derivative_below bound delta_t c1' (j - 1))); [lia | |].
    - eexists _, c1. split; [reflexivity |].
      split; [now apply (filled_below_next (j := 0)); [| lia] |].
      split; [exact F1 |].
      assert (C0 : cell (upd c0 (Z.to_nat 0) (Some (d_mul delta_t v))) 0
                     (d_mul delta_t v)) by (apply cell_upd_eq; lia).
      split; [| split].
      + split; [exists v; auto | intros k Hk'; lia].
      + exact C0.
      + intros i Hi. lia.
    - intros j acc s0 Hj (c0' & c1' & -> & G0 & G1 & R0 & A0 & Hd).
      pose proof (filled_below_length G0) as E0'.
      wp_steps.
      eexists _, _. split; [reflexivity |].
      replace (j + 1 - 1)%Z with j by lia.
      split; [apply filled_below_next; [exact G0 | lia] |].
      split; [replace j with (j - 1 + 1)%Z at 2 by lia;
              apply filled_below_next; [exact G1 | lia] |].
      split; [apply sum_recurrence_next; auto; lia |].
      split; [apply cell_upd_eq; lia |].
      apply derivative_below_next; auto; try lia.
      rewrite (filled_below_length G1). lia. }
  cbv beta. intros acc s0 (c0' & c1' & -> & G0 & G1 & R0 & _ & Hd).
  wp_steps.
  eapply wp_mono.
  { apply (wp_For (fun j (_ : unit) s' => exists c2' c3',
       s' = scratch [c0'; upd c1' (Z.to_nat (k_max - 1)) (Some v0); c2'; c3']
                    g1 g2 sc /\
       filled_below c2' k_max j /\ filled_below c3' k_max j /\
       norm_tables delta_t c2' c3' j)); [lia | |].
    - exists c2, c3. split; [reflexivity |]. split; [exact F2 |].
      split; [exact F3 |]. intros i Hi. lia.
    - intros j [] s0 Hj (c2' & c3' & -> & G2 & G3 & Hn).
      wp_steps.
      eexists _, _. split; [reflexivity |].
      split; [apply filled_below_next; auto |].
      split; [apply filled_below_next; auto |].
      apply norm_tables_next; auto; try lia.
      + rewrite (filled_below_length G2). lia.
      + rewrite (filled_below_length G3). lia. }
  cbv beta. intros [] s0 (c2' & c3' & -> & G2 & G3 & Hn).
  eexists _, _, _, _. split; [reflexivity |].
  split; [exact G0 |]. split; [exact R0 |].
  split; [now apply bound_derivative_last |]. auto.
Qed.
End DdmFptTables.

Section SpecialCase.
Local Open Scope R_scope.

Ltac left_step := apply wp2_left; wp_step.
Ltac right_step := apply wp2_right; wp_step.

(** A sum of [delta_t * 1] in closed form. *)
Lemma sum_recurrence_ones (delta_t : R) (n : nat) c (k_max : Z) :
  sum_recurrence (repeat 1 n) delta_t c k_max ->
  (k_max <= Z.of_nat n)%Z ->
  forall k, (0 <= k < k_max)%Z -> cell c k (delta_t * (IZR k + 1)).
Proof.
  intros [(x & Hx & H0) Hs] Hn k [Hk0 Hk]. revert Hk. pattern k.
  apply natlike_ind; [| | exact Hk0].
  - intros _. apply nth_error_In, repeat_spec in Hx. subst x.
    replace (delta_t * (0 + 1)) with (d_mul delta_t 1) by (cbn; ring).
    exact H0.
  - intros i Hi IH Hlt.
    destruct (Hs (Z.succ i) ltac:(lia)) as (p & y & Hp & Hy & Hc).
    replace (Z.succ i - 1)%Z with i in Hp by lia.
    rewrite (cell_inj Hp (IH ltac:(lia))) in Hc.
    apply nth_error_In, repeat_spec in Hy. subst y.
    rewrite succ_IZR.
    replace (delta_t * (IZR i + 1 + 1))
      with (d_add (delta_t * (IZR i + 1)) (d_mul delta_t 1)) by (cbn; ring).
    exact Hc.
Qed.

(** Two tables built by the same sum hold the same values. *)
Lemma sum_recurrence_agree (input : list R) (delta_t : R) c c' (n : Z) :
  sum_recurrence input delta_t c n -> sum_recurrence input delta_t c' n ->
  agree c c' n.
Proof.
  intros [(x & Hx & H0) Hs] [(x' & Hx' & H0') Hs'] j [Hj0 Hj].
  revert Hj. pattern j. apply natlike_ind; [| | exact Hj0].
  - intros _. exists (d_mul delta_t x). split; [exact H0 |].
    replace x with x' by congruence. exact H0'.
  - intros i Hi IH Hlt. destruct (IH ltac:(lia)) as (v & Hv & Hv').
    destruct (Hs (Z.succ i) ltac:(lia)) as (p & y & Hp & Hy & Hc).
    destruct (Hs' (Z.succ i) ltac:(lia)) as (p' & y' & Hp' & Hy' & Hc').
    replace (Z.succ i - 1)%Z with i in Hp, Hp' by lia.
    rewrite (cell_inj Hp Hv) in Hc. rewrite (cell_inj Hp' Hv') in Hc'.
    replace y' with y in Hc' by congruence. eauto.
Qed.

(** The derivative table of [ddm_fpt] and the derivatives passed to
    [ddm_fpt_full] hold the same values. *)
Definition same_derivative (c : list (option R)) (bd : list R) (n : Z) : Prop :=
  forall k, (0 <= k < n)%Z ->
    exists x, cell c k x /\ nth_error bd (Z.to_nat k) = Some x.

Ltac agree_at A i :=
  let x := fresh "x" in
  let Hx := fresh "Hx" in
  let Hx' := fresh "Hx'" in
  destruct (A i ltac:(lia)) as (x & Hx & Hx'); unfold cell in Hx, Hx'.

Ltac cells_at T i :=
  let Hx := fresh "Hx" in
  let Hx' := fresh "Hx'" in
  destruct (T i ltac:(lia)) as (Hx & Hx'); unfold cell in Hx, Hx'.

Ltac cell_at T i :=
  let Hx := fresh "Hx" in
  pose proof (T i ltac:(lia)) as Hx; unfold cell in Hx.

(** Reads of a list built from another one. *)
Ltac derived_reads :=
  repeat match goal with
         | H : nth_error (map _ _) _ = Some _ |- _ =>
             rewrite nth_error_map in H
         | H : nth_error (repeat _ _) _ = Some _ |- _ =>
             apply nth_error_In, repeat_spec in H; subst
         end.

Lemma Some_eq {A : Type} (a b : A) : Some a = Some b -> a = b.
Proof. congruence. Qed.

Ltac same_reads :=
  cbn [scratch st_g1 st_g2] in *;
  repeat match goal with
         | H1 : nth_error ?l ?i = Some ?a, H2 : nth_error ?l ?i = Some ?b |- _ =>
             rewrite H1 in H2; repeat (apply Some_eq in H2);
             match type of H2 with
             | ?u = ?v => first [subst u | subst v | clear H2]
             end
         | H1 : nth_error ?l ?i = Some ?a,
           H2 : option_map _ (nth_error ?l ?i) = Some ?b |- _ =>
             rewrite H1 in H2; cbn [option_map] in H2;
             repeat (apply Some_eq in H2);
             match type of H2 with
             | ?u = ?v => first [subst u | subst v | clear H2]
             end
         end.

Lemma sqrt_two_pi_split (delta_t x : R) :
  0 < delta_t -> 0 <= x ->
  sqrt (PI * (2 * delta_t) * x) = sqrt (2 * PI) * sqrt (delta_t * x).
Proof.
  intros Hdt Hx. pose proof PI_pos as Hpi.
  rewrite <- sqrt_mult by nra. f_equal. ring.
Qed.

(** Equal up to the field laws, below [exp] and [sqrt]. *)
Ltac nonzero :=
  repeat split; first [assumption | apply Rgt_not_eq; lra | lra].
Ltac same_value :=
  first [ reflexivity
        | solve [field; nonzero]
        | f_equal; same_value ].

Lemma ddm_fpt_fill_special_case (mu bound bd : list R) (delta_t : R)
  (k_max : Z) c0 c1 c2 c3 d0 d1 g1 g2 sc sc' :
  0 < delta_t ->
  length mu = Z.to_nat k_max -> length bound = Z.to_nat k_max ->
  length bd = Z.to_nat k_max ->
  length g1 = Z.to_nat k_max -> length g2 = Z.to_nat k_max ->
  filled_below c0 k_max k_max -> filled_below c1 k_max k_max ->
  filled_below c2 k_max k_max -> filled_below c3 k_max k_max ->
  filled_below d0 k_max k_max -> filled_below d1 k_max k_max ->
  agree c0 d0 k_max -> same_derivative c1 bd k_max ->
  norm_tables delta_t c2 c3 k_max ->
  (forall k, (0 <= k < k_max)%Z -> cell d1 k (delta_t * (IZR k + 1))) ->
  wp2 (ddm_fpt_fill mu bound delta_t k_max
         (Some 0%nat) (Some 1%nat) (Some 2%nat) (Some 3%nat))
      (scratch [c0; c1; c2; c3] g1 g2 sc)
      (ddm_fpt_full_fill mu (repeat 1 (Z.to_nat k_max)) (map Ropp bound) bound
         (map Ropp bd) bd delta_t k_max (Some 0%nat) (Some 1%nat))
      (scratch [d0; d1] g1 g2 sc')
      (fun _ s1 _ s2 => exists g1' g2',
         s1 = scratch [c0; c1; c2; c3] g1' g2' sc /\
         s2 = scratch [d0; d1] g1' g2' sc').
Proof.
  intros Hdt Lmu Lb Lbd L1 L2 F0 F1 F2 F3 G0 G1 A0 Hbd Hn Hcs.
  unfold ddm_fpt_fill, ddm_fpt_full_fill.
  destruct (Z.le_gt_cases 0 k_max) as [Hk|Hk].
  2:{ unfold For. replace (Z.to_nat (k_max - 0)) with O by lia.
      apply wp2_ret. eauto. }
  eapply wp2_mono.
  { apply (wp2_For (fun k (_ : unit) s1 (_ : unit) s2 => exists g1' g2',
       s1 = scratch [c0; c1; c2; c3] g1' g2' sc /\
       s2 = scratch [d0; d1] g1' g2' sc' /\
       length g1' = Z.to_nat k_max /\ length g2' = Z.to_nat k_max));
      [lia | exists g1, g2; auto |].
    intros k [] s1 [] s2 Hk' (g1' & g2' & -> & -> & L1' & L2').
    assert (Lr : length (repeat 1 (Z.to_nat k_max)) = Z.to_nat k_max)
      by apply repeat_length.
    assert (Lm : length (map Ropp bound) = Z.to_nat k_max)
      by (now rewrite length_map).
    assert (Lm' : length (map Ropp bd) = Z.to_nat k_max)
      by (now rewrite length_map).
    do 6 left_step. do 8 right_step.
    agree_at A0 k. agree_at Hbd k. cells_at Hn k. cell_at Hcs k.
    derived_reads. same_reads.
    pose proof PI_pos as Hpi.
    assert (Hs1 : sqrt (2 * PI) <> 0)
      by (apply Rgt_not_eq, sqrt_lt_R0; lra).
    assert (Hxk : 0 < IZR k + 1)
      by (assert (0 <= IZR k) by (apply IZR_le; lia); lra).
    assert (Hs2 : sqrt (delta_t * (IZR k + 1)) <> 0)
      by (apply Rgt_not_eq, sqrt_lt_R0; nra).
    apply wp2_bind. eapply wp2_mono.
    { apply (wp2_For (fun j (a : R * R) s1 (b : R * R) s2 =>
         a = b /\ s1 = scratch [c0; c1; c2; c3] g1' g2' sc /\
         s2 = scratch [d0; d1] g1' g2' sc')); [lia | |].
      - split; [| auto].
        cbn [d_add d_sub d_mul d_div d_neg d_sqrt d_exp d_of_int d_half R_ops].
        rewrite !sqrt_two_pi_split by lra.
        same_value.
      - intros j [g1_k g2_k] s1 [g1_k' g2_k'] s2 Hj (E & -> & ->).
        injection E as <- <-.
        do 6 left_step. do 6 right_step.
        agree_at A0 j. cells_at Hn (k - j - 1)%Z. cell_at Hcs j.
        derived_reads. same_reads.
        apply wp2_ret. split; [| auto].
        assert (Hxj : 0 < IZR (k - j - 1) + 1)
          by (assert (0 <= IZR (k - j - 1)) by (apply IZR_le; lia); lra).
        assert (Hs3 : sqrt (delta_t * (IZR (k - j - 1) + 1)) <> 0)
          by (apply Rgt_not_eq, sqrt_lt_R0; nra).
        cbn [d_add d_sub d_mul d_div d_neg d_sqrt d_exp d_of_int d_half R_ops].
        rewrite !sqrt_two_pi_split by lra.
        replace (delta_t * (IZR k + 1) - delta_t * (IZR j + 1))
          with (delta_t * (IZR (k - j - 1) + 1))
          by (rewrite !minus_IZR; ring).
        same_value. }
    cbv beta. intros [g1_k g2_k] s1 [g1_k' g2_k'] s2 (E & -> & ->).
    injection E as <- <-.
    do 2 left_step. do 2 right_step. apply wp2_ret.
    eexists _, _. split; [reflexivity |]. split; [reflexivity |].
    now rewrite !length_upd. }
  cbv beta. intros [] s1 [] s2 (g1' & g2' & -> & -> & _). eauto.
Qed.

Lemma edge_rule_same_derivative (bound bd : list R) (delta_t : R) (k_max : Z)
  c1 :
  (2 <= k_max)%Z ->
  bound_derivative bound delta_t k_max c1 ->
  edge_rule bound delta_t k_max (map Some bd) ->
  same_derivative c1 bd k_max.
Proof.
  intros Hk Hc Hbd k Hk'.
  apply bound_derivative_edge_rule in Hc; [| exact Hk].
  destruct Hc as [Hc (p & l & Hp & Hl & Hc2 & Hc1)].
  destruct Hbd as [Hb (p' & l' & Hp' & Hl' & Hb2 & Hb1)].
  assert (Ep : p' = p) by congruence. assert (El : l' = l) by congruence.
  subst p' l'.
  destruct (Z.eq_dec k (k_max - 1)) as [->|Hne].
  - eexists. split; [exact Hc1 |].
    rewrite nth_error_map in Hb1.
    destruct (nth_error bd (Z.to_nat (k_max - 1))); [| discriminate].
    cbn [option_map] in Hb1. congruence.
  - destruct (Hc k ltac:(lia)) as (b0 & b1 & H0 & H1 & H2).
    destruct (Hb k ltac:(lia)) as (b0' & b1' & H0' & H1' & H2').
    assert (E0 : b0' = b0) by congruence.
    assert (E1 : b1' = b1) by congruence. subst b0' b1'.
    eexists. split; [exact H2 |].
    rewrite nth_error_map in H2'.
    destruct (nth_error bd (Z.to_nat k)); [| discriminate].
    cbn [option_map] in H2'. congruence.
Qed.

(** [ddm_fpt] computes what [ddm_fpt_full] computes for unit variance,
    the bounds [-bound] and [bound], and the derivatives of the bounds
    taken as [ddm_fpt] takes them (difference quotients, the last one
    repeated): for two steps or more both calls return 0 and leave the
    same [g1] and [g2] (exact real arithmetic, every allocation
    succeeding). *)
Theorem ddm_fpt_special_case_of_ddm_fpt_full (mu bound bd : list R)
  (delta_t : R) (k_max : Z) (g1 g2 : list R) (sc : list bool) :
  0 < delta_t -> (2 <= k_max)%Z ->
  length mu = Z.to_nat k_max -> length bound = Z.to_nat k_max ->
  length bd = Z.to_nat k_max ->
  length g1 = Z.to_nat k_max -> length g2 = Z.to_nat k_max ->
  edge_rule bound delta_t k_max (map Some bd) ->
  all_succeed sc ->
  exists s s',
    ddm_fpt mu bound delta_t k_max (State [] g1 g2 sc) = Ok 0%Z s /\
    ddm_fpt_full mu (repeat 1 (Z.to_nat k_max)) (map Ropp bound) bound
      (map Ropp bd) bd delta_t k_max (State [] g1 g2 sc) = Ok 0%Z s' /\
    st_g1 s = st_g1 s' /\ st_g2 s = st_g2 s'.
Proof.
  intros Hdt Hk Lmu Lb Lbd L1 L2 Hedge Hsc.
  assert (Hdt' : d_lt (d_of_int 0) delta_t = true)
    by (apply Rltb_true; cbn; lra).
  pose proof (filled_below_fresh (D := R) k_max) as F.
  enough (W : wp2
            (ddm_fpt mu bound delta_t k_max) (State [] g1 g2 sc)
            (ddm_fpt_full mu (repeat 1 (Z.to_nat k_max)) (map Ropp bound)
               bound (map Ropp bd) bd delta_t k_max)
            (State [] g1 g2 sc)
            (fun r s r' s' => r = 0%Z /\ r' = 0%Z /\
               st_g1 s = st_g1 s' /\ st_g2 s = st_g2 s')).
  { destruct (wp2_elim _ _ _ _ _ W) as (r & s & r' & s' & E & E' & -> & -> & H).
    exists s, s'. auto. }
  unfold ddm_fpt, ddm_fpt_full.
  apply wp2_left, wp_assert.
  { rewrite Hdt'. apply Z.gtb_lt. lia. }
  do 4 (apply wp2_left; apply wp_malloc;
        [ cbn [alloc_script]; auto using all_succeed_tl
        | cbn [heap st_g1 st_g2 alloc_script length app] ]).
  cbn [is_null orb].
  apply wp2_left. eapply wp_mono.
  { apply (@ddm_fpt_precompute_tables R R_ops mu bound delta_t k_max
             _ _ _ _ g1 g2 (tl (tl (tl (tl sc)))) Hk Lmu Lb F F F F). }
  cbv beta.
  intros [] s0 (c0 & c1 & c2 & c3 & -> & F0 & S0 & Hd & F2 & F3 & Hn).
  pose proof (@edge_rule_same_derivative bound bd delta_t k_max c1 Hk Hd Hedge)
    as Hsame.
  destruct Hd as (F1 & _).
  apply wp2_right, wp_assert.
  { rewrite Hdt'. apply Z.gtb_lt. lia. }
  do 2 (apply wp2_right; apply wp_malloc;
        [ cbn [alloc_script]; auto using all_succeed_tl
        | cbn [heap st_g1 st_g2 alloc_script length app] ]).
  cbn [is_null orb].
  apply wp2_right. eapply wp_mono.
  { apply (@ddm_fpt_full_cumulate_spec R R_ops mu
             (repeat 1 (Z.to_nat k_max)) delta_t k_max _ _ g1 g2
             (tl (tl sc)) ltac:(lia) Lmu (repeat_length _ _) F F). }
  cbv beta. intros [] s0 (d0 & d1 & -> & G0 & G1 & S0' & S1').
  pose proof (@sum_recurrence_agree mu delta_t c0 d0 k_max S0 S0') as A0.
  pose proof (@sum_recurrence_ones delta_t (Z.to_nat k_max) d1 k_max S1'
                ltac:(lia)) as Hcs.
  apply wp2_bind. eapply wp2_mono.
  { apply (@ddm_fpt_fill_special_case mu bound bd delta_t k_max
             c0 c1 c2 c3 d0 d1 g1 g2 (tl (tl (tl (tl sc)))) (tl (tl sc)));
      assumption. }
  cbv beta. intros [] s1 [] s2 (g1' & g2' & -> & ->).
  do 4 left_step. do 2 right_step.
  apply wp2_ret. cbn. auto.
Qed.
End SpecialCase.

Lemma ddm_fpt_special_case_of_ddm_fpt_full_witness :
  exists s s',
    ddm_fpt [1; 1]%R [1; 2]%R 1%R 2 (State [] [0; 0]%R [0; 0]%R [])
    = Ok 0%Z s /\
    ddm_fpt_full [1; 1]%R [1; 1]%R [-1; -2]%R [1; 2]%R
      [- ((2 - 1) / 1); - ((2 - 1) / 1)]%R [(2 - 1) / 1; (2 - 1) / 1]%R 1%R 2
      (State [] [0; 0]%R [0; 0]%R []) = Ok 0%Z s' /\
    st_g1 s = st_g1 s' /\ st_g2 s = st_g2 s'.
Proof.
  apply (@ddm_fpt_special_case_of_ddm_fpt_full
           [1; 1]%R [1; 2]%R [(2 - 1) / 1; (2 - 1) / 1]%R 1%R 2
           [0; 0]%R [0; 0]%R []);
    try reflexivity; try lra; try exact all_succeed_nil.
  split.
  - intros j Hj. assert (j = 0%Z) by lia. subst j.
    exists 1%R, 2%R. repeat split.
  - exists 1%R, 2%R. repeat split.
Defined.
(** ** No scratch memory is left allocated

    Whatever the arguments and whichever allocations fail, a solver that
    returns has freed every block it has allocated. *)

Section Liveness.
Context {D : Type}.

(** Which blocks of the heap are allocated. *)
Definition liveness (s : state D) : list bool := map (@b_live D) (heap s).

Lemma live_blocks_none (s : state D) :
  forallb negb (liveness s) = true -> live_blocks s = [].
Proof.
  unfold liveness, live_blocks. induction (heap s) as [|b h IH];
    cbn [map forallb filter]; [reflexivity |].
  intros H. apply andb_prop in H as [Hb Hh].
  destruct (b_live b); [discriminate | now apply IH].
Qed.

(** A computation that allocates and frees nothing. *)
Definition keeps_liveness {A : Type} (m : M D A) : Prop :=
  forall s a s', m s = Ok a s' -> liveness s' = liveness s.

Lemma kl_ret {A : Type} (a : A) : keeps_liveness (ret (D := D) a).
Proof. intros s a' s' E. injection E as _ <-. reflexivity. Qed.

Lemma kl_bind {A B : Type} (m : M D A) (k : A -> M D B) :
  keeps_liveness m -> (forall a, keeps_liveness (k a)) ->
  keeps_liveness (bind m k).
Proof.
  intros Hm Hk s b s' E. unfold bind in E.
  destruct (m s) as [a s1| | |] eqn:E1; try discriminate.
  rewrite (Hk a s1 b s' E). exact (Hm s a s1 E1).
Qed.

Lemma kl_assert (b : bool) : keeps_liveness (assert_ (D := D) b).
Proof.
  intros s a s' E. unfold assert_ in E. destruct b; [| discriminate].
  injection E as _ <-. reflexivity.
Qed.

Lemma kl_lift_fuel {A : Type} (o : option A) :
  keeps_liveness (lift_fuel (D := D) o).
Proof.
  intros s a s' E. unfold lift_fuel in E. destruct o; [| discriminate].
  injection E as _ <-. reflexivity.
Qed.

Lemma kl_rd (l : list D) (i : Z) : keeps_liveness (rd l i).
Proof.
  intros s a s' E. unfold rd in E.
  destruct (in_bounds _ _); [| discriminate].
  destruct (nth_error _ _); [| discriminate].
  injection E as _ <-. reflexivity.
Qed.

Lemma kl_get_g1 (i : Z) : keeps_liveness (get_g1 (D := D) i).
Proof. intros s a s' E. exact (@kl_rd _ _ s a s' E). Qed.

Lemma kl_get_g2 (i : Z) : keeps_liveness (get_g2 (D := D) i).
Proof. intros s a s' E. exact (@kl_rd _ _ s a s' E). Qed.

Lemma kl_set_g1 (i : Z) (v : D) : keeps_liveness (set_g1 i v).
Proof.
  intros s a s' E. unfold set_g1 in E.
  destruct (in_bounds _ _); [| discriminate].
  injection E as _ <-. reflexivity.
Qed.

Lemma kl_set_g2 (i : Z) (v : D) : keeps_liveness (set_g2 i v).
Proof.
  intros s a s' E. unfold set_g2 in E.
  destruct (in_bounds _ _); [| discriminate].
  injection E as _ <-. reflexivity.
Qed.

Lemma kl_load (p : ptr) (i : Z) : keeps_liveness (load (D := D) p i).
Proof.
  intros s a s' E. unfold load in E. destruct p as [b|]; [| discriminate].
  destruct (nth_error (heap s) b) as [[[] cells]|]; try discriminate.
  destruct (in_bounds _ _); [| discriminate].
  destruct (nth_error cells _) as [[v|]|]; try discriminate.
  injection E as _ <-. reflexivity.
Qed.

Lemma map_upd_same {A B : Type} (f : A -> B) (l : list A) (n : nat) (x y : A) :
  nth_error l n = Some x -> f y = f x -> map f (upd l n y) = map f l.
Proof.
  revert n. induction l as [|h t IH]; intros [|n] Hn Hf; try discriminate.
  - injection Hn as ->. cbn [upd map]. now rewrite Hf.
  - cbn [upd map]. f_equal. now apply IH.
Qed.

Lemma kl_store (p : ptr) (i : Z) (v : D) : keeps_liveness (store p i v).
Proof.
  intros s a s' E. unfold store in E. destruct p as [b|]; [| discriminate].
  destruct (nth_error (heap s) b) as [[[] cells]|] eqn:Hb; try discriminate.
  destruct (in_bounds _ _); [| discriminate].
  injection E as _ <-. unfold liveness. cbn [heap].
  now apply map_upd_same with (x := Block true cells).
Qed.

Lemma kl_For {A : Type} (lo hi : Z) (body : Z -> A -> M D A) (a : A) :
  (forall i a, keeps_liveness (body i a)) -> keeps_liveness (For lo hi body a).
Proof.
  intros Hbody. unfold For. generalize (Z.to_nat (hi - lo)) as n.
  intros n. revert lo a. induction n as [|n IH]; intros lo a; cbn [for_from].
  - apply kl_ret.
  - apply kl_bind; [apply Hbody | intros a'; apply IH].
Qed.

(** *** Runs described by the liveness of the heap *)

(** Started on a heap of liveness [l], a run of [m] that returns ends
    with a result [a] and a liveness [l'] such that [P a l']. *)
Definition wll {A : Type} (m : M D A) (P : A -> list bool -> Prop)
  (l : list bool) : Prop :=
  forall s a s', liveness s = l -> m s = Ok a s' -> P a (liveness s').

Lemma wll_ret {A : Type} (a : A) (P : A -> list bool -> Prop) l :
  P a l -> wll (ret a) P l.
Proof. intros H s a' s' <- E. injection E as <- <-. exact H. Qed.

Lemma wll_bind {A B : Type} (m : M D A) (k : A -> M D B) P l :
  wll m (fun a l' => wll (k a) P l') l -> wll (bind m k) P l.
Proof.
  intros H s b s' Hl E. unfold bind in E.
  destruct (m s) as [a s1| | |] eqn:E1; try discriminate.
  exact (H s a s1 Hl E1 s1 b s' eq_refl E).
Qed.

Lemma wll_keeps {A : Type} (m : M D A) (P : A -> list bool -> Prop) l :
  keeps_liveness m -> (forall a, P a l) -> wll m P l.
Proof. intros Hm H s a s' <- E. rewrite (Hm s a s' E). apply H. Qed.

Lemma wll_malloc (n : Z) (P : ptr -> list bool -> Prop) l :
  P None l -> P (Some (length l)) (l ++ [true]) -> wll (malloc n) P l.
Proof.
  intros H0 H1 s p s' <- E. unfold malloc in E.
  assert (Hl : length (liveness s) = length (heap s))
    by (unfold liveness; apply length_map).
  rewrite Hl in H1.
  destruct (alloc_script s) as [|[] rest]; injection E as <- <-;
    unfold liveness in *; cbn [heap]; rewrite ?map_app; auto.
Qed.

Lemma map_upd {A B : Type} (f : A -> B) (l : list A) (n : nat) (y : A) :
  map f (upd l n y) = upd (map f l) n (f y).
Proof.
  revert n. induction l as [|h t IH]; intros [|n]; cbn [upd map];
    try reflexivity. now rewrite IH.
Qed.

Lemma wll_free (p : ptr) (P : unit -> list bool -> Prop) l :
  P tt (match p with Some b => upd l b false | None => l end) ->
  wll (free p) P l.
Proof.
  intros H s [] s' <- E. unfold free in E. destruct p as [b|].
  - destruct (nth_error (heap s) b) as [[[] cells]|]; try discriminate.
    injection E as <-. unfold liveness in *. cbn [heap].
    now rewrite map_upd.
  - injection E as <-. exact H.
Qed.
End Liveness.

Create HintDb liveness.
#[export] Hint Resolve kl_ret kl_assert kl_lift_fuel kl_rd kl_get_g1 kl_get_g2
  kl_set_g1 kl_set_g2 kl_load kl_store : liveness.

Ltac keeps_liveness_tac :=
  repeat first
    [ apply kl_bind; [| intro]
    | apply kl_For; intros
    | progress auto with liveness
    | match goal with
      | |- keeps_liveness (let '(_, _) := ?p in _) => destruct p
      | |- keeps_liveness (match ?p with (_, _) => _ end) => destruct p
      | |- keeps_liveness (if ?b then _ else _) => destruct b
      end ].

(** After the allocations: the steps that keep the liveness, the calls
    of [free] and the return. *)
Ltac frees_all :=
  cbn [is_null orb length app];
  repeat first
    [ apply wll_ret; reflexivity
    | apply wll_bind;
      first [ apply wll_free; cbn [upd length app]
            | apply wll_keeps; [solve [keeps_liveness_tac] | intro] ] ].

Ltac allocates :=
  apply wll_bind, wll_malloc; cbn [length app].

Section NoLeak.
Context {D : Type} {ops : DoubleOps D}.

Definition all_freed (l : list bool) : Prop := forallb negb l = true.

Lemma ddm_fpt_full_frees mu sig2 b_lo b_up b_lo_deriv b_up_deriv delta_t
  k_max :
  wll (ddm_fpt_full mu sig2 b_lo b_up b_lo_deriv b_up_deriv delta_t k_max)
      (fun _ => all_freed) [].
Proof.
  unfold ddm_fpt_full, all_freed.
  apply wll_bind, wll_keeps; [apply kl_assert | intros _].
  allocates; allocates; frees_all.
Qed.

Lemma ddm_fpt_full_leak_frees mu sig2 b_lo b_up b_lo_deriv b_up_deriv
  inv_leak delta_t k_max :
  wll (ddm_fpt_full_leak mu sig2 b_lo b_up b_lo_deriv b_up_deriv
         inv_leak delta_t k_max)
      (fun _ => all_freed) [].
Proof.
  unfold ddm_fpt_full_leak, all_freed.
  apply wll_bind, wll_keeps; [apply kl_assert | intros _].
  allocates; allocates; allocates; allocates; frees_all.
Qed.

Lemma ddm_fpt_frees mu bound delta_t k_max :
  wll (ddm_fpt mu bound delta_t k_max) (fun _ => all_freed) [].
Proof.
  unfold ddm_fpt, all_freed.
  apply wll_bind, wll_keeps; [apply kl_assert | intros _].
  allocates; allocates; allocates; allocates; frees_all.
Qed.

Lemma ddm_fpt_const_mu_frees mu bound delta_t k_max :
  wll (ddm_fpt_const_mu mu bound delta_t k_max) (fun _ => all_freed) [].
Proof.
  unfold ddm_fpt_const_mu, all_freed.
  apply wll_bind, wll_keeps; [apply kl_assert | intros _].
  allocates; allocates; allocates; frees_all.
Qed.

Lemma ddm_fpt_w_frees mu bound k delta_t n_max :
  wll (ddm_fpt_w mu bound k delta_t n_max) (fun _ => all_freed) [].
Proof.
  unfold ddm_fpt_w, all_freed.
  apply wll_bind, wll_keeps; [apply kl_assert | intros _].
  allocates; allocates; allocates; frees_all.
Qed.

Lemma ddm_fpt_const_frees fuel mu bound delta_t k_max :
  wll (bind (ddm_fpt_const fuel mu bound delta_t k_max) (fun _ => ret 0%Z))
      (fun _ => all_freed) [].
Proof.
  apply wll_keeps; [| reflexivity].
  unfold ddm_fpt_const. keeps_liveness_tac.
Qed.

(** Whatever its arguments and whichever of its allocations fail, a
    solver that returns, with 0 or with -1, has freed every block it has
    allocated.  In any arithmetic. *)
Theorem solver_frees_its_scratch (c : solver_call D) (g1 g2 : list D)
  (script : list bool) (r : Z) (s' : state D) :
  run_solver c (State [] g1 g2 script) = Ok r s' -> live_blocks s' = [].
Proof.
  intros Hrun. apply live_blocks_none.
  assert (W : wll (run_solver c) (fun _ => all_freed) []).
  { destruct c; cbn [run_solver].
    - apply ddm_fpt_full_frees.
    - apply ddm_fpt_full_leak_frees.
    - apply ddm_fpt_frees.
    - apply ddm_fpt_const_mu_frees.
    - apply ddm_fpt_const_frees.
    - apply ddm_fpt_w_frees. }
  exact (W (State [] g1 g2 script) r s' eq_refl Hrun).
Qed.
End NoLeak.

Lemma solver_frees_its_scratch_witness :
  exists s',
    @run_solver float (float_ops constant_libm)
      (call_ddm_fpt [1; 1]%float [1; 2]%float 1%float 2)
      (State [] [0; 0]%float [0; 0]%float [true; true; false]) = Ok (-1)%Z s' /\
    live_blocks s' = [].
Proof.
  eexists. split; [vm_compute; reflexivity |].
  apply (@solver_frees_its_scratch float (float_ops constant_libm)
           (call_ddm_fpt [1; 1]%float [1; 2]%float 1%float 2)
           [0; 0]%float [0; 0]%float [true; true; false] (-1)%Z).
  vm_compute. reflexivity.
Defined.
(** ** The mirror image of a problem

    Changing the sign of the drift and exchanging the two bounds, with
    their signs changed, exchanges the two densities. *)

Section Mirror.
Local Open Scope R_scope.

Ltac left_step := apply wp2_left; wp_step.
Ltac right_step := apply wp2_right; wp_step.

(** The cells of [c'] are the opposites of those of [c]. *)
Definition opposite (c c' : list (option R)) (n : Z) : Prop :=
  forall j, (0 <= j < n)%Z -> exists v, cell c j v /\ cell c' j (- v).

Lemma sum_recurrence_opposite (input : list R) (delta_t : R) c c' (n : Z) :
  sum_recurrence input delta_t c n ->
  sum_recurrence (map Ropp input) delta_t c' n ->
  opposite c c' n.
Proof.
  intros [(x & Hx & H0) Hs] [(x' & Hx' & H0') Hs'] j [Hj0 Hj].
  revert Hj. pattern j. apply natlike_ind; [| | exact Hj0].
  - intros _. exists (d_mul delta_t x). split; [exact H0 |].
    rewrite nth_error_map, Hx in Hx'. injection Hx' as <-.
    replace (- d_mul delta_t x) with (d_mul delta_t (- x)) by (cbn; ring).
    exact H0'.
  - intros i Hi IH Hlt. destruct (IH ltac:(lia)) as (v & Hv & Hv').
    destruct (Hs (Z.succ i) ltac:(lia)) as (p & y & Hp & Hy & Hc).
    destruct (Hs' (Z.succ i) ltac:(lia)) as (p' & y' & Hp' & Hy' & Hc').
    replace (Z.succ i - 1)%Z with i in Hp, Hp' by lia.
    rewrite (cell_inj Hp Hv) in Hc. rewrite (cell_inj Hp' Hv') in Hc'.
    rewrite nth_error_map, Hy in Hy'. injection Hy' as <-.
    eexists. split; [exact Hc |].
    replace (- d_add v (d_mul delta_t y))
      with (d_add (- v) (d_mul delta_t (- y))) by (cbn; ring).
    exact Hc'.
Qed.

Ltac agree_at A i :=
  let x := fresh "x" in
  let Hx := fresh "Hx" in
  let Hx' := fresh "Hx'" in
  destruct (A i ltac:(lia)) as (x & Hx & Hx'); unfold cell in Hx, Hx'.

Ltac derived_reads :=
  repeat match goal with
         | H : nth_error (map _ _) _ = Some _ |- _ =>
             rewrite nth_error_map in H
         end.

Ltac same_reads :=
  cbn [scratch st_g1 st_g2] in *;
  repeat match goal with
         | H1 : nth_error ?l ?i = Some ?a, H2 : nth_error ?l ?i = Some ?b |- _ =>
             rewrite H1 in H2; repeat (apply Some_eq in H2);
             match type of H2 with
             | ?u = ?v => first [subst u | subst v | clear H2]
             end
         | H1 : nth_error ?l ?i = Some ?a,
           H2 : option_map _ (nth_error ?l ?i) = Some ?b |- _ =>
             rewrite H1 in H2; cbn [option_map] in H2;
             repeat (apply Some_eq in H2);
             match type of H2 with
             | ?u = ?v => first [subst u | subst v | clear H2]
             end
         end.

(** Brings the arguments of [exp] that are equal by the ring laws to
    the same form. *)
Ltac same_exps :=
  repeat match goal with
         | |- context [exp ?a] =>
             match goal with
             | |- context [exp ?b] =>
                 tryif constr_eq a b then fail
                 else replace (exp a) with (exp b)
                     by (f_equal; unfold Rdiv; ring)
             end
         end.

Lemma ddm_fpt_full_fill_mirror (mu sig2 b_lo b_up b_lo_deriv b_up_deriv : list R)
  (delta_t : R) (k_max : Z) c0 c1 d0 d1 g1 g2 sc sc' :
  length mu = Z.to_nat k_max -> length sig2 = Z.to_nat k_max ->
  length b_lo = Z.to_nat k_max -> length b_up = Z.to_nat k_max ->
  length b_lo_deriv = Z.to_nat k_max -> length b_up_deriv = Z.to_nat k_max ->
  length g1 = Z.to_nat k_max -> length g2 = Z.to_nat k_max ->
  filled_below c0 k_max k_max -> filled_below c1 k_max k_max ->
  filled_below d0 k_max k_max -> filled_below d1 k_max k_max ->
  opposite c0 d0 k_max -> agree c1 d1 k_max ->
  wp2 (ddm_fpt_full_fill mu sig2 b_lo b_up b_lo_deriv b_up_deriv delta_t
         k_max (Some 0%nat) (Some 1%nat))
      (scratch [c0; c1] g1 g2 sc)
      (ddm_fpt_full_fill (map Ropp mu) sig2 (map Ropp b_up) (map Ropp b_lo)
         (map Ropp b_up_deriv) (map Ropp b_lo_deriv) delta_t
         k_max (Some 0%nat) (Some 1%nat))
      (scratch [d0; d1] g2 g1 sc')
      (fun _ s1 _ s2 => exists g1' g2',
         s1 = scratch [c0; c1] g1' g2' sc /\
         s2 = scratch [d0; d1] g2' g1' sc').
Proof.
  intros Lmu Ls Llo Lup Llod Lupd L1 L2 F0 F1 G0 G1 O0 A1.
  unfold ddm_fpt_full_fill.
  destruct (Z.le_gt_cases 0 k_max) as [Hk|Hk].
  2:{ unfold For. replace (Z.to_nat (k_max - 0)) with O by lia.
      apply wp2_ret. eauto. }
  eapply wp2_mono.
  { apply (wp2_For (fun k (_ : unit) s1 (_ : unit) s2 => exists g1' g2',
       s1 = scratch [c0; c1] g1' g2' sc /\
       s2 = scratch [d0; d1] g2' g1' sc' /\
       length g1' = Z.to_nat k_max /\ length g2' = Z.to_nat k_max));
      [lia | exists g1, g2; auto |].
    intros k [] s1 [] s2 Hk' (g1' & g2' & -> & -> & L1' & L2').
    assert (Lm1 : length (map Ropp mu) = Z.to_nat k_max)
      by (now rewrite length_map).
    assert (Lm2 : length (map Ropp b_up) = Z.to_nat k_max)
      by (now rewrite length_map).
    assert (Lm3 : length (map Ropp b_lo) = Z.to_nat k_max)
      by (now rewrite length_map).
    assert (Lm4 : length (map Ropp b_up_deriv) = Z.to_nat k_max)
      by (now rewrite length_map).
    assert (Lm5 : length (map Ropp b_lo_deriv) = Z.to_nat k_max)
      by (now rewrite length_map).
    do 8 left_step. do 8 right_step.
    agree_at O0 k. agree_at A1 k.
    derived_reads. same_reads.
    apply wp2_bind. eapply wp2_mono.
    { apply (wp2_For (fun j (a : R * R) s1 (b : R * R) s2 =>
         b = (snd a, fst a) /\ s1 = scratch [c0; c1] g1' g2' sc /\
         s2 = scratch [d0; d1] g2' g1' sc')); [lia | |].
      - split; [| auto].
        cbn [d_add d_sub d_mul d_div d_neg d_sqrt d_exp d_of_int d_half R_ops
             fst snd].
        f_equal; same_exps; unfold Rdiv; ring.
      - intros j [g1_k g2_k] s1 [g1_k' g2_k'] s2 Hj (E & -> & ->).
        cbn [fst snd] in E. injection E as -> ->.
        do 6 left_step. do 6 right_step.
        agree_at O0 j. agree_at A1 j.
        derived_reads. same_reads.
        apply wp2_ret. split; [| auto].
        cbn [d_add d_sub d_mul d_div d_neg d_sqrt d_exp d_of_int d_half R_ops
             fst snd].
        f_equal; same_exps; unfold Rdiv; ring. }
    cbv beta. intros [g1_k g2_k] s1 [g1_k' g2_k'] s2 (E & -> & ->).
    cbn [fst snd] in E. injection E as -> ->.
    do 2 left_step. do 2 right_step. apply wp2_ret.
    eexists _, _. split; [reflexivity |]. split; [reflexivity |].
    now rewrite !length_upd. }
  cbv beta. intros [] s1 [] s2 (g1' & g2' & -> & -> & _). eauto.
Qed.

(** [ddm_fpt_full] on the mirror image of a problem (the drift and both
    bounds with their signs changed, the upper bound and its derivative
    passed as the lower ones and conversely, [g1] and [g2] exchanged)
    returns 0 as on the problem itself, and leaves in [g1] what the
    problem leaves in [g2] and in [g2] what it leaves in [g1] (exact real
    arithmetic, every allocation succeeding). *)
Theorem ddm_fpt_full_mirror (mu sig2 b_lo b_up b_lo_deriv b_up_deriv : list R)
  (delta_t : R) (k_max : Z) (g1 g2 : list R) (sc : list bool) :
  0 < delta_t -> (1 <= k_max)%Z ->
  length mu = Z.to_nat k_max -> length sig2 = Z.to_nat k_max ->
  length b_lo = Z.to_nat k_max -> length b_up = Z.to_nat k_max ->
  length b_lo_deriv = Z.to_nat k_max -> length b_up_deriv = Z.to_nat k_max ->
  length g1 = Z.to_nat k_max -> length g2 = Z.to_nat k_max ->
  all_succeed sc ->
  exists s s',
    ddm_fpt_full mu sig2 b_lo b_up b_lo_deriv b_up_deriv delta_t k_max
      (State [] g1 g2 sc) = Ok 0%Z s /\
    ddm_fpt_full (map Ropp mu) sig2 (map Ropp b_up) (map Ropp b_lo)
      (map Ropp b_up_deriv) (map Ropp b_lo_deriv) delta_t k_max
      (State [] g2 g1 sc) = Ok 0%Z s' /\
    st_g1 s' = st_g2 s /\ st_g2 s' = st_g1 s.
Proof.
  intros Hdt Hk Lmu Ls Llo Lup Llod Lupd L1 L2 Hsc.
  assert (Hdt' : d_lt (d_of_int 0) delta_t = true)
    by (apply Rltb_true; cbn; lra).
  pose proof (filled_below_fresh (D := R) k_max) as F.
  enough (W : wp2
            (ddm_fpt_full mu sig2 b_lo b_up b_lo_deriv b_up_deriv delta_t
               k_max) (State [] g1 g2 sc)
            (ddm_fpt_full (map Ropp mu) sig2 (map Ropp b_up) (map Ropp b_lo)
               (map Ropp b_up_deriv) (map Ropp b_lo_deriv) delta_t k_max)
            (State [] g2 g1 sc)
            (fun r s r' s' => r = 0%Z /\ r' = 0%Z /\
               st_g1 s' = st_g2 s /\ st_g2 s' = st_g1 s)).
  { destruct (wp2_elim _ _ _ _ _ W) as (r & s & r' & s' & E & E' & -> & -> & H).
    exists s, s'. auto. }
  unfold ddm_fpt_full.
  apply wp2_left, wp_assert.
  { rewrite Hdt'. apply Z.gtb_lt. lia. }
  do 2 (apply wp2_left; apply wp_malloc;
        [ cbn [alloc_script]; auto using all_succeed_tl
        | cbn [heap st_g1 st_g2 alloc_script length app] ]).
  cbn [is_null orb].
  apply wp2_left. eapply wp_mono.
  { apply (@ddm_fpt_full_cumulate_spec R R_ops mu sig2 delta_t k_max
             _ _ g1 g2 (tl (tl sc)) ltac:(lia) Lmu Ls F F). }
  cbv beta. intros [] s0 (c0 & c1 & -> & F0 & F1 & S0 & S1).
  apply wp2_right, wp_assert.
  { rewrite Hdt'. apply Z.gtb_lt. lia. }
  do 2 (apply wp2_right; apply wp_malloc;
        [ cbn [alloc_script]; auto using all_succeed_tl
        | cbn [heap st_g1 st_g2 alloc_script length app] ]).
  cbn [is_null orb].
  assert (Lmu' : length (map Ropp mu) = Z.to_nat k_max)
    by (now rewrite length_map).
  apply wp2_right. eapply wp_mono.
  { apply (@ddm_fpt_full_cumulate_spec R R_ops (map Ropp mu) sig2 delta_t
             k_max _ _ g2 g1 (tl (tl sc)) ltac:(lia) Lmu' Ls F F). }
  cbv beta. intros [] s0 (d0 & d1 & -> & G0 & G1 & S0' & S1').
  pose proof (@sum_recurrence_opposite mu delta_t c0 d0 k_max S0 S0') as O0.
  pose proof (@sum_recurrence_agree sig2 delta_t c1 d1 k_max S1 S1') as A1.
  apply wp2_bind. eapply wp2_mono.
  { apply (@ddm_fpt_full_fill_mirror mu sig2 b_lo b_up b_lo_deriv b_up_deriv
             delta_t k_max c0 c1 d0 d1 g1 g2 (tl (tl sc)) (tl (tl sc)));
      assumption. }
  cbv beta. intros [] s1 [] s2 (g1' & g2' & -> & ->).
  do 2 left_step. do 2 right_step.
  apply wp2_ret. cbn. auto.
Qed.
End Mirror.

Lemma ddm_fpt_full_mirror_witness :
  exists s s',
    ddm_fpt_full [1; 1]%R [1; 1]%R [-1; -2]%R [1; 3]%R [-1; -1]%R [2; 2]%R
      1%R 2 (State [] [0; 0]%R [0; 0]%R []) = Ok 0%Z s /\
    ddm_fpt_full (map Ropp [1; 1]%R) [1; 1]%R (map Ropp [1; 3]%R)
      (map Ropp [-1; -2]%R) (map Ropp [2; 2]%R) (map Ropp [-1; -1]%R)
      1%R 2 (State [] [0; 0]%R [0; 0]%R []) = Ok 0%Z s' /\
    st_g1 s' = st_g2 s /\ st_g2 s' = st_g1 s.
Proof.
  apply (@ddm_fpt_full_mirror
           [1; 1]%R [1; 1]%R [-1; -2]%R [1; 3]%R [-1; -1]%R [2; 2]%R 1%R 2
           [0; 0]%R [0; 0]%R []);
    first [reflexivity | lra | lia | apply all_succeed_nil].
Defined.
(** ** A shorter horizon

    The first [m] steps of [ddm_fpt_full] depend on the first [m]
    elements of its arguments only. *)

Section Horizon.
Context {D : Type} {ops : DoubleOps D}.

(** The first run goes on alone when the second has ended. *)
Lemma wp2_alone {A B : Type} (m1 : M D A) s1 (b : B) s2
  (Q : A -> state D -> B -> state D -> Prop) :
  wp m1 (fun a s1' => Q a s1' b s2) s1 -> wp2 m1 s1 (ret b) s2 Q.
Proof. unfold wp, wp2, ret. destruct (m1 s1); tauto. Qed.

Lemma wp2_for_from_alone {A B : Type}
  (I : Z -> A -> state D -> B -> state D -> Prop)
  (body1 : Z -> A -> M D A) (n : nat) (lo : Z) (a : A) (b : B) s1 s2 :
  I lo a s1 b s2 ->
  (forall i a s1, (lo <= i < lo + Z.of_nat n)%Z -> I i a s1 b s2 ->
     wp (body1 i a) (fun a' s1' => I (i + 1)%Z a' s1' b s2) s1) ->
  wp2 (for_from n lo body1 a) s1 (ret b) s2 (I (lo + Z.of_nat n)%Z).
Proof.
  intros H0 Hstep. apply wp2_alone.
  apply (wp_for_from (fun i a s => I i a s b s2)); assumption.
Qed.

(** Two loops from the same start, the first one longer: iteration by
    iteration as long as the second lasts, and the first alone after
    that. *)
Lemma wp2_for_from_longer {A B : Type}
  (I : Z -> A -> state D -> B -> state D -> Prop)
  (body1 : Z -> A -> M D A) (body2 : Z -> B -> M D B) (n extra : nat)
  (lo : Z) (a : A) (b : B) s1 s2 :
  I lo a s1 b s2 ->
  (forall i a s1 b s2, (lo <= i < lo + Z.of_nat n)%Z -> I i a s1 b s2 ->
     wp2 (body1 i a) s1 (body2 i b) s2 (I (i + 1)%Z)) ->
  (forall i a s1 b s2,
     (lo + Z.of_nat n <= i < lo + Z.of_nat n + Z.of_nat extra)%Z ->
     I i a s1 b s2 ->
     wp (body1 i a) (fun a' s1' => I (i + 1)%Z a' s1' b s2) s1) ->
  wp2 (for_from (n + extra) lo body1 a) s1 (for_from n lo body2 b) s2
      (I (lo + Z.of_nat n + Z.of_nat extra)%Z).
Proof.
  revert lo a b s1 s2.
  induction n as [|n IH]; intros lo a b s1 s2 H0 Hstep Halone.
  - cbn [Nat.add for_from]. rewrite Z.add_0_r.
    apply wp2_for_from_alone; [exact H0 |].
    intros i a0 s0 Hi. apply Halone. lia.
  - cbn [Nat.add for_from]. apply wp2_bind.
    eapply wp2_mono; [apply Hstep; [lia | exact H0] |].
    intros a' s1' b' s2' H'.
    replace (lo + Z.of_nat (S n) + Z.of_nat extra)%Z
      with (lo + 1 + Z.of_nat n + Z.of_nat extra)%Z by lia.
    apply IH; [exact H' | |].
    + intros i a0 s0 b0 s0' Hi. apply Hstep. lia.
    + intros i a0 s0 b0 s0' Hi. apply Halone. lia.
Qed.

Lemma wp2_For_longer {A B : Type}
  (I : Z -> A -> state D -> B -> state D -> Prop)
  (body1 : Z -> A -> M D A) (body2 : Z -> B -> M D B) (lo mid hi : Z)
  (a : A) (b : B) s1 s2 :
  (lo <= mid <= hi)%Z ->
  I lo a s1 b s2 ->
  (forall i a s1 b s2, (lo <= i < mid)%Z -> I i a s1 b s2 ->
     wp2 (body1 i a) s1 (body2 i b) s2 (I (i + 1)%Z)) ->
  (forall i a s1 b s2, (mid <= i < hi)%Z -> I i a s1 b s2 ->
     wp (body1 i a) (fun a' s1' => I (i + 1)%Z a' s1' b s2) s1) ->
  wp2 (For lo hi body1 a) s1 (For lo mid body2 b) s2 (I hi).
Proof.
  intros Hle H0 Hstep Halone. unfold For.
  replace (Z.to_nat (hi - lo))
    with (Z.to_nat (mid - lo) + Z.to_nat (hi - mid))%nat by lia.
  replace hi
    with (lo + Z.of_nat (Z.to_nat (mid - lo)) + Z.of_nat (Z.to_nat (hi - mid)))%Z
    at 2 by lia.
  apply wp2_for_from_longer; [exact H0 | |].
  - intros i a0 s0 b0 s0' Hi. apply Hstep. lia.
  - intros i a0 s0 b0 s0' Hi. apply Halone. lia.
Qed.

(** The cells of index below [n] of two tables hold the same values. *)
Definition same_cells (c c' : list (option D)) (n : Z) : Prop :=
  forall j, (0 <= j < n)%Z -> exists v, cell c j v /\ cell c' j v.

Lemma nth_error_firstn_lt (l : list D) (n i : nat) :
  (i < n)%nat -> nth_error (firstn n l) i = nth_error l i.
Proof.
  revert l i. induction n as [|n IH]; intros l i Hi; [lia |].
  destruct l as [|x l]; [reflexivity |].
  destruct i as [|i]; [reflexivity |]. cbn. apply IH. lia.
Qed.

Lemma sum_recurrence_prefix (input : list D) (delta_t : D) c c' (n m : Z) :
  (1 <= m <= n)%Z ->
  sum_recurrence input delta_t c n ->
  sum_recurrence (firstn (Z.to_nat m) input) delta_t c' m ->
  same_cells c c' m.
Proof.
  intros Hm [(x & Hx & H0) Hs] [(x' & Hx' & H0') Hs'] j [Hj0 Hj].
  revert Hj. pattern j. apply natlike_ind; [| | exact Hj0].
  - intros _. exists (d_mul delta_t x). split; [exact H0 |].
    rewrite nth_error_firstn_lt in Hx' by lia.
    replace x with x' by congruence. exact H0'.
  - intros i Hi IH Hlt. destruct (IH ltac:(lia)) as (v & Hv & Hv').
    destruct (Hs (Z.succ i) ltac:(lia)) as (p & y & Hp & Hy & Hc).
    destruct (Hs' (Z.succ i) ltac:(lia)) as (p' & y' & Hp' & Hy' & Hc').
    replace (Z.succ i - 1)%Z with i in Hp, Hp' by lia.
    rewrite (cell_inj Hp Hv) in Hc. rewrite (cell_inj Hp' Hv') in Hc'.
    rewrite nth_error_firstn_lt in Hy' by lia.
    replace y' with y in Hc' by congruence. eauto.
Qed.

(** The elements of index below [k] and below [m] of two arrays are the
    same. *)
Definition same_below (k m : Z) (g h : list D) : Prop :=
  forall j, (0 <= j < k)%Z -> (j < m)%Z ->
    nth_error g (Z.to_nat j) = nth_error h (Z.to_nat j).

Lemma same_below_next (k m : Z) (g h : list D) (x : D) :
  (0 <= k < m)%Z -> (Z.to_nat k < length g)%nat ->
  (Z.to_nat k < length h)%nat ->
  same_below k m g h ->
  same_below (k + 1) m (upd g (Z.to_nat k) x) (upd h (Z.to_nat k) x).
Proof.
  intros Hk Lg Lh H j Hj Hjm. destruct (Z.eq_dec j k) as [->|E].
  - rewrite !nth_error_upd_eq by assumption. reflexivity.
  - rewrite !nth_error_upd_ne by lia. apply H; lia.
Qed.

Lemma same_below_later (k m : Z) (g h : list D) (x : D) :
  (0 <= m <= k)%Z ->
  same_below k m g h -> same_below (k + 1) m (upd g (Z.to_nat k) x) h.
Proof.
  intros Hk H j Hj Hjm. rewrite nth_error_upd_ne by lia. apply H; lia.
Qed.

Lemma same_below_firstn (k m : Z) (g h : list D) :
  (0 <= m <= k)%Z -> length h = Z.to_nat m -> (Z.to_nat m <= length g)%nat ->
  same_below k m g h -> h = firstn (Z.to_nat m) g.
Proof.
  intros Hk Lh Lg H. apply nth_error_ext. intros i.
  destruct (Nat.lt_ge_cases i (Z.to_nat m)) as [Hi|Hi].
  - rewrite nth_error_firstn_lt by exact Hi.
    specialize (H (Z.of_nat i) ltac:(lia) ltac:(lia)).
    rewrite Nat2Z.id in H. now symmetry.
  - transitivity (@None D).
    + apply nth_error_None. lia.
    + symmetry. apply nth_error_None. rewrite length_firstn. lia.
Qed.

Ltac left_step := apply wp2_left; wp_step.
Ltac right_step := apply wp2_right; wp_step.

Ltac cells_at A i :=
  let x := fresh "x" in
  let Hx := fresh "Hx" in
  let Hx' := fresh "Hx'" in
  destruct (A i ltac:(lia)) as (x & Hx & Hx'); unfold cell in Hx, Hx'.

Ltac elements_at A i :=
  let Hx := fresh "Hx" in
  pose proof (A i ltac:(lia) ltac:(lia)) as Hx.

Ltac prefix_reads :=
  repeat match goal with
         | H : nth_error (firstn _ _) _ = Some _ |- _ =>
             rewrite nth_error_firstn_lt in H by lia
         end.

Ltac same_reads :=
  cbn [scratch st_g1 st_g2] in *;
  repeat match goal with
         | H1 : nth_error ?l ?i = Some ?a, H2 : nth_error ?l ?i = Some ?b |- _ =>
             rewrite H1 in H2; repeat (apply Some_eq in H2);
             match type of H2 with
             | ?u = ?v => first [subst u | subst v | clear H2]
             end
         | H1 : nth_error ?l ?i = Some ?a, H2 : nth_error ?l ?i = nth_error ?l' ?i,
           H3 : nth_error ?l' ?i = Some ?b |- _ =>
             rewrite H1, H3 in H2; apply Some_eq in H2;
             match type of H2 with
             | ?u = ?v => first [subst u | subst v | clear H2]
             end
         end.

Lemma ddm_fpt_full_fill_prefix (mu sig2 b_lo b_up b_lo_deriv b_up_deriv : list D)
  (delta_t : D) (k_max m : Z) c0 c1 d0 d1 g1 g2 h1 h2 sc sc' :
  (0 <= m <= k_max)%Z ->
  length mu = Z.to_nat k_max -> length sig2 = Z.to_nat k_max ->
  length b_lo = Z.to_nat k_max -> length b_up = Z.to_nat k_max ->
  length b_lo_deriv = Z.to_nat k_max -> length b_up_deriv = Z.to_nat k_max ->
  length g1 = Z.to_nat k_max -> length g2 = Z.to_nat k_max ->
  length h1 = Z.to_nat m -> length h2 = Z.to_nat m ->
  filled_below c0 k_max k_max -> filled_below c1 k_max k_max ->
  filled_below d0 m m -> filled_below d1 m m ->
  same_cells c0 d0 m -> same_cells c1 d1 m ->
  wp2 (ddm_fpt_full_fill mu sig2 b_lo b_up b_lo_deriv b_up_deriv delta_t
         k_max (Some 0%nat) (Some 1%nat))
      (scratch [c0; c1] g1 g2 sc)
      (ddm_fpt_full_fill (firstn (Z.to_nat m) mu) (firstn (Z.to_nat m) sig2)
         (firstn (Z.to_nat m) b_lo) (firstn (Z.to_nat m) b_up)
         (firstn (Z.to_nat m) b_lo_deriv) (firstn (Z.to_nat m) b_up_deriv)
         delta_t m (Some 0%nat) (Some 1%nat))
      (scratch [d0; d1] h1 h2 sc')
      (fun _ s1 _ s2 => exists g1' g2',
         s1 = scratch [c0; c1] g1' g2' sc /\
         s2 = scratch [d0; d1] (firstn (Z.to_nat m) g1')
                (firstn (Z.to_nat m) g2') sc').
Proof.
  intros Hm Lmu Ls Llo Lup Llod Lupd L1 L2 M1 M2 F0 F1 G0 G1 A0 A1.
  unfold ddm_fpt_full_fill.
  assert (Lf : forall l : list D, length l = Z.to_nat k_max ->
                 length (firstn (Z.to_nat m) l) = Z.to_nat m)
    by (intros l Hl; rewrite length_firstn; lia).
  pose proof (Lf _ Lmu) as Lmu'. pose proof (Lf _ Ls) as Ls'.
  pose proof (Lf _ Llo) as Llo'. pose proof (Lf _ Lup) as Lup'.
  pose proof (Lf _ Llod) as Llod'. pose proof (Lf _ Lupd) as Lupd'.
  eapply wp2_mono.
  { apply (wp2_For_longer (fun k (_ : unit) s1 (_ : unit) s2 =>
       exists g1' g2' h1' h2',
         s1 = scratch [c0; c1] g1' g2' sc /\
         s2 = scratch [d0; d1] h1' h2' sc' /\
         length g1' = Z.to_nat k_max /\ length g2' = Z.to_nat k_max /\
         length h1' = Z.to_nat m /\ length h2' = Z.to_nat m /\
         same_below k m g1' h1' /\ same_below k m g2' h2'));
      [lia | | |].
    - exists g1, g2, h1, h2.
      repeat (split; [first [reflexivity | assumption] |]).
      split; intros j Hj; lia.
    - intros k [] s1 [] s2 Hk
        (g1' & g2' & h1' & h2' & -> & -> & L1' & L2' & M1' & M2' & S1 & S2).
      do 8 left_step. do 8 right_step.
      cells_at A0 k. cells_at A1 k.
      prefix_reads. same_reads.
      apply wp2_bind. eapply wp2_mono.
      { apply (wp2_For (fun j (a : D * D) s1 (b : D * D) s2 =>
           a = b /\ s1 = scratch [c0; c1] g1' g2' sc /\
           s2 = scratch [d0; d1] h1' h2' sc')); [lia | auto |].
        intros j [g1_k g2_k] s1 [g1_k' g2_k'] s2 Hj (E & -> & ->).
        injection E as <- <-.
        do 6 left_step. do 6 right_step.
        cells_at A0 j. cells_at A1 j.
        elements_at S1 j. elements_at S2 j.
        prefix_reads. same_reads.
        apply wp2_ret. auto. }
      cbv beta. intros [g1_k g2_k] s1 [g1_k' g2_k'] s2 (E & -> & ->).
      injection E as <- <-.
      do 2 left_step. do 2 right_step. apply wp2_ret.
      eexists _, _, _, _. split; [reflexivity |]. split; [reflexivity |].
      rewrite !length_upd.
      repeat (split; [assumption |]).
      split; apply same_below_next; auto; lia.
    - intros k [] s1 [] s2 Hk
        (g1' & g2' & h1' & h2' & -> & -> & L1' & L2' & M1' & M2' & S1 & S2).
      wp_steps.
      eapply wp_mono.
      { apply (wp_For (fun j (_ : D * D) s' =>
           s' = scratch [c0; c1] g1' g2' sc)); [lia | reflexivity |].
        intros j [g1_k g2_k] s0 Hj ->. wp_steps. reflexivity. }
      cbv beta. intros [g1_k g2_k] s0 ->.
      wp_steps.
      eexists _, _, _, _. split; [reflexivity |]. split; [reflexivity |].
      rewrite !length_upd.
      repeat (split; [assumption |]).
      split; apply same_below_later; auto; lia. }
  cbv beta. intros [] s1 [] s2
    (g1' & g2' & h1' & h2' & -> & -> & L1' & L2' & M1' & M2' & S1 & S2).
  exists g1', g2'. split; [reflexivity |].
  rewrite (@same_below_firstn k_max m g1' h1') by (auto; lia).
  rewrite (@same_below_firstn k_max m g2' h2') by (auto; lia).
  reflexivity.
Qed.

(** Running [ddm_fpt_full] on the first [m] steps only (the first [m]
    elements of each argument, [m] in place of [k_max], output arrays of
    [m] elements) returns 0 as the run on all [k_max >= m] steps does,
    and leaves in [g1] and [g2] the first [m] elements of what the longer
    run leaves there: the densities of the first [m] steps depend
    neither on the later elements of the arguments nor on the number of
    steps asked for. In any arithmetic, every allocation succeeding. *)
Theorem ddm_fpt_full_shorter_horizon
  (mu sig2 b_lo b_up b_lo_deriv b_up_deriv : list D) (delta_t : D)
  (k_max m : Z) (g1 g2 h1 h2 : list D) (sc sc' : list bool) :
  d_lt (d_of_int 0) delta_t = true -> (1 <= m <= k_max)%Z ->
  length mu = Z.to_nat k_max -> length sig2 = Z.to_nat k_max ->
  length b_lo = Z.to_nat k_max -> length b_up = Z.to_nat k_max ->
  length b_lo_deriv = Z.to_nat k_max -> length b_up_deriv = Z.to_nat k_max ->
  length g1 = Z.to_nat k_max -> length g2 = Z.to_nat k_max ->
  length h1 = Z.to_nat m -> length h2 = Z.to_nat m ->
  all_succeed sc -> all_succeed sc' ->
  exists s s',
    ddm_fpt_full mu sig2 b_lo b_up b_lo_deriv b_up_deriv delta_t k_max
      (State [] g1 g2 sc) = Ok 0%Z s /\
    ddm_fpt_full (firstn (Z.to_nat m) mu) (firstn (Z.to_nat m) sig2)
      (firstn (Z.to_nat m) b_lo) (firstn (Z.to_nat m) b_up)
      (firstn (Z.to_nat m) b_lo_deriv) (firstn (Z.to_nat m) b_up_deriv)
      delta_t m (State [] h1 h2 sc') = Ok 0%Z s' /\
    st_g1 s' = firstn (Z.to_nat m) (st_g1 s) /\
    st_g2 s' = firstn (Z.to_nat m) (st_g2 s).
Proof.
  intros Hdt Hm Lmu Ls Llo Lup Llod Lupd L1 L2 M1 M2 Hsc Hsc'.
  enough (W : wp2
            (ddm_fpt_full mu sig2 b_lo b_up b_lo_deriv b_up_deriv delta_t
               k_max) (State [] g1 g2 sc)
            (ddm_fpt_full (firstn (Z.to_nat m) mu) (firstn (Z.to_nat m) sig2)
               (firstn (Z.to_nat m) b_lo) (firstn (Z.to_nat m) b_up)
               (firstn (Z.to_nat m) b_lo_deriv)
               (firstn (Z.to_nat m) b_up_deriv) delta_t m)
            (State [] h1 h2 sc')
            (fun r s r' s' => r = 0%Z /\ r' = 0%Z /\
               st_g1 s' = firstn (Z.to_nat m) (st_g1 s) /\
               st_g2 s' = firstn (Z.to_nat m) (st_g2 s))).
  { destruct (wp2_elim _ _ _ _ _ W) as (r & s & r' & s' & E & E' & -> & -> & H).
    exists s, s'. auto. }
  assert (Lf : forall l : list D, length l = Z.to_nat k_max ->
                 length (firstn (Z.to_nat m) l) = Z.to_nat m)
    by (intros l Hl; rewrite length_firstn; lia).
  unfold ddm_fpt_full.
  apply wp2_left, wp_assert.
  { rewrite Hdt. apply Z.gtb_lt. lia. }
  do 2 (apply wp2_left; apply wp_malloc;
        [ cbn [alloc_script]; auto using all_succeed_tl
        | cbn [heap st_g1 st_g2 alloc_script length app] ]).
  cbn [is_null orb].
  apply wp2_left. eapply wp_mono.
  { apply (@ddm_fpt_full_cumulate_spec D ops mu sig2 delta_t k_max
             _ _ g1 g2 (tl (tl sc)) ltac:(lia) Lmu Ls
             (filled_below_fresh k_max) (filled_below_fresh k_max)). }
  cbv beta. intros [] s0 (c0 & c1 & -> & F0 & F1 & S0 & S1).
  apply wp2_right, wp_assert.
  { rewrite Hdt. apply Z.gtb_lt. lia. }
  do 2 (apply wp2_right; apply wp_malloc;
        [ cbn [alloc_script]; auto using all_succeed_tl
        | cbn [heap st_g1 st_g2 alloc_script length app] ]).
  cbn [is_null orb].
  apply wp2_right. eapply wp_mono.
  { apply (@ddm_fpt_full_cumulate_spec D ops (firstn (Z.to_nat m) mu)
             (firstn (Z.to_nat m) sig2) delta_t m
             _ _ h1 h2 (tl (tl sc')) ltac:(lia) (Lf _ Lmu) (Lf _ Ls)
             (filled_below_fresh m) (filled_below_fresh m)). }
  cbv beta. intros [] s0 (d0 & d1 & -> & G0 & G1 & S0' & S1').
  pose proof (@sum_recurrence_prefix mu delta_t c0 d0 k_max m Hm S0 S0') as A0.
  pose proof (@sum_recurrence_prefix sig2 delta_t c1 d1 k_max m Hm S1 S1')
    as A1.
  apply wp2_bind. eapply wp2_mono.
  { apply (@ddm_fpt_full_fill_prefix mu sig2 b_lo b_up b_lo_deriv b_up_deriv
             delta_t k_max m c0 c1 d0 d1 g1 g2 h1 h2
             (tl (tl sc)) (tl (tl sc'))); first [assumption | lia]. }
  cbv beta. intros [] s1 [] s2 (g1' & g2' & -> & ->).
  do 2 left_step. do 2 right_step.
  apply wp2_ret. cbn. auto.
Qed.
End Horizon.

Lemma ddm_fpt_full_shorter_horizon_witness :
  exists s s',
    ddm_fpt_full [1; 2; 3]%R [1; 1; 2]%R [-1; -2; -2]%R [1; 3; 3]%R
      [-1; -1; 0]%R [2; 2; 0]%R 1%R 3
      (State [] [0; 0; 0]%R [0; 0; 0]%R []) = Ok 0%Z s /\
    ddm_fpt_full (firstn (Z.to_nat 2) [1; 2; 3]%R)
      (firstn (Z.to_nat 2) [1; 1; 2]%R) (firstn (Z.to_nat 2) [-1; -2; -2]%R)
      (firstn (Z.to_nat 2) [1; 3; 3]%R) (firstn (Z.to_nat 2) [-1; -1; 0]%R)
      (firstn (Z.to_nat 2) [2; 2; 0]%R) 1%R 2
      (State [] [5; 5]%R [5; 5]%R []) = Ok 0%Z s' /\
    st_g1 s' = firstn (Z.to_nat 2) (st_g1 s) /\
    st_g2 s' = firstn (Z.to_nat 2) (st_g2 s).
Proof.
  apply (@ddm_fpt_full_shorter_horizon R R_ops
           [1; 2; 3]%R [1; 1; 2]%R [-1; -2; -2]%R [1; 3; 3]%R
           [-1; -1; 0]%R [2; 2; 0]%R 1%R 3 2
           [0; 0; 0]%R [0; 0; 0]%R [5; 5]%R [5; 5]%R [] []);
    first [reflexivity | lia | exact zero_lt_one_R | exact all_succeed_nil].
Defined.
(** ** The weights of ddm_fpt_w

    [ddm_fpt_w] uses its argument [mu] through the squares [a2] only. *)

Section Weights.
Context {D : Type} {ops : DoubleOps D}.

Lemma bind_same_start {A B : Type} (m : M D A) (k1 k2 : A -> M D B) s :
  (forall a s', k1 a s' = k2 a s') -> bind m k1 s = bind m k2 s.
Proof. intros H. unfold bind. destruct (m s); auto. Qed.

Lemma for_from_same_body {A : Type} (body1 body2 : Z -> A -> M D A)
  (n : nat) (lo : Z) (a : A) s :
  (forall i a s, body1 i a s = body2 i a s) ->
  for_from n lo body1 a s = for_from n lo body2 a s.
Proof.
  intros H. revert lo a s. induction n as [|n IH]; intros lo a s.
  - reflexivity.
  - cbn [for_from]. rewrite (bind_same_start _ _ _ _ (IH (lo + 1)%Z)).
    unfold bind. now rewrite H.
Qed.

(** Two arrays of weights with the same squares. *)
Definition same_squares (mu mu' : list D) : Prop :=
  Forall2 (fun x y => d_mul x x = d_mul y y) mu mu'.

Lemma same_squares_nth (mu mu' : list D) (i : nat) :
  same_squares mu mu' ->
  match nth_error mu i, nth_error mu' i with
  | Some x, Some y => d_mul x x = d_mul y y
  | None, None => True
  | _, _ => False
  end.
Proof.
  intros H. revert i. induction H as [|x y l l' Hxy H IH]; intros i.
  - now destruct i.
  - destruct i as [|i]; [exact Hxy | apply IH].
Qed.

(** A read of a weight of which only the square is used. *)
Lemma rd_square {A : Type} (mu mu' : list D) (j : Z) (f : D -> M D A) s :
  same_squares mu mu' ->
  bind (rd mu j) (fun x => f (d_mul x x)) s
  = bind (rd mu' j) (fun x => f (d_mul x x)) s.
Proof.
  intros H. unfold bind, rd. rewrite (Forall2_length H).
  destruct (in_bounds j (length mu')); [| reflexivity].
  pose proof (same_squares_nth (Z.to_nat j) H) as E.
  destruct (nth_error mu (Z.to_nat j)), (nth_error mu' (Z.to_nat j));
    try tauto.
  now rewrite E.
Qed.

Lemma ddm_fpt_w_precompute_squares (mu mu' bound : list D) (delta_t : D)
  (n_max : Z) (a2 A bound_deriv : ptr) s :
  same_squares mu mu' ->
  ddm_fpt_w_precompute mu bound delta_t n_max a2 A bound_deriv s
  = ddm_fpt_w_precompute mu' bound delta_t n_max a2 A bound_deriv s.
Proof.
  intros H. unfold ddm_fpt_w_precompute.
  rewrite (rd_square 0
             (fun q =>
                bind (store a2 0 q)
                  (fun _ =>
                     bind (store A 0 (d_mul delta_t q))
                       (fun _ =>
                          bind (For 1 n_max _ (d_mul delta_t q)) _))) s H).
  apply bind_same_start. intros x s1.
  apply bind_same_start. intros [] s2.
  apply bind_same_start. intros [] s3.
  unfold bind at 1 3. unfold For.
  rewrite (@for_from_same_body _ _
             (fun j cum_a2 =>
                bind (rd mu' j) (fun mu_j =>
                  bind (store a2 j (d_mul mu_j mu_j)) (fun _ =>
                    bind (store A j
                            (d_add cum_a2 (d_mul delta_t (d_mul mu_j mu_j))))
                      (fun _ =>
                         bind (rd bound j) (fun bound_j =>
                           bind (rd bound (j - 1)) (fun bound_j1 =>
                             bind (store bound_deriv (j - 1)
                                     (d_div (d_sub bound_j bound_j1) delta_t))
                               (fun _ =>
                                  ret (d_add cum_a2
                                         (d_mul delta_t
                                            (d_mul mu_j mu_j))))))))))).
  - reflexivity.
  - intros j cum_a2 s4.
    apply (rd_square j
             (fun q =>
                bind (store a2 j q) (fun _ =>
                  bind (store A j (d_add cum_a2 (d_mul delta_t q)))
                    (fun _ =>
                       bind (rd bound j) (fun bound_j =>
                         bind (rd bound (j - 1)) (fun bound_j1 =>
                           bind (store bound_deriv (j - 1)
                                   (d_div (d_sub bound_j bound_j1) delta_t))
                             (fun _ =>
                                ret (d_add cum_a2 (d_mul delta_t q))))))))
             s4 H).
Qed.

(** [ddm_fpt_w] on two arrays of weights whose elements have the same
    squares (the same weights up to their signs) ends in the same way:
    the same return value and the same [g1] and [g2], or the same
    fault. For all arguments and every state of the memory, in any
    arithmetic. *)
Theorem ddm_fpt_w_weights_up_to_sign (mu mu' bound : list D) (k delta_t : D)
  (n_max : Z) (s : state D) :
  same_squares mu mu' ->
  ddm_fpt_w mu bound k delta_t n_max s = ddm_fpt_w mu' bound k delta_t n_max s.
Proof.
  intros H. unfold ddm_fpt_w.
  apply bind_same_start. intros [] s0.
  apply bind_same_start. intros a2 s1.
  apply bind_same_start. intros A s2.
  apply bind_same_start. intros bound_deriv s3.
  destruct (is_null a2 || is_null A || is_null bound_deriv); [reflexivity |].
  unfold bind at 1 6.
  now rewrite (ddm_fpt_w_precompute_squares bound delta_t n_max a2 A
                 bound_deriv s3 H).
Qed.
End Weights.

Lemma ddm_fpt_w_weights_up_to_sign_witness :
  same_squares (ops := R_ops) [1; -2]%R [-1; 2]%R /\
  ddm_fpt_w [1; -2]%R [1; 1]%R 1%R 1%R 2 (State [] [0; 0]%R [0; 0]%R [])
  = ddm_fpt_w [-1; 2]%R [1; 1]%R 1%R 1%R 2 (State [] [0; 0]%R [0; 0]%R []).
Proof.
  assert (H : same_squares (ops := R_ops) [1; -2]%R [-1; 2]%R)
    by (repeat constructor; cbn; lra).
  split; [exact H |].
  apply (@ddm_fpt_w_weights_up_to_sign R R_ops [1; -2]%R [-1; 2]%R [1; 1]%R 1%R 1%R 2
           (State [] [0; 0]%R [0; 0]%R []) H).
Defined.
(** ** The times at which ddm_fpt_const takes the density *)

Section TimeGrid.
Local Open Scope R_scope.

(** Up to index [n], [g1[i]] and [g2[i]] are the clamped values of
    [fpt_symup] and of [c4] times [fpt_symup] at the time
    [delta_t * (i + 1)]. *)
Definition on_grid (fuel : nat) (mu bound delta_t : R) (n : Z)
  (g1 g2 : list R) : Prop :=
  forall i, (0 <= i < n)%Z ->
    exists g,
      fpt_symup fuel (delta_t * (IZR i + 1)) (4 * (bound * bound))
        (mu * mu / 2) (mu * bound) = Some g /\
      nth_error g1 (Z.to_nat i) = Some (MAX g 0) /\
      nth_error g2 (Z.to_nat i) = Some (MAX (exp (-2 * (mu * bound)) * g) 0).

Lemma on_grid_step (fuel : nat) (mu bound delta_t : R) (k : Z)
  (g1 g2 : list R) (g : R) :
  (0 <= k)%Z -> on_grid fuel mu bound delta_t k g1 g2 ->
  fpt_symup fuel (delta_t * (IZR k + 1)) (4 * (bound * bound))
    (mu * mu / 2) (mu * bound) = Some g ->
  (Z.to_nat k < length g1)%nat -> (Z.to_nat k < length g2)%nat ->
  on_grid fuel mu bound delta_t (k + 1)
    (upd g1 (Z.to_nat k) (MAX g 0))
    (upd g2 (Z.to_nat k) (MAX (exp (-2 * (mu * bound)) * g) 0)).
Proof.
  intros Hk H Hg L1 L2 i Hi. destruct (Z.eq_dec i k) as [->|Hne].
  - exists g. rewrite !nth_error_upd_eq by assumption. auto.
  - rewrite !nth_error_upd_ne by lia. apply H. lia.
Qed.

Lemma ddm_fpt_const_on_grid (fuel : nat) (mu bound delta_t : R) (k_max : Z)
  (s : state R) :
  wlp (ddm_fpt_const fuel mu bound delta_t k_max)
      (fun _ s' => on_grid fuel mu bound delta_t k_max (st_g1 s') (st_g2 s'))
      s.
Proof.
  unfold ddm_fpt_const.
  apply wlp_bind, wlp_assert. intros Hassert.
  repeat (apply andb_prop in Hassert as [Hassert ?]).
  match goal with Hk : (k_max >? 0)%Z = true |- _ => apply Z.gtb_lt in Hk end.
  apply wlp_bind.
  eapply wlp_mono;
    [apply (wlp_For (fun i (t : R) s' =>
              t = delta_t * (IZR i + 1) /\
              on_grid fuel mu bound delta_t i (st_g1 s') (st_g2 s'))) |].
  - split; [ring | intros i Hi; lia].
  - intros i t s0 Hi [-> HJ].
    apply wlp_bind, wlp_lift_fuel. intros g Hg.
    apply wlp_bind, wlp_set_g1. intros B1.
    apply wlp_bind, wlp_set_g2. cbn [st_g1 st_g2 heap alloc_script].
    intros B2. apply wlp_ret. cbn [st_g1 st_g2].
    split; [cbn [d_add R_ops]; rewrite plus_IZR; ring |].
    apply on_grid_step; auto; lia.
  - cbv beta. intros t s' [_ HJ]. apply wlp_ret.
    now replace (Z.max 0 k_max) with k_max in HJ by lia.
Qed.

(** After [ddm_fpt_const] has returned, [g1[i]] holds
    [MAX(fpt_symup(t_i, c1, c2, c3), 0)] and [g2[i]] holds
    [MAX(c4 * fpt_symup(t_i, c1, c2, c3), 0)] for the time
    [t_i = delta_t * (i + 1)], at every index [i] below [k_max]: the sum
    [t += delta_t] of the loop is the product (exact real
    arithmetic). *)
Theorem ddm_fpt_const_time_grid (fuel : nat) (mu bound delta_t : R)
  (k_max : Z) (s s' : state R) :
  ddm_fpt_const fuel mu bound delta_t k_max s = Ok tt s' ->
  forall i, (0 <= i < k_max)%Z ->
    exists g,
      fpt_symup fuel (delta_t * (IZR i + 1)) (4 * (bound * bound))
        (mu * mu / 2) (mu * bound) = Some g /\
      nth_error (st_g1 s') (Z.to_nat i) = Some (MAX g 0) /\
      nth_error (st_g2 s') (Z.to_nat i)
      = Some (MAX (exp (-2 * (mu * bound)) * g) 0).
Proof.
  intros Hrun.
  exact (wlp_elim _ _ _ (ddm_fpt_const_on_grid fuel mu bound delta_t k_max s)
                  Hrun).
Qed.

Lemma ddm_fpt_const_time_grid_witness :
  exists fuel s',
    ddm_fpt_const fuel 1 1 1 2 (State [] [0; 0] [0; 0] []) = Ok tt s' /\
    forall i, (0 <= i < 2)%Z ->
      exists g,
        fpt_symup fuel (1 * (IZR i + 1)) (4 * (1 * 1)) (1 * 1 / 2) (1 * 1)
        = Some g /\
        nth_error (st_g1 s') (Z.to_nat i) = Some (MAX g 0) /\
        nth_error (st_g2 s') (Z.to_nat i)
        = Some (MAX (exp (-2 * (1 * 1)) * g) 0).
Proof.
  destruct ddm_fpt_const_runs as (fuel & s' & E).
  exists fuel, s'. split; [exact E |].
  exact (@ddm_fpt_const_time_grid fuel 1 1 1 2 _ _ E).
Defined.
End TimeGrid.
(** ** ddm_fpt with the drift reversed *)

Section ReversedDrift.
Local Open Scope R_scope.

Ltac left_step := apply wp2_left; wp_step.
Ltac right_step := apply wp2_right; wp_step.

Ltac agree_at A i :=
  let x := fresh "x" in
  let Hx := fresh "Hx" in
  let Hx' := fresh "Hx'" in
  destruct (A i ltac:(lia)) as (x & Hx & Hx'); unfold cell in Hx, Hx'.

Ltac cells_at T i :=
  let Hx := fresh "Hx" in
  let Hx' := fresh "Hx'" in
  destruct (T i ltac:(lia)) as (Hx & Hx'); unfold cell in Hx, Hx'.

Ltac derived_reads :=
  repeat match goal with
         | H : nth_error (map _ _) _ = Some _ |- _ =>
             rewrite nth_error_map in H
         end.

Ltac same_reads :=
  cbn [scratch st_g1 st_g2] in *;
  repeat match goal with
         | H1 : nth_error ?l ?i = Some ?a, H2 : nth_error ?l ?i = Some ?b |- _ =>
             rewrite H1 in H2; repeat (apply Some_eq in H2);
             match type of H2 with
             | ?u = ?v => first [subst u | subst v | clear H2]
             end
         | H1 : nth_error ?l ?i = Some ?a,
           H2 : option_map _ (nth_error ?l ?i) = Some ?b |- _ =>
             rewrite H1 in H2; cbn [option_map] in H2;
             repeat (apply Some_eq in H2);
             match type of H2 with
             | ?u = ?v => first [subst u | subst v | clear H2]
             end
         end.

Ltac same_exps :=
  repeat match goal with
         | |- context [exp ?a] =>
             match goal with
             | |- context [exp ?b] =>
                 tryif constr_eq a b then fail
                 else replace (exp a) with (exp b)
                     by (f_equal; unfold Rdiv; ring)
             end
         end.

(** Two tables of the derivative of the same bound hold the same
    values. *)
Lemma bound_derivative_agree (bound : list R) (delta_t : R) (k_max : Z)
  c c' :
  (2 <= k_max)%Z ->
  bound_derivative bound delta_t k_max c ->
  bound_derivative bound delta_t k_max c' ->
  agree c c' k_max.
Proof.
  intros Hk Hc Hc' k Hk'.
  apply bound_derivative_edge_rule in Hc; [| exact Hk].
  apply bound_derivative_edge_rule in Hc'; [| exact Hk].
  destruct Hc as [Hc (p & l & Hp & Hl & Hc2 & Hc1)].
  destruct Hc' as [Hb (p' & l' & Hp' & Hl' & Hb2 & Hb1)].
  assert (Ep : p' = p) by congruence. assert (El : l' = l) by congruence.
  subst p' l'.
  destruct (Z.eq_dec k (k_max - 1)) as [->|Hne].
  - eexists. split; [exact Hc1 | exact Hb1].
  - destruct (Hc k ltac:(lia)) as (b0 & b1 & H0 & H1 & H2).
    destruct (Hb k ltac:(lia)) as (b0' & b1' & H0' & H1' & H2').
    assert (E0 : b0' = b0) by congruence.
    assert (E1 : b1' = b1) by congruence. subst b0' b1'.
    eexists. split; [exact H2 | exact H2'].
Qed.

Lemma ddm_fpt_fill_reversed_drift (mu bound : list R) (delta_t : R)
  (k_max : Z) c0 c1 c2 c3 d0 d1 d2 d3 g1 g2 sc sc' :
  length mu = Z.to_nat k_max -> length bound = Z.to_nat k_max ->
  length g1 = Z.to_nat k_max -> length g2 = Z.to_nat k_max ->
  filled_below c0 k_max k_max -> filled_below c1 k_max k_max ->
  filled_below c2 k_max k_max -> filled_below c3 k_max k_max ->
  filled_below d0 k_max k_max -> filled_below d1 k_max k_max ->
  filled_below d2 k_max k_max -> filled_below d3 k_max k_max ->
  opposite c0 d0 k_max -> agree c1 d1 k_max ->
  norm_tables delta_t c2 c3 k_max -> norm_tables delta_t d2 d3 k_max ->
  wp2 (ddm_fpt_fill mu bound delta_t k_max
         (Some 0%nat) (Some 1%nat) (Some 2%nat) (Some 3%nat))
      (scratch [c0; c1; c2; c3] g1 g2 sc)
      (ddm_fpt_fill (map Ropp mu) bound delta_t k_max
         (Some 0%nat) (Some 1%nat) (Some 2%nat) (Some 3%nat))
      (scratch [d0; d1; d2; d3] g2 g1 sc')
      (fun _ s1 _ s2 => exists g1' g2',
         s1 = scratch [c0; c1; c2; c3] g1' g2' sc /\
         s2 = scratch [d0; d1; d2; d3] g2' g1' sc').
Proof.
  intros Lmu Lb L1 L2 F0 F1 F2 F3 G0 G1 G2 G3 O0 A1 Hn Hn'.
  unfold ddm_fpt_fill.
  destruct (Z.le_gt_cases 0 k_max) as [Hk|Hk].
  2:{ unfold For. replace (Z.to_nat (k_max - 0)) with O by lia.
      apply wp2_ret. eauto. }
  eapply wp2_mono.
  { apply (wp2_For (fun k (_ : unit) s1 (_ : unit) s2 => exists g1' g2',
       s1 = scratch [c0; c1; c2; c3] g1' g2' sc /\
       s2 = scratch [d0; d1; d2; d3] g2' g1' sc' /\
       length g1' = Z.to_nat k_max /\ length g2' = Z.to_nat k_max));
      [lia | exists g1, g2; auto |].
    intros k [] s1 [] s2 Hk' (g1' & g2' & -> & -> & L1' & L2').
    assert (Lm : length (map Ropp mu) = Z.to_nat k_max)
      by (now rewrite length_map).
    do 6 left_step. do 6 right_step.
    agree_at O0 k. agree_at A1 k. cells_at Hn k. cells_at Hn' k.
    derived_reads. same_reads.
    apply wp2_bind. eapply wp2_mono.
    { apply (wp2_For (fun j (a : R * R) s1 (b : R * R) s2 =>
         b = (snd a, fst a) /\ s1 = scratch [c0; c1; c2; c3] g1' g2' sc /\
         s2 = scratch [d0; d1; d2; d3] g2' g1' sc')); [lia | |].
      - split; [| auto].
        cbn [d_add d_sub d_mul d_div d_neg d_sqrt d_exp d_of_int d_half R_ops
             fst snd].
        f_equal; same_exps; unfold Rdiv; ring.
      - intros j [g1_k g2_k] s1 [g1_k' g2_k'] s2 Hj (E & -> & ->).
        cbn [fst snd] in E. injection E as -> ->.
        do 6 left_step. do 6 right_step.
        agree_at O0 j. cells_at Hn (k - j - 1)%Z. cells_at Hn' (k - j - 1)%Z.
        derived_reads. same_reads.
        apply wp2_ret. split; [| auto].
        cbn [d_add d_sub d_mul d_div d_neg d_sqrt d_exp d_of_int d_half R_ops
             fst snd].
        f_equal; same_exps; unfold Rdiv; ring. }
    cbv beta. intros [g1_k g2_k] s1 [g1_k' g2_k'] s2 (E & -> & ->).
    cbn [fst snd] in E. injection E as -> ->.
    do 2 left_step. do 2 right_step. apply wp2_ret.
    eexists _, _. split; [reflexivity |]. split; [reflexivity |].
    now rewrite !length_upd. }
  cbv beta. intros [] s1 [] s2 (g1' & g2' & -> & -> & _). eauto.
Qed.
(** [ddm_fpt] with the drift reversed ([-mu[k]] at every step, the same
    bound) and [g1] and [g2] exchanged returns 0 as the original call
    does, and leaves in [g1] what the original call leaves in [g2] and
    in [g2] what it leaves in [g1] (two steps or more, exact real
    arithmetic, every allocation succeeding). *)
Theorem ddm_fpt_reversed_drift (mu bound : list R) (delta_t : R) (k_max : Z)
  (g1 g2 : list R) (sc : list bool) :
  0 < delta_t -> (2 <= k_max)%Z ->
  length mu = Z.to_nat k_max -> length bound = Z.to_nat k_max ->
  length g1 = Z.to_nat k_max -> length g2 = Z.to_nat k_max ->
  all_succeed sc ->
  exists s s',
    ddm_fpt mu bound delta_t k_max (State [] g1 g2 sc) = Ok 0%Z s /\
    ddm_fpt (map Ropp mu) bound delta_t k_max (State [] g2 g1 sc)
    = Ok 0%Z s' /\
    st_g1 s' = st_g2 s /\ st_g2 s' = st_g1 s.
Proof.
  intros Hdt Hk Lmu Lb L1 L2 Hsc.
  assert (Hdt' : d_lt (d_of_int 0) delta_t = true)
    by (apply Rltb_true; cbn; lra).
  pose proof (filled_below_fresh (D := R) k_max) as F.
  enough (W : wp2
            (ddm_fpt mu bound delta_t k_max) (State [] g1 g2 sc)
            (ddm_fpt (map Ropp mu) bound delta_t k_max) (State [] g2 g1 sc)
            (fun r s r' s' => r = 0%Z /\ r' = 0%Z /\
               st_g1 s' = st_g2 s /\ st_g2 s' = st_g1 s)).
  { destruct (wp2_elim _ _ _ _ _ W) as (r & s & r' & s' & E & E' & -> & -> & H).
    exists s, s'. auto. }
  unfold ddm_fpt.
  apply wp2_left, wp_assert.
  { rewrite Hdt'. apply Z.gtb_lt. lia. }
  do 4 (apply wp2_left; apply wp_malloc;
        [ cbn [alloc_script]; auto using all_succeed_tl
        | cbn [heap st_g1 st_g2 alloc_script length app] ]).
  cbn [is_null orb].
  apply wp2_left. eapply wp_mono.
  { apply (@ddm_fpt_precompute_tables R R_ops mu bound delta_t k_max
             _ _ _ _ g1 g2 (tl (tl (tl (tl sc)))) Hk Lmu Lb F F F F). }
  cbv beta.
  intros [] s0 (c0 & c1 & c2 & c3 & -> & F0 & S0 & Hd & F2 & F3 & Hn).
  apply wp2_right, wp_assert.
  { rewrite Hdt'. apply Z.gtb_lt. lia. }
  do 4 (apply wp2_right; apply wp_malloc;
        [ cbn [alloc_script]; auto using all_succeed_tl
        | cbn [heap st_g1 st_g2 alloc_script length app] ]).
  cbn [is_null orb].
  assert (Lmu' : length (map Ropp mu) = Z.to_nat k_max)
    by (now rewrite length_map).
  apply wp2_right. eapply wp_mono.
  { apply (@ddm_fpt_precompute_tables R R_ops (map Ropp mu) bound delta_t
             k_max _ _ _ _ g2 g1 (tl (tl (tl (tl sc)))) Hk Lmu' Lb F F F F). }
  cbv beta.
  intros [] s0 (d0 & d1 & d2 & d3 & -> & G0 & S0' & Hd' & G2 & G3 & Hn').
  pose proof (@sum_recurrence_opposite mu delta_t c0 d0 k_max S0 S0') as O0.
  pose proof (@bound_derivative_agree bound delta_t k_max c1 d1 Hk Hd Hd')
    as A1.
  destruct Hd as (F1 & _). destruct Hd' as (G1 & _).
  apply wp2_bind. eapply wp2_mono.
  { apply (@ddm_fpt_fill_reversed_drift mu bound delta_t k_max
             c0 c1 c2 c3 d0 d1 d2 d3 g1 g2
             (tl (tl (tl (tl sc)))) (tl (tl (tl (tl sc)))));
      assumption. }
  cbv beta. intros [] s1 [] s2 (g1' & g2' & -> & ->).
  do 4 left_step. do 4 right_step.
  apply wp2_ret. cbn. auto.
Qed.
End ReversedDrift.

Lemma ddm_fpt_reversed_drift_witness :
  exists s s',
    ddm_fpt [1; 2]%R [1; 2]%R 1%R 2 (State [] [0; 0]%R [0; 0]%R [])
    = Ok 0%Z s /\
    ddm_fpt (map Ropp [1; 2]%R) [1; 2]%R 1%R 2
      (State [] [0; 0]%R [0; 0]%R []) = Ok 0%Z s' /\
    st_g1 s' = st_g2 s /\ st_g2 s' = st_g1 s.
Proof.
  apply (@ddm_fpt_reversed_drift [1; 2]%R [1; 2]%R 1%R 2
           [0; 0]%R [0; 0]%R []);
    first [reflexivity | lra | lia | exact all_succeed_nil].
Defined.
(** ** ddm_fpt_w and ddm_fpt_const_mu on a constant bound *)

Section WeightTables.
Context {D : Type} {ops : DoubleOps D}.

(** What lines 429 to 446 leave in the three scratch arrays of
    [ddm_fpt_const_mu]. *)
Lemma ddm_fpt_const_mu_precompute_tables bound delta_t k_max c0 c1 c2
  g1 g2 sc :
  (2 <= k_max)%Z -> length bound = Z.to_nat k_max ->
  filled_below c0 k_max 0 -> filled_below c1 k_max 0 ->
  filled_below c2 k_max 0 ->
  wp (ddm_fpt_const_mu_precompute bound delta_t k_max
        (Some 0%nat) (Some 1%nat) (Some 2%nat))
     (fun _ s' => exists c0' c1' c2',
        s' = scratch [c0'; c1'; c2'] g1 g2 sc /\
        bound_derivative bound delta_t k_max c0' /\
        filled_below c1' k_max k_max /\ filled_below c2' k_max k_max /\
        norm_tables delta_t c1' c2' k_max)
     (scratch [c0; c1; c2] g1 g2 sc).
Proof.
  intros Hk Lb F0 F1 F2. unfold ddm_fpt_const_mu_precompute.
  wp_steps.
  eapply wp_mono.
  { apply (wp_For (fun j (_ : unit) s' => exists c0',
       s' = scratch [c0'; c1; c2] g1 g2 sc /\
       filled_below c0' k_max (j - 1) /\
       derivative_below bound delta_t c0' (j - 1))); [lia | |].
    - exists c0. split; [reflexivity |]. split; [exact F0 |].
      intros i Hi. lia.
    - intros j [] s0 Hj (c0' & -> & G0 & Hd).
      wp_steps.
      eexists. split; [reflexivity |]. split.
      + replace (j + 1 - 1)%Z with (j - 1 + 1)%Z by lia.
        apply filled_below_next; [exact G0 | lia].
      + replace (j + 1 - 1)%Z with j by lia.
        apply derivative_below_next; auto; try lia.
        rewrite (filled_below_length G0). lia. }
  cbv beta. intros [] s0 (c0' & -> & G0 & Hd).
  wp_steps.
  eapply wp_mono.
  { apply (wp_For (fun j (_ : unit) s' => exists c1' c2',
       s' = scratch [upd c0' (Z.to_nat (k_max - 1)) (Some v); c1'; c2']
                    g1 g2 sc /\
       filled_below c1' k_max j /\ filled_below c2' k_max j /\
       norm_tables delta_t c1' c2' j)); [lia | |].
    - exists c1, c2. split; [reflexivity |]. split; [exact F1 |].
      split; [exact F2 |]. intros i Hi. lia.
    - intros j [] s0 Hj (c1' & c2' & -> & G1 & G2 & Hn).
      wp_steps.
      eexists _, _. split; [reflexivity |].
      split; [apply filled_below_next; auto |].
      split; [apply filled_below_next; auto |].
      apply norm_tables_next; auto; try lia.
      + rewrite (filled_below_length G1). lia.
      + rewrite (filled_below_length G2). lia. }
  cbv beta. intros [] s0 (c1' & c2' & -> & G1 & G2 & Hn).
  eexists _, _, _. split; [reflexivity |].
  split; [now apply bound_derivative_last |]. auto.
Qed.

(** Cell [j] of [c] holds the square of [mu[j]]. *)
Definition squares_table (mu : list D) (c : list (option D)) (n : Z) : Prop :=
  forall j, (0 <= j < n)%Z ->
    exists x, nth_error mu (Z.to_nat j) = Some x /\ cell c j (d_mul x x).

Lemma squares_table_next (mu : list D) c (j : Z) (x : D) :
  squares_table mu c j -> (0 <= j < Z.of_nat (length c))%Z ->
  nth_error mu (Z.to_nat j) = Some x ->
  squares_table mu (upd c (Z.to_nat j) (Some (d_mul x x))) (j + 1).
Proof.
  intros H Hj Hx i Hi. destruct (Z.eq_dec i j) as [->|E].
  - exists x. split; [exact Hx | now apply cell_upd_eq].
  - destruct (H i ltac:(lia)) as (y & Hy & Hc).
    exists y. split; [exact Hy | apply cell_upd_ne; auto; lia].
Qed.

(** What lines 704 to 715 leave in the three scratch arrays of
    [ddm_fpt_w]: the squares of the weights, their running sum times
    [delta_t], and the derivative of the bound. *)
Lemma ddm_fpt_w_precompute_tables mu bound delta_t n_max c0 c1 c2 g1 g2 sc :
  (2 <= n_max)%Z ->
  length mu = Z.to_nat n_max -> length bound = Z.to_nat n_max ->
  filled_below c0 n_max 0 -> filled_below c1 n_max 0 ->
  filled_below c2 n_max 0 ->
  wp (ddm_fpt_w_precompute mu bound delta_t n_max
        (Some 0%nat) (Some 1%nat) (Some 2%nat))
     (fun _ s' => exists c0' c1' c2',
        s' = scratch [c0'; c1'; c2'] g1 g2 sc /\
        filled_below c0' n_max n_max /\ filled_below c1' n_max n_max /\
        squares_table mu c0' n_max /\
        sum_recurrence (map (fun x => d_mul x x) mu) delta_t c1' n_max /\
        bound_derivative bound delta_t n_max c2')
     (scratch [c0; c1; c2] g1 g2 sc).
Proof.
  intros Hk Lmu Lb F0 F1 F2. unfold ddm_fpt_w_precompute.
  pose proof (filled_below_length F0) as E0.
  pose proof (filled_below_length F1) as E1.
  wp_steps.
  eapply wp_mono.
  { apply (wp_For (fun j (cum_a2 : D) s' => exists c0' c1' c2',
       s' = scratch [c0'; c1'; c2'] g1 g2 sc /\
       filled_below c0' n_max j /\ filled_below c1' n_max j /\
       filled_below c2' n_max (j - 1) /\
       squares_table mu c0' j /\
       sum_recurrence (map (fun x => d_mul x x) mu) delta_t c1' j /\
       cell c1' (j - 1) cum_a2 /\
       derivative_below bound delta_t c2' (j - 1))); [lia | |].
    - eexists _, _, c2. split; [reflexivity |].
      assert (C1 : cell (upd c1 (Z.to_nat 0)
                           (Some (d_mul delta_t (d_mul v v)))) 0
                     (d_mul delta_t (d_mul v v)))
        by (apply cell_upd_eq; lia).
      refine (conj _ (conj _ (conj _ (conj _ (conj _ (conj _ _)))))).
      + now apply (filled_below_next (j := 0)); [| lia].
      + now apply (filled_below_next (j := 0)); [| lia].
      + exact F2.
      + apply (squares_table_next (j := 0)); [intros i Hi; lia | lia | auto].
      + split; [| intros i Hi; lia].
        exists (d_mul v v). split; [| exact C1].
        rewrite nth_error_map. change (Z.to_nat 0) with 0%nat in *.
        match goal with H : nth_error mu 0 = Some v |- _ => now rewrite H end.
      + exact C1.
      + intros i Hi. lia.
    - intros j acc s0 Hj
        (c0' & c1' & c2' & -> & G0 & G1 & G2 & Hsq & Hsum & Hacc & Hd).
      pose proof (filled_below_length G0) as E0'.
      pose proof (filled_below_length G1) as E1'.
      wp_steps.
      eexists _, _, _. split; [reflexivity |].
      replace (j + 1 - 1)%Z with j by lia.
      refine (conj _ (conj _ (conj _ (conj _ (conj _ (conj _ _)))))).
      + apply filled_below_next; [exact G0 | lia].
      + apply filled_below_next; [exact G1 | lia].
      + replace j with (j - 1 + 1)%Z at 2 by lia.
        apply filled_below_next; [exact G2 | lia].
      + apply squares_table_next; auto; lia.
      + apply sum_recurrence_next; auto; try lia.
        rewrite nth_error_map.
        match goal with
        | H : nth_error mu (Z.to_nat j) = Some _ |- _ => now rewrite H
        end.
      + apply cell_upd_eq; lia.
      + apply derivative_below_next; auto; try lia.
        rewrite (filled_below_length G2). lia. }
  cbv beta. intros acc s0
    (c0' & c1' & c2' & -> & G0 & G1 & G2 & Hsq & Hsum & _ & Hd).
  wp_steps.
  eexists _, _, _. split; [reflexivity |].
  split; [exact G0 |]. split; [exact G1 |]. split; [exact Hsq |].
  split; [exact Hsum |].
  now apply bound_derivative_last.
Qed.
End WeightTables.

Section ConstantBound.
Local Open Scope R_scope.

Ltac left_step := apply wp2_left; wp_step.
Ltac right_step := apply wp2_right; wp_step.

Ltac agree_at A i :=
  let x := fresh "x" in
  let Hx := fresh "Hx" in
  let Hx' := fresh "Hx'" in
  destruct (A i ltac:(lia)) as (x & Hx & Hx'); unfold cell in Hx, Hx'.

Ltac cells_at T i :=
  let Hx := fresh "Hx" in
  let Hx' := fresh "Hx'" in
  destruct (T i ltac:(lia)) as (Hx & Hx'); unfold cell in Hx, Hx'.

Ltac cell_at T i :=
  let Hx := fresh "Hx" in
  pose proof (T i ltac:(lia)) as Hx; unfold cell in Hx.

Ltac derived_reads :=
  repeat match goal with
         | H : nth_error (repeat _ _) _ = Some _ |- _ =>
             apply nth_error_In, repeat_spec in H; subst
         end.

Ltac same_reads :=
  cbn [scratch st_g1 st_g2] in *;
  repeat match goal with
         | H1 : nth_error ?l ?i = Some ?a, H2 : nth_error ?l ?i = Some ?b |- _ =>
             rewrite H1 in H2; repeat (apply Some_eq in H2);
             match type of H2 with
             | ?u = ?v => first [subst u | subst v | clear H2]
             end
         end.

Ltac nonzero :=
  repeat split; first [assumption | apply Rgt_not_eq; lra | lra].

(** Brings the arguments of [exp] and of [sqrt] that are equal by the
    field laws to the same form. *)
Ltac same_exps :=
  repeat match goal with
         | |- context [exp ?a] =>
             match goal with
             | |- context [exp ?b] =>
                 tryif constr_eq a b then fail
                 else replace (exp a) with (exp b)
                     by (f_equal; field; nonzero)
             end
         end.
Ltac same_sqrts :=
  repeat match goal with
         | |- context [sqrt ?a] =>
             match goal with
             | |- context [sqrt ?b] =>
                 tryif constr_eq a b then fail
                 else replace (sqrt a) with (sqrt b)
                     by (f_equal; field; nonzero)
             end
         end.

(** On a constant bound every difference quotient is zero. *)
Definition zero_derivative (c : list (option R)) (n : Z) : Prop :=
  forall k, (0 <= k < n)%Z -> cell c k 0.

Lemma bound_derivative_constant (b delta_t : R) (n : nat) (k_max : Z) c :
  (2 <= k_max)%Z ->
  bound_derivative (repeat b n) delta_t k_max c ->
  zero_derivative c k_max.
Proof.
  intros Hk Hc k Hk'.
  apply bound_derivative_edge_rule in Hc; [| exact Hk].
  destruct Hc as [Hc (p & l & Hp & Hl & Hc2 & Hc1)].
  assert (Z0 : forall x y, In x (repeat b n) -> In y (repeat b n) ->
                 d_div (d_sub x y) delta_t = 0).
  { intros x y Hx Hy. apply repeat_spec in Hx, Hy. subst.
    cbn. unfold Rdiv. ring. }
  destruct (Z.eq_dec k (k_max - 1)) as [->|Hne].
  - unfold cell. rewrite Hc1.
    rewrite Z0 by (eapply nth_error_In; eassumption). reflexivity.
  - destruct (Hc k ltac:(lia)) as (b0 & b1 & H0 & H1 & H2).
    unfold cell. rewrite H2.
    rewrite Z0 by (eapply nth_error_In; eassumption). reflexivity.
Qed.

(** With unit weights [a2[j] = 1] and [A[j] = delta_t * (j + 1)]. *)
Lemma unit_squares (n : nat) c (k_max : Z) :
  squares_table (repeat 1 n) c k_max ->
  forall k, (0 <= k < k_max)%Z -> cell c k 1.
Proof.
  intros H k Hk. destruct (H k Hk) as (x & Hx & Hc).
  apply nth_error_In, repeat_spec in Hx. subst x.
  replace (d_mul 1 1) with 1 in Hc by (cbn; ring). exact Hc.
Qed.

Lemma unit_squares_sum (delta_t : R) (n : nat) c (k_max : Z) :
  sum_recurrence (map (fun x => d_mul x x) (repeat 1 n)) delta_t c k_max ->
  (k_max <= Z.of_nat n)%Z ->
  forall k, (0 <= k < k_max)%Z -> cell c k (delta_t * (IZR k + 1)).
Proof.
  intros H. apply sum_recurrence_ones.
  rewrite map_repeat in H.
  replace (d_mul 1 1) with 1 in H by (cbn; ring). exact H.
Qed.

Lemma ddm_fpt_w_fill_constant_bound (mu b delta_t : R) (n : nat) (k_max : Z)
  c0 c1 c2 d0 d1 d2 g1 g2 sc sc' :
  0 < delta_t -> (k_max <= Z.of_nat n)%Z ->
  length g1 = Z.to_nat k_max -> length g2 = Z.to_nat k_max ->
  filled_below c0 k_max k_max -> filled_below c1 k_max k_max ->
  filled_below c2 k_max k_max ->
  filled_below d0 k_max k_max -> filled_below d1 k_max k_max ->
  filled_below d2 k_max k_max ->
  zero_derivative c0 k_max -> norm_tables delta_t c1 c2 k_max ->
  (forall k, (0 <= k < k_max)%Z -> cell d0 k 1) ->
  (forall k, (0 <= k < k_max)%Z -> cell d1 k (delta_t * (IZR k + 1))) ->
  zero_derivative d2 k_max ->
  wp2 (ddm_fpt_const_mu_fill mu (repeat b n) delta_t k_max
         (Some 0%nat) (Some 1%nat) (Some 2%nat))
      (scratch [c0; c1; c2] g1 g2 sc)
      (ddm_fpt_w_fill (repeat b n) mu delta_t k_max
         (Some 0%nat) (Some 1%nat) (Some 2%nat))
      (scratch [d0; d1; d2] g1 g2 sc')
      (fun _ s1 _ s2 => exists g1' g2',
         s1 = scratch [c0; c1; c2] g1' g2' sc /\
         s2 = scratch [d0; d1; d2] g1' g2' sc').
Proof.
  intros Hdt Hn L1 L2 F0 F1 F2 G0 G1 G2 Z0 Hnt Ha2 HA Z2.
  unfold ddm_fpt_const_mu_fill, ddm_fpt_w_fill.
  destruct (Z.le_gt_cases 0 k_max) as [Hk|Hk].
  2:{ unfold For. replace (Z.to_nat (k_max - 0)) with O by lia.
      apply wp2_ret. eauto. }
  assert (Lr : length (repeat b n) = n) by apply repeat_length.
  eapply wp2_mono.
  { apply (wp2_For (fun k (_ : unit) s1 (_ : unit) s2 => exists g1' g2',
       s1 = scratch [c0; c1; c2] g1' g2' sc /\
       s2 = scratch [d0; d1; d2] g1' g2' sc' /\
       length g1' = Z.to_nat k_max /\ length g2' = Z.to_nat k_max));
      [lia | exists g1, g2; auto |].
    intros k [] s1 [] s2 Hk' (g1' & g2' & -> & -> & L1' & L2').
    do 4 left_step. do 4 right_step.
    cell_at Z0 k. cells_at Hnt k. cell_at Ha2 k. cell_at HA k. cell_at Z2 k.
    derived_reads. same_reads.
    pose proof PI_pos as Hpi.
    assert (Hxk : 0 < IZR k + 1)
      by (assert (0 <= IZR k) by (apply IZR_le; lia); lra).
    assert (Htk : 0 < delta_t * (IZR k + 1))
      by (apply Rmult_lt_0_compat; lra).
    assert (Hs2 : sqrt (2 * PI * (delta_t * (IZR k + 1))) <> 0)
      by (apply Rgt_not_eq, sqrt_lt_R0; apply Rmult_lt_0_compat; lra).
    apply wp2_bind. eapply wp2_mono.
    { apply (wp2_For (fun j (a : R) s1 (b : R) s2 =>
         a = b /\ s1 = scratch [c0; c1; c2] g1' g2' sc /\
         s2 = scratch [d0; d1; d2] g1' g2' sc')); [lia | |].
      - split; [| auto].
        cbn [d_add d_sub d_mul d_div d_neg d_sqrt d_exp d_of_int d_half R_ops].
        unfold TWOPI.
        cbn [d_add d_sub d_mul d_div d_neg d_sqrt d_exp d_of_int d_half R_ops].
        rewrite ?plus_IZR, ?minus_IZR.
        same_exps. same_sqrts. field. nonzero.
      - intros j g1_k s1 g1_k' s2 Hj (E & -> & ->). subst g1_k'.
        do 5 left_step. do 4 right_step.
        cells_at Hnt (k - j - 1)%Z. cell_at HA j.
        derived_reads. same_reads.
        apply wp2_ret. split; [| auto].
        assert (Hjk : 0 < IZR k - IZR j).
        { apply Rlt_0_minus, IZR_lt. lia. }
        assert (Htj : 0 < delta_t * (IZR k - IZR j))
          by (apply Rmult_lt_0_compat; lra).
        assert (Hs3 : sqrt (2 * PI * (delta_t * (IZR k - IZR j))) <> 0)
          by (apply Rgt_not_eq, sqrt_lt_R0; apply Rmult_lt_0_compat; lra).
        cbn [d_add d_sub d_mul d_div d_neg d_sqrt d_exp d_of_int d_half R_ops].
        unfold TWOPI.
        cbn [d_add d_sub d_mul d_div d_neg d_sqrt d_exp d_of_int d_half R_ops].
        rewrite ?plus_IZR, ?minus_IZR.
        replace (delta_t * (IZR k + 1) - delta_t * (IZR j + 1))
          with (delta_t * (IZR k - IZR j)) by ring.
        replace (IZR k - IZR j - 1 + 1) with (IZR k - IZR j) by ring.
        same_exps. same_sqrts. field. nonzero. }
    cbv beta. intros g1_k s1 g1_k' s2 (E & -> & ->). subst g1_k'.
    do 2 left_step. do 2 right_step. apply wp2_ret.
    eexists _, _. split; [reflexivity |]. split; [reflexivity |].
    now rewrite !length_upd. }
  cbv beta. intros [] s1 [] s2 (g1' & g2' & -> & -> & _). eauto.
Qed.

(** On a constant bound [ddm_fpt_const_mu] with the drift [mu] and
    [ddm_fpt_w] with unit weights and the factor [k = mu] compute the
    same densities: for two steps or more both return 0 and leave the
    same [g1] and [g2] (exact real arithmetic, every allocation
    succeeding). *)
Theorem ddm_fpt_w_unit_weights_constant_bound (mu b delta_t : R) (k_max : Z)
  (g1 g2 : list R) (sc : list bool) :
  0 < mu -> 0 < delta_t -> (2 <= k_max)%Z ->
  length g1 = Z.to_nat k_max -> length g2 = Z.to_nat k_max ->
  all_succeed sc ->
  exists s s',
    ddm_fpt_const_mu mu (repeat b (Z.to_nat k_max)) delta_t k_max
      (State [] g1 g2 sc) = Ok 0%Z s /\
    ddm_fpt_w (repeat 1 (Z.to_nat k_max)) (repeat b (Z.to_nat k_max)) mu
      delta_t k_max (State [] g1 g2 sc) = Ok 0%Z s' /\
    st_g1 s = st_g1 s' /\ st_g2 s = st_g2 s'.
Proof.
  intros Hmu Hdt Hk L1 L2 Hsc.
  assert (Hmu' : d_lt (d_of_int 0) mu = true)
    by (apply Rltb_true; cbn; lra).
  assert (Hdt' : d_lt (d_of_int 0) delta_t = true)
    by (apply Rltb_true; cbn; lra).
  pose proof (filled_below_fresh (D := R) k_max) as F.
  assert (Lb : length (repeat b (Z.to_nat k_max)) = Z.to_nat k_max)
    by apply repeat_length.
  assert (Lw : length (repeat 1 (Z.to_nat k_max)) = Z.to_nat k_max)
    by apply repeat_length.
  enough (W : wp2
            (ddm_fpt_const_mu mu (repeat b (Z.to_nat k_max)) delta_t k_max)
            (State [] g1 g2 sc)
            (ddm_fpt_w (repeat 1 (Z.to_nat k_max))
               (repeat b (Z.to_nat k_max)) mu delta_t k_max)
            (State [] g1 g2 sc)
            (fun r s r' s' => r = 0%Z /\ r' = 0%Z /\
               st_g1 s = st_g1 s' /\ st_g2 s = st_g2 s')).
  { destruct (wp2_elim _ _ _ _ _ W) as (r & s & r' & s' & E & E' & -> & -> & H).
    exists s, s'. auto. }
  unfold ddm_fpt_const_mu, ddm_fpt_w.
  apply wp2_left, wp_assert.
  { rewrite Hmu', Hdt'. apply Z.gtb_lt. lia. }
  do 3 (apply wp2_left; apply wp_malloc;
        [ cbn [alloc_script]; auto using all_succeed_tl
        | cbn [heap st_g1 st_g2 alloc_script length app] ]).
  cbn [is_null orb].
  apply wp2_left. eapply wp_mono.
  { apply (@ddm_fpt_const_mu_precompute_tables R R_ops
             (repeat b (Z.to_nat k_max)) delta_t k_max
             _ _ _ g1 g2 (tl (tl (tl sc))) Hk Lb F F F). }
  cbv beta.
  intros [] s0 (c0 & c1 & c2 & -> & Hd & F1 & F2 & Hn).
  pose proof (@bound_derivative_constant b delta_t (Z.to_nat k_max) k_max c0
                Hk Hd) as Z0.
  destruct Hd as (F0 & _).
  apply wp2_right, wp_assert.
  { rewrite Hdt'. apply Z.gtb_lt. lia. }
  do 3 (apply wp2_right; apply wp_malloc;
        [ cbn [alloc_script]; auto using all_succeed_tl
        | cbn [heap st_g1 st_g2 alloc_script length app] ]).
  cbn [is_null orb].
  apply wp2_right. eapply wp_mono.
  { apply (@ddm_fpt_w_precompute_tables R R_ops (repeat 1 (Z.to_nat k_max))
             (repeat b (Z.to_nat k_max)) delta_t k_max
             _ _ _ g1 g2 (tl (tl (tl sc))) Hk Lw Lb F F F). }
  cbv beta.
  intros [] s0 (d0 & d1 & d2 & -> & G0 & G1 & Hsq & Hsum & Hd').
  pose proof (@bound_derivative_constant b delta_t (Z.to_nat k_max) k_max d2
                Hk Hd') as Z2.
  destruct Hd' as (G2 & _).
  pose proof (@unit_squares (Z.to_nat k_max) d0 k_max Hsq) as Ha2.
  pose proof (@unit_squares_sum delta_t (Z.to_nat k_max) d1 k_max Hsum
                ltac:(lia)) as HA.
  apply wp2_bind. eapply wp2_mono.
  { apply (@ddm_fpt_w_fill_constant_bound mu b delta_t (Z.to_nat k_max) k_max
             c0 c1 c2 d0 d1 d2 g1 g2 (tl (tl (tl sc))) (tl (tl (tl sc))));
      first [assumption | lia]. }
  cbv beta. intros [] s1 [] s2 (g1' & g2' & -> & ->).
  do 3 left_step. do 3 right_step.
  apply wp2_ret. cbn. auto.
Qed.
End ConstantBound.

Lemma ddm_fpt_w_unit_weights_constant_bound_witness :
  exists s s',
    ddm_fpt_const_mu 1%R (repeat 2%R (Z.to_nat 3)) 1%R 3
      (State [] [0; 0; 0]%R [0; 0; 0]%R []) = Ok 0%Z s /\
    ddm_fpt_w (repeat 1%R (Z.to_nat 3)) (repeat 2%R (Z.to_nat 3)) 1%R
      1%R 3 (State [] [0; 0; 0]%R [0; 0; 0]%R []) = Ok 0%Z s' /\
    st_g1 s = st_g1 s' /\ st_g2 s = st_g2 s'.
Proof.
  apply (@ddm_fpt_w_unit_weights_constant_bound 1%R 2%R 1%R 3
           [0; 0; 0]%R [0; 0; 0]%R []);
    first [reflexivity | lra | lia | exact all_succeed_nil].
Defined.
(** ** The unit of the decision variable

    Multiplying the drift, the bounds and their derivatives by [c > 0]
    and the variance by [c * c] changes nothing in the densities. *)

Section Unit.
Local Open Scope R_scope.

Ltac left_step := apply wp2_left; wp_step.
Ltac right_step := apply wp2_right; wp_step.

(** The cells of [c'] are [a] times those of [c]. *)
Definition multiple (a : R) (c c' : list (option R)) (n : Z) : Prop :=
  forall j, (0 <= j < n)%Z -> exists v, cell c j v /\ cell c' j (a * v).

Lemma sum_recurrence_multiple (a : R) (input : list R) (delta_t : R) c c'
  (n : Z) :
  sum_recurrence input delta_t c n ->
  sum_recurrence (map (Rmult a) input) delta_t c' n ->
  multiple a c c' n.
Proof.
  intros [(x & Hx & H0) Hs] [(x' & Hx' & H0') Hs'] j [Hj0 Hj].
  revert Hj. pattern j. apply natlike_ind; [| | exact Hj0].
  - intros _. exists (d_mul delta_t x). split; [exact H0 |].
    rewrite nth_error_map, Hx in Hx'. injection Hx' as <-.
    replace (a * d_mul delta_t x) with (d_mul delta_t (a * x))
      by (cbn; ring).
    exact H0'.
  - intros i Hi IH Hlt. destruct (IH ltac:(lia)) as (v & Hv & Hv').
    destruct (Hs (Z.succ i) ltac:(lia)) as (p & y & Hp & Hy & Hc).
    destruct (Hs' (Z.succ i) ltac:(lia)) as (p' & y' & Hp' & Hy' & Hc').
    replace (Z.succ i - 1)%Z with i in Hp, Hp' by lia.
    rewrite (cell_inj Hp Hv) in Hc. rewrite (cell_inj Hp' Hv') in Hc'.
    rewrite nth_error_map, Hy in Hy'. injection Hy' as <-.
    eexists. split; [exact Hc |].
    replace (a * d_add v (d_mul delta_t y))
      with (d_add (a * v) (d_mul delta_t (a * y))) by (cbn; ring).
    exact Hc'.
Qed.

Lemma sqrt_scaled (c x : R) : 0 < c -> sqrt (c * c * x) = c * sqrt x.
Proof.
  intros Hc. rewrite sqrt_mult_alt by nra. rewrite sqrt_square by lra.
  reflexivity.
Qed.

Ltac agree_at A i :=
  let x := fresh "x" in
  let Hx := fresh "Hx" in
  let Hx' := fresh "Hx'" in
  destruct (A i ltac:(lia)) as (x & Hx & Hx'); unfold cell in Hx, Hx'.

Ltac derived_reads :=
  repeat match goal with
         | H : nth_error (map _ _) _ = Some _ |- _ =>
             rewrite nth_error_map in H
         end.

Ltac same_reads :=
  cbn [scratch st_g1 st_g2] in *;
  repeat match goal with
         | H1 : nth_error ?l ?i = Some ?a, H2 : nth_error ?l ?i = Some ?b |- _ =>
             rewrite H1 in H2; repeat (apply Some_eq in H2);
             match type of H2 with
             | ?u = ?v => first [subst u | subst v | clear H2]
             end
         | H1 : nth_error ?l ?i = Some ?a,
           H2 : option_map _ (nth_error ?l ?i) = Some ?b |- _ =>
             rewrite H1 in H2; cbn [option_map] in H2;
             repeat (apply Some_eq in H2);
             match type of H2 with
             | ?u = ?v => first [subst u | subst v | clear H2]
             end
         end.

(** Every inverse but that of [c] becomes a variable: the equations
    hold whatever the variance is, zero included. *)
Ltac inverses c :=
  unfold Rdiv; rewrite ?Rinv_mult;
  repeat match goal with
         | |- context [/ ?t] =>
             tryif constr_eq t c then fail
             else (let i := fresh "i" in set (i := / t); clearbody i)
         end.

Ltac same_exps :=
  repeat match goal with
         | |- context [exp ?a] =>
             match goal with
             | |- context [exp ?b] =>
                 tryif constr_eq a b then fail
                 else replace (exp a) with (exp b)
                     by (f_equal; field; apply Rgt_not_eq; assumption)
             end
         end.

Lemma ddm_fpt_full_fill_unit (c : R)
  (mu sig2 b_lo b_up b_lo_deriv b_up_deriv : list R)
  (delta_t : R) (k_max : Z) c0 c1 d0 d1 g1 g2 sc sc' :
  0 < c ->
  length mu = Z.to_nat k_max -> length sig2 = Z.to_nat k_max ->
  length b_lo = Z.to_nat k_max -> length b_up = Z.to_nat k_max ->
  length b_lo_deriv = Z.to_nat k_max -> length b_up_deriv = Z.to_nat k_max ->
  length g1 = Z.to_nat k_max -> length g2 = Z.to_nat k_max ->
  filled_below c0 k_max k_max -> filled_below c1 k_max k_max ->
  filled_below d0 k_max k_max -> filled_below d1 k_max k_max ->
  multiple c c0 d0 k_max -> multiple (c * c) c1 d1 k_max ->
  wp2 (ddm_fpt_full_fill mu sig2 b_lo b_up b_lo_deriv b_up_deriv delta_t
         k_max (Some 0%nat) (Some 1%nat))
      (scratch [c0; c1] g1 g2 sc)
      (ddm_fpt_full_fill (map (Rmult c) mu) (map (Rmult (c * c)) sig2)
         (map (Rmult c) b_lo) (map (Rmult c) b_up)
         (map (Rmult c) b_lo_deriv) (map (Rmult c) b_up_deriv) delta_t
         k_max (Some 0%nat) (Some 1%nat))
      (scratch [d0; d1] g1 g2 sc')
      (fun _ s1 _ s2 => exists g1' g2',
         s1 = scratch [c0; c1] g1' g2' sc /\
         s2 = scratch [d0; d1] g1' g2' sc').
Proof.
  intros Hc Lmu Ls Llo Lup Llod Lupd L1 L2 F0 F1 G0 G1 M0 M1.
  unfold ddm_fpt_full_fill.
  destruct (Z.le_gt_cases 0 k_max) as [Hk|Hk].
  2:{ unfold For. replace (Z.to_nat (k_max - 0)) with O by lia.
      apply wp2_ret. eauto. }
  assert (Lm : forall (a : R) (l : list R), length l = Z.to_nat k_max ->
                 length (map (Rmult a) l) = Z.to_nat k_max)
    by (intros a l Hl; now rewrite length_map).
  pose proof (Lm c _ Lmu) as Lmu'. pose proof (Lm (c * c) _ Ls) as Ls'.
  pose proof (Lm c _ Llo) as Llo'. pose proof (Lm c _ Lup) as Lup'.
  pose proof (Lm c _ Llod) as Llod'. pose proof (Lm c _ Lupd) as Lupd'.
  eapply wp2_mono.
  { apply (wp2_For (fun k (_ : unit) s1 (_ : unit) s2 => exists g1' g2',
       s1 = scratch [c0; c1] g1' g2' sc /\
       s2 = scratch [d0; d1] g1' g2' sc' /\
       length g1' = Z.to_nat k_max /\ length g2' = Z.to_nat k_max));
      [lia | exists g1, g2; auto |].
    intros k [] s1 [] s2 Hk' (g1' & g2' & -> & -> & L1' & L2').
    do 8 left_step. do 8 right_step.
    agree_at M0 k. agree_at M1 k.
    derived_reads. same_reads.
    apply wp2_bind. eapply wp2_mono.
    { apply (wp2_For (fun j (a : R * R) s1 (b : R * R) s2 =>
         a = b /\ s1 = scratch [c0; c1] g1' g2' sc /\
         s2 = scratch [d0; d1] g1' g2' sc')); [lia | |].
      - split; [| auto].
        cbn [d_add d_sub d_mul d_div d_neg d_sqrt d_exp d_of_int d_half R_ops].
        rewrite !sqrt_scaled by exact Hc.
        f_equal; inverses c; same_exps; field; apply Rgt_not_eq; assumption.
      - intros j [g1_k g2_k] s1 [g1_k' g2_k'] s2 Hj (E & -> & ->).
        injection E as <- <-.
        do 6 left_step. do 6 right_step.
        agree_at M0 j. agree_at M1 j.
        derived_reads. same_reads.
        apply wp2_ret. split; [| auto].
        cbn [d_add d_sub d_mul d_div d_neg d_sqrt d_exp d_of_int d_half R_ops].
        match goal with
        | |- context [c * c * ?x - c * c * ?y] =>
            replace (c * c * x - c * c * y) with (c * c * (x - y)) by ring
        end.
        rewrite !sqrt_scaled by exact Hc.
        f_equal; inverses c; same_exps; field; apply Rgt_not_eq; assumption. }
    cbv beta. intros [g1_k g2_k] s1 [g1_k' g2_k'] s2 (E & -> & ->).
    injection E as <- <-.
    do 2 left_step. do 2 right_step. apply wp2_ret.
    eexists _, _. split; [reflexivity |]. split; [reflexivity |].
    now rewrite !length_upd. }
  cbv beta. intros [] s1 [] s2 (g1' & g2' & -> & -> & _). eauto.
Qed.

(** [ddm_fpt_full] does not depend on the unit of the decision
    variable: with the drift, both bounds and their derivatives
    multiplied by [c > 0] and the variance by [c * c], it returns 0 as
    on the original arguments and leaves the same [g1] and [g2]
    (exact real arithmetic, every allocation succeeding). *)
Theorem ddm_fpt_full_unit_of_space (c : R)
  (mu sig2 b_lo b_up b_lo_deriv b_up_deriv : list R)
  (delta_t : R) (k_max : Z) (g1 g2 : list R) (sc : list bool) :
  0 < c -> 0 < delta_t -> (1 <= k_max)%Z ->
  length mu = Z.to_nat k_max -> length sig2 = Z.to_nat k_max ->
  length b_lo = Z.to_nat k_max -> length b_up = Z.to_nat k_max ->
  length b_lo_deriv = Z.to_nat k_max -> length b_up_deriv = Z.to_nat k_max ->
  length g1 = Z.to_nat k_max -> length g2 = Z.to_nat k_max ->
  all_succeed sc ->
  exists s s',
    ddm_fpt_full mu sig2 b_lo b_up b_lo_deriv b_up_deriv delta_t k_max
      (State [] g1 g2 sc) = Ok 0%Z s /\
    ddm_fpt_full (map (Rmult c) mu) (map (Rmult (c * c)) sig2)
      (map (Rmult c) b_lo) (map (Rmult c) b_up)
      (map (Rmult c) b_lo_deriv) (map (Rmult c) b_up_deriv) delta_t k_max
      (State [] g1 g2 sc) = Ok 0%Z s' /\
    st_g1 s' = st_g1 s /\ st_g2 s' = st_g2 s.
Proof.
  intros Hc Hdt Hk Lmu Ls Llo Lup Llod Lupd L1 L2 Hsc.
  assert (Hdt' : d_lt (d_of_int 0) delta_t = true)
    by (apply Rltb_true; cbn; lra).
  pose proof (filled_below_fresh (D := R) k_max) as F.
  enough (W : wp2
            (ddm_fpt_full mu sig2 b_lo b_up b_lo_deriv b_up_deriv delta_t
               k_max) (State [] g1 g2 sc)
            (ddm_fpt_full (map (Rmult c) mu) (map (Rmult (c * c)) sig2)
               (map (Rmult c) b_lo) (map (Rmult c) b_up)
               (map (Rmult c) b_lo_deriv) (map (Rmult c) b_up_deriv)
               delta_t k_max)
            (State [] g1 g2 sc)
            (fun r s r' s' => r = 0%Z /\ r' = 0%Z /\
               st_g1 s' = st_g1 s /\ st_g2 s' = st_g2 s)).
  { destruct (wp2_elim _ _ _ _ _ W) as (r & s & r' & s' & E & E' & -> & -> & H).
    exists s, s'. auto. }
  unfold ddm_fpt_full.
  apply wp2_left, wp_assert.
  { rewrite Hdt'. apply Z.gtb_lt. lia. }
  do 2 (apply wp2_left; apply wp_malloc;
        [ cbn [alloc_script]; auto using all_succeed_tl
        | cbn [heap st_g1 st_g2 alloc_script length app] ]).
  cbn [is_null orb].
  apply wp2_left. eapply wp_mono.
  { apply (@ddm_fpt_full_cumulate_spec R R_ops mu sig2 delta_t k_max
             _ _ g1 g2 (tl (tl sc)) ltac:(lia) Lmu Ls F F). }
  cbv beta. intros [] s0 (c0 & c1 & -> & F0 & F1 & S0 & S1).
  apply wp2_right, wp_assert.
  { rewrite Hdt'. apply Z.gtb_lt. lia. }
  do 2 (apply wp2_right; apply wp_malloc;
        [ cbn [alloc_script]; auto using all_succeed_tl
        | cbn [heap st_g1 st_g2 alloc_script length app] ]).
  cbn [is_null orb].
  assert (Lmu' : length (map (Rmult c) mu) = Z.to_nat k_max)
    by (now rewrite length_map).
  assert (Ls' : length (map (Rmult (c * c)) sig2) = Z.to_nat k_max)
    by (now rewrite length_map).
  apply wp2_right. eapply wp_mono.
  { apply (@ddm_fpt_full_cumulate_spec R R_ops (map (Rmult c) mu)
             (map (Rmult (c * c)) sig2) delta_t
             k_max _ _ g1 g2 (tl (tl sc)) ltac:(lia) Lmu' Ls' F F). }
  cbv beta. intros [] s0 (d0 & d1 & -> & G0 & G1 & S0' & S1').
  pose proof (@sum_recurrence_multiple c mu delta_t c0 d0 k_max S0 S0') as M0.
  pose proof (@sum_recurrence_multiple (c * c) sig2 delta_t c1 d1 k_max
                S1 S1') as M1.
  apply wp2_bind. eapply wp2_mono.
  { apply (@ddm_fpt_full_fill_unit c mu sig2 b_lo b_up b_lo_deriv b_up_deriv
             delta_t k_max c0 c1 d0 d1 g1 g2 (tl (tl sc)) (tl (tl sc)));
      assumption. }
  cbv beta. intros [] s1 [] s2 (g1' & g2' & -> & ->).
  do 2 left_step. do 2 right_step.
  apply wp2_ret. cbn. auto.
Qed.
End Unit.

Lemma ddm_fpt_full_unit_of_space_witness :
  exists s s',
    ddm_fpt_full [1; 1]%R [1; 1]%R [-1; -2]%R [1; 3]%R [-1; -1]%R [2; 2]%R
      1%R 2 (State [] [0; 0]%R [0; 0]%R []) = Ok 0%Z s /\
    ddm_fpt_full (map (Rmult 2) [1; 1]%R) (map (Rmult (2 * 2)) [1; 1]%R)
      (map (Rmult 2) [-1; -2]%R) (map (Rmult 2) [1; 3]%R)
      (map (Rmult 2) [-1; -1]%R) (map (Rmult 2) [2; 2]%R)
      1%R 2 (State [] [0; 0]%R [0; 0]%R []) = Ok 0%Z s' /\
    st_g1 s' = st_g1 s /\ st_g2 s' = st_g2 s.
Proof.
  apply (@ddm_fpt_full_unit_of_space 2%R
           [1; 1]%R [1; 1]%R [-1; -2]%R [1; 3]%R [-1; -1]%R [2; 2]%R 1%R 2
           [0; 0]%R [0; 0]%R []);
    first [reflexivity | lra | lia | exact all_succeed_nil].
Defined.
